(** * savh_sheets2pg: the SQL script engine and the dependency-ordered loader

A shallow embedding of [savh_etl/load/ddl.py], [savh_etl/load/load_strategy.py],
[savh_etl/load/load.py] and [savh_etl/io/pg_client.py], followed by the
properties of the statement splitter, the load plan, the dataset
validation, the script runner and the load orchestrator. *)

From Stdlib Require Import NArith Ascii.
From stdpp Require Import base tactics option list sorting gmap strings pretty.

Local Open Scope N_scope.
Local Open Scope nat_scope.

(** ** Python values used by the loader *)

Module Py.

(** A Python [str] is a sequence of Unicode code points. *)
Definition pystr : Type := list N.

(** An ASCII literal as a Python string. *)
Definition py (s : string) : pystr :=
  (λ a, N_of_ascii a) <$> String.list_ascii_of_string s.

Definition TAB : N := 9%N.
Definition NL : N := 10%N.
Definition SPACE : N := 32%N.
Definition DQ : N := 34%N.
Definition DOLLAR : N := 36%N.
Definition PCT : N := 37%N.
Definition SQ : N := 39%N.
Definition STAR : N := 42%N.
Definition DASH : N := 45%N.
Definition DOT : N := 46%N.
Definition SLASH : N := 47%N.
Definition SEMI : N := 59%N.
Definition BACKSLASH : N := 92%N.
Definition UNDERSCORE : N := 95%N.
Definition BOM : N := 65279%N.

(** [str.isspace] on one code point: the whitespace table of CPython
    (bidirectional class WS, B or S, or category Zs). *)
Definition isspace (c : N) : bool :=
  ((9 <=? c) && (c <=? 13))%N || ((28 <=? c) && (c <=? 32))%N
  || (c =? 133)%N || (c =? 160)%N || (c =? 5760)%N
  || ((8192 <=? c) && (c <=? 8202))%N
  || (c =? 8232)%N || (c =? 8233)%N || (c =? 8239)%N
  || (c =? 8287)%N || (c =? 12288)%N.

Fixpoint lstrip_with (p : N → bool) (s : pystr) : pystr :=
  match s with
  | c :: s' => if p c then lstrip_with p s' else s
  | [] => []
  end.

Definition rstrip_with (p : N → bool) (s : pystr) : pystr :=
  reverse (lstrip_with p (reverse s)).

Definition strip_with (p : N → bool) (s : pystr) : pystr :=
  rstrip_with p (lstrip_with p s).

(** [s.strip()] *)
Definition strip (s : pystr) : pystr := strip_with isspace s.

(** [s.strip(chars)] *)
Definition strip_chars (chars : pystr) (s : pystr) : pystr :=
  strip_with (λ c, bool_decide (c ∈ chars)) s.

(** Truthiness of a string. *)
Definition truthy (s : pystr) : bool :=
  match s with [] => false | _ => true end.

(** [s.startswith(p)] *)
Fixpoint startswith (s p : pystr) : bool :=
  match p, s with
  | [], _ => true
  | _ :: _, [] => false
  | a :: p', b :: s' => (a =? b)%N && startswith s' p'
  end.

(** [s.replace(old, new)] for a one-character [old]. *)
Definition replace_char (old : N) (new : pystr) (s : pystr) : pystr :=
  s ≫= (λ c, if (c =? old)%N then new else [c]).

(** Code-point order on strings, the order of [sorted]. *)
Fixpoint str_le (a b : pystr) : bool :=
  match a, b with
  | [], _ => true
  | _ :: _, [] => false
  | x :: a', y :: b' => (x <? y)%N || ((x =? y)%N && str_le a' b')
  end.

Definition str_order : relation pystr := λ a b, Is_true (str_le a b).

#[global] Instance str_order_dec : RelDecision str_order.
Proof. intros a b. unfold str_order. apply _. Defined.

Definition sorted (l : list pystr) : list pystr := merge_sort str_order l.

(** An insertion-ordered dictionary: keys are unique, a new key goes last,
    an existing key keeps its place and takes the new value. *)
Notation odict K V := (list (K * V)) (only parsing).

Section odict.
Context {K V : Type} `{EqDecision K}.

Fixpoint od_get (k : K) (d : odict K V) : option V :=
  match d with
  | [] => None
  | (k', v) :: d' => if decide (k = k') then Some v else od_get k d'
  end.

Fixpoint od_set (k : K) (v : V) (d : odict K V) : odict K V :=
  match d with
  | [] => [(k, v)]
  | (k', v') :: d' =>
      if decide (k = k') then (k, v) :: d' else (k', v') :: od_set k v d'
  end.

Definition od_keys (d : odict K V) : list K := d.*1.
Definition od_values (d : odict K V) : list V := d.*2.
Definition od_mem (k : K) (d : odict K V) : bool :=
  bool_decide (is_Some (od_get k d)).

(** [{key(x): val(x) for x in l}] *)
Definition od_of_list {X : Type} (key : X → K) (val : X → V) (l : list X)
  : odict K V :=
  foldl (λ d x, od_set (key x) (val x) d) [] l.
End odict.

End Py.
Export Py.

(** ** load/ddl.py: the statement splitter *)

Module Ddl.

Record SQLStmt := { sql : pystr; start_line : nat }.

(** The local variables of [_split_sql_statements]; the index [i] is held
    as the unread suffix [sql[i:]], passed alongside. *)
Record scanner := {
  out : list SQLStmt;
  buf : pystr;
  in_sq : bool;
  in_dq : bool;
  in_line_comment : bool;
  in_block_comment : bool;
  dollar_tag : option pystr;
  line : nat;
  stmt_start_line : nat;
  started : bool
}.

Definition with_out v (s : scanner) : scanner :=
  {| out := v; buf := buf s; in_sq := in_sq s; in_dq := in_dq s;
     in_line_comment := in_line_comment s;
     in_block_comment := in_block_comment s; dollar_tag := dollar_tag s;
     line := line s; stmt_start_line := stmt_start_line s;
     started := started s |}.
Definition with_buf v (s : scanner) : scanner :=
  {| out := out s; buf := v; in_sq := in_sq s; in_dq := in_dq s;
     in_line_comment := in_line_comment s;
     in_block_comment := in_block_comment s; dollar_tag := dollar_tag s;
     line := line s; stmt_start_line := stmt_start_line s;
     started := started s |}.
Definition with_in_sq v (s : scanner) : scanner :=
  {| out := out s; buf := buf s; in_sq := v; in_dq := in_dq s;
     in_line_comment := in_line_comment s;
     in_block_comment := in_block_comment s; dollar_tag := dollar_tag s;
     line := line s; stmt_start_line := stmt_start_line s;
     started := started s |}.
Definition with_in_dq v (s : scanner) : scanner :=
  {| out := out s; buf := buf s; in_sq := in_sq s; in_dq := v;
     in_line_comment := in_line_comment s;
     in_block_comment := in_block_comment s; dollar_tag := dollar_tag s;
     line := line s; stmt_start_line := stmt_start_line s;
     started := started s |}.
Definition with_in_line_comment v (s : scanner) : scanner :=
  {| out := out s; buf := buf s; in_sq := in_sq s; in_dq := in_dq s;
     in_line_comment := v;
     in_block_comment := in_block_comment s; dollar_tag := dollar_tag s;
     line := line s; stmt_start_line := stmt_start_line s;
     started := started s |}.
Definition with_in_block_comment v (s : scanner) : scanner :=
  {| out := out s; buf := buf s; in_sq := in_sq s; in_dq := in_dq s;
     in_line_comment := in_line_comment s;
     in_block_comment := v; dollar_tag := dollar_tag s;
     line := line s; stmt_start_line := stmt_start_line s;
     started := started s |}.
Definition with_dollar_tag v (s : scanner) : scanner :=
  {| out := out s; buf := buf s; in_sq := in_sq s; in_dq := in_dq s;
     in_line_comment := in_line_comment s;
     in_block_comment := in_block_comment s; dollar_tag := v;
     line := line s; stmt_start_line := stmt_start_line s;
     started := started s |}.
Definition with_line v (s : scanner) : scanner :=
  {| out := out s; buf := buf s; in_sq := in_sq s; in_dq := in_dq s;
     in_line_comment := in_line_comment s;
     in_block_comment := in_block_comment s; dollar_tag := dollar_tag s;
     line := v; stmt_start_line := stmt_start_line s;
     started := started s |}.
Definition with_stmt_start_line v (s : scanner) : scanner :=
  {| out := out s; buf := buf s; in_sq := in_sq s; in_dq := in_dq s;
     in_line_comment := in_line_comment s;
     in_block_comment := in_block_comment s; dollar_tag := dollar_tag s;
     line := line s; stmt_start_line := v;
     started := started s |}.
Definition with_started v (s : scanner) : scanner :=
  {| out := out s; buf := buf s; in_sq := in_sq s; in_dq := in_dq s;
     in_line_comment := in_line_comment s;
     in_block_comment := in_block_comment s; dollar_tag := dollar_tag s;
     line := line s; stmt_start_line := stmt_start_line s;
     started := v |}.

(** [buf.append(c)] and a run of appends. *)
Definition push (c : N) (s : scanner) : scanner := with_buf (buf s ++ [c]) s.
Definition push_all (cs : pystr) (s : scanner) : scanner :=
  with_buf (buf s ++ cs) s.

(** The nested [flush()]. *)
Definition flush (st : scanner) : scanner :=
  let s := strip (buf st) in
  let st :=
    if truthy s && truthy (strip_chars [SEMI] (strip s))
    then with_out (out st ++ [{| sql := s; start_line := stmt_start_line st |}]) st
    else st in
  with_started false (with_buf [] st).

(** [nxt == c], where [nxt] is the next character or the empty string. *)
Definition is_char (c : N) (nxt : option N) : bool :=
  match nxt with Some x => (x =? c)%N | None => false end.

Section splitter.
(** [str.isalnum] on one code point (the Unicode tables of the Python
    runtime). *)
Variable isalnum : N → bool.

(** The inner [while j < n and ...] of the dollar-quote opening: the
    characters [sql[i+1:j]] it walks over. *)
Fixpoint tag_body (tl : pystr) : pystr :=
  match tl with
  | c :: tl' =>
      if negb (c =? DOLLAR)%N && (isalnum c || (c =? UNDERSCORE)%N)
      then c :: tag_body tl' else []
  | [] => []
  end.

(** [Some body] when the walk stops on a [$] ([j < n and sql[j] == "$"]). *)
Definition dollar_open (tl : pystr) : option pystr :=
  let body := tag_body tl in
  match drop (length body) tl with
  | c :: _ => if (c =? DOLLAR)%N then Some body else None
  | [] => None
  end.

(** One iteration of the [while i < n] loop at [ch = sql[i]], with
    [tl = sql[i+1:]]; returns the new locals and the new [sql[i:]]. *)
Definition loop_body (st : scanner) (ch : N) (tl : pystr)
  : scanner * pystr :=
  let nxt := head tl in
  let st := if (ch =? NL)%N then with_line (line st + 1) st else st in
  let st :=
    if started st then st
    else with_started true (with_stmt_start_line (line st) st) in
  if in_line_comment st then
    let st := push ch st in
    let st := if (ch =? NL)%N then with_in_line_comment false st else st in
    (st, tl)
  else if in_block_comment st then
    let st := push ch st in
    if (ch =? STAR)%N && is_char SLASH nxt
    then (with_in_block_comment false (push SLASH st), drop 1 tl)
    else (st, tl)
  else
    match dollar_tag st with
    | Some tag =>
        let st := push ch st in
        if (ch =? DOLLAR)%N && startswith (ch :: tl) tag
        then (with_dollar_tag None (push_all (take (length tag - 1) tl) st),
              drop (length tag) (ch :: tl))
        else (st, tl)
    | None =>
        let plain := negb (in_sq st) && negb (in_dq st) in
        if plain && (ch =? DASH)%N && is_char DASH nxt then
          (with_in_line_comment true (push DASH (push ch st)), drop 1 tl)
        else if plain && (ch =? SLASH)%N && is_char STAR nxt then
          (with_in_block_comment true (push STAR (push ch st)), drop 1 tl)
        else if (ch =? SQ)%N && negb (in_dq st) then
          let st := push ch st in
          if in_sq st then
            if is_char SQ nxt then (push SQ st, drop 1 tl)
            else (with_in_sq false st, tl)
          else (with_in_sq true st, tl)
        else if (ch =? DQ)%N && negb (in_sq st) then
          (with_in_dq (negb (in_dq st)) (push ch st), tl)
        else
          match (if (ch =? DOLLAR)%N && plain then dollar_open tl
                 else None) with
          | Some body =>
              (with_dollar_tag (Some (ch :: body ++ [DOLLAR]))
                 (push_all (body ++ [DOLLAR]) (push ch st)),
               drop (length body + 1) tl)
          | None =>
              if (ch =? SEMI)%N && plain then (flush (push ch st), tl)
              else (push ch st, tl)
          end
    end.

(** The [while i < n] loop; [fuel] bounds the number of iterations. *)
Fixpoint scan (fuel : nat) (st : scanner) (rest : pystr)
  : scanner * pystr :=
  match fuel, rest with
  | S fuel', ch :: tl =>
      let '(st', rest') := loop_body st ch tl in scan fuel' st' rest'
  | _, _ => (st, rest)
  end.

Definition scanner_init : scanner :=
  {| out := []; buf := []; in_sq := false; in_dq := false;
     in_line_comment := false; in_block_comment := false;
     dollar_tag := None; line := 1; stmt_start_line := 1;
     started := false |}.

Definition _split_sql_statements (text : pystr) : list SQLStmt :=
  let text := replace_char BOM [] text in
  out (flush (scan (length text) scanner_init text).1).

(** The loop heads reached on [text]: the locals and the unread input at
    the top of some iteration. *)
Inductive loop_head (text : pystr) : scanner → pystr → Prop :=
  | head_first :
      loop_head text scanner_init (replace_char BOM [] text)
  | head_next st ch tl :
      loop_head text st (ch :: tl) →
      loop_head text (loop_body st ch tl).1 (loop_body st ch tl).2.

(** The scanner is inside a quoted string, a quoted identifier, a comment
    or a dollar-quoted block. *)
Definition in_region (st : scanner) : bool :=
  in_sq st || in_dq st || in_line_comment st || in_block_comment st
  || bool_decide (is_Some (dollar_tag st)).
End splitter.

(** Vocabulary for the properties of the scanner. *)

(** A pending dollar tag is never empty. *)
Definition tag_ok (st : scanner) : Prop :=
  ∀ tag, dollar_tag st = Some tag → tag ≠ [].

(** The bookkeeping at the top of an iteration: the line counter and the
    start of the pending statement. *)
Definition mark (ch : N) (st : scanner) : scanner :=
  let st := if (ch =? NL)%N then with_line (line st + 1) st else st in
  if started st then st
  else with_started true (with_stmt_start_line (line st) st).

(** Characters that open or close nothing. *)
Definition plain (c : N) : bool :=
  negb (bool_decide (c ∈ [DASH; SLASH; SQ; DQ; DOLLAR; SEMI])).

(** The scanner after a run of plain characters read outside any region. *)
Fixpoint advance (w : pystr) (st : scanner) : scanner :=
  match w with
  | [] => st
  | c :: w' => advance w' (push c (mark c st))
  end.

Definition no_newline (w : pystr) : bool :=
  forallb (λ c, negb (c =? NL)%N) w.

(** [str.isalnum] restricted to ASCII, for running the splitter. *)
Definition ascii_isalnum (c : N) : bool :=
  ((48 <=? c) && (c <=? 57))%N || ((65 <=? c) && (c <=? 90))%N
  || ((97 <=? c) && (c <=? 122))%N.

End Ddl.
Export Ddl.

(** ** The regions of a text, after the words of the specification *)

Module Lexical.

(** The states of the specification's scanner, which exclude each other:
    normal, inside a single-quoted string, inside a double-quoted
    identifier, inside a line comment, inside a block comment, inside a
    dollar-quoted block opened by [tag]. *)
Inductive mode :=
  | Normal | SingleQuoted | DoubleQuoted | LineComment | BlockComment
  | DollarQuoted (tag : pystr).

Definition is_normal (m : mode) : bool :=
  match m with Normal => true | _ => false end.

Section lexical.
Variable isalnum : N → bool.

(** The name of a dollar tag at the head of [tl], the text after a [$]:
    an empty or identifier-like run that a [$] closes. *)
Fixpoint tag_name (tl : pystr) : option pystr :=
  match tl with
  | [] => None
  | c :: tl' =>
      if (c =? DOLLAR)%N then Some []
      else if isalnum c || (c =? UNDERSCORE)%N then
        match tag_name tl' with
        | Some name => Some (c :: name)
        | None => None
        end
      else None
  end.

(** The token at the head of [text] read in state [m]: the state after
    it and the number of characters it takes. A quote toggles its state,
    a doubled quote inside a string does not; two dashes open a line
    comment that the next newline ends; slash-star opens a block comment
    that the next star-slash ends; [$tag$] opens a dollar-quoted block
    that the same tag ends; inside a region nothing else is looked at. *)
Definition token (m : mode) (text : pystr) : mode * nat :=
  match m with
  | Normal =>
      if startswith text [DASH; DASH] then (LineComment, 2)
      else if startswith text [SLASH; STAR] then (BlockComment, 2)
      else if startswith text [SQ] then (SingleQuoted, 1)
      else if startswith text [DQ] then (DoubleQuoted, 1)
      else
        match (if startswith text [DOLLAR] then tag_name (drop 1 text)
               else None) with
        | Some name =>
            (DollarQuoted (DOLLAR :: name ++ [DOLLAR]), length name + 2)
        | None => (Normal, 1)
        end
  | SingleQuoted =>
      if startswith text [SQ; SQ] then (SingleQuoted, 2)
      else if startswith text [SQ] then (Normal, 1)
      else (SingleQuoted, 1)
  | DoubleQuoted =>
      if startswith text [DQ] then (Normal, 1) else (DoubleQuoted, 1)
  | LineComment =>
      if startswith text [NL] then (Normal, 1) else (LineComment, 1)
  | BlockComment =>
      if startswith text [STAR; SLASH] then (Normal, 2)
      else (BlockComment, 1)
  | DollarQuoted tag =>
      if startswith text tag then (Normal, length tag)
      else (DollarQuoted tag, 1)
  end.

(** For each character of [text], whether it lies inside a quoted string,
    a quoted identifier, a comment or a dollar-quoted block, the marks
    that open and close the region included. [m] is the state in which
    the next token is read, and the first [skip] characters still belong
    to the token before, which is a mark of a region. *)
Fixpoint inside (m : mode) (skip : nat) (text : pystr) : list bool :=
  match text with
  | [] => []
  | c :: tl =>
      match skip with
      | S k => true :: inside m k tl
      | 0 =>
          let '(m', n) := token m text in
          negb (is_normal m && is_normal m') :: inside m' (n - 1) tl
      end
  end.

(** The regions of a whole text. *)
Definition regions (text : pystr) : list bool := inside Normal 0 text.
End lexical.

(** [text] cut after every [;] that [marks] leaves outside the regions;
    [cur] is the piece being read. *)
Fixpoint cut_outside (marks : list bool) (text cur : pystr) : list pystr :=
  match text, marks with
  | c :: tl, b :: bs =>
      if (c =? SEMI)%N && negb b then (cur ++ [c]) :: cut_outside bs tl []
      else cut_outside bs tl (cur ++ [c])
  | _, _ => [cur]
  end.

(** The state of the specification that the flags of the code's scanner
    stand for. *)
Definition mode_of (st : scanner) : mode :=
  if in_line_comment st then LineComment
  else if in_block_comment st then BlockComment
  else match dollar_tag st with
       | Some tag => DollarQuoted tag
       | None =>
           if in_sq st then SingleQuoted
           else if in_dq st then DoubleQuoted
           else Normal
       end.

(** At most one flag of the scanner is set, and a pending tag starts with
    its [$]. *)
Definition mode_ok (st : scanner) : Prop :=
  match mode_of st with
  | Normal => True
  | SingleQuoted => in_dq st = false
  | DoubleQuoted => True
  | LineComment =>
      in_block_comment st = false ∧ dollar_tag st = None
      ∧ in_sq st = false ∧ in_dq st = false
  | BlockComment =>
      dollar_tag st = None ∧ in_sq st = false ∧ in_dq st = false
  | DollarQuoted tag =>
      in_sq st = false ∧ in_dq st = false ∧ head tag = Some DOLLAR
  end.

End Lexical.
Export Lexical.

(** ** Datasets, exceptions and the outside world *)

Module World.

(** One cell of a pandas DataFrame. *)
Inductive cell :=
  | CNone | CNaN | CNaT
  | CInt (z : Z) | CText (s : pystr) | CBool (b : bool).

(** The dtype of a column, as far as [DataFrame.where] tells them apart:
    only an object column can hold [None]. *)
Inductive dtype := object | float64 | datetime64 | int64 | bool_.

Definition column : Type := dtype * list cell.

(** A DataFrame: the length of its index and its labelled columns, in
    order, each with its dtype; labels may repeat. *)
Record DataFrame := { df_len : nat; df_data : list (pystr * column) }.

Definition columns (df : DataFrame) : list pystr := (df_data df).*1.

(** [df.empty] *)
Definition df_empty (df : DataFrame) : bool :=
  bool_decide (df_len df = 0) || bool_decide (df_data df = []).

(** [df.columns = labels] *)
Definition set_columns (labels : list pystr) (df : DataFrame) : DataFrame :=
  {| df_len := df_len df; df_data := zip labels (df_data df).*2 |}.

(** [df[keys]] with a list of labels: for each key, every column that
    carries the label. *)
Definition select (keys : list pystr) (df : DataFrame) : DataFrame :=
  {| df_len := df_len df;
     df_data := keys ≫= (λ k, filter (λ c, c.1 = k) (df_data df)) |}.

(** [pd.notnull] on a cell. *)
Definition notnull (c : cell) : bool :=
  match c with CNone | CNaN | CNaT => false | _ => true end.

(** A value returned by the database driver. *)
Inductive dbval := DNull | DText (s : pystr) | DInt (z : Z).

Definition Path : Type := list pystr.

(** The SQLAlchemy engine, as far as the code looks into it:
    [engine.dialect.paramstyle], when there is one. *)
Record Engine := { paramstyle : option pystr }.

(** [dir / fname] and [path.name] *)
Definition path_join (dir : Path) (fname : pystr) : Path := dir ++ [fname].
Definition path_name (p : Path) : pystr := default [] (last p).

Inductive value_error :=
  | MissingDsn
  | UnsupportedLoadMode (m : pystr)
  | TableMissingOrEmpty (schema table : pystr)
  | MissingRequiredColumns (schema table : pystr) (cols : list pystr)
  | ExtraColumns (schema table : pystr) (cols : list pystr)
  | UnpackError
  | InvalidLiteral.

Inductive plan_error :=
  | MissingDependency (d requiredby : pystr)
  | CycleOrUnresolved (cyclic : odict pystr (gset pystr))
  | MissingDataFrames (keys : list pystr).

(** The exceptions that cross the modelled code. [BaseError] stands for an
    exception that is not an [Exception] (KeyboardInterrupt, SystemExit). *)
Inductive exn :=
  | ValueError (e : value_error)
  | TypeError (what : pystr)
  | KeyError (k : pystr)
  | IndexError
  | FileNotFoundError (what : pystr) (p : Path)
  | RuntimeError (what : pystr) (args : list pystr)
  | LoadPlanError (e : plan_error)
  | DBAPIError (sqlstate : option pystr)
  | OtherError (name : pystr)
  | BaseError (name : pystr).

Definition is_Exception (e : exn) : bool :=
  match e with BaseError _ => false | _ => true end.

Inductive result (A : Type) :=
  | Ok (a : A)
  | Raise (e : exn).
Arguments Ok {A} a.
Arguments Raise {A} e.

Inductive level := INFO | WARNING | ERROR | EXCEPTION.

Inductive logarg :=
  | AStr (s : pystr) | AInt (n : nat) | AList (l : list pystr)
  | APath (p : Path).

(** The calls that leave the modelled code, indexed by what they return. *)
Inductive req : Type → Type :=
  | GetEnv (name : pystr) : req (option pystr)
  | PathExists (p : Path) : req bool
  | ReadText (p : Path) : req pystr
  | Log (lvl : level) (fmt : pystr) (args : list logarg) : req unit
  (* the DBAPI connection handed to DDLRunner *)
  | ConnSetAutocommit (v : option bool) : req unit
  | CursorOpen : req unit
  | CursorClose : req unit
  | CursorExecute (q : pystr) : req unit
  | ConnCommit : req unit
  | ConnRollback : req unit
  (* the SQLAlchemy engine of PostgresClient *)
  | CreateEngine (dsn : pystr) : req Engine
  | EngineDispose : req unit
  | EngineSetEcho : req unit
  | EngineConnect : req unit
  | ConnectionClose : req unit
  | EngineBegin : req unit
  | TxCommit : req unit
  | TxRollback : req unit
  | Execute (q : pystr) (params : list (pystr * dbval)) : req (list (list dbval))
  | ExecDriverSql (q : pystr) : req unit
  | ToSql (df : DataFrame) (name schema if_exists : pystr) (index : bool)
      (chunksize : Z) (method : option pystr) : req unit.

(** A call together with its outcome. *)
Inductive entry := Called (A : Type) (r : req A) (o : result A).
Arguments Called {A} r o.

(** What lies outside the code: the tables of the Python runtime and the
    answer of the file system, the process environment and the database to
    each call, given what happened before. *)
Record Env := {
  env_isalnum : N → bool;
  env_upper : pystr → pystr;
  env_int : pystr → result Z;
  env_module_file : Path;
  respond : ∀ A, list entry → req A → result A
}.

(** Computations: they read the world, extend the history of calls and
    return or raise. *)
Definition M (A : Type) : Type := Env → list entry → list entry * result A.

Definition ret {A} (a : A) : M A := λ _ h, (h, Ok a).
Definition raise {A} (e : exn) : M A := λ _ h, (h, Raise e).
Definition bind {A B} (k : A → M B) (m : M A) : M B :=
  λ env h,
    match m env h with
    | (h', Ok a) => k a env h'
    | (h', Raise e) => (h', Raise e)
    end.

#[global] Instance M_ret : MRet M := @ret.
#[global] Instance M_bind : MBind M := @bind.

(** [try: m] with the outcome handed to the handler. *)
Definition catch {A} (m : M A) : M (result A) :=
  λ env h, let '(h', r) := m env h in (h', Ok r).

Definition call {A} (r : req A) : M A :=
  λ env h, let o := respond env A h r in (h ++ [Called r o], o).

Definition ask : M Env := λ env h, (h, Ok env).

Definition lift {A} (r : result A) : M A := λ _ h, (h, r).

(** Logging never raises. *)
Definition log (lvl : level) (fmt : pystr) (args : list logarg) : M unit :=
  λ _ h, (h ++ [Called (Log lvl fmt args) (Ok tt)], Ok tt).

(** [try: m finally: fin] *)
Definition finally {A} (m : M A) (fin : M unit) : M A :=
  r ← catch m; fin;; lift r.

(** [for x in l: f x] *)
Fixpoint for_each {X} (l : list X) (f : X → M unit) : M unit :=
  match l with
  | [] => ret tt
  | x :: l' => f x;; for_each l' f
  end.

(** A loop that carries the locals it updates. *)
Fixpoint for_fold {X S} (l : list X) (s : S) (f : S → X → M S) : M S :=
  match l with
  | [] => ret s
  | x :: l' => s' ← f s x; for_fold l' s' f
  end.

(** Vocabulary for the properties of computations. *)

(** Every value [m] returns satisfies [Q]. *)
Definition returns {A} (Q : A → Prop) (m : M A) : Prop :=
  ∀ env h h' a, m env h = (h', Ok a) → Q a.

(** [m] only extends the history, and with calls that satisfy [P]. *)
Definition adds {A} (P : entry → Prop) (m : M A) : Prop :=
  ∀ env h, ∃ new, (m env h).1 = h ++ new ∧ Forall P new.

(** The call is a bulk insert, [DataFrame.to_sql]. *)
Definition is_write (e : entry) : Prop :=
  match e with
  | Called r _ => match r with ToSql _ _ _ _ _ _ _ => True | _ => False end
  end.

(** The names of the files read, in order. *)
Definition files_read (h : list entry) : list pystr :=
  h ≫= (λ e, match e with
             | Called r _ =>
                 match r with ReadText p => [path_name p] | _ => [] end
             end).

End World.
Export World.

(** ** load/ddl.py: running script files *)

Module ColumnMeta.
Record t := {
  name : pystr; is_nullable : bool; has_default : bool; is_identity : bool
}.
End ColumnMeta.

Module DdlExec.

(** The connection handed to [DDLRunner]: its [autocommit] attribute
    ([None] when absent or None) and whether it has [commit] and
    [rollback]. *)
Record Conn := {
  autocommit : option bool; has_commit : bool; has_rollback : bool
}.

Record DDLRunner := {
  sql_dir : Path; ddl_order : list pystr;
  fail_fast : bool; skip_missing : bool
}.

Definition str_of_nat (n : nat) : pystr := py (pretty n).
Definition str_of_Z (z : Z) : pystr := py (pretty z).

(** [s.replace("%", "%%")] *)
Definition escape_pct (s : pystr) : pystr := replace_char PCT [PCT; PCT] s.

(** [enumerate(l, start=1)] *)
Definition enumerate1 {A} (l : list A) : list (nat * A) :=
  zip (seq 1 (length l)) l.

Definition with_cursor {A} (body : M A) : M A :=
  call CursorOpen;; finally body (call CursorClose).

Definition fmt_ddl_error : pystr :=
  py "DDL error in %s (stmt %d, start line %d)" ++ [NL]
  ++ py "--- SQL (head) ---" ++ [NL] ++ py "%s".

(** The body of the [for idx, st in enumerate(statements, start=1)] loop
    of [DDLRunner._run_file]. *)
Definition run_statement (self : DDLRunner) (is_autocommit : bool)
    (fname : pystr) (idx : nat) (st : SQLStmt) : M unit :=
  let stmt_clean := strip (sql st) in
  if negb (truthy stmt_clean) then mret tt
  else if startswith stmt_clean [BACKSLASH] then
    log WARNING (py "Skipping psql meta command in %s (stmt %d line %d): %s")
      [AStr fname; AInt idx; AInt (start_line st); AStr (take 120 stmt_clean)]
  else
    r ← catch (
      if negb (fail_fast self) && negb is_autocommit then
        let sp := py "sp_" ++ str_of_nat idx in
        call (CursorExecute (py "SAVEPOINT " ++ sp ++ py ";"));;
        r1 ← catch (
          call (CursorExecute (escape_pct stmt_clean));;
          call (CursorExecute (py "RELEASE SAVEPOINT " ++ sp ++ py ";")));
        match r1 with
        | Ok _ => mret tt
        | Raise e =>
            if is_Exception e then
              call (CursorExecute (py "ROLLBACK TO SAVEPOINT " ++ sp ++ py ";"));;
              call (CursorExecute (py "RELEASE SAVEPOINT " ++ sp ++ py ";"));;
              log EXCEPTION
                (py "DDL error in %s (stmt %d, start line %d). Continuing...")
                [AStr fname; AInt idx; AInt (start_line st)]
            else raise e
        end
      else call (CursorExecute (escape_pct stmt_clean)));
    match r with
    | Ok _ => mret tt
    | Raise e =>
        if is_Exception e then
          log ERROR fmt_ddl_error
            [AStr fname; AInt idx; AInt (start_line st);
             AStr (take 2000 stmt_clean)];;
          raise e
        else raise e
    end.

Definition _run_file (self : DDLRunner) (conn : Conn) (fpath : Path)
    : M unit :=
  env ← ask;
  text ← call (ReadText fpath);
  let statements := _split_sql_statements (env_isalnum env) text in
  match statements with
  | [] => log INFO (py "Empty DDL file: %s (skipped)") [AStr (path_name fpath)]
  | _ =>
      let is_autocommit := default false (autocommit conn) in
      with_cursor (for_each (enumerate1 statements) (λ '(idx, st),
        run_statement self is_autocommit (path_name fpath) idx st));;
      if has_commit conn && negb is_autocommit then call ConnCommit
      else mret tt
  end.

(** [DDLRunner.run(conn, autocommit=...)] *)
Definition run (self : DDLRunner) (conn : Conn) (autocommit_arg : bool)
    : M unit :=
  ex ← call (PathExists (sql_dir self));
  if negb ex then raise (FileNotFoundError (py "SQL dir not found") (sql_dir self))
  else
    let prev_autocommit := autocommit conn in
    let set_to (v : option bool) : M unit :=
      match prev_autocommit with
      | Some _ => call (ConnSetAutocommit v)
      | None => mret tt
      end in
    let conn' :=
      match prev_autocommit with
      | Some _ => {| autocommit := Some autocommit_arg;
                     has_commit := has_commit conn;
                     has_rollback := has_rollback conn |}
      | None => conn
      end in
    set_to (Some autocommit_arg);;
    finally (
      r ← catch (for_each (ddl_order self) (λ fname,
        let fpath := path_join (sql_dir self) fname in
        ex ← call (PathExists fpath);
        if negb ex then
          if skip_missing self then
            log WARNING (py "DDL file missing: %s (skipped)") [APath fpath]
          else raise (FileNotFoundError (py "DDL file missing") fpath)
        else
          log INFO (py "Running DDL: %s") [AStr (path_name fpath)];;
          _run_file self conn' fpath;;
          log INFO (py "OK: %s") [AStr (path_name fpath)]));
      match r with
      | Ok _ => mret tt
      | Raise e =>
          if is_Exception e then
            (if has_rollback conn then
               r' ← catch (call ConnRollback);
               match r' with
               | Raise e' => if is_Exception e' then mret tt else raise e'
               | Ok _ => mret tt
               end
             else mret tt);;
            raise e
          else raise e
      end)
      (set_to prev_autocommit).

Definition run_ddl (conn : Conn) (dir : Path) (order : list pystr) : M unit :=
  run {| sql_dir := dir; ddl_order := order;
         fail_fast := true; skip_missing := false |} conn false.

(** Vocabulary for the continue-on-error policy. *)

Definition ok (r : req unit) : entry := Called r (Ok tt).

(** The three savepoint commands of statement [idx], and the statement as
    it is sent. *)
Definition savepoint (idx : nat) : req unit :=
  CursorExecute (py "SAVEPOINT " ++ (py "sp_" ++ str_of_nat idx) ++ py ";").
Definition release (idx : nat) : req unit :=
  CursorExecute
    (py "RELEASE SAVEPOINT " ++ (py "sp_" ++ str_of_nat idx) ++ py ";").
Definition rollback_to (idx : nat) : req unit :=
  CursorExecute
    (py "ROLLBACK TO SAVEPOINT " ++ (py "sp_" ++ str_of_nat idx) ++ py ";").
Definition execute (st : SQLStmt) : req unit :=
  CursorExecute (escape_pct (strip (sql st))).

(** The database answers [r] with [o], whatever happened before. *)
Definition answers (env : Env) (r : req unit) (o : result unit) : Prop :=
  ∀ h, respond env unit h r = o.

(** Opening and closing the cursor, the commit and the savepoint commands
    go through. *)
Definition transaction_control_accepted (env : Env) : Prop :=
  answers env CursorOpen (Ok tt) ∧ answers env CursorClose (Ok tt)
  ∧ answers env ConnCommit (Ok tt)
  ∧ ∀ idx, answers env (savepoint idx) (Ok tt)
           ∧ answers env (release idx) (Ok tt)
           ∧ answers env (rollback_to idx) (Ok tt).

(** A statement that [_run_file] sends to the database: not blank and not
    a psql meta command. *)
Definition runnable (st : SQLStmt) : Prop :=
  truthy (strip (sql st)) = true
  ∧ startswith (strip (sql st)) [BACKSLASH] = false.

(** The database accepts the statement, or refuses it with an
    [Exception]. *)
Definition settles (env : Env) (st : SQLStmt) (o : result unit) : Prop :=
  runnable st ∧ answers env (execute st) o
  ∧ match o with Ok _ => True | Raise e => is_Exception e = true end.

(** What statement [idx] of file [fname] leaves in the history under the
    continue-on-error policy, by the outcome [o] of the statement. *)
Definition block (fname : pystr) (idx : nat) (st : SQLStmt)
    (o : result unit) : list entry :=
  match o with
  | Ok _ => [ok (savepoint idx); Called (execute st) o; ok (release idx)]
  | Raise _ =>
      [ok (savepoint idx); Called (execute st) o; ok (rollback_to idx);
       ok (release idx);
       ok (Log EXCEPTION
             (py "DDL error in %s (stmt %d, start line %d). Continuing...")
             [AStr fname; AInt idx; AInt (start_line st)])]
  end.

Fixpoint blocks (fname : pystr) (idx : nat) (sts : list SQLStmt)
    (outcomes : list (result unit)) : list entry :=
  match sts, outcomes with
  | st :: sts', o :: outcomes' =>
      block fname idx st o ++ blocks fname (S idx) sts' outcomes'
  | _, _ => []
  end.

End DdlExec.
Export DdlExec.

(** ** The SQLAlchemy helpers of load/ddl.py *)

Module DdlSqlalchemy.

(** A text given line by line. *)
Definition unlines (ls : list string) : pystr :=
  match ls with
  | [] => []
  | l :: ls' => py l ++ (ls' ≫= (λ x, NL :: py x))
  end.

(** [str(v)], truthiness and [int(v)] of a driver value. *)
Definition str_of_dbval (v : dbval) : pystr :=
  match v with
  | DNull => py "None"
  | DText s => s
  | DInt z => str_of_Z z
  end.

Definition dbval_truthy (v : dbval) : bool :=
  match v with
  | DNull => false
  | DText s => truthy s
  | DInt z => negb (z =? 0)%Z
  end.

Definition int_of_dbval (v : dbval) : M Z :=
  match v with
  | DInt z => mret z
  | DText s => env ← ask; lift (env_int env s)
  | DNull => raise (TypeError (py "int() argument"))
  end.

(** [with engine.connect() as conn: body] *)
Definition with_connect {A} (body : M A) : M A :=
  call EngineConnect;; finally body (call ConnectionClose).

(** [with engine.begin() as conn: body]: commit on leaving, roll back and
    re-raise on an exception. *)
Definition with_begin {A} (body : M A) : M A :=
  call EngineBegin;;
  r ← catch body;
  match r with
  | Ok a => call TxCommit;; mret a
  | Raise e => call TxRollback;; raise e
  end.

(** [result.scalar()] *)
Definition scalar (rows : list (list dbval)) : dbval :=
  match rows with
  | (v :: _) :: _ => v
  | _ => DNull
  end.

Definition _quote_ident (name : pystr) : pystr :=
  [DQ] ++ replace_char DQ [DQ; DQ] name ++ [DQ].

Definition sql_columns_meta : pystr :=
  unlines [ "";
    "    SELECT";
    "      column_name,";
    "      is_nullable,";
    "      column_default,";
    "      is_identity";
    "    FROM information_schema.columns";
    "    WHERE table_schema = :schema AND table_name = :table";
    "    ORDER BY ordinal_position;";
    "    " ].

Definition column_meta_of_row (upper : pystr → pystr) (row : list dbval)
    : result ColumnMeta.t :=
  match row with
  | [column_name; is_nullable; column_default; is_identity] =>
      Ok {| ColumnMeta.name := str_of_dbval column_name;
            ColumnMeta.is_nullable :=
              bool_decide (upper (str_of_dbval is_nullable) = py "YES");
            ColumnMeta.has_default :=
              match column_default with DNull => false | _ => true end;
            ColumnMeta.is_identity :=
              bool_decide (upper (str_of_dbval is_identity) = py "YES") |}
  | _ => Raise (ValueError UnpackError)
  end.

Definition get_table_columns_meta (schema table : pystr)
    : M (list ColumnMeta.t) :=
  env ← ask;
  rows ← with_connect
    (call (Execute sql_columns_meta
             [(py "schema", DText schema); (py "table", DText table)]));
  for_fold rows [] (λ out row,
    c ← lift (column_meta_of_row (env_upper env) row); mret (out ++ [c])).

(** The body of the statement loop of [run_sql_files]. *)
Definition exec_statement (escape_pct_flag fail_fast : bool)
    (ignore_sqlstates : gset pystr) (fname : pystr) (idx : nat)
    (st : SQLStmt) : M unit :=
  let stmt_clean := strip (sql st) in
  if negb (truthy stmt_clean) then mret tt
  else if startswith stmt_clean [BACKSLASH] then
    log WARNING (py "Skipping psql meta command in %s (stmt %d line %d): %s")
      [AStr fname; AInt idx; AInt (start_line st); AStr (take 120 stmt_clean)]
  else
    let stmt_to_exec :=
      if escape_pct_flag then escape_pct stmt_clean else stmt_clean in
    r ← catch (call (ExecDriverSql stmt_to_exec));
    match r with
    | Ok _ => mret tt
    | Raise (DBAPIError sqlstate) =>
        if (match sqlstate with
            | Some c => bool_decide (c ∈ ignore_sqlstates)
            | None => false
            end) then
          log WARNING
            (py "Ignoring DDL error in %s (stmt %d line %d) sqlstate=%s")
            [AStr fname; AInt idx; AInt (start_line st);
             AStr (default (py "None") sqlstate)]
        else
          log ERROR fmt_ddl_error
            [AStr fname; AInt idx; AInt (start_line st);
             AStr (take 2000 stmt_clean)];;
          if fail_fast then raise (DBAPIError sqlstate) else mret tt
    | Raise e =>
        if is_Exception e then
          log ERROR fmt_ddl_error
            [AStr fname; AInt idx; AInt (start_line st);
             AStr (take 2000 stmt_clean)];;
          if fail_fast then raise e else mret tt
        else raise e
    end.

Definition run_sql_files (engine : Engine) (dir : Path)
    (ddl_files : list pystr) (fail_fast : bool)
    (ignore_sqlstates : gset pystr) : M unit :=
  env ← ask;
  ex ← call (PathExists dir);
  if negb ex then raise (FileNotFoundError (py "SQL dir not found") dir)
  else
    let escape_pct_flag :=
      bool_decide (paramstyle engine = Some (py "pyformat")
                   ∨ paramstyle engine = Some (py "format")) in
    for_each ddl_files (λ fname,
      let fpath := path_join dir fname in
      ex ← call (PathExists fpath);
      if negb ex then raise (FileNotFoundError (py "DDL file missing") fpath)
      else
        text ← call (ReadText fpath);
        let statements := _split_sql_statements (env_isalnum env) text in
        match statements with
        | [] =>
            log INFO (py "Empty DDL file: %s (skipped)")
              [AStr (path_name fpath)]
        | _ =>
            log INFO (py "Running DDL: %s") [AStr (path_name fpath)];;
            with_begin (for_each (enumerate1 statements) (λ '(idx, st),
              exec_statement escape_pct_flag fail_fast ignore_sqlstates
                (path_name fpath) idx st))
        end).

Definition sql_column_exists : pystr :=
  unlines [ "";
    "                SELECT 1";
    "                FROM information_schema.columns";
    "                WHERE table_schema = :schema";
    "                  AND table_name = :table";
    "                  AND column_name = :col";
    "                LIMIT 1;";
    "                " ].

Definition sync_identity_sequences (schema table id_column : pystr)
    : M unit :=
  let qualified := schema ++ [DOT] ++ table in
  with_begin (
    rows ← call (Execute sql_column_exists
      [(py "schema", DText schema); (py "table", DText table);
       (py "col", DText id_column)]);
    if negb (dbval_truthy (scalar rows)) then mret tt
    else
      rows ← call (Execute (py "SELECT pg_get_serial_sequence(:tbl, :col);")
        [(py "tbl", DText qualified); (py "col", DText id_column)]);
      let seq := scalar rows in
      if negb (dbval_truthy seq) then mret tt
      else
        let max_sql :=
          py "SELECT MAX(" ++ _quote_ident id_column ++ py ") FROM "
          ++ _quote_ident schema ++ [DOT] ++ _quote_ident table ++ py ";" in
        rows ← call (Execute max_sql []);
        let max_id := scalar rows in
        r ← catch (
          match max_id with
          | DNull =>
              call (Execute
                (py "SELECT setval(CAST(:seq AS regclass), 1, false);")
                [(py "seq", seq)]);; mret tt
          | _ =>
              v ← int_of_dbval max_id;
              call (Execute
                (py "SELECT setval(CAST(:seq AS regclass), :v, true);")
                [(py "seq", seq); (py "v", DInt v)]);; mret tt
          end);
        match r with
        | Ok _ => mret tt
        | Raise (DBAPIError sqlstate) =>
            if bool_decide (sqlstate = Some (py "42501")) then mret tt
            else raise (DBAPIError sqlstate)
        | Raise e => raise e
        end).

End DdlSqlalchemy.
Export DdlSqlalchemy.

(** ** io/pg_client.py *)

Module PgClient.

Definition exec (q : pystr) (params : list (pystr * dbval)) : M unit :=
  with_begin (call (Execute q params);; mret tt).

Definition drop_schema (schema : pystr) : M unit :=
  exec (py "DROP SCHEMA IF EXISTS " ++ [DQ] ++ schema ++ [DQ] ++ py " CASCADE;")
    [].

Definition create_schema (schema : pystr) : M unit :=
  exec (py "CREATE SCHEMA IF NOT EXISTS " ++ [DQ] ++ schema ++ [DQ] ++ py ";")
    [].

Definition read_scalar (q : pystr) (params : list (pystr * dbval))
    : M dbval :=
  with_connect (rows ← call (Execute q params); mret (scalar rows)).

Definition sql_table_exists : pystr :=
  unlines [ "";
    "        SELECT 1";
    "        FROM information_schema.tables";
    "        WHERE table_schema = :schema AND table_name = :table_name";
    "        LIMIT 1;";
    "        " ].

Definition table_exists (schema table_name : pystr) : M bool :=
  v ← read_scalar sql_table_exists
    [(py "schema", DText schema); (py "table_name", DText table_name)];
  mret (match v with DNull => false | _ => true end).

Definition write_dataframe (df : DataFrame) (table_name schema : pystr)
    (if_exists : pystr) (chunksize : Z) (index : bool)
    (method : option pystr) : M unit :=
  ex ← table_exists schema table_name;
  if negb ex then
    raise (RuntimeError (py "Target table not found") [schema; table_name])
  else
    let df2 := set_columns (strip <$> columns df) df in
    with_begin
      (call (ToSql df2 table_name schema if_exists index chunksize method)).

(** [with PostgresClient(dsn) as pg: engine = pg.engine(); body]:
    [__enter__] does nothing; [pg.engine()] evaluates the cached property
    [_engine], which calls [create_engine] and keeps the engine only when
    the call returns; [__exit__] calls [close()], that is
    [self._engine.dispose()]: when the first [create_engine] raised,
    nothing was kept and [_engine] calls [create_engine] again, whose
    exception, if any, is the one that leaves the block; otherwise the
    engine it gives is disposed of and the first exception goes on. *)
Definition with_client {A} (dsn : pystr) (body : Engine → M A) : M A :=
  r ← catch (call (CreateEngine dsn));
  match r with
  | Ok engine => finally (body engine) (call EngineDispose)
  | Raise e =>
      call (CreateEngine dsn);;
      call EngineDispose;;
      raise e
  end.

End PgClient.

(** ** load/load_strategy.py *)

Module TableSpec.
Inductive LoadMode := INSERT | SKIP.

Record t := {
  name : pystr;
  df_key : option pystr;
  depends_on : list pystr;
  preprocess : option (DataFrame → DataFrame);
  mode : LoadMode
}.

(** [TableSpec(name, df_key=..., depends_on=...)] with the other fields at
    their defaults. *)
Definition make (n : pystr) (k : option pystr) (deps : list pystr) : t :=
  {| name := n; df_key := k; depends_on := deps;
     preprocess := None; mode := INSERT |}.

(** [self.df_key or self.name] *)
Definition key (s : t) : pystr :=
  match df_key s with
  | Some k => if truthy k then k else name s
  | None => name s
  end.
End TableSpec.

Module LoadStrategy.

(** The first [d not in by_name] met by the two nested [for] loops, with
    the name of the spec that requires it. *)
Fixpoint missing_dep_in (by_name : odict pystr TableSpec.t)
    (deps : list pystr) : option pystr :=
  match deps with
  | [] => None
  | d :: ds => if od_mem d by_name then missing_dep_in by_name ds else Some d
  end.

Fixpoint first_missing (by_name : odict pystr TableSpec.t)
    (specs_list : list TableSpec.t) : option (pystr * pystr) :=
  match specs_list with
  | [] => None
  | s :: ss =>
      match missing_dep_in by_name (TableSpec.depends_on s) with
      | Some d => Some (d, TableSpec.name s)
      | None => first_missing by_name ss
      end
  end.

(** [for m in incoming: ...] after [n] was popped: [n] leaves every set
    that holds it, and a set that empties puts its key on [ready]. *)
Fixpoint relax (n : pystr) (incoming : odict pystr (gset pystr))
    (ready : list pystr) : odict pystr (gset pystr) * list pystr :=
  match incoming with
  | [] => ([], ready)
  | (m, deps) :: rest =>
      if bool_decide (n ∈ deps) then
        let deps' := deps ∖ {[n]} in
        let ready' :=
          if bool_decide (deps' = ∅) then ready ++ [m] else ready in
        let '(rest', ready'') := relax n rest ready' in
        ((m, deps') :: rest', ready'')
      else
        let '(rest', ready'') := relax n rest ready in
        ((m, deps) :: rest', ready'')
  end.

(** [l.pop()] *)
Definition pop {A} (l : list A) : option (A * list A) :=
  match reverse l with
  | [] => None
  | x :: r => Some (x, reverse r)
  end.

(** The [while ready] loop; [fuel] bounds the number of iterations. *)
Fixpoint kahn (fuel : nat) (by_name : odict pystr TableSpec.t)
    (incoming : odict pystr (gset pystr)) (ready : list pystr)
    (ordered : list TableSpec.t)
    : result (odict pystr (gset pystr) * list pystr * list TableSpec.t) :=
  match fuel with
  | 0 => Ok (incoming, ready, ordered)
  | S fuel' =>
      match pop ready with
      | None => Ok (incoming, ready, ordered)
      | Some (n, ready') =>
          match od_get n by_name with
          | None => Raise (KeyError n)
          | Some s =>
              let '(incoming', ready'') := relax n incoming ready' in
              kahn fuel' by_name incoming' ready'' (ordered ++ [s])
          end
      end
  end.

Definition by_name_of (specs_list : list TableSpec.t)
    : odict pystr TableSpec.t :=
  od_of_list TableSpec.name id specs_list.

Definition incoming_of (specs_list : list TableSpec.t)
    : odict pystr (gset pystr) :=
  od_of_list TableSpec.name (λ s, list_to_set (TableSpec.depends_on s))
    specs_list.

Definition ready_of (incoming : odict pystr (gset pystr)) : list pystr :=
  (filter (λ e, e.2 = ∅) incoming).*1.

Definition _toposort (specs : list TableSpec.t) : result (list TableSpec.t) :=
  let specs_list := specs in
  let by_name := by_name_of specs_list in
  match first_missing by_name specs_list with
  | Some (d, sname) => Raise (LoadPlanError (MissingDependency d sname))
  | None =>
      let incoming := incoming_of specs_list in
      match kahn (length incoming) by_name incoming (ready_of incoming) [] with
      | Raise e => Raise e
      | Ok (incoming, _, ordered) =>
          if bool_decide (length ordered ≠ length specs_list) then
            Raise (LoadPlanError
                     (CycleOrUnresolved (filter (λ e, e.2 ≠ ∅) incoming)))
          else Ok ordered
      end
  end.

Record LoadPlan := { specs : list TableSpec.t; order : list TableSpec.t }.

(** [LoadPlan(specs)]: the constructor followed by [__post_init__]. *)
Definition LoadPlan_init (specs : list TableSpec.t) : result LoadPlan :=
  match _toposort specs with
  | Ok o => Ok {| specs := specs; order := o |}
  | Raise e => Raise e
  end.

Definition is_insert (s : TableSpec.t) : bool :=
  match TableSpec.mode s with TableSpec.INSERT => true | _ => false end.

Definition table_names_in_order (self : LoadPlan) : list pystr :=
  TableSpec.name <$> filter (λ s, is_insert s = true) (order self).

Definition keys_in_order (self : LoadPlan) : list pystr :=
  TableSpec.key <$> filter (λ s, is_insert s = true) (order self).

Definition validate_inputs {V} (self : LoadPlan) (dict_df : odict pystr V)
    : result unit :=
  let missing :=
    TableSpec.key <$>
      filter (λ s, is_insert s = true ∧ od_mem (TableSpec.key s) dict_df = false)
        (order self) in
  match missing with
  | [] => Ok tt
  | _ => Raise (LoadPlanError (MissingDataFrames missing))
  end.

Definition T (n : string) (deps : list string) : TableSpec.t :=
  TableSpec.make (py n) None (py <$> deps).

Definition savh_specs : list TableSpec.t := [
  T "app_users" [];
  T "productos" [];
  T "codigos" [];
  T "dim_convenciones" [];
  T "dim_variedades" ["productos"];
  T "dim_categorias" ["productos"];
  T "dim_calibres" ["productos"; "dim_convenciones"];
  T "dim_medios_pago" [];
  T "dim_grupos_egresos" [];
  TableSpec.make (py "dim_tipos_egreso") (Some (py "dim_tipos_egresos"))
    [py "dim_grupos_egresos"];
  T "dim_modelos_comerciales" [];
  T "dim_tipos_economicos" [];
  T "dim_estados_despacho" [];
  T "dim_estados_venta" [];
  T "dim_estados_venta_facturacion" [];
  T "dim_estados_venta_pago" [];
  T "dim_estados_compra" [];
  T "dim_tipos_clientes" [];
  T "dim_estados_pedido" [];
  T "dim_tipos_venta" [];
  T "dim_entity_type" [];
  T "dim_event_type" [];
  T "terceros" [];
  T "terceros_vendedor" ["terceros"; "dim_modelos_comerciales"];
  T "terceros_cliente" ["terceros"; "dim_tipos_clientes"; "terceros_vendedor"];
  T "terceros_proveedor" ["terceros"];
  T "destinatarios" ["terceros_cliente"];
  T "trabajadores" [];
  T "vehiculos" [];
  T "pedidos"
    ["terceros_cliente"; "destinatarios"; "dim_estados_pedido"; "app_users"];
  T "pedidos_items"
    ["pedidos"; "productos"; "dim_variedades"; "dim_categorias";
     "dim_calibres"; "codigos"; "app_users"];
  T "entregas" ["pedidos"; "app_users"];
  T "ventas"
    ["pedidos"; "terceros_cliente"; "destinatarios"; "dim_tipos_venta";
     "dim_estados_venta"; "dim_estados_despacho";
     "dim_estados_venta_facturacion"; "dim_estados_venta_pago"; "app_users"];
  T "ventas_items"
    ["ventas"; "productos"; "dim_variedades"; "dim_categorias";
     "dim_calibres"; "codigos"; "app_users"];
  T "pagos" ["terceros_cliente"; "dim_medios_pago"; "app_users"];
  T "aplicaciones_pago" ["pagos"; "ventas"; "app_users"];
  T "compras_producto"
    ["codigos"; "terceros_proveedor"; "dim_estados_compra"; "app_users"];
  T "compras_producto_items"
    ["compras_producto"; "productos"; "dim_variedades"; "dim_categorias";
     "dim_calibres"; "app_users"];
  T "ingresos_producto" ["app_users"];
  T "ingresos_producto_items"
    ["ingresos_producto"; "codigos"; "productos"; "dim_variedades";
     "dim_categorias"; "dim_calibres"; "app_users"];
  T "mermas"
    ["codigos"; "productos"; "dim_variedades"; "dim_categorias";
     "dim_calibres"; "app_users"];
  T "egresos"
    ["dim_tipos_egreso"; "dim_tipos_economicos"; "dim_medios_pago";
     "vehiculos"; "trabajadores"; "terceros_vendedor"; "terceros_cliente";
     "terceros_proveedor"; "app_users"];
  T "pagos_compra" ["compras_producto"; "egresos"; "app_users"];
  T "ingest_events" [];
  T "entity_events"
    ["ingest_events"; "dim_entity_type"; "dim_event_type"; "app_users"];
  T "audit_log" ["ingest_events"; "app_users"]
].

Definition build_savh_load_plan : result LoadPlan := LoadPlan_init savh_specs.

(** Vocabulary for the properties of the plan. *)

(** The graph held by a dictionary of sets: [m] points to every member of
    the set stored under [m]. *)
Definition graph_edge (incoming : odict pystr (gset pystr)) (m d : pystr)
    : Prop :=
  ∃ deps, od_get m incoming = Some deps ∧ d ∈ deps.

(** The dependency graph the sort works on, [incoming] as first built. *)
Definition edge (specs : list TableSpec.t) : relation pystr :=
  graph_edge (incoming_of specs).

(** Every [depends_on] entry names a spec. *)
Definition deps_present (specs : list TableSpec.t) : Prop :=
  ∀ s d, s ∈ specs → d ∈ TableSpec.depends_on s →
         d ∈ TableSpec.name <$> specs.

(** A node lies on a cycle when it reaches itself along edges. *)
Definition on_cycle (specs : list TableSpec.t) (n : pystr) : Prop :=
  tc (edge specs) n n.

Definition acyclic (specs : list TableSpec.t) : Prop :=
  ∀ n, ¬ on_cycle specs n.

(** The dependency graph as declared: [m] points to [d] when some spec
    named [m] lists [d] in its [depends_on]. *)
Definition declared_edge (specs : list TableSpec.t) : relation pystr :=
  λ m d, ∃ s, s ∈ specs ∧ TableSpec.name s = m ∧ d ∈ TableSpec.depends_on s.

(** A name lies on a declared cycle when it reaches itself along declared
    dependencies. *)
Definition on_declared_cycle (specs : list TableSpec.t) (n : pystr) : Prop :=
  tc (declared_edge specs) n n.

(** In [order], a spec named [d] stands at an earlier place than [s]. *)
Definition before (order : list TableSpec.t) (d : pystr) (s : TableSpec.t)
    : Prop :=
  ∃ i j sd, i < j ∧ order !! i = Some sd ∧ TableSpec.name sd = d
            ∧ order !! j = Some s.

(** [incoming] with the names in [P] taken out of every set. *)
Definition minus (P : gset pystr) (incoming : odict pystr (gset pystr))
    : odict pystr (gset pystr) :=
  (λ e, (e.1, e.2 ∖ P)) <$> incoming.

(** The names already appended to [ordered]. *)
Definition popped (ordered : list TableSpec.t) : gset pystr :=
  list_to_set (TableSpec.name <$> ordered).

(** The invariant of the [while ready] loop. *)
Definition kahn_inv (by_name : odict pystr TableSpec.t)
    (inc0 incoming : odict pystr (gset pystr)) (ready : list pystr)
    (ordered : list TableSpec.t) : Prop :=
  incoming = minus (popped ordered) inc0
  ∧ NoDup (ready ++ (TableSpec.name <$> ordered))
  ∧ (∀ m, m ∈ ready ++ (TableSpec.name <$> ordered) ↔ (m, ∅) ∈ incoming)
  ∧ (∀ i s, ordered !! i = Some s →
       od_get (TableSpec.name s) by_name = Some s
       ∧ ∃ deps, od_get (TableSpec.name s) inc0 = Some deps
                 ∧ deps ⊆ popped (take i ordered)).

(** What bounds the iterations left: the names on [ready] and the sets
    still not empty. *)
Definition kahn_measure (incoming : odict pystr (gset pystr))
    (ready : list pystr) : nat :=
  length ready + length (filter (λ e, e.2 ≠ ∅) incoming).

End LoadStrategy.
Export LoadStrategy.

(** ** load/load.py *)

Module Loader.
Import PgClient.

Inductive SchemaLoadMode := drop_create | truncate | other_mode (v : pystr).

Definition DEFAULT_PRE_DDL_FILES : list pystr :=
  [py "01_schema.sql"; py "02_tables.sql"; py "03_constraints.sql"].

Definition DEFAULT_POST_DDL_FILES : list pystr :=
  [py "04_foreign_keys.sql"; py "05_indexes.sql"; py "06_comments.sql";
   py "07_triggers.sql"].

(** [Path(__file__).resolve().parent.parent / "sql"] *)
Definition _default_sql_dir : M Path :=
  env ← ask;
  let parent (p : Path) : Path := take (length p - 1) p in
  mret (path_join (parent (parent (env_module_file env))) (py "sql")).

(** [column.where(pd.notnull(column), None)]: the replacement is cast to
    the dtype of the column, so [None] stays in an object column only; in
    a float64 column it is NaN again and in a datetime64 column NaT; the
    columns that hold no missing value are left as they are. *)
Definition where_notnull_none (col : column) : column :=
  match col.1 with
  | object => (object, (λ v, if notnull v then v else CNone) <$> col.2)
  | float64 => (float64, (λ v, if notnull v then v else CNaN) <$> col.2)
  | datetime64 =>
      (datetime64, (λ v, if notnull v then v else CNaT) <$> col.2)
  | int64 | bool_ => col
  end.

(** [df.where(pd.notnull(df), None)] *)
Definition _normalize_nulls (df : DataFrame) : DataFrame :=
  {| df_len := df_len df;
     df_data :=
       (λ c : pystr * column, (c.1, where_notnull_none c.2))
         <$> df_data df |}.

Definition _schema_for_table (table core_schema ingest_schema audit_schema
    : pystr) : pystr :=
  if bool_decide (table = py "ingest_events" ∨ table = py "entity_events")
  then ingest_schema
  else if bool_decide (table = py "audit_log") then audit_schema
  else core_schema.

Definition sql_base_tables : pystr :=
  unlines [ "";
    "                    SELECT table_schema, table_name";
    "                    FROM information_schema.tables";
    "                    WHERE table_schema = :schema";
    "                      AND table_type = 'BASE TABLE'";
    "                    ORDER BY table_name;";
    "                    " ].

(** [sep.join(parts)] *)
Fixpoint join (sep : pystr) (parts : list pystr) : pystr :=
  match parts with
  | [] => []
  | [x] => x
  | x :: rest => x ++ sep ++ join sep rest
  end.

(** [(r[0], r[1])] on a row. *)
Definition row_pair (r : list dbval) : result (dbval * dbval) :=
  match r with
  | a :: b :: _ => Ok (a, b)
  | _ => Raise IndexError
  end.

Definition _truncate_all_tables (schemas : list pystr) : M nat :=
  match schemas with
  | [] => mret 0
  | _ =>
      with_begin (
        tables ← for_fold schemas [] (λ tables schema,
          rows ← call (Execute sql_base_tables [(py "schema", DText schema)]);
          pairs ← for_fold rows [] (λ acc r,
            p ← lift (row_pair r); mret (acc ++ [p]));
          mret (tables ++ pairs));
        match tables with
        | [] => mret 0
        | _ =>
            let qualified :=
              join (py ", ")
                ((λ st, _quote_ident (str_of_dbval st.1) ++ [DOT]
                        ++ _quote_ident (str_of_dbval st.2)) <$> tables) in
            call (ExecDriverSql
                    (py "TRUNCATE TABLE " ++ qualified
                     ++ py " RESTART IDENTITY CASCADE;"));;
            mret (length tables)
        end)
  end.

Definition is_required (c : ColumnMeta.t) : bool :=
  negb (ColumnMeta.is_nullable c) && negb (ColumnMeta.has_default c)
  && negb (ColumnMeta.is_identity c).

Definition _validate_and_align_df (df : DataFrame) (schema table : pystr)
    (drop_extra_columns : bool) : M DataFrame :=
  meta ← get_table_columns_meta schema table;
  match meta with
  | [] => raise (ValueError (TableMissingOrEmpty schema table))
  | _ =>
      let df := set_columns (strip <$> columns df) df in
      let db_cols := ColumnMeta.name <$> meta in
      let df_cols := columns df in
      let required : gset pystr :=
        list_to_set (ColumnMeta.name <$> filter (λ c, is_required c = true) meta) in
      let missing_required := required ∖ list_to_set df_cols in
      if bool_decide (missing_required ≠ ∅) then
        raise (ValueError (MissingRequiredColumns schema table
                             (sorted (elements missing_required))))
      else
        let extra : gset pystr := list_to_set df_cols ∖ list_to_set db_cols in
        df ← (if bool_decide (extra ≠ ∅) then
                if negb drop_extra_columns then
                  raise (ValueError (ExtraColumns schema table
                                       (sorted (elements extra))))
                else
                  log WARNING (py "Drop columnas extra en %s.%s: %s")
                    [AStr schema; AStr table; AList (sorted (elements extra))];;
                  mret (select
                          (filter (λ c, c ∈ (list_to_set db_cols : gset pystr))
                             df_cols) df)
              else mret df);
        let ordered := filter (λ c, c ∈ columns df) db_cols in
        mret (select ordered df)
  end.

Record LoadResult := {
  tables_loaded : nat;
  rows_loaded : nat;
  rows_by_table : odict pystr nat
}.

(** The arguments of [load]. *)
Record load_args := {
  dict_df : odict pystr (option DataFrame);
  dsn : option pystr;
  sql_dir : option Path;
  core_schema : pystr;
  ingest_schema : pystr;
  audit_schema : pystr;
  load_mode : SchemaLoadMode;
  pg_chunksize : Z;
  ddl_only : bool;
  drop_extra_columns : bool;
  echo_sql : bool;
  analyze : bool
}.

(** The locals of [load] that [_load_one] updates. *)
Record loaded := {
  loaded_tables : list (pystr * pystr);
  loaded_keys : gset pystr;
  rows_by : odict pystr nat
}.

Definition _load_one (a : load_args) (table df_key : pystr) (st : loaded)
    : M loaded :=
  match od_get df_key (dict_df a) with
  | None => mret st
  | Some None => raise (TypeError df_key)
  | Some (Some df) =>
      if df_empty df then mret st
      else
        let schema :=
          _schema_for_table table (core_schema a) (ingest_schema a)
            (audit_schema a) in
        ex ← table_exists schema table;
        if negb ex then
          log WARNING (py "Tabla no existe, se omite: %s.%s (df_key=%s)")
            [AStr schema; AStr table; AStr df_key];;
          mret st
        else
          let df2 := _normalize_nulls df in
          df2 ← _validate_and_align_df df2 schema table (drop_extra_columns a);
          log INFO (py "Cargando: %s.%s | filas=%d cols=%d")
            [AStr schema; AStr table; AInt (df_len df2);
             AInt (length (columns df2))];;
          write_dataframe df2 table schema (py "append") (pg_chunksize a)
            false (Some (py "multi"));;
          mret {| loaded_tables := loaded_tables st ++ [(schema, table)];
                  loaded_keys := {[df_key]} ∪ loaded_keys st;
                  rows_by :=
                    od_set (schema ++ [DOT] ++ table) (df_len df2)
                      (rows_by st) |}
  end.

(** [s.split(".", 1)] when [s] holds a dot. *)
Fixpoint split_dot (s : pystr) : option (pystr * pystr) :=
  match s with
  | [] => None
  | c :: s' =>
      if (c =? DOT)%N then Some ([], s')
      else match split_dot s' with
           | Some (a, b) => Some (c :: a, b)
           | None => None
           end
  end.

(** The body of the fallback loop over [dict_df.keys()]. *)
Definition fallback_one (a : load_args) (st : loaded) (df_key : pystr)
    : M loaded :=
  if bool_decide (df_key ∈ loaded_keys st) then mret st
  else
    let table := strip df_key in
    if negb (truthy table) then mret st
    else
      match split_dot table with
      | Some (sch, tbl) =>
          if truthy sch && truthy tbl then
            ex ← table_exists sch tbl;
            if ex : bool then _load_one a tbl df_key st else mret st
          else mret st
      | None =>
          ex ← table_exists (core_schema a) table;
          if ex : bool then _load_one a table df_key st else mret st
      end.

(** [a or b] on optional strings, the right side evaluated on demand. *)
Definition or_else (x : option pystr) (m : M (option pystr))
    : M (option pystr) :=
  match x with
  | Some s => if truthy s then mret x else m
  | None => m
  end.

Definition sum_values (d : odict pystr nat) : nat := sum_list (od_values d).

Definition load (a : load_args) : M LoadResult :=
  dsn_v ← match dsn a with
        | Some d => mret (Some d)
        | None =>
            v1 ← call (GetEnv (py "SAVH_ETL_PG_DSN"));
            v2 ← or_else v1 (call (GetEnv (py "DATABASE_URL")));
            or_else v2 (call (GetEnv (py "POSTGRES_DSN")))
        end;
  match dsn_v : option pystr with
  | None => raise (ValueError MissingDsn)
  | Some [] => raise (ValueError MissingDsn)
  | Some dsn_v =>
  sql_dir_path ← match sql_dir a with
                 | Some d => mret d
                 | None => _default_sql_dir
                 end;
  with_client dsn_v (λ engine,
    (if echo_sql a then call EngineSetEcho else mret tt);;
    let schemas := [core_schema a; ingest_schema a; audit_schema a] in
    ddl_needed ←
      match load_mode a with
      | drop_create =>
          for_each schemas (λ s,
            log INFO (py "Reset DB: drop schema %s") [AStr s];;
            drop_schema s);;
          mret true
      | truncate =>
          for_each schemas create_schema;;
          truncated ← _truncate_all_tables schemas;
          match truncated with
          | 0 =>
              log INFO
                (py "No hay tablas para truncar; asumo DB sin inicializar y corro DDL.")
                [];;
              mret true
          | _ =>
              log INFO (py "TRUNCATE OK | tablas=%d") [AInt truncated];;
              mret false
          end
      | other_mode v => raise (ValueError (UnsupportedLoadMode v))
      end;
    (if ddl_needed : bool then
       run_sql_files engine sql_dir_path DEFAULT_PRE_DDL_FILES true ∅
     else mret tt);;
    if ddl_only a then
      log INFO
        (py "DDL-only: se omite inserci" ++ [243%N] ++ py "n y post-DDL.") [];;
      mret {| tables_loaded := 0; rows_loaded := 0; rows_by_table := [] |}
    else
      plan ← lift build_savh_load_plan;
      let st0 := {| loaded_tables := []; loaded_keys := ∅; rows_by := [] |} in
      st ← for_fold (order plan) st0 (λ st spec,
        _load_one a (TableSpec.name spec) (TableSpec.key spec) st);
      st ← for_fold (od_keys (dict_df a)) st (fallback_one a);
      for_each (loaded_tables st) (λ '(schema, table),
        r ← catch (sync_identity_sequences schema table (py "id"));
        match r with
        | Ok _ => mret tt
        | Raise e =>
            if is_Exception e then
              log WARNING
                (py "No se pudo sync secuencia para %s.%s (" ++ [191%N]
                 ++ py "tiene columna 'id'?)")
                [AStr schema; AStr table]
            else raise e
        end);;
      (if ddl_needed : bool then
         run_sql_files engine sql_dir_path DEFAULT_POST_DDL_FILES true ∅
       else mret tt);;
      (if analyze a then with_begin (call (ExecDriverSql (py "ANALYZE;")))
       else mret tt);;
      let rows_loaded := sum_values (rows_by st) in
      mret {| tables_loaded := length (rows_by st);
              rows_loaded := rows_loaded;
              rows_by_table := rows_by st |})
  end.

End Loader.
Export Loader.

(** ** A world to run the code in *)

Module Demo.

(** [str.upper] restricted to ASCII. *)
Definition ascii_upper (s : pystr) : pystr :=
  (λ c, if ((97 <=? c) && (c <=? 122))%N then (c - 32)%N else c) <$> s.

(** A database that accepts every statement but those that start with
    BOGUS, holds one required column [id] in every table, and a file
    system where [mixed.sql] holds three statements, the second one
    refused, and every other script holds one statement. *)
Definition answer (A : Type) (h : list entry) (r : req A) : result A :=
  match r in req A return result A with
  | GetEnv _ => Ok None
  | PathExists _ => Ok true
  | ReadText p =>
      if bool_decide (path_name p = py "mixed.sql") then
        Ok (py "CREATE TABLE a (id int);" ++ [NL] ++ py "BOGUS;" ++ [NL]
            ++ py "CREATE TABLE b (id int);" ++ [NL])
      else Ok (py "SELECT '" ++ path_name p ++ py "';")
  | Log _ _ _ => Ok tt
  | ConnSetAutocommit _ => Ok tt
  | CursorOpen => Ok tt
  | CursorClose => Ok tt
  | CursorExecute q =>
      if startswith q (py "BOGUS") then Raise (DBAPIError (Some (py "42601")))
      else Ok tt
  | ConnCommit => Ok tt
  | ConnRollback => Ok tt
  | CreateEngine _ => Ok {| paramstyle := Some (py "pyformat") |}
  | EngineDispose => Ok tt
  | EngineSetEcho => Ok tt
  | EngineConnect => Ok tt
  | ConnectionClose => Ok tt
  | EngineBegin => Ok tt
  | TxCommit => Ok tt
  | TxRollback => Ok tt
  | Execute q _ =>
      if startswith q (py "SELECT MAX(") then Ok [[DInt 2]]
      else if startswith q (py "SELECT pg_get_serial_sequence") then
        Ok [[DText (py "core.productos_id_seq")]]
      else if startswith q (py "SELECT setval") then Ok [[DInt 2]]
      else Ok [[DText (py "id"); DText (py "NO"); DNull; DText (py "NO")]]
  | ExecDriverSql _ => Ok tt
  | ToSql _ _ _ _ _ _ _ => Ok tt
  end.

Definition env : Env :=
  {| env_isalnum := ascii_isalnum;
     env_upper := ascii_upper;
     env_int := λ _, Raise (ValueError InvalidLiteral);
     env_module_file := [py "savh_etl"; py "load"; py "load.py"];
     respond := answer |}.

Definition productos : DataFrame :=
  {| df_len := 2; df_data := [(py "id", (int64, [CInt 1; CInt 2]))] |}.

(** A dataset without the required column, with one the table lacks. *)
Definition no_id : DataFrame :=
  {| df_len := 1;
     df_data := [(py "nombre", (object, [CText (py "pera")]))] |}.

(** A dataset with the required column and one the table lacks. *)
Definition with_extra : DataFrame :=
  {| df_len := 1;
     df_data := [(py "nombre", (object, [CText (py "pera")]));
                 (py "id", (int64, [CInt 1]))] |}.

Definition args (d : odict pystr (option DataFrame)) (ddl_only_flag : bool)
    : load_args :=
  {| dict_df := d;
     dsn := Some (py "postgresql://demo");
     sql_dir := Some [py "sql"];
     core_schema := py "core";
     ingest_schema := py "ingest";
     audit_schema := py "audit";
     load_mode := drop_create;
     pg_chunksize := 5000;
     ddl_only := ddl_only_flag;
     drop_extra_columns := true;
     echo_sql := false;
     analyze := false |}.

End Demo.

(** ** Vocabulary for what the splitter keeps of a text *)

Module Pieces.

(** The number of newlines of a text. *)
Definition count_nl (w : pystr) : nat :=
  length (filter (λ c, c = NL) (w : list N)).

(** The test of [flush()] on the text buffered since the last cut. *)
Definition kept (piece : pystr) : bool :=
  truthy (strip piece) && truthy (strip_chars [SEMI] (strip (strip piece))).

(** The line a piece starts on, [before] being the text read before it: a
    newline that opens the piece is counted. *)
Definition piece_line (before piece : pystr) : nat :=
  1 + count_nl before + (if bool_decide (head piece = Some NL) then 1 else 0).

(** The statements of a text cut into [pieces]. *)
Fixpoint statements_of (before : pystr) (pieces : list pystr)
    : list SQLStmt :=
  match pieces with
  | [] => []
  | p :: ps =>
      (if kept p
       then [{| sql := strip p; start_line := piece_line before p |}]
       else [])
      ++ statements_of (before ++ p) ps
  end.

(** Every piece but the last ends with the [;] that cut it. *)
Definition cut_at_semicolons (pieces : list pystr) : Prop :=
  ∀ i p, pieces !! i = Some p → S i < length pieces → last p = Some SEMI.

(** The characters the loop reads past without a turn of their own: the
    second character of a comment mark or of a doubled quote, and the
    characters of a dollar tag. *)
Definition follower (isalnum : N → bool) (c : N) : Prop :=
  c ∈ [DASH; STAR; SLASH; SQ; DOLLAR; UNDERSCORE] ∨ isalnum c = true.

(** A pending dollar tag is made of such characters. *)
Definition tag_clean (isalnum : N → bool) (st : scanner) : Prop :=
  ∀ tag, dollar_tag st = Some tag →
         tag ≠ [] ∧ Forall (follower isalnum) tag.

(** What holds at every loop head on [text0], for the pieces cut so far:
    nothing read is lost, and the line counter and the start line follow
    the newlines read when a newline is no alphanumeric. *)
Definition cut_inv (isalnum : N → bool) (text0 : pystr) (st : scanner)
    (rest : pystr) : Prop :=
  ∃ pieces,
    concat pieces ++ buf st ++ rest = text0
    ∧ Forall (λ p, last p = Some SEMI) pieces
    ∧ sql <$> out st = sql <$> statements_of [] pieces
    ∧ tag_clean isalnum st
    ∧ (isalnum NL = false →
       out st = statements_of [] pieces
       ∧ line st = 1 + count_nl (concat pieces ++ buf st)
       ∧ (buf st = [] → started st = false)
       ∧ (buf st ≠ [] →
          started st = true
          ∧ stmt_start_line st = piece_line (concat pieces) (buf st))).

(** What holds at every loop head on the text [t], for the marks of the
    specification: the flags stand for the state the specification is
    in after the text read, and the pieces cut so far are those the
    marks of the text ask for. *)
Definition lex_inv (isalnum : N → bool) (t : pystr) (st : scanner)
    (rest : pystr) : Prop :=
  ∃ marks pieces,
    mode_ok st
    ∧ regions isalnum t = marks ++ inside isalnum (mode_of st) 0 rest
    ∧ length marks + length rest = length t
    ∧ cut_outside (regions isalnum t) t []
      = pieces ++ cut_outside (inside isalnum (mode_of st) 0 rest) rest
                    (buf st)
    ∧ sql <$> out st = sql <$> statements_of [] pieces.

(** A text of blanks and semicolons only. *)
Definition blank (w : pystr) : Prop :=
  Forall (λ c, isspace c = true ∨ c = SEMI) w.

End Pieces.
Export Pieces.

(** ** Vocabulary for the script runners *)

Module RunnerSpec.

(** The world answers [r] with [o], whatever happened before. *)
Definition replies {A} (env : Env) (r : req A) (o : result A) : Prop :=
  ∀ h, respond env A h r = o.

(** A psql meta command: the stripped statement starts with a backslash. *)
Definition is_meta (st : SQLStmt) : bool :=
  startswith (strip (sql st)) [BACKSLASH].

(** What statement [idx] of file [fname] leaves in the history when it is
    sent without a savepoint and goes through: a warning for a meta
    command, the statement itself otherwise. *)
Definition sent_bare (fname : pystr) (idx : nat) (st : SQLStmt)
    : list entry :=
  if is_meta st then
    [ok (Log WARNING
           (py "Skipping psql meta command in %s (stmt %d line %d): %s")
           [AStr fname; AInt idx; AInt (start_line st);
            AStr (take 120 (strip (sql st)))])]
  else [ok (execute st)].

Fixpoint all_sent_bare (fname : pystr) (idx : nat) (sts : list SQLStmt)
    : list entry :=
  match sts with
  | [] => []
  | st :: sts' => sent_bare fname idx st ++ all_sent_bare fname (S idx) sts'
  end.

(** The statement is skipped as a meta command or accepted by the
    database. *)
Definition passes (env : Env) (st : SQLStmt) : Prop :=
  is_meta st = true ∨ replies env (execute st) (Ok tt).

(** The [finally] of [DDLRunner.run]: the connection gets back the
    autocommit it had. *)
Definition restore (conn : Conn) (o : result unit) : list entry :=
  match autocommit conn with
  | Some v => [Called (ConnSetAutocommit (Some v)) o]
  | None => []
  end.

(** The record of a refused statement in the log. *)
Definition logged_error (fname : pystr) (idx : nat) (st : SQLStmt) : entry :=
  ok (Log ERROR fmt_ddl_error
        [AStr fname; AInt idx; AInt (start_line st);
         AStr (take 2000 (strip (sql st)))]).

(** [run_sql_files]: whether percent signs are doubled for the driver,
    and the statement as it is sent. *)
Definition escapes (engine : Engine) : bool :=
  bool_decide (paramstyle engine = Some (py "pyformat")
               ∨ paramstyle engine = Some (py "format")).

Definition driver_sql (escape : bool) (st : SQLStmt) : req unit :=
  ExecDriverSql
    (if escape then escape_pct (strip (sql st)) else strip (sql st)).

(** A driver error whose SQLSTATE is on the list to ignore. *)
Definition ignored (ignore_sqlstates : gset pystr) (e : exn) : bool :=
  match e with
  | DBAPIError (Some c) => bool_decide (c ∈ ignore_sqlstates)
  | _ => false
  end.

(** The SQLSTATE as the warning prints it. *)
Definition sqlstate_text (e : exn) : pystr :=
  match e with
  | DBAPIError (Some c) => c
  | _ => py "None"
  end.

(** The database accepts the statement, or refuses it with an error that
    [run_sql_files] puts up with: an ignored SQLSTATE, or any [Exception]
    when [fail_fast] is off. *)
Definition driver_settles (env : Env) (escape fail_fast : bool)
    (ignore_sqlstates : gset pystr) (st : SQLStmt) (o : result unit)
    : Prop :=
  replies env (driver_sql escape st) o
  ∧ match o with
    | Ok _ => True
    | Raise e =>
        ignored ignore_sqlstates e = true
        ∨ (fail_fast = false ∧ is_Exception e = true)
    end.

(** What statement [idx] leaves in the history of [run_sql_files] when
    the loop goes on after it. *)
Definition driver_block (escape : bool) (ignore_sqlstates : gset pystr)
    (fname : pystr) (idx : nat) (st : SQLStmt) (o : result unit)
    : list entry :=
  if is_meta st then
    [ok (Log WARNING
           (py "Skipping psql meta command in %s (stmt %d line %d): %s")
           [AStr fname; AInt idx; AInt (start_line st);
            AStr (take 120 (strip (sql st)))])]
  else
    match o with
    | Ok _ => [Called (driver_sql escape st) o]
    | Raise e =>
        [Called (driver_sql escape st) o;
         if ignored ignore_sqlstates e then
           ok (Log WARNING
                 (py "Ignoring DDL error in %s (stmt %d line %d) sqlstate=%s")
                 [AStr fname; AInt idx; AInt (start_line st);
                  AStr (sqlstate_text e)])
         else logged_error fname idx st]
    end.

Fixpoint driver_blocks (escape : bool) (ignore_sqlstates : gset pystr)
    (fname : pystr) (idx : nat) (sts : list SQLStmt)
    (outcomes : list (result unit)) : list entry :=
  match sts, outcomes with
  | st :: sts', o :: outcomes' =>
      driver_block escape ignore_sqlstates fname idx st o
      ++ driver_blocks escape ignore_sqlstates fname (S idx) sts' outcomes'
  | _, _ => []
  end.

End RunnerSpec.
Export RunnerSpec.

(** ** A second world: a driver that refuses a statement *)

Module Picky.

(** As [Demo.answer], but [exec_driver_sql] refuses the statements that
    start with BOGUS, as a duplicate object (SQLSTATE 42710). *)
Definition answer (A : Type) (h : list entry) (r : req A) : result A :=
  match r in req A0 return result A0 with
  | ExecDriverSql q =>
      if startswith q (py "BOGUS") then Raise (DBAPIError (Some (py "42710")))
      else Ok tt
  | other => Demo.answer _ h other
  end.

Definition env : Env :=
  {| env_isalnum := ascii_isalnum;
     env_upper := Demo.ascii_upper;
     env_int := λ _, Raise (ValueError InvalidLiteral);
     env_module_file := [py "savh_etl"; py "load"; py "load.py"];
     respond := answer |}.

End Picky.

(** ** Vocabulary for what [load] writes *)

Module LoadSpec.

(** If the call is a bulk insert, it appends, without the index and in
    chunks of [pg_chunksize], to the schema that [_schema_for_table] gives
    the table. *)
Definition mapped_append (a : load_args) (e : entry) : Prop :=
  match e with
  | Called r _ =>
      match r with
      | ToSql _ name schema if_exists index chunksize method =>
          schema = _schema_for_table name (core_schema a) (ingest_schema a)
                     (audit_schema a)
          ∧ if_exists = py "append" ∧ index = false
          ∧ chunksize = pg_chunksize a ∧ method = Some (py "multi")
      | _ => True
      end
  end.

(** Every dataset handed to [load] is an empty DataFrame. *)
Definition all_empty (a : load_args) : Prop :=
  ∀ k v, (k, v) ∈ dict_df a → ∃ df, v = Some df ∧ df_empty df = true.

(** The process environment holds no DSN: each variable is unset or
    empty. *)
Definition no_dsn_in_environment (env : Env) : Prop :=
  ∀ h name,
    respond env (option pystr) h (GetEnv name) = Ok None
    ∨ respond env (option pystr) h (GetEnv name) = Ok (Some []).

(** The three variables [load] reads, in order. *)
Definition dsn_variables : list pystr :=
  [py "SAVH_ETL_PG_DSN"; py "DATABASE_URL"; py "POSTGRES_DSN"].

(** Among the calls [new], a bulk insert of [rows] rows into
    [schema.table] went through and its transaction was committed. *)
Definition inserted (new : list entry) (schema table : pystr) (rows : nat)
    : Prop :=
  ∃ df if_exists index chunksize method before after,
    new = before
          ++ [Called (ToSql df table schema if_exists index chunksize method)
                (Ok tt);
              Called TxCommit (Ok tt)]
          ++ after
    ∧ df_len df = rows.

(** Every count of the dictionary stands for such an insert. *)
Definition backed (new : list entry) (rows_by_table : list (pystr * nat))
    : Prop :=
  ∀ key rows, (key, rows) ∈ rows_by_table →
    ∃ schema table,
      key = schema ++ [DOT] ++ table ∧ inserted new schema table rows.

End LoadSpec.
Export LoadSpec.

(** ** Vocabulary for the plan, the identifiers and the datasets *)

Module PlanSpec.

(** Every spec of [order] stands after a spec of each name it depends
    on. *)
Definition placed_after_deps (order : list TableSpec.t) : bool :=
  forallb
    (λ js : nat * TableSpec.t,
       forallb
         (λ dep : pystr,
            existsb (λ sd, bool_decide (TableSpec.name sd = dep))
              (take js.1 order))
         (TableSpec.depends_on js.2))
    (imap pair order).

(** Double quotes come in adjacent pairs only; [pending] tells that the
    character before was the first of a pair. *)
Fixpoint quotes_paired_from (pending : bool) (w : pystr) : bool :=
  match w with
  | [] => negb pending
  | c :: w' =>
      if (c =? DQ)%N then quotes_paired_from (negb pending) w'
      else negb pending && quotes_paired_from false w'
  end.

Definition quotes_paired (w : pystr) : bool := quotes_paired_from false w.

(** A missing value of pandas that is not [None]. *)
Definition is_nan (c : cell) : bool :=
  match c with CNaN | CNaT => true | _ => false end.

(** What stands for a missing value [v] in a column of type [t] once
    None is written over it: None in an object column, NaN in a float
    column, NaT in a datetime column; an integer or boolean column is
    left as it is. *)
Definition missing_as (t : dtype) (v : cell) : cell :=
  match t with
  | object => CNone
  | float64 => CNaN
  | datetime64 => CNaT
  | int64 | bool_ => v
  end.

End PlanSpec.
Export PlanSpec.

(** ** Vocabulary for the use of the engine's connections *)

Module Protocol.

(** What the code holds of the engine at a point of a run: nothing, a
    connection of [engine.connect()], or the transaction of
    [engine.begin()]. *)
Inductive session := Idle | Connected | InTransaction.

(** The session after one call, [None] when the call is out of place: a
    connection or a transaction asked for while one is held, one closed
    that is not held, a query without either, a driver statement or a bulk
    insert outside a transaction. *)
Definition after (s : session) (e : entry) : option session :=
  match e with
  | Called r o =>
      match r with
      | EngineConnect =>
          match s with
          | Idle => Some (match o with Ok _ => Connected | Raise _ => Idle end)
          | _ => None
          end
      | ConnectionClose =>
          match s with Connected => Some Idle | _ => None end
      | EngineBegin =>
          match s with
          | Idle =>
              Some (match o with Ok _ => InTransaction | Raise _ => Idle end)
          | _ => None
          end
      | TxCommit | TxRollback =>
          match s with InTransaction => Some Idle | _ => None end
      | Execute _ _ =>
          match s with Idle => None | _ => Some s end
      | ExecDriverSql _ | ToSql _ _ _ _ _ _ _ =>
          match s with InTransaction => Some s | _ => None end
      | _ => Some s
      end
  end.

(** The session after a sequence of calls. *)
Fixpoint session_after (s : session) (h : list entry) : option session :=
  match h with
  | [] => Some s
  | e :: h' =>
      match after s e with
      | Some s' => session_after s' h'
      | None => None
      end
  end.

(** Run in session [s], the action makes no call out of place and leaves
    the session as it found it. *)
Definition keeps {A} (s : session) (m : M A) : Prop :=
  ∀ env h, ∃ new, (m env h).1 = h ++ new ∧ session_after s new = Some s.

End Protocol.
Export Protocol.

(** ** Vocabulary for the calls of [sync_identity_sequences] *)

Module SyncSpec.

(** The statement and the parameters of a query that sets a sequence. *)
Definition setval_call (e : entry)
    : option (pystr * list (pystr * dbval)) :=
  match e with
  | Called r _ =>
      match r with
      | Execute q params =>
          if startswith q (py "SELECT setval(") then Some (q, params)
          else None
      | _ => None
      end
  end.

(** The exception with which a call was answered, when it was. *)
Definition refusal (e : entry) : option exn :=
  match e with
  | Called _ o => match o with Raise x => Some x | Ok _ => None end
  end.

(** [int(v)], which reads no more of the world than its table of
    literals. *)
Definition int_value (env : Env) (v : dbval) : result Z :=
  (int_of_dbval v env []).2.

(** The query [q] with [params] sets the sequence that the run [new]
    found for the column: the run is one transaction in which, in this
    order and with nothing between, the catalogue named the column, then
    named its sequence, then gave the greatest value of the column, and
    then [q] was sent, which puts that sequence before 1 when there is no
    value and on the greatest value otherwise; the transaction is closed
    right after it. *)
Definition sets_sequence_found (schema table id_column : pystr) (env : Env)
    (new : list entry) (q : pystr) (params : list (pystr * dbval)) : Prop :=
  ∃ rows1 rows2 rows3 o close,
    new
    = [ Called EngineBegin (Ok tt);
        Called (Execute sql_column_exists
                  [(py "schema", DText schema); (py "table", DText table);
                   (py "col", DText id_column)]) (Ok rows1);
        Called (Execute (py "SELECT pg_get_serial_sequence(:tbl, :col);")
                  [(py "tbl", DText (schema ++ [DOT] ++ table));
                   (py "col", DText id_column)]) (Ok rows2);
        Called (Execute
                  (py "SELECT MAX(" ++ _quote_ident id_column ++ py ") FROM "
                   ++ _quote_ident schema ++ [DOT] ++ _quote_ident table
                   ++ py ";") []) (Ok rows3);
        Called (Execute q params) o;
        close ]
    ∧ (∃ c, close = Called TxCommit c ∨ close = Called TxRollback c)
    ∧ dbval_truthy (scalar rows1) = true
    ∧ dbval_truthy (scalar rows2) = true
    ∧ ((scalar rows3 = DNull
        ∧ q = py "SELECT setval(CAST(:seq AS regclass), 1, false);"
        ∧ params = [(py "seq", scalar rows2)])
       ∨ (∃ v, scalar rows3 ≠ DNull
               ∧ int_value env (scalar rows3) = Ok v
               ∧ q = py "SELECT setval(CAST(:seq AS regclass), :v, true);"
               ∧ params = [(py "seq", scalar rows2); (py "v", DInt v)])).

End SyncSpec.
Export SyncSpec.

(** ** A third world: a role that may not touch the sequences *)

Module Unprivileged.

(** As [Demo.answer], but every [setval] is refused for lack of privilege
    (SQLSTATE 42501). *)
Definition answer (A : Type) (h : list entry) (r : req A) : result A :=
  match r in req A0 return result A0 with
  | Execute q params =>
      if startswith q (py "SELECT setval(") then
        Raise (DBAPIError (Some (py "42501")))
      else Demo.answer _ h (Execute q params)
  | other => Demo.answer _ h other
  end.

Definition env : Env :=
  {| env_isalnum := ascii_isalnum;
     env_upper := Demo.ascii_upper;
     env_int := λ _, Raise (ValueError InvalidLiteral);
     env_module_file := [py "savh_etl"; py "load"; py "load.py"];
     respond := answer |}.

End Unprivileged.

(** ** Vocabulary for the calls of [_truncate_all_tables] *)

Module TruncateSpec.

(** The catalogue asked for the base tables of a schema, and its answer. *)
Definition asked (schema : pystr) (rows : list (list dbval)) : entry :=
  Called (Execute sql_base_tables [(py "schema", DText schema)]) (Ok rows).

(** The one statement that truncates the tables, none when there is no
    table. *)
Definition truncation (tables : list (dbval * dbval)) : list entry :=
  match tables with
  | [] => []
  | _ =>
      [Called
         (ExecDriverSql
            (py "TRUNCATE TABLE "
             ++ join (py ", ")
                  ((λ st, _quote_ident (str_of_dbval st.1) ++ [DOT]
                          ++ _quote_ident (str_of_dbval st.2)) <$> tables)
             ++ py " RESTART IDENTITY CASCADE;"))
         (Ok tt)]
  end.

End TruncateSpec.
Export TruncateSpec.

(** ** Vocabulary for the calls of [write_dataframe] *)

Module WriteSpec.

(** The arguments of a bulk insert. *)
Definition write_call (e : entry)
    : option (DataFrame * pystr * pystr * pystr * bool * Z * option pystr) :=
  match e with
  | Called r _ =>
      match r with
      | ToSql df name schema if_exists index chunksize method =>
          Some (df, name, schema, if_exists, index, chunksize, method)
      | _ => None
      end
  end.

(** The answer to a query. *)
Definition query_answer (e : entry) : option (result (list (list dbval))) :=
  match e with
  | Called r o =>
      match r in req A return result A → _ with
      | Execute _ _ => λ o, Some o
      | _ => λ _, None
      end o
  end.

(** The call asks the engine for a transaction. *)
Definition begins (e : entry) : Prop :=
  match e with
  | Called r _ => match r with EngineBegin => True | _ => False end
  end.

End WriteSpec.
Export WriteSpec.

(** ** A fourth world: a database without tables *)

Module Bare.

(** As [Demo.answer], but every query comes back without rows. *)
Definition answer (A : Type) (h : list entry) (r : req A) : result A :=
  match r in req A0 return result A0 with
  | Execute _ _ => Ok []
  | other => Demo.answer _ h other
  end.

Definition env : Env :=
  {| env_isalnum := ascii_isalnum;
     env_upper := Demo.ascii_upper;
     env_int := λ _, Raise (ValueError InvalidLiteral);
     env_module_file := [py "savh_etl"; py "load"; py "load.py"];
     respond := answer |}.

End Bare.

(** ** Vocabulary for the phases of a load *)

Module Phases.

(** Where a run stands: still building the schema, loading the data, or
    finishing the schema around the data. *)
Inductive phase := Schema | Data | Finish.

(** The phase after one call, [None] when the call is out of place: a
    script of the first list is read in the first phase only, a script of
    the second list opens or continues the last phase, no other file is
    read, and a bulk insert opens or continues the second phase and never
    follows the last. *)
Definition after_phase (ph : phase) (e : entry) : option phase :=
  match e with
  | Called r _ =>
      match r with
      | ReadText p =>
          if bool_decide (path_name p ∈ DEFAULT_PRE_DDL_FILES) then
            match ph with Schema => Some Schema | _ => None end
          else if bool_decide (path_name p ∈ DEFAULT_POST_DDL_FILES) then
            Some Finish
          else None
      | ToSql _ _ _ _ _ _ _ =>
          match ph with Finish => None | _ => Some Data end
      | _ => Some ph
      end
  end.

(** The phase after a sequence of calls. *)
Fixpoint phase_after (ph : phase) (h : list entry) : option phase :=
  match h with
  | [] => Some ph
  | e :: h' =>
      match after_phase ph e with
      | Some ph' => phase_after ph' h'
      | None => None
      end
  end.

(** The call neither reads a file nor inserts. *)
Definition quiet (e : entry) : Prop :=
  match e with
  | Called r _ =>
      match r with
      | ReadText _ | ToSql _ _ _ _ _ _ _ => False
      | _ => True
      end
  end.

(** Started in phase [ph], the action makes no call out of place and ends
    in a phase of [Q]. *)
Definition reaches {A} (ph : phase) (Q : phase → Prop) (m : M A) : Prop :=
  ∀ env h, ∃ new ph',
    (m env h).1 = h ++ new ∧ phase_after ph new = Some ph' ∧ Q ph'.

End Phases.
Export Phases.

(** ** A fifth world: a DSN that gives no engine *)

Module Malformed.

(** As [Demo.answer], but [create_engine] refuses the DSN each time it is
    called (sqlalchemy's ArgumentError). *)
Definition answer (A : Type) (h : list entry) (r : req A) : result A :=
  match r in req A0 return result A0 with
  | CreateEngine _ => Raise (OtherError (py "ArgumentError"))
  | other => Demo.answer _ h other
  end.

Definition env : Env :=
  {| env_isalnum := ascii_isalnum;
     env_upper := Demo.ascii_upper;
     env_int := λ _, Raise (ValueError InvalidLiteral);
     env_module_file := [py "savh_etl"; py "load"; py "load.py"];
     respond := answer |}.

End Malformed.

(** * Properties *)

(** ** The statement splitter *)

Section splitter_facts.
Variable isalnum : N → bool.

Lemma dollar_tag_flush st : dollar_tag (flush st) = dollar_tag st.
Proof. unfold flush. by case_match. Qed.

Lemma loop_body_shrinks st ch tl :
  tag_ok st →
  length (loop_body isalnum st ch tl).2 ≤ length tl
  ∧ tag_ok (loop_body isalnum st ch tl).1.
Proof.
  intros Hok. unfold loop_body, tag_ok in *.
  destruct (dollar_tag st) as [[|a tag]|] eqn:Htag;
    [by destruct (Hok [])| |].
  all: repeat case_match; simpl in *;
    (split;
     [ rewrite ?length_drop; simplify_eq/=; lia
     | intros t Ht; rewrite ?dollar_tag_flush in Ht; simpl in Ht;
       try (case_match; simpl in Ht); by simplify_eq ]).
Qed.

Lemma scan_exhausts fuel st rest :
  tag_ok st → length rest ≤ fuel → (scan isalnum fuel st rest).2 = [].
Proof.
  revert st rest. induction fuel as [|fuel IH]; intros st rest Hok Hlen.
  - destruct rest; simpl in *; [done | lia].
  - destruct rest as [|ch tl]; [done|]. simpl.
    destruct (loop_body_shrinks st ch tl Hok) as [Hl Hok'].
    destruct (loop_body isalnum st ch tl) as [st' rest']. simpl in *.
    apply IH; [done | lia].
Qed.

Lemma in_region_mark c st : in_region (mark c st) = in_region st.
Proof. unfold mark. by repeat case_match. Qed.

Lemma loop_body_plain st c tl :
  in_region st = false → plain c = true →
  loop_body isalnum st c tl = (push c (mark c st), tl).
Proof.
  intros Hr Hp. unfold loop_body. fold (mark c st).
  pose proof (in_region_mark c st) as Hm. rewrite Hr in Hm.
  unfold in_region in Hm.
  destruct (mark c st) as [o b sq dq lc bc dt l ssl s]; simpl in *.
  destruct sq, dq, lc, bc, dt; try discriminate; simpl.
  unfold plain in Hp.
  destruct (c =? DASH)%N eqn:E1; [apply N.eqb_eq in E1; subst; done|].
  destruct (c =? SLASH)%N eqn:E2; [apply N.eqb_eq in E2; subst; done|].
  destruct (c =? SQ)%N eqn:E3; [apply N.eqb_eq in E3; subst; done|].
  destruct (c =? DQ)%N eqn:E4; [apply N.eqb_eq in E4; subst; done|].
  destruct (c =? DOLLAR)%N eqn:E5; [apply N.eqb_eq in E5; subst; done|].
  destruct (c =? SEMI)%N eqn:E6; [apply N.eqb_eq in E6; subst; done|].
  done.
Qed.

Lemma loop_body_semi st tl :
  in_region st = false →
  loop_body isalnum st SEMI tl = (flush (push SEMI (mark SEMI st)), tl).
Proof.
  intros Hr. unfold loop_body. fold (mark SEMI st).
  pose proof (in_region_mark SEMI st) as Hm. rewrite Hr in Hm.
  unfold in_region in Hm.
  destruct (mark SEMI st) as [o b sq dq lc bc dt l ssl s]; simpl in *.
  destruct sq, dq, lc, bc, dt; try discriminate; done.
Qed.

Lemma in_region_flush st : in_region (flush st) = in_region st.
Proof. unfold flush. by case_match. Qed.

Lemma in_region_push c st : in_region (push c st) = in_region st.
Proof. done. Qed.

Lemma in_region_advance w st : in_region (advance w st) = in_region st.
Proof.
  revert st. induction w as [|c w IH]; intros st; [done|].
  simpl. rewrite IH. apply in_region_mark.
Qed.

Lemma scan_advance w st rest fuel :
  in_region st = false → forallb plain w = true →
  scan isalnum (length w + fuel) st (w ++ rest)
  = scan isalnum fuel (advance w st) rest.
Proof.
  revert st. induction w as [|c w IH]; intros st Hr Hp; [done|].
  simpl in Hp. apply andb_prop in Hp as [Hc Hw].
  simpl. rewrite loop_body_plain by done.
  apply IH; [|done]. by rewrite <- Hr, <- (in_region_mark c st).
Qed.

Lemma advance_newlines k st :
  advance (replicate (S k) NL) st
  = with_started true
      (with_stmt_start_line
         (if started st then stmt_start_line st else line st + 1)
         (with_line (line st + S k)
            (with_buf (buf st ++ replicate (S k) NL) st))).
Proof.
  revert st. induction k as [|k IH]; intros st.
  - destruct st as [o b sq dq lc bc dt l ssl []]; reflexivity.
  - change (replicate (S (S k)) NL) with (NL :: replicate (S k) NL).
    cbn [advance]. rewrite IH.
    destruct st as [o b sq dq lc bc dt l ssl []]; cbn.
    all: unfold with_started, with_stmt_start_line, with_line, with_buf; cbn.
    all: f_equal; try lia.
    all: by rewrite <- app_assoc.
Qed.

Lemma lstrip_newlines k s :
  lstrip_with isspace (replicate k NL ++ s) = lstrip_with isspace s.
Proof. induction k; [done|]. simpl. done. Qed.

Lemma strip_newlines k s : strip (replicate k NL ++ s) = strip s.
Proof. unfold strip, strip_with. by rewrite lstrip_newlines. Qed.

Lemma replace_bom_newlines k s :
  replace_char BOM [] (replicate k NL ++ s)
  = replicate k NL ++ replace_char BOM [] s.
Proof.
  unfold replace_char. rewrite bind_app. f_equal.
  induction k; [done|]. simpl. by f_equal.
Qed.

Lemma advance_no_newline w st :
  no_newline w = true → w ≠ [] →
  advance w st
  = with_started true
      (with_stmt_start_line
         (if started st then stmt_start_line st else line st)
         (with_buf (buf st ++ w) st)).
Proof.
  revert st. induction w as [|c w IH]; intros st Hn Hw; [done|].
  simpl in Hn. apply andb_prop in Hn as [Hc Hn].
  apply negb_true_iff in Hc.
  cbn [advance]. unfold mark. rewrite Hc.
  destruct w as [|c' w].
  - destruct st as [o b sq dq lc bc dt l ssl []]; reflexivity.
  - rewrite IH by done.
    destruct st as [o b sq dq lc bc dt l ssl []]; cbn;
      unfold with_started, with_stmt_start_line, with_buf; cbn;
      by rewrite <- app_assoc.
Qed.

Lemma flush_statement st s :
  strip (buf st) = s →
  truthy s && truthy (strip_chars [SEMI] (strip s)) = true →
  flush st
  = with_started false
      (with_buf []
         (with_out
            (out st ++ [{| sql := s; start_line := stmt_start_line st |}])
            st)).
Proof. intros <- H. unfold flush. by rewrite H. Qed.

Lemma mark_started c st :
  started st = true → (c =? NL)%N = false → mark c st = st.
Proof. intros H1 H2. unfold mark. by rewrite H2, H1. Qed.

Lemma flush_nothing st :
  buf st = [] → flush st = with_started false (with_buf [] st).
Proof. intros H. unfold flush. by rewrite H. Qed.

(** C3, as amended: "SELECT 1; SELECT 2;" preceded by [k] newlines splits
    into exactly two statements; each carries the line at which its
    buffering started: line 1 for the first when [k = 0] and line 2 for
    every [k >= 1], line [k + 1] for the second. *)
Theorem split_two_statements_lines (k : nat) :
  _split_sql_statements isalnum (replicate k NL ++ py "SELECT 1; SELECT 2;")
  = [ {| sql := py "SELECT 1;";
         start_line := match k with 0 => 1 | S _ => 2 end |};
      {| sql := py "SELECT 2;"; start_line := k + 1 |} ].
Proof.
  unfold _split_sql_statements.
  rewrite replace_bom_newlines.
  set (w1 := py "SELECT 1"). set (w2 := py " SELECT 2").
  assert (replace_char BOM [] (py "SELECT 1; SELECT 2;")
          = w1 ++ SEMI :: w2 ++ [SEMI]) as -> by reflexivity.
  rewrite length_app.
  destruct k as [|k].
  - vm_compute. reflexivity.
  - rewrite scan_advance; [|done|by induction k].
    rewrite advance_newlines.
    change (length (w1 ++ SEMI :: w2 ++ [SEMI]))
      with (length w1 + (1 + (length w2 + 1))).
    rewrite scan_advance; [|done|done].
    cbn [scan Nat.add]. rewrite loop_body_semi by (by rewrite in_region_advance).
    rewrite (scan_advance w2 _ [SEMI] 1);
      [|by rewrite in_region_flush, in_region_push, in_region_mark,
           in_region_advance|done].
    cbn [scan Nat.add]. rewrite loop_body_semi
      by (by rewrite in_region_advance, in_region_flush, in_region_push,
               in_region_mark, in_region_advance).
    cbn [fst].
    rewrite (advance_no_newline w1) by done.
    match goal with
    | |- context [mark SEMI (with_started true ?b)] =>
        rewrite (mark_started SEMI (with_started true b)) by done
    end.
    match goal with
    | |- context [advance w2 (flush ?X)] =>
        rewrite (flush_statement X (py "SELECT 1;"))
    end.
    2:{ cbn [buf with_started with_stmt_start_line with_line with_buf
              push scanner_init started app].
        rewrite <- app_assoc. by rewrite strip_newlines. }
    2: done.
    rewrite (advance_no_newline w2) by done.
    match goal with
    | |- context [mark SEMI (with_started true ?b)] =>
        rewrite (mark_started SEMI (with_started true b)) by done
    end.
    match goal with
    | |- context [flush (flush ?X)] =>
        rewrite (flush_statement X (py "SELECT 2;")); [|done|done]
    end.
    rewrite flush_nothing by done.
    cbn. by rewrite Nat.add_1_r.
Qed.
End splitter_facts.

Section splitter_claims.
Variable isalnum : N → bool.

Lemma scan_loop_head text fuel st rest :
  loop_head isalnum text st rest →
  loop_head isalnum text (scan isalnum fuel st rest).1
    (scan isalnum fuel st rest).2.
Proof.
  revert st rest. induction fuel as [|fuel IH]; intros st rest H; [done|].
  destruct rest as [|ch tl]; [done|]. simpl.
  apply head_next in H.
  destruct (loop_body isalnum st ch tl) as [st' rest']. by apply IH.
Qed.

(** The loop leaves with the whole text read: the statements returned are
    those of a loop head with no input left, after the last [flush()]. *)
Lemma split_reads_all text :
  ∃ st, loop_head isalnum text st []
        ∧ _split_sql_statements isalnum text = out (flush st).
Proof.
  unfold _split_sql_statements.
  set (t := replace_char BOM [] text).
  pose proof (scan_loop_head text (length t) _ _ (head_first isalnum text))
    as H.
  pose proof (scan_exhausts isalnum (length t) scanner_init t) as E.
  fold t in H. rewrite E in H; [|done|done]. eauto.
Qed.

Lemma loop_body_semi_in_region st tl :
  in_region st = true →
  loop_body isalnum st SEMI tl = (push SEMI (mark SEMI st), tl).
Proof.
  intros Hr. unfold loop_body. fold (mark SEMI st).
  pose proof (in_region_mark SEMI st) as Hm. rewrite Hr in Hm.
  unfold in_region in Hm.
  destruct (mark SEMI st) as [o b sq dq lc bc dt l ssl s]; simpl in *.
  destruct lc; [done|]. destruct bc; [done|].
  destruct dt as [tag|]; [done|].
  destruct sq, dq; try discriminate; done.
Qed.

(** A statement is emitted only by an iteration that reads [;] outside
    every region. *)
Lemma boundary_only_at_plain_semicolon st ch tl :
  out (loop_body isalnum st ch tl).1 ≠ out st →
  ch = SEMI ∧ in_region st = false.
Proof.
  intros Hout.
  destruct (in_region st) eqn:Hr.
  - exfalso. apply Hout. clear Hout. unfold loop_body. fold (mark ch st).
    pose proof (in_region_mark ch st) as Hm. rewrite Hr in Hm.
    assert (out (mark ch st) = out st) as <-
      by (unfold mark; by repeat case_match).
    unfold in_region in Hm.
    destruct (mark ch st) as [o b sq dq lc bc dt l ssl s]; simpl in *.
    destruct lc; [by repeat case_match|].
    destruct bc; [by repeat case_match|].
    destruct dt as [tag|]; [by repeat case_match|].
    destruct sq, dq; try discriminate; simpl;
      rewrite ?andb_false_r; by repeat case_match.
  - split; [|done]. destruct (ch =? SEMI)%N eqn:E;
      [by apply N.eqb_eq in E|].
    exfalso. apply Hout. clear Hout. unfold loop_body. fold (mark ch st).
    assert (out (mark ch st) = out st) as <-
      by (unfold mark; by repeat case_match).
    destruct (mark ch st) as [o b sq dq lc bc dt l ssl s]; simpl in *.
    rewrite E. by repeat case_match.
Qed.

(** C1: on the input that holds only the line comment
    "-- only a comment" and a newline the splitter returns one statement,
    the comment itself, where an empty list is expected. *)
Theorem comment_only_input_yields_a_statement :
  _split_sql_statements isalnum (py "-- only a comment" ++ [NL])
  = [ {| sql := py "-- only a comment"; start_line := 1 |} ].
Proof. vm_compute. reflexivity. Qed.

End splitter_claims.

(** C3, as stated, fails: with two leading newlines the first statement
    reports line 2, not line 3. *)
Lemma first_statement_line_is_not_k_plus_1 :
  start_line <$>
    head (_split_sql_statements ascii_isalnum
            (replicate 2 NL ++ py "SELECT 1; SELECT 2;"))
  ≠ Some (2 + 1).
Proof. vm_compute. intros [=]. Qed.

Example split_semicolon_in_string :
  _split_sql_statements ascii_isalnum (py "SELECT 'a;b'; SELECT 2")
  = [ {| sql := py "SELECT 'a;b';"; start_line := 1 |};
      {| sql := py "SELECT 2"; start_line := 1 |} ].
Proof. vm_compute. reflexivity. Qed.

Example split_semicolon_in_dollar_block :
  _split_sql_statements ascii_isalnum (py "DO $f$ a; b $f$; SELECT 2;")
  = [ {| sql := py "DO $f$ a; b $f$;"; start_line := 1 |};
      {| sql := py "SELECT 2;"; start_line := 1 |} ].
Proof. vm_compute. reflexivity. Qed.

Example split_semicolon_in_comments :
  _split_sql_statements ascii_isalnum
    (py "A /* x; y */ -- z; w" ++ [NL] ++ py "; B")
  = [ {| sql := py "A /* x; y */ -- z; w" ++ [NL] ++ py ";";
         start_line := 1 |};
      {| sql := py "B"; start_line := 2 |} ].
Proof. vm_compute. reflexivity. Qed.

(** ** Insertion-ordered dictionaries *)

Section odict_facts.
Context {K V : Type} `{EqDecision K}.
Implicit Types (d : odict K V) (k : K) (v : V).

Lemma od_get_Some_elem d k v : od_get k d = Some v → (k, v) ∈ d.
Proof.
  induction d as [|[k' v'] d IH]; simpl; [done|].
  case_decide; intros ?; simplify_eq; [left | right; auto].
Qed.

Lemma od_get_is_Some d k : is_Some (od_get k d) ↔ k ∈ od_keys d.
Proof.
  unfold od_keys. induction d as [|[k' v'] d IH]; simpl.
  - split; [by intros [? ?] | by intros ?%elem_of_nil].
  - rewrite elem_of_cons. case_decide; simplify_eq/=.
    + split; eauto.
    + rewrite IH. naive_solver.
Qed.

Lemma od_get_elem d k v : NoDup (od_keys d) → (k, v) ∈ d → od_get k d = Some v.
Proof.
  unfold od_keys. induction d as [|[k' v'] d IH]; simpl.
  - by intros _ ?%elem_of_nil.
  - rewrite NoDup_cons, elem_of_cons. intros [Hk Hd] [?|Hin]; simplify_eq.
    + by rewrite decide_True.
    + rewrite decide_False; [auto|]. intros ->. apply Hk.
      apply list_elem_of_fmap. by exists (k', v).
Qed.

Lemma od_keys_set d k v :
  od_keys (od_set k v d)
  = if decide (k ∈ od_keys d) then od_keys d else od_keys d ++ [k].
Proof.
  unfold od_keys. induction d as [|[k' v'] d IH]; [done|].
  cbn [od_set]. destruct (decide (k = k')) as [->|Hne];
    rewrite !fmap_cons; cbn [fst].
  - rewrite decide_True; [done | left].
  - rewrite IH. destruct (decide (k ∈ d.*1)).
    + rewrite decide_True; [done | by right].
    + rewrite decide_False; [done|]. rewrite elem_of_cons. naive_solver.
Qed.

Lemma od_get_set d k v k' :
  od_get k' (od_set k v d) = if decide (k' = k) then Some v else od_get k' d.
Proof.
  induction d as [|[k0 v0] d IH]; simpl.
  - by repeat case_decide.
  - repeat (case_decide; simplify_eq/=); try done.
    all: rewrite ?decide_True by done; rewrite ?decide_False by done; try done.
    all: by rewrite IH, ?decide_True, ?decide_False by done.
Qed.

Lemma od_set_NoDup d k v : NoDup (od_keys d) → NoDup (od_keys (od_set k v d)).
Proof.
  intros Hd. rewrite od_keys_set. case_decide; [done|].
  apply NoDup_app. split_and!; [done| |apply NoDup_singleton].
  intros x Hx ->%list_elem_of_singleton. done.
Qed.

Lemma length_od_set d k v :
  length (od_set k v d)
  = if decide (k ∈ od_keys d) then length d else S (length d).
Proof.
  transitivity (length (od_keys (od_set k v d)));
    [unfold od_keys; by rewrite length_fmap|].
  rewrite od_keys_set. unfold od_keys.
  case_decide; rewrite ?length_app, !length_fmap; simpl; lia.
Qed.

Section of_list.
Context {X : Type} (key : X → K) (val : X → V).

Lemma od_fold_keys (l : list X) d :
  NoDup (od_keys d) →
  let d' := foldl (λ d x, od_set (key x) (val x) d) d l in
  NoDup (od_keys d')
  ∧ (∀ k, k ∈ od_keys d' ↔ k ∈ od_keys d ∨ k ∈ key <$> l)
  ∧ length d' ≤ length d + length l.
Proof.
  revert d. induction l as [|x l IH]; intros d Hd; simpl.
  - split_and!; [done| |lia]. intros k. rewrite elem_of_nil. naive_solver.
  - destruct (IH (od_set (key x) (val x) d)) as (H1 & H2 & H3);
      [by apply od_set_NoDup|].
    split_and!; [done| |].
    + intros k. rewrite H2, od_keys_set, elem_of_cons.
      case_decide; rewrite ?elem_of_app, ?list_elem_of_singleton; naive_solver.
    + rewrite length_od_set in H3. case_decide; lia.
Qed.

Lemma od_of_list_NoDup l : NoDup (od_keys (od_of_list key val l)).
Proof. apply (od_fold_keys l []). constructor. Qed.

Lemma od_of_list_keys l k :
  k ∈ od_keys (od_of_list key val l) ↔ k ∈ key <$> l.
Proof.
  destruct (od_fold_keys l []) as (_ & H2 & _); [constructor|].
  rewrite H2. unfold od_keys. simpl. rewrite elem_of_nil. naive_solver.
Qed.

Lemma od_of_list_length l : length (od_of_list key val l) ≤ length l.
Proof.
  destruct (od_fold_keys l []) as (_ & _ & H3); [constructor|]. done.
Qed.

Lemma od_fold_get (l : list X) d k v :
  od_get k (foldl (λ d x, od_set (key x) (val x) d) d l) = Some v →
  od_get k d = Some v ∨ ∃ x, x ∈ l ∧ key x = k ∧ v = val x.
Proof.
  revert d. induction l as [|x l IH]; intros d; simpl; [auto|].
  intros [Hg|(y & ? & ? & ?)]%IH.
  - rewrite od_get_set in Hg. case_decide; simplify_eq.
    + right. exists x. split; [left|done].
    + by left.
  - right. exists y. split; [by right|done].
Qed.

Lemma od_of_list_get l k v :
  od_get k (od_of_list key val l) = Some v →
  ∃ x, x ∈ l ∧ key x = k ∧ v = val x.
Proof. intros [?|?]%od_fold_get; [done|done]. Qed.

Lemma od_fold_nodup (l : list X) d :
  NoDup (od_keys d ++ (key <$> l)) →
  foldl (λ d x, od_set (key x) (val x) d) d l
  = d ++ ((λ x, (key x, val x)) <$> l).
Proof.
  revert d. induction l as [|x l IH]; intros d Hd; simpl.
  - by rewrite app_nil_r.
  - assert (od_set (key x) (val x) d = d ++ [(key x, val x)]) as Hs.
    { clear IH. apply NoDup_app in Hd as (_ & Hd & _).
      assert (key x ∉ od_keys d) as Hx
        by (intros ?; eapply Hd; [done | left]).
      clear Hd. unfold od_keys in Hx.
      induction d as [|[k' v'] d IH]; simpl; [done|].
      rewrite fmap_cons, not_elem_of_cons in Hx. destruct Hx as [? ?].
      rewrite decide_False by done. by rewrite IH. }
    rewrite Hs, IH, <- app_assoc; [done|].
    unfold od_keys. rewrite fmap_app. simpl.
    rewrite <- app_assoc. done.
Qed.

Lemma od_of_list_nodup l :
  NoDup (key <$> l) → od_of_list key val l = (λ x, (key x, val x)) <$> l.
Proof. intros H. by apply (od_fold_nodup l []). Qed.
End of_list.

End odict_facts.

Lemma od_of_list_same_keys {K X V V'} `{EqDecision K} (key : X → K)
    (val : X → V)
    (val' : X → V') (l : list X) :
  od_keys (od_of_list key val l) = od_keys (od_of_list key val' l).
Proof.
  unfold od_of_list.
  assert (∀ (a : odict K V) (a' : odict K V'),
            od_keys a = od_keys a' →
            od_keys (foldl (λ acc x, od_set (key x) (val x) acc) a l)
            = od_keys (foldl (λ acc x, od_set (key x) (val' x) acc) a' l))
    as H0.
  { induction l as [|x l IH]; intros a a' Ha; simpl; [done|].
    apply IH. rewrite !od_keys_set, Ha. done. }
  by apply H0.
Qed.

(** ** The load plan *)

Implicit Types (inc : list (pystr * gset pystr)) (ready : list pystr).
Implicit Types (ordered : list TableSpec.t) (s : TableSpec.t).
Implicit Types (n m d : pystr) (S P : gset pystr).

Lemma pop_snoc {A} (l : list A) x : pop (l ++ [x]) = Some (x, l).
Proof. unfold pop. by rewrite reverse_snoc, reverse_involutive. Qed.

Lemma pop_Some {A} (l : list A) x r : pop l = Some (x, r) → l = r ++ [x].
Proof.
  unfold pop. destruct (reverse l) as [|y r'] eqn:E; [done|].
  intros [= -> <-]. rewrite <- (reverse_involutive l), E.
  by rewrite reverse_cons.
Qed.

Lemma pop_None {A} (l : list A) : pop l = None → l = [].
Proof.
  unfold pop. destruct (reverse l) eqn:E; [|done]. intros _.
  by rewrite <- (reverse_involutive l), E.
Qed.

Lemma relax_spec (n : pystr) inc ready :
  relax n inc ready
  = (minus {[n]} inc,
     ready ++ (filter (λ e, n ∈ e.2 ∧ e.2 ∖ {[n]} = ∅) inc).*1).
Proof.
  revert ready. induction inc as [|[m deps] inc IH]; intros ready.
  - simpl. by rewrite app_nil_r.
  - cbn [relax]. unfold minus. rewrite fmap_cons, filter_cons. cbn [fst snd].
    destruct (decide (n ∈ deps)) as [Hin|Hin].
    + rewrite bool_decide_eq_true_2 by done.
      rewrite IH. destruct (decide (deps ∖ {[n]} = ∅)) as [He|He].
      * rewrite bool_decide_eq_true_2 by done.
        rewrite decide_True by done. rewrite fmap_cons. cbn [fst].
        by rewrite <- app_assoc.
      * rewrite bool_decide_eq_false_2 by done.
        rewrite decide_False by naive_solver. done.
    + rewrite bool_decide_eq_false_2 by done.
      rewrite IH, decide_False by naive_solver.
      replace (deps ∖ {[n]}) with deps by set_solver. done.
Qed.

Lemma minus_minus (P Q : gset pystr) inc : minus Q (minus P inc) = minus (P ∪ Q) inc.
Proof.
  unfold minus. rewrite <- list_fmap_compose. apply list_fmap_ext.
  intros i [m S] _. simpl. f_equal. set_solver.
Qed.

Lemma minus_empty inc : minus ∅ inc = inc.
Proof.
  unfold minus. rewrite <- (list_fmap_id inc) at 2. apply list_fmap_ext.
  intros i [m S] _. simpl. f_equal. set_solver.
Qed.

Lemma od_keys_minus (P : gset pystr) (inc : odict pystr (gset pystr)) :
  od_keys (minus P inc) = od_keys inc.
Proof.
  unfold od_keys, minus. rewrite <- list_fmap_compose.
  by apply list_fmap_ext.
Qed.

Lemma elem_of_minus (P : gset pystr) inc (m : pystr) S :
  (m, S) ∈ minus P inc ↔ ∃ S0, (m, S0) ∈ inc ∧ S = S0 ∖ P.
Proof.
  unfold minus. rewrite list_elem_of_fmap. split.
  - intros ([m' S0] & [= -> ->] & Hin). eauto.
  - intros (S0 & Hin & ->). by exists (m, S0).
Qed.

Lemma popped_snoc (ordered : list TableSpec.t) s :
  popped (ordered ++ [s]) = popped ordered ∪ {[TableSpec.name s]}.
Proof.
  unfold popped. rewrite fmap_app, list_to_set_app_L. simpl. set_solver.
Qed.

Lemma elem_of_popped (ordered : list TableSpec.t) (n : pystr) :
  n ∈ popped ordered ↔ n ∈ TableSpec.name <$> ordered.
Proof. unfold popped. apply elem_of_list_to_set. Qed.

Lemma newly_ready_measure (n : pystr) (inc : odict pystr (gset pystr)) :
  length (filter (λ e, n ∈ e.2 ∧ e.2 ∖ {[n]} = ∅) inc)
  + length (filter (λ e, e.2 ≠ ∅) (minus {[n]} inc))
  = length (filter (λ e, e.2 ≠ ∅) inc).
Proof.
  induction inc as [|[m S] inc IH]; [done|].
  unfold minus in *. rewrite fmap_cons, !filter_cons. cbn [fst snd].
  destruct (decide (n ∈ S)) as [Hin|Hin].
  - destruct (decide (S ∖ {[n]} = ∅)) as [He|He].
    + rewrite decide_True by done. rewrite decide_False by naive_solver.
      rewrite decide_True by set_solver. simpl. lia.
    + rewrite decide_False by naive_solver. rewrite decide_True by done.
      rewrite decide_True by set_solver. simpl. lia.
  - rewrite decide_False by naive_solver.
    replace (S ∖ {[n]}) with S by set_solver.
    destruct (decide (S ≠ ∅)); simpl; lia.
Qed.

Lemma ready_of_measure (inc : odict pystr (gset pystr)) :
  kahn_measure inc (ready_of inc) = length inc.
Proof.
  unfold kahn_measure, ready_of. rewrite length_fmap.
  induction inc as [|[m S] inc IH]; [done|].
  rewrite !filter_cons. cbn [snd].
  destruct (decide (S = ∅)).
  - rewrite decide_False by naive_solver. simpl. lia.
  - rewrite decide_True by done. simpl. lia.
Qed.

Lemma empty_minus_singleton n : (∅ : gset pystr) = ∅ ∖ {[n]}.
Proof. set_solver. Qed.

Lemma minus_singleton_empty S n : n ∉ S → S ∖ {[n]} = ∅ → S = ∅.
Proof. set_solver. Qed.

Lemma minus_empty_subseteq S P : ∅ = S ∖ P → S ⊆ P.
Proof.
  intros H x Hx. destruct (decide (x ∈ P)); [done|].
  assert (x ∈ S ∖ P) as Hd by set_solver. rewrite <- H in Hd. set_solver.
Qed.

Section kahn_facts.
Variable by_name : odict pystr TableSpec.t.
Variable inc0 : odict pystr (gset pystr).
Hypothesis Hkeys : od_keys by_name = od_keys inc0.
Hypothesis Hnodup : NoDup (od_keys inc0).
Hypothesis Hname : ∀ n s, od_get n by_name = Some s → TableSpec.name s = n.

Lemma kahn_inv_init : kahn_inv by_name inc0 inc0 (ready_of inc0) [].
Proof.
  unfold kahn_inv. split_and!.
  - unfold popped. simpl. by rewrite minus_empty.
  - rewrite app_nil_r. unfold ready_of.
    eapply sublist_NoDup; [exact Hnodup|].
    unfold od_keys. apply fmap_sublist, sublist_filter.
  - intros m. rewrite app_nil_r. unfold ready_of.
    rewrite list_elem_of_fmap. split.
    + intros ([m' S] & -> & [HS Hin]%list_elem_of_filter).
      simpl in *. by subst.
    + intros Hin. exists (m, ∅). split; [done|].
      by apply list_elem_of_filter.
  - intros i s. by rewrite lookup_nil.
Qed.

Lemma kahn_inv_unique inc ready ordered (m : pystr) (S S' : gset pystr) :
  kahn_inv by_name inc0 inc ready ordered →
  (m, S) ∈ inc → (m, S') ∈ inc → S = S'.
Proof.
  intros (-> & _) H1 H2.
  assert (NoDup (od_keys (minus (popped ordered) inc0))) as Hn
    by (by rewrite od_keys_minus).
  apply (od_get_elem _ _ _ Hn) in H1, H2. congruence.
Qed.

Lemma kahn_inv_step inc ready' (n : pystr) ordered s :
  kahn_inv by_name inc0 inc (ready' ++ [n]) ordered →
  od_get n by_name = Some s →
  kahn_inv by_name inc0 (minus {[n]} inc)
    (ready' ++ (filter (λ e, n ∈ e.2 ∧ e.2 ∖ {[n]} = ∅) inc).*1)
    (ordered ++ [s]).
Proof.
  intros Hinv Hs. pose proof (Hname _ _ Hs) as Hn.
  pose proof (λ m S S', kahn_inv_unique _ _ _ m S S' Hinv) as Huniq.
  destruct Hinv as (Hinc & Hnd & Hrd & Htopo).
  assert ((n, ∅) ∈ inc) as Hn0.
  { apply Hrd. rewrite !elem_of_app, list_elem_of_singleton. auto. }
  assert (NoDup (od_keys inc)) as Hki
    by (subst inc; by rewrite od_keys_minus).
  set (newly := (filter (λ e, n ∈ e.2 ∧ e.2 ∖ {[n]} = ∅) inc).*1).
  assert (∀ m, m ∈ newly ↔ ∃ S, (m, S) ∈ inc ∧ n ∈ S ∧ S ∖ {[n]} = ∅)
    as Hnewly.
  { intros m. unfold newly. rewrite list_elem_of_fmap. split.
    - intros ([m' S] & -> & [HS Hin]%list_elem_of_filter). simpl in *. eauto.
    - intros (S & Hin & H1 & H2). exists (m, S). split; [done|].
      by apply list_elem_of_filter. }
  unfold kahn_inv. split_and!.
  - rewrite Hinc, minus_minus, popped_snoc, Hn. done.
  - rewrite fmap_app. simpl. rewrite Hn.
    rewrite <- app_assoc in Hnd.
    apply NoDup_app in Hnd as (Hr' & Hdisj & Hrest).
    apply NoDup_cons in Hrest as (Hn_ord & Hord).
    rewrite <- app_assoc. apply NoDup_app. split_and!; [done| |].
    + intros x Hx. rewrite !elem_of_app, list_elem_of_singleton.
      intros [Hx'|[Hx'| ->]].
      * apply Hnewly in Hx' as (S & Hin & HnS & _).
        assert ((x, ∅) ∈ inc) as Hx0
          by (apply Hrd; rewrite !elem_of_app; auto).
        rewrite (Huniq _ _ _ Hin Hx0) in HnS.
        by apply not_elem_of_empty in HnS.
      * eapply Hdisj; [done|]. by right.
      * eapply Hdisj; [done|]. left.
    + apply NoDup_app. split_and!.
      * unfold newly. eapply sublist_NoDup; [exact Hki|].
        unfold od_keys. apply fmap_sublist, sublist_filter.
      * intros x (S & Hin & HnS & _)%Hnewly.
        rewrite elem_of_app, list_elem_of_singleton. intros Hx.
        assert ((x, ∅) ∈ inc) as Hx0.
        { apply Hrd. rewrite !elem_of_app, list_elem_of_singleton.
          destruct Hx as [?| ->]; auto. }
        rewrite (Huniq _ _ _ Hin Hx0) in HnS.
        by apply not_elem_of_empty in HnS.
      * apply NoDup_app. split_and!; [done| |apply NoDup_singleton].
        intros x Hx ->%list_elem_of_singleton. done.
  - intros m. rewrite fmap_app. simpl. rewrite Hn.
    rewrite elem_of_minus. rewrite !elem_of_app, list_elem_of_singleton.
    rewrite Hnewly. split.
    + intros [[Hm|(S & Hin & _ & HS)]|[Hm| ->]].
      * exists ∅. split; [|apply empty_minus_singleton]. apply Hrd.
        rewrite !elem_of_app, list_elem_of_singleton. auto.
      * eauto.
      * exists ∅. split; [|apply empty_minus_singleton]. apply Hrd.
        rewrite !elem_of_app, list_elem_of_singleton. auto.
      * exists ∅. split; [done|apply empty_minus_singleton].
    + intros (S & Hin & HS). destruct (decide (n ∈ S)) as [HnS|HnS].
      * left. right. eauto.
      * assert (S = ∅) as -> by (by eapply minus_singleton_empty).
        apply Hrd in Hin.
        rewrite !elem_of_app, list_elem_of_singleton in Hin. tauto.
  - intros i s' Hi. apply lookup_snoc_Some in Hi as [[Hlt Hi]|[-> <-]].
    + rewrite take_app_le by lia. by apply Htopo.
    + split; [by rewrite Hn|]. rewrite Hn, take_app_length.
      assert (is_Some (od_get n inc0)) as [deps Hdeps].
      { apply od_get_is_Some. rewrite <- (od_keys_minus (popped ordered)).
        rewrite <- Hinc. apply od_get_is_Some.
        rewrite (od_get_elem _ _ _ Hki Hn0). eauto. }
      exists deps. split; [done|].
      rewrite Hinc in Hn0. apply elem_of_minus in Hn0 as (S0 & Hin0 & HS0).
      apply (od_get_elem _ _ _ Hnodup) in Hin0.
      assert (S0 = deps) as -> by congruence.
      by apply minus_empty_subseteq.
Qed.

Lemma kahn_runs fuel inc ready ordered :
  kahn_inv by_name inc0 inc ready ordered →
  kahn_measure inc ready ≤ fuel →
  ∃ inc' ordered',
    kahn fuel by_name inc ready ordered = Ok (inc', [], ordered')
    ∧ kahn_inv by_name inc0 inc' [] ordered'.
Proof.
  revert inc ready ordered.
  induction fuel as [|fuel IH]; intros inc ready ordered Hinv Hm.
  - assert (ready = []) as ->.
    { unfold kahn_measure in Hm. destruct ready; [done|simpl in Hm; lia]. }
    simpl. eauto.
  - simpl. destruct (pop ready) as [[n ready']|] eqn:Hpop.
    + apply pop_Some in Hpop as ->.
      assert (is_Some (od_get n by_name)) as [s Hs].
      { apply od_get_is_Some. rewrite Hkeys.
        destruct Hinv as (Hinc & _ & Hrd & _).
        assert ((n, ∅) ∈ inc) as Hn0.
        { apply Hrd. rewrite !elem_of_app, list_elem_of_singleton. auto. }
        rewrite <- (od_keys_minus (popped ordered)), <- Hinc.
        unfold od_keys. by apply list_elem_of_fmap_2' with (n, ∅). }
      rewrite Hs, relax_spec. apply IH.
      * by apply kahn_inv_step.
      * unfold kahn_measure in *.
        pose proof (newly_ready_measure n inc) as Hnew.
        rewrite !length_app, length_fmap in *. simpl in Hm. lia.
    + apply pop_None in Hpop as ->. eauto.
Qed.
End kahn_facts.

(** A finite set in which every member points to another member holds a
    cycle. *)
Lemma closed_set_has_cycle (R : gset pystr) (E : relation pystr) :
  (∀ m, m ∈ R → ∃ d, d ∈ R ∧ E m d) →
  (∀ n, ¬ tc E n n) →
  R = ∅.
Proof.
  intros Hclosed Hacyc. apply set_eq. intros m0. split; [|set_solver].
  intros Hm0. exfalso.
  assert (∀ k, ∃ z rest,
            length rest = k ∧ NoDup (z :: rest)
            ∧ (∀ x, x ∈ z :: rest → x ∈ R)
            ∧ (∀ x, x ∈ rest → tc E x z)) as Hchain.
  { induction k as [|k (z & rest & Hlen & Hnd & HR & Htc)].
    - exists m0, []. split_and!; [done|apply NoDup_singleton| |].
      + by intros x ->%list_elem_of_singleton.
      + by intros x ?%elem_of_nil.
    - destruct (Hclosed z) as (d & HdR & Hzd); [apply HR; left|].
      assert (∀ x, x ∈ z :: rest → tc E x d) as Htc'.
      { intros x [->|Hx]%elem_of_cons; [by apply tc_once|].
        eapply tc_r; [by apply Htc|done]. }
      exists d, (z :: rest). split_and!.
      + simpl. by rewrite Hlen.
      + apply NoDup_cons. split; [|done].
        intros Hd. by apply (Hacyc d), Htc'.
      + intros x [->|Hx]%elem_of_cons; [done|by apply HR].
      + done. }
  destruct (Hchain (size R)) as (z & rest & Hlen & Hnd & HR & _).
  assert (size (list_to_set (z :: rest) : gset pystr) ≤ size R) as Hsz.
  { apply subseteq_size. intros x Hx%elem_of_list_to_set. by apply HR. }
  rewrite size_list_to_set in Hsz by done. simpl in Hsz. lia.
Qed.

Section kahn_end.
Variable by_name : odict pystr TableSpec.t.
Variable inc0 : odict pystr (gset pystr).
Hypothesis Hkeys : od_keys by_name = od_keys inc0.
Hypothesis Hnodup : NoDup (od_keys inc0).
Hypothesis Hname : ∀ n s, od_get n by_name = Some s → TableSpec.name s = n.

Variables (inc : list (pystr * gset pystr)) (ordered : list TableSpec.t).
Hypothesis Hinv : kahn_inv by_name inc0 inc [] ordered.

Lemma kahn_end_names_NoDup : NoDup (TableSpec.name <$> ordered).
Proof. by destruct Hinv as (_ & ? & _). Qed.

Lemma kahn_end_popped_iff m :
  m ∈ TableSpec.name <$> ordered ↔ (m, ∅) ∈ inc.
Proof. destruct Hinv as (_ & _ & H & _). apply (H m). Qed.

Lemma kahn_end_keys : od_keys inc = od_keys inc0.
Proof. destruct Hinv as (-> & _). apply od_keys_minus. Qed.

Lemma kahn_end_popped_key m :
  m ∈ TableSpec.name <$> ordered → m ∈ od_keys inc0.
Proof.
  intros Hm%kahn_end_popped_iff. rewrite <- kahn_end_keys.
  unfold od_keys. by apply list_elem_of_fmap_2' with (m, ∅).
Qed.

(** A popped name has all the names it points to popped at earlier
    places. *)
Lemma kahn_end_edge m d i :
  graph_edge inc0 m d →
  (TableSpec.name <$> ordered) !! i = Some m →
  ∃ j, j < i ∧ (TableSpec.name <$> ordered) !! j = Some d.
Proof.
  intros (deps & Hdeps & Hd) Hi.
  apply list_lookup_fmap_Some in Hi as (s & ? & Hs). subst m.
  destruct Hinv as (_ & _ & _ & Htopo).
  destruct (Htopo i s Hs) as (_ & deps' & Hdeps' & Hsub).
  assert (deps' = deps) as -> by congruence.
  apply Hsub, elem_of_popped, list_elem_of_lookup in Hd as [j Hj].
  rewrite fmap_take in Hj.
  apply lookup_take_Some in Hj as [Hj Hlt]. eauto.
Qed.

Lemma kahn_end_path m d i :
  tc (graph_edge inc0) m d →
  (TableSpec.name <$> ordered) !! i = Some m →
  ∃ j, j < i ∧ (TableSpec.name <$> ordered) !! j = Some d.
Proof.
  intros Htc. revert i. induction Htc as [m d He|m d e He Htc IH]; intros i Hi.
  - by eapply kahn_end_edge.
  - destruct (kahn_end_edge _ _ _ He Hi) as (j & Hj & Hjd).
    destruct (IH j Hjd) as (k & Hk & Hke). exists k. split; [lia|done].
Qed.

(** A name on a cycle is never popped. *)
Lemma kahn_end_cycle n :
  tc (graph_edge inc0) n n → n ∉ TableSpec.name <$> ordered.
Proof.
  intros Htc [i Hi]%list_elem_of_lookup.
  destruct (kahn_end_path _ _ _ Htc Hi) as (j & Hj & Hjn).
  pose proof (NoDup_lookup _ _ _ _ kahn_end_names_NoDup Hi Hjn). lia.
Qed.

(** A name that is not popped is left with a set that is not empty. *)
Lemma kahn_end_unresolved n :
  n ∈ od_keys inc0 → n ∉ TableSpec.name <$> ordered →
  ∃ deps deps0, (n, deps) ∈ filter (λ e, e.2 ≠ ∅) inc
    ∧ od_get n inc0 = Some deps0 ∧ deps = deps0 ∖ popped ordered.
Proof.
  intros Hk Hn. apply od_get_is_Some in Hk as [deps0 Hdeps0].
  exists (deps0 ∖ popped ordered), deps0.
  assert ((n, deps0 ∖ popped ordered) ∈ inc) as Hin.
  { destruct Hinv as (-> & _). apply elem_of_minus.
    exists deps0. split; [by apply od_get_Some_elem|done]. }
  split_and!; [|done|done].
  apply list_elem_of_filter. split; [|done]. simpl.
  intros He. rewrite He in Hin. by apply Hn, kahn_end_popped_iff.
Qed.

Lemma kahn_end_length_lt n :
  n ∈ od_keys inc0 → n ∉ TableSpec.name <$> ordered →
  length ordered < length inc0.
Proof.
  intros Hk Hn.
  assert (n :: (TableSpec.name <$> ordered) ⊆+ od_keys inc0) as Hsub.
  { apply NoDup_submseteq.
    - apply NoDup_cons. split; [done|apply kahn_end_names_NoDup].
    - intros x [->|Hx]%elem_of_cons; [done|by apply kahn_end_popped_key]. }
  apply submseteq_length in Hsub. unfold od_keys in Hsub.
  simpl in Hsub. rewrite !length_fmap in Hsub. lia.
Qed.

(** When every name pointed to is a key and there is no cycle, every key
    is popped. *)
Lemma kahn_end_complete :
  (∀ m d, graph_edge inc0 m d → d ∈ od_keys inc0) →
  (∀ n, ¬ tc (graph_edge inc0) n n) →
  ∀ m, m ∈ od_keys inc0 → m ∈ TableSpec.name <$> ordered.
Proof.
  intros Hpresent Hacyc m Hm.
  destruct (decide (m ∈ TableSpec.name <$> ordered)) as [|Hnot]; [done|].
  exfalso.
  set (R := list_to_set (od_keys inc0) ∖ popped ordered : gset pystr).
  assert (R = ∅) as HR.
  { apply (closed_set_has_cycle R (graph_edge inc0)); [|done].
    intros x [Hx Hxp]%elem_of_difference.
    apply elem_of_list_to_set in Hx. rewrite elem_of_popped in Hxp.
    destruct (kahn_end_unresolved x Hx Hxp)
      as (deps & deps0 & [Hne _]%list_elem_of_filter & Hd0 & ->).
    simpl in Hne. apply set_choose_L in Hne as [d [Hd Hdp]%elem_of_difference].
    exists d. assert (graph_edge inc0 x d) as He by (by exists deps0).
    split; [|done]. apply elem_of_difference. split; [|done].
    apply elem_of_list_to_set. by eapply Hpresent. }
  assert (m ∈ R) as HmR.
  { apply elem_of_difference. split; [by apply elem_of_list_to_set|].
    by rewrite elem_of_popped. }
  rewrite HR in HmR. by apply not_elem_of_empty in HmR.
Qed.

Lemma kahn_end_length_eq :
  (∀ m d, graph_edge inc0 m d → d ∈ od_keys inc0) →
  (∀ n, ¬ tc (graph_edge inc0) n n) →
  length ordered = length inc0.
Proof.
  intros Hp Ha.
  assert ((TableSpec.name <$> ordered) ≡ₚ od_keys inc0) as Hperm.
  { apply NoDup_Permutation; [apply kahn_end_names_NoDup|done|].
    intros x. split; [apply kahn_end_popped_key|by apply kahn_end_complete]. }
  apply Permutation_length in Hperm. unfold od_keys in Hperm.
  by rewrite !length_fmap in Hperm.
Qed.
End kahn_end.

Lemma by_name_keys (specs : list TableSpec.t) :
  od_keys (by_name_of specs) = od_keys (incoming_of specs).
Proof. apply od_of_list_same_keys. Qed.

Lemma incoming_NoDup (specs : list TableSpec.t) :
  NoDup (od_keys (incoming_of specs)).
Proof. apply od_of_list_NoDup. Qed.

Lemma by_name_get (specs : list TableSpec.t) n s :
  od_get n (by_name_of specs) = Some s → TableSpec.name s = n ∧ s ∈ specs.
Proof. intros (x & Hx & Hk & ->)%od_of_list_get. done. Qed.

Lemma incoming_key (specs : list TableSpec.t) n :
  n ∈ od_keys (incoming_of specs) ↔ n ∈ TableSpec.name <$> specs.
Proof. apply od_of_list_keys. Qed.

Lemma by_name_mem (specs : list TableSpec.t) d :
  od_mem d (by_name_of specs) = true ↔ d ∈ TableSpec.name <$> specs.
Proof.
  unfold od_mem. rewrite bool_decide_eq_true, od_get_is_Some.
  apply od_of_list_keys.
Qed.

Lemma edge_declared (specs : list TableSpec.t) m d :
  edge specs m d →
  ∃ s, s ∈ specs ∧ TableSpec.name s = m ∧ d ∈ TableSpec.depends_on s.
Proof.
  intros (deps & (x & Hx & Hk & ->)%od_of_list_get & Hd).
  exists x. split_and!; [done|done|]. by apply elem_of_list_to_set in Hd.
Qed.

Lemma missing_dep_in_spec (bn : odict pystr TableSpec.t) (deps : list pystr) :
  match missing_dep_in bn deps with
  | None => ∀ d, d ∈ deps → od_mem d bn = true
  | Some d => d ∈ deps ∧ od_mem d bn = false
  end.
Proof.
  induction deps as [|d deps IH]; simpl.
  - by intros d ?%elem_of_nil.
  - destruct (od_mem d bn) eqn:E.
    + destruct (missing_dep_in bn deps) as [d'|].
      * destruct IH. split; [by right|done].
      * intros x [->|?]%elem_of_cons; auto.
    + split; [left|done].
Qed.

Lemma first_missing_spec (bn : odict pystr TableSpec.t)
    (specs : list TableSpec.t) :
  match first_missing bn specs with
  | None =>
      ∀ s d, s ∈ specs → d ∈ TableSpec.depends_on s → od_mem d bn = true
  | Some (d, sn) =>
      ∃ s, s ∈ specs ∧ sn = TableSpec.name s
           ∧ d ∈ TableSpec.depends_on s ∧ od_mem d bn = false
  end.
Proof.
  induction specs as [|s specs IH]; simpl.
  - by intros s d ?%elem_of_nil.
  - pose proof (missing_dep_in_spec bn (TableSpec.depends_on s)) as Hs.
    destruct (missing_dep_in bn (TableSpec.depends_on s)) as [d|].
    + destruct Hs. exists s. split_and!; [left|done|done|done].
    + destruct (first_missing bn specs) as [[d sn]|].
      * destruct IH as (s' & ? & ? & ? & ?). exists s'.
        split_and!; [by right|done|done|done].
      * intros s' d [->|?]%elem_of_cons ?; eauto.
Qed.

Lemma first_missing_None (specs : list TableSpec.t) :
  deps_present specs → first_missing (by_name_of specs) specs = None.
Proof.
  intros Hp. pose proof (first_missing_spec (by_name_of specs) specs) as H.
  destruct (first_missing (by_name_of specs) specs) as [[d sn]|]; [|done].
  destruct H as (s & Hs & _ & Hd & Hmem).
  apply (Hp s d Hs), by_name_mem in Hd. congruence.
Qed.

Lemma edge_present (specs : list TableSpec.t) m d :
  deps_present specs → edge specs m d → d ∈ od_keys (incoming_of specs).
Proof.
  intros Hp (s & Hs & _ & Hd)%edge_declared.
  apply incoming_key. by apply (Hp s).
Qed.

Lemma on_cycle_key (specs : list TableSpec.t) n :
  on_cycle specs n → n ∈ od_keys (incoming_of specs).
Proof.
  intros H. assert (∃ d, edge specs n d) as (d & deps & Hg & _).
  { unfold on_cycle in H. inversion H; eauto. }
  apply od_get_is_Some. eauto.
Qed.

(** With all dependencies present the loop runs to an empty [ready] within
    the iterations granted, keeping the invariant. *)
Lemma toposort_loop (specs : list TableSpec.t) :
  ∃ inc ordered,
    kahn (length (incoming_of specs)) (by_name_of specs) (incoming_of specs)
      (ready_of (incoming_of specs)) []
    = Ok (inc, [], ordered)
    ∧ kahn_inv (by_name_of specs) (incoming_of specs) inc [] ordered.
Proof.
  apply kahn_runs.
  - apply by_name_keys.
  - apply incoming_NoDup.
  - intros n s Hs. by apply by_name_get in Hs as [? _].
  - apply kahn_inv_init. apply incoming_NoDup.
  - by rewrite ready_of_measure.
Qed.

(** A plan that is built has all its dependencies present and no cycle. *)
Lemma plan_built_sound (specs : list TableSpec.t) plan :
  LoadPlan_init specs = Ok plan → deps_present specs ∧ acyclic specs.
Proof.
  unfold LoadPlan_init, _toposort.
  pose proof (first_missing_spec (by_name_of specs) specs) as Hfm.
  destruct (first_missing (by_name_of specs) specs) as [[d sn]|]; [done|].
  destruct (toposort_loop specs) as (inc & ordered & -> & Hinv).
  case_bool_decide as Hlen; [done|]. intros _.
  split.
  - intros s d Hs Hd. by apply by_name_mem, (Hfm s).
  - intros n Hn.
    pose proof (kahn_end_cycle _ _ _ _ Hinv n Hn) as Hnot.
    pose proof (kahn_end_length_lt _ _ _ _ Hinv n
                  (on_cycle_key _ _ Hn) Hnot) as Hlt.
    pose proof (od_of_list_length TableSpec.name
                  (λ s, list_to_set (TableSpec.depends_on s) : gset pystr)
                  specs) as Hle.
    unfold incoming_of in Hlt. lia.
Qed.

(** A missing dependency is reported, with the spec that requires it. *)
Lemma missing_dependency_reported (specs : list TableSpec.t) :
  (∃ s d, s ∈ specs ∧ d ∈ TableSpec.depends_on s
          ∧ d ∉ TableSpec.name <$> specs) →
  ∃ s d, s ∈ specs ∧ d ∈ TableSpec.depends_on s
         ∧ d ∉ TableSpec.name <$> specs
         ∧ LoadPlan_init specs
           = Raise (LoadPlanError (MissingDependency d (TableSpec.name s))).
Proof.
  intros (s0 & d0 & Hs0 & Hd0 & Hmiss).
  unfold LoadPlan_init, _toposort.
  pose proof (first_missing_spec (by_name_of specs) specs) as Hfm.
  destruct (first_missing (by_name_of specs) specs) as [[d sn]|].
  - destruct Hfm as (s & Hs & -> & Hd & Hmem).
    exists s, d. split_and!; [done|done| |done].
    intros Hin%by_name_mem. congruence.
  - apply (Hfm s0 d0 Hs0), by_name_mem in Hd0. done.
Qed.

(** A cycle of the graph that [incoming] holds is reported, name by
    name. *)
Lemma incoming_cycle_reported (specs : list TableSpec.t) :
  deps_present specs → (∃ n, on_cycle specs n) →
  ∃ cyclic,
    LoadPlan_init specs = Raise (LoadPlanError (CycleOrUnresolved cyclic))
    ∧ ∀ n, on_cycle specs n → ∃ deps, (n, deps) ∈ cyclic ∧ deps ≠ ∅.
Proof.
  intros Hp [n0 Hn0]. unfold LoadPlan_init, _toposort.
  rewrite first_missing_None by done.
  destruct (toposort_loop specs) as (inc & ordered & -> & Hinv).
  assert (∀ n, on_cycle specs n →
               n ∈ od_keys (incoming_of specs)
               ∧ n ∉ TableSpec.name <$> ordered) as Hcyc.
  { intros n Hn. split; [by apply on_cycle_key|].
    by apply (kahn_end_cycle _ _ _ _ Hinv). }
  destruct (Hcyc n0 Hn0) as [Hk0 Hnot0].
  pose proof (kahn_end_length_lt _ _ _ _ Hinv n0
                Hk0 Hnot0) as Hlt.
  pose proof (od_of_list_length TableSpec.name
                (λ s, list_to_set (TableSpec.depends_on s) : gset pystr)
                specs) as Hle.
  unfold incoming_of in Hlt.
  rewrite bool_decide_eq_true_2 by lia.
  eexists. split; [done|]. intros n [Hk Hnot]%Hcyc.
  destruct (kahn_end_unresolved _ _ _ _ Hinv n Hk Hnot)
    as (deps & deps0 & Hin & _ & _).
  exists deps. split; [done|].
  by apply list_elem_of_filter in Hin as [? _].
Qed.

Lemma incoming_of_nodup (specs : list TableSpec.t) :
  NoDup (TableSpec.name <$> specs) →
  incoming_of specs
  = (λ s, (TableSpec.name s,
           list_to_set (TableSpec.depends_on s) : gset pystr)) <$> specs.
Proof. apply od_of_list_nodup. Qed.

Lemma by_name_of_nodup (specs : list TableSpec.t) :
  NoDup (TableSpec.name <$> specs) →
  by_name_of specs = (λ s, (TableSpec.name s, s)) <$> specs.
Proof. apply (od_of_list_nodup TableSpec.name id). Qed.

Lemma by_name_get_elem (specs : list TableSpec.t) s :
  NoDup (TableSpec.name <$> specs) → s ∈ specs →
  od_get (TableSpec.name s) (by_name_of specs) = Some s.
Proof.
  intros Hnd Hs. apply od_get_elem.
  - rewrite by_name_keys. apply incoming_NoDup.
  - rewrite by_name_of_nodup by done.
    by apply list_elem_of_fmap_2' with s.
Qed.

Lemma incoming_get_elem (specs : list TableSpec.t) s :
  NoDup (TableSpec.name <$> specs) → s ∈ specs →
  od_get (TableSpec.name s) (incoming_of specs)
  = Some (list_to_set (TableSpec.depends_on s)).
Proof.
  intros Hnd Hs. apply od_get_elem; [apply incoming_NoDup|].
  rewrite incoming_of_nodup by done.
  by apply list_elem_of_fmap_2' with s.
Qed.

Lemma declared_edge_incoming (specs : list TableSpec.t) (m d : pystr) :
  NoDup (TableSpec.name <$> specs) →
  declared_edge specs m d → edge specs m d.
Proof.
  intros Hnd (s & Hs & <- & Hd).
  exists (list_to_set (TableSpec.depends_on s)). split.
  - by apply incoming_get_elem.
  - by apply elem_of_list_to_set.
Qed.

Lemma declared_cycle_incoming (specs : list TableSpec.t) (n : pystr) :
  NoDup (TableSpec.name <$> specs) →
  on_declared_cycle specs n → on_cycle specs n.
Proof.
  intros Hnd. unfold on_declared_cycle, on_cycle.
  generalize n at 2 4. intros n'.
  induction 1 as [x y Hxy|x y z Hxy _ IH].
  - apply tc_once. by apply declared_edge_incoming.
  - eapply tc_l; [by apply declared_edge_incoming|done].
Qed.

(** C5, as amended: when some [depends_on] entry names no spec, building
    the plan raises LoadPlanError naming a missing dependency and the
    spec that requires it; when the names are pairwise distinct, all
    dependencies are present and the declared dependencies have a cycle,
    it raises LoadPlanError carrying the dictionary of the names left
    with unresolved dependencies, which holds every name that lies on a
    declared cycle; for X depending on Y and Y on X the error carries
    both X and Y. *)
Theorem plan_fails_on_missing_dependency_or_cycle (specs : list TableSpec.t) :
  ((∃ s d, s ∈ specs ∧ d ∈ TableSpec.depends_on s
           ∧ d ∉ TableSpec.name <$> specs) →
   ∃ s d, s ∈ specs ∧ d ∈ TableSpec.depends_on s
          ∧ d ∉ TableSpec.name <$> specs
          ∧ LoadPlan_init specs
            = Raise (LoadPlanError (MissingDependency d (TableSpec.name s))))
  ∧ (NoDup (TableSpec.name <$> specs) → deps_present specs →
     (∃ n, on_declared_cycle specs n) →
     ∃ cyclic,
       LoadPlan_init specs = Raise (LoadPlanError (CycleOrUnresolved cyclic))
       ∧ ∀ n, on_declared_cycle specs n →
              ∃ deps, (n, deps) ∈ cyclic ∧ deps ≠ ∅)
  ∧ LoadPlan_init [T "X" ["Y"]; T "Y" ["X"]]
    = Raise (LoadPlanError (CycleOrUnresolved
               [(py "X", {[py "Y"]}); (py "Y", {[py "X"]})])).
Proof.
  split_and!.
  - apply missing_dependency_reported.
  - intros Hnd Hp [n0 Hn0].
    destruct (incoming_cycle_reported specs Hp) as (cyclic & Hrun & Hall).
    { exists n0. by apply declared_cycle_incoming. }
    exists cyclic. split; [done|]. intros n Hn. apply Hall.
    by apply declared_cycle_incoming.
  - vm_compute. reflexivity.
Qed.

Lemma plan_fails_on_missing_dependency_or_cycle_witness :
  (∃ s d, s ∈ [T "B" ["A"]] ∧ d ∈ TableSpec.depends_on s
          ∧ d ∉ TableSpec.name <$> [T "B" ["A"]]
          ∧ LoadPlan_init [T "B" ["A"]]
            = Raise (LoadPlanError (MissingDependency d (TableSpec.name s))))
  ∧ (∃ cyclic,
       LoadPlan_init [T "X" ["Y"]; T "Y" ["X"]]
       = Raise (LoadPlanError (CycleOrUnresolved cyclic))
       ∧ ∀ n, on_declared_cycle [T "X" ["Y"]; T "Y" ["X"]] n →
              ∃ deps, (n, deps) ∈ cyclic ∧ deps ≠ ∅).
Proof.
  split.
  - apply (proj1 (plan_fails_on_missing_dependency_or_cycle [T "B" ["A"]])).
    exists (T "B" ["A"]), (py "A"). split_and!; [left|left|].
    intros H. apply list_elem_of_singleton in H. discriminate H.
  - apply (proj1 (proj2 (plan_fails_on_missing_dependency_or_cycle
                           [T "X" ["Y"]; T "Y" ["X"]]))).
    + apply (bool_decide_unpack _). vm_compute. exact I.
    + intros s d Hs Hd.
      apply elem_of_cons in Hs as [->|Hs];
        [|apply list_elem_of_singleton in Hs as ->];
        apply list_elem_of_singleton in Hd as ->.
      * right. left.
      * left.
    + exists (py "X"). apply tc_l with (py "Y"); [|apply tc_once].
      * exists (T "X" ["Y"]). split_and!; [left|reflexivity|left].
      * exists (T "Y" ["X"]). split_and!; [right; left|reflexivity|left].
Defined.

(** C5, as stated, fails: with a name given twice, all dependencies
    present and A and B on a declared cycle, the error names neither;
    and with a cycle beside a missing dependency, the error names the
    missing dependency only. *)
Lemma plan_cycle_goes_unreported :
  (deps_present [T "A" ["B"]; T "B" ["A"]; T "A" []]
   ∧ on_declared_cycle [T "A" ["B"]; T "B" ["A"]; T "A" []] (py "A")
   ∧ on_declared_cycle [T "A" ["B"]; T "B" ["A"]; T "A" []] (py "B")
   ∧ LoadPlan_init [T "A" ["B"]; T "B" ["A"]; T "A" []]
     = Raise (LoadPlanError (CycleOrUnresolved [])))
  ∧ (on_declared_cycle [T "X" ["Y"]; T "Y" ["X"]; T "Z" ["W"]] (py "X")
     ∧ LoadPlan_init [T "X" ["Y"]; T "Y" ["X"]; T "Z" ["W"]]
       = Raise (LoadPlanError (MissingDependency (py "W") (py "Z")))).
Proof.
  assert (∀ rest, declared_edge (T "A" ["B"] :: T "B" ["A"] :: rest)
                    (py "A") (py "B")) as Hab.
  { intros rest. exists (T "A" ["B"]). split_and!; [left|reflexivity|left]. }
  assert (∀ rest, declared_edge (T "A" ["B"] :: T "B" ["A"] :: rest)
                    (py "B") (py "A")) as Hba.
  { intros rest. exists (T "B" ["A"]).
    split_and!; [right; left|reflexivity|left]. }
  split; split_and!.
  - intros s d Hs Hd.
    apply elem_of_cons in Hs as [->|Hs];
      [|apply elem_of_cons in Hs as [->|Hs];
        [|apply list_elem_of_singleton in Hs as ->]].
    + apply list_elem_of_singleton in Hd as ->. right. left.
    + apply list_elem_of_singleton in Hd as ->. left.
    + by apply elem_of_nil in Hd.
  - apply tc_l with (py "B"); [apply Hab|apply tc_once, Hba].
  - apply tc_l with (py "A"); [apply Hba|apply tc_once, Hab].
  - vm_compute. reflexivity.
  - apply tc_l with (py "Y"); [|apply tc_once].
    + exists (T "X" ["Y"]). split_and!; [left|reflexivity|left].
    + exists (T "Y" ["X"]). split_and!; [right; left|reflexivity|left].
  - vm_compute. reflexivity.
Qed.

(** C4, as amended: for specs with pairwise distinct names, all
    dependencies present and no cycle, building the plan succeeds, the
    order holds exactly the specs, and every spec stands after a spec of
    each name in its [depends_on]. *)
Theorem plan_orders_dependencies_first (specs : list TableSpec.t) :
  NoDup (TableSpec.name <$> specs) → deps_present specs → acyclic specs →
  ∃ plan,
    LoadPlan_init specs = Ok plan
    ∧ LoadStrategy.specs plan = specs
    ∧ order plan ≡ₚ specs
    ∧ ∀ s d, s ∈ order plan → d ∈ TableSpec.depends_on s →
             before (order plan) d s.
Proof.
  intros Hnd Hp Ha. unfold LoadPlan_init, _toposort.
  rewrite first_missing_None by done.
  destruct (toposort_loop specs) as (inc & ordered & -> & Hinv).
  pose proof (kahn_end_length_eq _ _ (incoming_NoDup specs) _ _ Hinv
                (λ m d, edge_present specs m d Hp) Ha) as Hlen.
  assert (length (incoming_of specs) = length specs) as Hlen'
    by (by rewrite incoming_of_nodup, length_fmap).
  rewrite bool_decide_eq_false_2 by lia.
  eexists. split; [done|]. simpl. split; [done|].
  assert (∀ s, s ∈ ordered → s ∈ specs) as Hsub.
  { intros s [i Hi]%list_elem_of_lookup.
    destruct Hinv as (_ & _ & _ & Htopo).
    destruct (Htopo i s Hi) as [Hg _]. by apply by_name_get in Hg as [_ ?]. }
  split.
  - apply NoDup_Permutation.
    + eapply NoDup_fmap_1, (kahn_end_names_NoDup _ _ _ _ Hinv).
    + by eapply NoDup_fmap_1.
    + intros s. split; [apply Hsub|]. intros Hs.
      assert (TableSpec.name s ∈ TableSpec.name <$> ordered) as Hn.
      { eapply (kahn_end_complete _ _ _ _ Hinv
                  (λ m d, edge_present specs m d Hp) Ha).
        apply incoming_key. by apply list_elem_of_fmap_2. }
      apply list_elem_of_fmap in Hn as (s' & Hname & Hs').
      pose proof (by_name_get_elem specs s Hnd Hs) as H1.
      pose proof (by_name_get_elem specs s' Hnd (Hsub _ Hs')) as H2.
      rewrite <- Hname in H2. assert (s = s') as -> by congruence. done.
  - intros s d [j Hj]%list_elem_of_lookup Hd.
    destruct Hinv as (_ & _ & _ & Htopo).
    destruct (Htopo j s Hj) as (_ & deps & Hdeps & Hdsub).
    rewrite (incoming_get_elem specs s Hnd) in Hdeps
      by (apply Hsub; by eapply list_elem_of_lookup_2).
    injection Hdeps as <-.
    assert (d ∈ popped (take j ordered)) as Hpop
      by (by apply Hdsub, elem_of_list_to_set).
    apply elem_of_popped, list_elem_of_fmap in Hpop as (sd & -> & Hsd).
    apply elem_of_take in Hsd as (i & Hi & Hlt).
    exists i, j, sd. done.
Qed.

Lemma plan_orders_dependencies_first_witness :
  ∃ plan,
    LoadPlan_init [T "A" []; T "B" ["A"]; T "C" ["A"; "B"]] = Ok plan
    ∧ order plan = [T "A" []; T "B" ["A"]; T "C" ["A"; "B"]]
    ∧ before (order plan) (py "B") (T "C" ["A"; "B"]).
Proof.
  pose (specs := [T "A" []; T "B" ["A"]; T "C" ["A"; "B"]]).
  assert (NoDup (TableSpec.name <$> specs)) as Hnd
    by (apply (bool_decide_unpack _); vm_compute; exact I).
  destruct (plan_built_sound specs
              {| LoadStrategy.specs := specs; order := specs |} eq_refl)
    as [Hp Ha].
  destruct (plan_orders_dependencies_first specs Hnd Hp Ha)
    as (plan & Hplan & _ & _ & Hbefore).
  exists plan. split; [done|].
  assert (order plan = specs) as Horder by (by injection Hplan as <-).
  split; [done|]. apply Hbefore.
  - rewrite Horder. right. right. left.
  - right. left.
Defined.

(** C4, as stated, fails: two specs of the same name, with no dependency
    at all, are refused. *)
Lemma plan_refuses_duplicate_names :
  deps_present [T "A" []; T "A" []]
  ∧ acyclic [T "A" []; T "A" []]
  ∧ LoadPlan_init [T "A" []; T "A" []]
    = Raise (LoadPlanError (CycleOrUnresolved []))
  ∧ ¬ ∃ plan, LoadPlan_init [T "A" []; T "A" []] = Ok plan.
Proof.
  split_and!.
  - intros s d Hs Hd.
    apply elem_of_cons in Hs as [->|Hs];
      [|apply list_elem_of_singleton in Hs as ->];
      by apply elem_of_nil in Hd.
  - intros n Hn.
    assert (∃ d, edge [T "A" []; T "A" []] n d) as (d & deps & Hg & Hd)
      by (unfold on_cycle in Hn; inversion Hn; eauto).
    change (incoming_of [T "A" []; T "A" []]) with [(py "A", ∅ : gset pystr)]
      in Hg.
    simpl in Hg. case_decide; [|done]. injection Hg as <-.
    by apply not_elem_of_empty in Hd.
  - reflexivity.
  - intros [plan Hplan]. discriminate Hplan.
Qed.

Example plan_A_B_C :
  order <$> (match LoadPlan_init [T "A" []; T "B" ["A"]; T "C" ["A"; "B"]]
             with Ok p => Some p | Raise _ => None end)
  = Some [T "A" []; T "B" ["A"]; T "C" ["A"; "B"]].
Proof. reflexivity. Qed.

Example savh_plan_is_built :
  ∃ plan, build_savh_load_plan = Ok plan ∧ length (order plan) = 46.
Proof. eexists. split; [vm_compute; reflexivity|reflexivity]. Qed.

(** ** Computations *)

Lemma bind_run {A B} (m : M A) (k : A → M B) env h :
  (m ≫= k) env h
  = match m env h with
    | (h', Ok a) => k a env h'
    | (h', Raise e) => (h', Raise e)
    end.
Proof. reflexivity. Qed.

Lemma bind_Ok_inv {A B} (m : M A) (k : A → M B) env h h' b :
  (m ≫= k) env h = (h', Ok b) →
  ∃ a h1, m env h = (h1, Ok a) ∧ k a env h1 = (h', Ok b).
Proof.
  rewrite bind_run. destruct (m env h) as [h1 [a|e]]; [eauto|done].
Qed.

Lemma returns_ret {A} (Q : A → Prop) a : Q a → returns Q (mret a).
Proof. intros HQ env h h' a' [= _ <-]. done. Qed.

Lemma returns_raise {A} (Q : A → Prop) e : returns Q (raise e).
Proof. intros env h h' a' [=]. Qed.

Lemma returns_bind {A B} (Q : B → Prop) (m : M A) (k : A → M B) :
  (∀ a, returns Q (k a)) → returns Q (m ≫= k).
Proof.
  intros Hk env h h' b (a & h1 & _ & Hb)%bind_Ok_inv. by eapply Hk.
Qed.

Lemma returns_finally {A} (Q : A → Prop) (m : M A) fin :
  returns Q m → returns Q (finally m fin).
Proof.
  intros Hm env h h' a. unfold finally. rewrite bind_run. unfold catch.
  destruct (m env h) as [h1 r] eqn:E. rewrite bind_run.
  destruct (fin env h1) as [h2 [[]|e]]; [|done].
  unfold lift. intros [= <- ->]. by eapply Hm.
Qed.

Lemma returns_with_client {A} (Q : A → Prop) dsn_v (body : Engine → M A) :
  (∀ engine, returns Q (body engine)) →
  returns Q (PgClient.with_client dsn_v body).
Proof.
  intros Hb. unfold PgClient.with_client. apply returns_bind.
  intros [engine|e]; [by apply returns_finally|].
  apply returns_bind. intros _. apply returns_bind. intros _.
  apply returns_raise.
Qed.

(** ** The result of a load *)

(** C10: every result [load] returns has [rows_loaded] equal to the sum
    of the values of [rows_by_table] and [tables_loaded] equal to its
    number of entries; with [ddl_only] set the result is 0, 0 and the
    empty dictionary. *)
Theorem load_result_consistent (a : load_args) env h h' (r : LoadResult) :
  load a env h = (h', Ok r) →
  rows_loaded r = sum_values (rows_by_table r)
  ∧ tables_loaded r = length (rows_by_table r)
  ∧ (ddl_only a = true →
     r = {| tables_loaded := 0; rows_loaded := 0; rows_by_table := [] |}).
Proof.
  revert env h h' r.
  change (returns (λ r,
    rows_loaded r = sum_values (rows_by_table r)
    ∧ tables_loaded r = length (rows_by_table r)
    ∧ (ddl_only a = true →
       r = {| tables_loaded := 0; rows_loaded := 0; rows_by_table := [] |}))
    (load a)).
  unfold load. apply returns_bind. intros [[|c d]|];
    try apply returns_raise.
  apply returns_bind. intros sql_dir_path.
  apply returns_with_client. intros engine.
  apply returns_bind. intros _. apply returns_bind. intros ddl_needed.
  apply returns_bind. intros _.
  destruct (ddl_only a) eqn:Hddl.
  - apply returns_bind. intros _. by apply returns_ret.
  - do 6 (apply returns_bind; intros ?).
    apply returns_ret. simpl. done.
Qed.

Lemma load_result_consistent_witness :
  let run := load (Demo.args [(py "productos", Some Demo.productos)] false) Demo.env [] in
  let r := {| tables_loaded := 1; rows_loaded := 2;
              rows_by_table := [(py "core.productos", 2)] |} in
  run = (run.1, Ok r)
  ∧ rows_loaded r = sum_values (rows_by_table r)
  ∧ tables_loaded r = length (rows_by_table r).
Proof.
  intros run r.
  assert (run = (run.1, Ok r)) as Hrun.
  { apply injective_projections; [reflexivity|].
    vm_compute. reflexivity. }
  split; [exact Hrun|].
  destruct (load_result_consistent _ _ _ _ _ Hrun) as (H1 & H2 & _).
  exact (conj H1 H2).
Defined.

(** C9: the pass after the load runs the files of DEFAULT_POST_DDL_FILES
    in the order of that tuple, foreign keys first and indexes second: on a
    run that resets the schemas, the scripts are read in the order
    01, 02, 03, 04_foreign_keys, 05_indexes, 06_comments, 07_triggers. *)
Theorem post_ddl_runs_foreign_keys_before_indexes :
  DEFAULT_POST_DDL_FILES
  = [py "04_foreign_keys.sql"; py "05_indexes.sql"; py "06_comments.sql";
     py "07_triggers.sql"]
  ∧ files_read (load (Demo.args [(py "productos", Some Demo.productos)] false) Demo.env []).1
    = [py "01_schema.sql"; py "02_tables.sql"; py "03_constraints.sql";
       py "04_foreign_keys.sql"; py "05_indexes.sql"; py "06_comments.sql";
       py "07_triggers.sql"].
Proof. split; [reflexivity|vm_compute; reflexivity]. Qed.

(** ** What a computation adds to the history *)

Lemma adds_ret {A} (Q : entry → Prop) (a : A) : adds Q (mret a).
Proof. intros env h. exists []. by rewrite app_nil_r. Qed.

Lemma adds_raise {A} (Q : entry → Prop) e : adds Q (raise (A:=A) e).
Proof. intros env h. exists []. by rewrite app_nil_r. Qed.

Lemma adds_lift {A} (Q : entry → Prop) (r : result A) : adds Q (lift r).
Proof. intros env h. exists []. by rewrite app_nil_r. Qed.

Lemma adds_ask (Q : entry → Prop) : adds Q ask.
Proof. intros env h. exists []. by rewrite app_nil_r. Qed.

Lemma adds_call {A} (Q : entry → Prop) (r : req A) :
  (∀ o, Q (Called r o)) → adds Q (call r).
Proof. intros HQ env h. eexists [_]. split; [done|]. by constructor. Qed.

Lemma adds_log (Q : entry → Prop) lvl fmt args :
  Q (Called (Log lvl fmt args) (Ok tt)) → adds Q (log lvl fmt args).
Proof. intros HQ env h. eexists [_]. split; [done|]. by constructor. Qed.

Lemma adds_bind {A B} (Q : entry → Prop) (m : M A) (k : A → M B) :
  adds Q m → (∀ a, adds Q (k a)) → adds Q (m ≫= k).
Proof.
  intros Hm Hk env h. rewrite bind_run.
  destruct (Hm env h) as (new1 & E1 & F1).
  destruct (m env h) as [h1 [a|e]]; simpl in E1; subst h1.
  - destruct (Hk a env (h ++ new1)) as (new2 & E2 & F2).
    exists (new1 ++ new2). rewrite E2, app_assoc. split; [done|].
    by apply Forall_app.
  - by exists new1.
Qed.

Lemma adds_catch {A} (Q : entry → Prop) (m : M A) :
  adds Q m → adds Q (catch m).
Proof.
  intros Hm env h. destruct (Hm env h) as (new & E & F).
  exists new. unfold catch. by destruct (m env h).
Qed.

Lemma adds_finally {A} (Q : entry → Prop) (m : M A) fin :
  adds Q m → adds Q fin → adds Q (finally m fin).
Proof.
  intros Hm Hf. unfold finally. apply adds_bind; [by apply adds_catch|].
  intros r. apply adds_bind; [done|]. intros _. apply adds_lift.
Qed.

Lemma adds_for_fold {X St} (Q : entry → Prop) (l : list X) (s0 : St) f :
  (∀ st x, adds Q (f st x)) → adds Q (for_fold l s0 f).
Proof.
  intros Hf. revert s0. induction l as [|x l IH]; intros s0; simpl.
  - apply adds_ret.
  - apply adds_bind; [done|]. intros s'. apply IH.
Qed.

Lemma adds_elim {A} (Q : entry → Prop) (m : M A) env h h' r :
  adds Q m → m env h = (h', r) → ∃ new, h' = h ++ new ∧ Forall Q new.
Proof.
  intros Hm E. destruct (Hm env h) as (new & E' & F).
  rewrite E in E'. eauto.
Qed.

Lemma with_connect_adds {A} (Q : entry → Prop) (body : M A) :
  (∀ o, Q (Called EngineConnect o)) → (∀ o, Q (Called ConnectionClose o)) →
  adds Q body → adds Q (with_connect body).
Proof.
  intros H1 H2 Hb. unfold with_connect.
  apply adds_bind; [by apply adds_call|]. intros _.
  apply adds_finally; [done|by apply adds_call].
Qed.

Lemma adds_with_client {A} (Q : entry → Prop) dsn_v
    (body : Engine → M A) :
  adds Q (call (CreateEngine dsn_v)) → adds Q (call EngineDispose) →
  (∀ engine, adds Q (body engine)) →
  adds Q (PgClient.with_client dsn_v body).
Proof.
  intros H1 H2 Hb. unfold PgClient.with_client.
  apply adds_bind; [by apply adds_catch|]. intros [engine|e].
  - by apply adds_finally.
  - apply adds_bind; [done|]. intros _.
    apply adds_bind; [done|]. intros _. apply adds_raise.
Qed.

Ltac not_a_write := intros ?; exact id.

Lemma table_exists_no_write schema table :
  adds (λ e, ¬ is_write e) (PgClient.table_exists schema table).
Proof.
  unfold PgClient.table_exists, PgClient.read_scalar.
  apply adds_bind; [|intros v; apply adds_ret].
  apply with_connect_adds; [not_a_write|not_a_write|].
  apply adds_bind; [apply adds_call; not_a_write|].
  intros rows. apply adds_ret.
Qed.

Lemma get_table_columns_meta_no_write schema table :
  adds (λ e, ¬ is_write e) (get_table_columns_meta schema table).
Proof.
  unfold get_table_columns_meta.
  apply adds_bind; [apply adds_ask|]. intros env.
  apply adds_bind.
  - apply with_connect_adds; [not_a_write|not_a_write|].
    apply adds_call. not_a_write.
  - intros rows. apply adds_for_fold. intros out row.
    apply adds_bind; [apply adds_lift|]. intros c. apply adds_ret.
Qed.

(** ** Validating a dataset against the destination table *)

Lemma sorted_elem (l : list pystr) x : x ∈ sorted l ↔ x ∈ l.
Proof. unfold sorted. by rewrite merge_sort_Permutation. Qed.

Lemma columns_normalize df : columns (_normalize_nulls df) = columns df.
Proof.
  unfold columns, _normalize_nulls. simpl. rewrite <- list_fmap_compose.
  by apply list_fmap_ext.
Qed.

Lemma columns_set_columns labels df :
  length labels = length (df_data df) →
  columns (set_columns labels df) = labels.
Proof.
  intros Hl. unfold columns, set_columns. simpl. apply fst_zip.
  rewrite length_fmap. lia.
Qed.

Lemma columns_stripped df :
  columns (set_columns (strip <$> columns df) df) = strip <$> columns df.
Proof.
  apply columns_set_columns. unfold columns. by rewrite !length_fmap.
Qed.

Lemma filter_label_fst {V} (k : pystr) (data : list (pystr * V)) :
  (filter (λ c, c.1 = k) data).*1 = filter (λ c, c = k) data.*1.
Proof.
  induction data as [|[x v] data IH]; [done|].
  rewrite fmap_cons, !filter_cons. cbn [fst].
  destruct (decide (x = k)); [rewrite fmap_cons|]; by rewrite IH.
Qed.

Lemma columns_select keys df :
  columns (select keys df)
  = keys ≫= (λ k, filter (λ c, c = k) (columns df)).
Proof.
  unfold columns, select. simpl.
  induction keys as [|k keys IH]; [done|].
  rewrite !bind_cons, fmap_app, IH. by rewrite filter_label_fst.
Qed.

Lemma elem_of_select_columns keys df c :
  c ∈ columns (select keys df) ↔ c ∈ keys ∧ c ∈ columns df.
Proof.
  rewrite columns_select, list_elem_of_bind. split.
  - intros (k & [-> Hc]%list_elem_of_filter & Hk). done.
  - intros [Hk Hc]. exists c. split; [|done]. by apply list_elem_of_filter.
Qed.

Lemma filter_eq_replicate (k : pystr) (l : list pystr) :
  filter (λ c, c = k) l = replicate (length (filter (λ c, c = k) l)) k.
Proof.
  induction l as [|x l IH]; [done|]. rewrite filter_cons.
  destruct (decide (x = k)) as [->|]; [|done]. simpl. by rewrite <- IH.
Qed.

Lemma filter_eq_NoDup (k : pystr) (l : list pystr) :
  NoDup l → k ∈ l → filter (λ c, c = k) l = [k].
Proof.
  induction 1 as [|x l Hx Hl IH]; [by intros ?%elem_of_nil|].
  rewrite filter_cons. intros [->|Hk]%elem_of_cons.
  - rewrite decide_True by done. f_equal.
    apply elem_of_nil_inv. intros y [-> Hy]%list_elem_of_filter. done.
  - rewrite decide_False by (intros ->; done). by apply IH.
Qed.

Lemma bind_singleton_NoDup (keys l : list pystr) :
  NoDup l → (∀ k, k ∈ keys → k ∈ l) →
  keys ≫= (λ k, filter (λ c, c = k) l) = keys.
Proof.
  intros Hl. induction keys as [|k keys IH]; intros Hin; [done|].
  rewrite bind_cons, filter_eq_NoDup; [|done|apply Hin; left].
  simpl. f_equal. apply IH. intros ? ?. apply Hin. by right.
Qed.

(** The columns left by the two selections of [_validate_and_align_df]:
    [cols2] after the extra columns are dropped (or not), then the
    destination order. *)
Lemma aligned_columns (db_cols cols2 : list pystr) :
  let out := filter (λ c, c ∈ cols2) db_cols
             ≫= (λ k, filter (λ c, c = k) cols2) in
  (∀ c, c ∈ out ↔ c ∈ db_cols ∧ c ∈ cols2)
  ∧ out = db_cols
          ≫= (λ c, replicate (length (filter (λ x, x = c) cols2)) c)
  ∧ (NoDup cols2 → out = filter (λ c, c ∈ cols2) db_cols).
Proof.
  intros out. split_and!.
  - intros c. unfold out. rewrite list_elem_of_bind. split.
    + intros (k & [-> Hc]%list_elem_of_filter & [? ?]%list_elem_of_filter).
      done.
    + intros [Hd Hc]. exists c.
      split; apply list_elem_of_filter; done.
  - unfold out. induction db_cols as [|d db IH]; [done|].
    rewrite filter_cons, bind_cons, <- IH.
    destruct (decide (d ∈ cols2)) as [Hd|Hd].
    + rewrite bind_cons. f_equal. apply filter_eq_replicate.
    + replace (filter (λ x, x = d) cols2) with (@nil pystr); [done|].
      symmetry. apply elem_of_nil_inv.
      intros y [-> Hy]%list_elem_of_filter. done.
  - intros Hnd. unfold out. apply bind_singleton_NoDup; [done|].
    by intros k [? _]%list_elem_of_filter.
Qed.

(** C6: when the table exists and the dataset lacks a required column of
    the destination, [_load_one] raises ValueError naming exactly the
    required columns that are absent, after the two metadata queries and
    with no bulk insert issued. *)
Theorem missing_required_column_stops_before_write
    (a : load_args) (table df_key : pystr) (st : loaded) (df : DataFrame)
    (env : Env) (h h1 h2 : list entry) (meta : list ColumnMeta.t) :
  let schema :=
    _schema_for_table table (core_schema a) (ingest_schema a)
      (audit_schema a) in
  od_get df_key (dict_df a) = Some (Some df) →
  df_empty df = false →
  PgClient.table_exists schema table env h = (h1, Ok true) →
  get_table_columns_meta schema table env h1 = (h2, Ok meta) →
  (∃ c, c ∈ meta ∧ is_required c = true
        ∧ ColumnMeta.name c ∉ strip <$> columns df) →
  ∃ missing,
    _load_one a table df_key st env h
    = (h2, Raise (ValueError (MissingRequiredColumns schema table missing)))
    ∧ (∀ x, x ∈ missing ↔
            (∃ c, c ∈ meta ∧ is_required c = true ∧ ColumnMeta.name c = x)
            ∧ x ∉ strip <$> columns df)
    ∧ (∀ e, e ∈ h2 → is_write e → e ∈ h).
Proof.
  intros schema Hget Hempty Hex Hmeta (c0 & Hc0 & Hreq0 & Hmiss0).
  set (required := list_to_set
         (ColumnMeta.name <$> filter (λ c, is_required c = true) meta)
         : gset pystr).
  set (missing_required :=
         required ∖ list_to_set (strip <$> columns df) : gset pystr).
  assert (∀ x, x ∈ missing_required ↔
               (∃ c, c ∈ meta ∧ is_required c = true ∧ ColumnMeta.name c = x)
               ∧ x ∉ strip <$> columns df) as Hspec.
  { intros x. unfold missing_required, required.
    rewrite elem_of_difference, !elem_of_list_to_set, list_elem_of_fmap.
    split.
    - intros [(c & -> & [? ?]%list_elem_of_filter) ?]. eauto.
    - intros [(c & ? & ? & <-) ?]. split; [|done].
      exists c. split; [done|]. by apply list_elem_of_filter. }
  exists (sorted (elements missing_required)). split_and!.
  - unfold _load_one. rewrite Hget, Hempty. fold schema.
    rewrite bind_run, Hex. cbn [negb]. cbv iota.
    rewrite bind_run. unfold _validate_and_align_df.
    rewrite bind_run, Hmeta. cbv iota.
    destruct meta as [|m0 meta']; [by apply elem_of_nil in Hc0|].
    rewrite columns_stripped, columns_normalize.
    fold required. fold missing_required.
    rewrite bool_decide_eq_true_2; [done|].
    intros He. assert (ColumnMeta.name c0 ∈ missing_required) as Hin
      by (apply Hspec; eauto).
    rewrite He in Hin. by apply not_elem_of_empty in Hin.
  - intros x. by rewrite sorted_elem, elem_of_elements.
  - intros e He Hw.
    destruct (adds_elim _ _ _ _ _ _ (table_exists_no_write schema table) Hex)
      as (new1 & -> & F1).
    destruct (adds_elim _ _ _ _ _ _
                (get_table_columns_meta_no_write schema table) Hmeta)
      as (new2 & -> & F2).
    rewrite !elem_of_app in He. destruct He as [[He|He]|He]; [done| |].
    + by destruct (proj1 (Forall_forall _ _) F1 e He).
    + by destruct (proj1 (Forall_forall _ _) F2 e He).
Qed.

Lemma missing_required_column_stops_before_write_witness :
  let a := Demo.args [(py "productos", Some Demo.no_id)] false in
  let st := {| loaded_tables := []; loaded_keys := ∅; rows_by := [] |} in
  ∃ h2 missing,
    _load_one a (py "productos") (py "productos") st Demo.env []
    = (h2, Raise (ValueError (MissingRequiredColumns (py "core")
                                (py "productos") missing)))
    ∧ (py "id" ∈ missing)
    ∧ ∀ e, e ∈ h2 → is_write e → e ∈ [].
Proof.
  intros a st.
  set (meta := [ {| ColumnMeta.name := py "id";
                    ColumnMeta.is_nullable := false;
                    ColumnMeta.has_default := false;
                    ColumnMeta.is_identity := false |} ]).
  set (run1 := PgClient.table_exists (py "core") (py "productos")
                 Demo.env []).
  set (run2 := get_table_columns_meta (py "core") (py "productos")
                 Demo.env run1.1).
  assert (run1 = (run1.1, Ok true)) as H1
    by (apply injective_projections; [reflexivity|vm_compute; reflexivity]).
  assert (run2 = (run2.1, Ok meta)) as H2
    by (apply injective_projections; [reflexivity|vm_compute; reflexivity]).
  destruct (missing_required_column_stops_before_write a (py "productos")
              (py "productos") st Demo.no_id Demo.env [] run1.1 run2.1 meta
              eq_refl eq_refl H1 H2) as (missing & Hrun & Hm & Hw).
  { exists {| ColumnMeta.name := py "id";
             ColumnMeta.is_nullable := false;
             ColumnMeta.has_default := false;
             ColumnMeta.is_identity := false |}.
    split_and!; [left|reflexivity|].
    intros Hin. apply list_elem_of_singleton in Hin. discriminate Hin. }
  exists run2.1, missing. split_and!; [exact Hrun| |exact Hw].
  apply Hm. split.
  - eexists. split_and!; [left|reflexivity|reflexivity].
  - intros Hin. apply list_elem_of_singleton in Hin. discriminate Hin.
Defined.

Lemma filter_ext_in {A} (P1 P2 : A → Prop) `{∀ x, Decision (P1 x)}
    `{∀ x, Decision (P2 x)} (l : list A) :
  (∀ x, x ∈ l → P1 x ↔ P2 x) → filter P1 l = filter P2 l.
Proof.
  induction l as [|x l IH]; intros Hext; [done|].
  rewrite !filter_cons.
  assert (filter P1 l = filter P2 l) as ->
    by (apply IH; intros y Hy; apply Hext; by right).
  destruct (decide (P1 x)) as [H1|H1], (decide (P2 x)) as [H2|H2];
    try done; exfalso; [apply H2|apply H1]; by apply (Hext x); [left|].
Qed.

Lemma data_stripped (df : DataFrame) :
  df_data (set_columns (strip <$> columns df) df)
  = (λ col : pystr * column, (strip col.1, col.2)) <$> df_data df.
Proof.
  unfold set_columns, columns. cbn [df_data].
  induction (df_data df) as [|[k v] data IH]; [done|].
  cbn. by rewrite IH.
Qed.

Lemma filter_label_absent {V} (k : pystr) (data : list (pystr * V)) :
  k ∉ data.*1 → filter (λ c, c.1 = k) data = [].
Proof.
  intros Hk. apply elem_of_nil_inv. intros c [Hc Hin]%list_elem_of_filter.
  apply Hk. rewrite <- Hc. by apply list_elem_of_fmap_2.
Qed.

Lemma bind_present_keys {V} (keys : list pystr) (data : list (pystr * V)) :
  filter (λ c, c ∈ data.*1) keys ≫= (λ k, filter (λ c, c.1 = k) data)
  = keys ≫= (λ k, filter (λ c, c.1 = k) data).
Proof.
  induction keys as [|k keys IH]; [done|].
  rewrite filter_cons, bind_cons, <- IH.
  destruct (decide (k ∈ data.*1)); [by rewrite bind_cons|].
  by rewrite filter_label_absent.
Qed.

Lemma filter_label_twice {V} (k k' : pystr) (data : list (pystr * V)) :
  filter (λ c, c.1 = k) (filter (λ c, c.1 = k') data)
  = if bool_decide (k = k') then filter (λ c, c.1 = k) data else [].
Proof.
  destruct (decide (k = k')) as [<-|Hne].
  - rewrite bool_decide_eq_true_2 by done.
    induction data as [|c data IHd]; [done|].
    rewrite !filter_cons. destruct (decide (c.1 = k)); [|done].
    rewrite filter_cons, decide_True by done. by rewrite IHd.
  - rewrite bool_decide_eq_false_2 by done. apply elem_of_nil_inv.
    intros c [Hc [Hc' _]%list_elem_of_filter]%list_elem_of_filter.
    congruence.
Qed.

Lemma filter_label_select {V} (k : pystr) (keys : list pystr)
    (data : list (pystr * V)) :
  NoDup keys →
  filter (λ c, c.1 = k) (keys ≫= (λ k', filter (λ c, c.1 = k') data))
  = if bool_decide (k ∈ keys) then filter (λ c, c.1 = k) data else [].
Proof.
  induction 1 as [|k' keys Hk' Hnd IH]; [done|].
  rewrite bind_cons, filter_app, IH, filter_label_twice.
  destruct (decide (k = k')) as [<-|Hne].
  - rewrite bool_decide_eq_true_2 by done.
    rewrite bool_decide_eq_false_2 by done.
    rewrite bool_decide_eq_true_2 by left. by rewrite app_nil_r.
  - rewrite (bool_decide_eq_false_2 (k = k')) by done. cbn [app].
    destruct (decide (k ∈ keys)) as [Hk|Hk].
    + rewrite !bool_decide_eq_true_2; [done|by right|done].
    + rewrite !bool_decide_eq_false_2; [done| |done].
      by intros [->|?]%elem_of_cons.
Qed.

Lemma bind_ext_in {X Y} (f g : X → list Y) (l : list X) :
  (∀ x, x ∈ l → f x = g x) → l ≫= f = l ≫= g.
Proof.
  induction l as [|x l IH]; intros Hfg; [done|].
  rewrite !bind_cons, Hfg by left. f_equal. apply IH.
  intros y Hy. apply Hfg. by right.
Qed.

(** The data left by the two selections of [_validate_and_align_df] on
    the columns [data1]: those not of the table dropped first (or not),
    then the destination order. *)
Lemma aligned_data {V} (db_cols : list pystr) (data1 : list (pystr * V))
    (drop_first : bool) :
  let keep := filter (λ c, c ∈ (list_to_set db_cols : gset pystr)) data1.*1 in
  let data2 :=
    if drop_first then keep ≫= (λ k, filter (λ c, c.1 = k) data1)
    else data1 in
  let out := filter (λ c, c ∈ data2.*1) db_cols
             ≫= (λ k, filter (λ c, c.1 = k) data2) in
  (∀ col, col ∈ out ↔ col ∈ data1 ∧ col.1 ∈ db_cols)
  ∧ (NoDup data1.*1 →
     out = db_cols ≫= (λ k, filter (λ c, c.1 = k) data1)).
Proof.
  intros keep data2 out.
  assert (∀ col, col ∈ data2 → col ∈ data1) as Hsub.
  { unfold data2. destruct drop_first; [|done].
    intros col (k & [_ ?]%list_elem_of_filter & _)%list_elem_of_bind. done. }
  assert (∀ col, col ∈ data1 → col.1 ∈ db_cols → col ∈ data2) as Hsup.
  { unfold data2. destruct drop_first; [|done].
    intros col Hcol Hdb. apply list_elem_of_bind. exists col.1. split.
    - by apply list_elem_of_filter.
    - apply list_elem_of_filter. split.
      + by apply elem_of_list_to_set.
      + by apply list_elem_of_fmap_2. }
  unfold out. rewrite bind_present_keys. split.
  - intros col. rewrite list_elem_of_bind. split.
    + intros (k & [<- Hcol]%list_elem_of_filter & Hk). split; by auto.
    + intros [Hcol Hdb]. exists col.1. split; [|done].
      apply list_elem_of_filter. split; [done|by apply Hsup].
  - intros Hnd. unfold data2. destruct drop_first; [|done].
    assert (NoDup keep) as Hkeep by (by apply NoDup_filter).
    apply bind_ext_in. intros k Hk.
    rewrite filter_label_select by done.
    case_bool_decide as Hin; [done|].
    symmetry. apply filter_label_absent. intros Hin'. apply Hin.
    apply list_elem_of_filter. split; [|done].
    by apply elem_of_list_to_set.
Qed.

(** C7: with the metadata fetched and every required column present, a
    dataset with columns the table lacks is refused with a ValueError
    naming them when [drop_extra_columns] is off, and goes on after a
    warning naming them when it is on; every dataset returned has as
    column names exactly those common to the dataset and the table, each
    table column followed by the next in the order of the table (a label
    the dataset carries several times is repeated in place), which for a
    dataset with distinct labels is the list of the table's columns that
    the dataset has; it keeps the number of rows, its columns are exactly
    the columns of the dataset (labels stripped, dtype and cells
    untouched) whose label is a column of the table, and for a dataset
    with distinct labels they stand in the order of the table, each table
    column giving the dataset's column of that label. *)
Theorem extra_columns_dropped_or_refused
    (df : DataFrame) (schema table : pystr) (drop : bool) (env : Env)
    (h h1 : list entry) (meta : list ColumnMeta.t) :
  let df_cols := strip <$> columns df in
  let db_cols := ColumnMeta.name <$> meta in
  let stripped :=
    (λ col : pystr * column, (strip col.1, col.2)) <$> df_data df in
  let extra : gset pystr := list_to_set df_cols ∖ list_to_set db_cols in
  let run := _validate_and_align_df df schema table drop env h in
  get_table_columns_meta schema table env h = (h1, Ok meta) →
  meta ≠ [] →
  (∀ c, c ∈ meta → is_required c = true → ColumnMeta.name c ∈ df_cols) →
  (∀ x, x ∈ sorted (elements extra) ↔ x ∈ df_cols ∧ x ∉ db_cols)
  ∧ (extra ≠ ∅ → drop = false →
     run = (h1, Raise (ValueError (ExtraColumns schema table
                                     (sorted (elements extra))))))
  ∧ (extra ≠ ∅ → drop = true →
     ∃ out,
       run = (h1 ++ [Called (Log WARNING
                               (py "Drop columnas extra en %s.%s: %s")
                               [AStr schema; AStr table;
                                AList (sorted (elements extra))])
                       (Ok tt)],
              Ok out))
  ∧ (extra = ∅ → ∃ out, run = (h1, Ok out))
  ∧ (∀ h2 out, run = (h2, Ok out) →
       (∀ c, c ∈ columns out ↔ c ∈ df_cols ∧ c ∈ db_cols)
       ∧ (∃ mult, columns out = db_cols ≫= (λ c, replicate (mult c) c))
       ∧ (NoDup df_cols →
          columns out = filter (λ c, c ∈ df_cols) db_cols)
       ∧ df_len out = df_len df
       ∧ (∀ col, col ∈ df_data out ↔ col ∈ stripped ∧ col.1 ∈ db_cols)
       ∧ (NoDup df_cols →
          df_data out
          = db_cols ≫= (λ c, filter (λ col, col.1 = c) stripped))).
Proof.
  intros df_cols db_cols stripped extra run Hmeta Hne Hreq.
  set (df1 := set_columns df_cols df).
  assert (columns df1 = df_cols) as Hc1 by apply columns_stripped.
  assert (df_data df1 = stripped) as Hd1 by apply data_stripped.
  set (dfd := select (filter (λ c, c ∈ (list_to_set db_cols : gset pystr))
                        df_cols) df1).
  set (aligned := λ d : DataFrame,
         select (filter (λ c, c ∈ columns d) db_cols) d).
  set (warning := Called (Log WARNING (py "Drop columnas extra en %s.%s: %s")
                            [AStr schema; AStr table;
                             AList (sorted (elements extra))]) (Ok tt)).
  assert (run = if bool_decide (extra ≠ ∅) then
                  if negb drop then
                    (h1, Raise (ValueError (ExtraColumns schema table
                                              (sorted (elements extra)))))
                  else (h1 ++ [warning], Ok (aligned dfd))
                else (h1, Ok (aligned df1))) as Hrun.
  { unfold run, _validate_and_align_df. rewrite bind_run, Hmeta. cbv iota.
    destruct meta as [|m0 meta']; [done|].
    fold df_cols. fold df1. rewrite Hc1. fold db_cols.
    rewrite bool_decide_eq_false_2.
    2:{ intros Hm. apply Hm. apply set_eq. intros x.
        rewrite elem_of_difference, !elem_of_list_to_set, list_elem_of_fmap.
        split; [|by intros ?%not_elem_of_empty].
        intros [(c & -> & [? ?]%list_elem_of_filter) Hx].
        destruct Hx. by apply Hreq. }
    fold extra. destruct (bool_decide (extra ≠ ∅)); [|done].
    destruct drop; done. }
  assert (∀ x, x ∈ extra ↔ x ∈ df_cols ∧ x ∉ db_cols) as Hextra.
  { intros x. unfold extra.
    by rewrite elem_of_difference, !elem_of_list_to_set. }
  split_and!.
  - intros x. by rewrite sorted_elem, elem_of_elements.
  - intros He ->. by rewrite Hrun, bool_decide_eq_true_2.
  - intros He ->. exists (aligned dfd).
    by rewrite Hrun, bool_decide_eq_true_2.
  - intros He. exists (aligned df1).
    rewrite Hrun, bool_decide_eq_false_2; [done|]. by intros ?.
  - intros h2 out Hout. rewrite Hrun in Hout.
    assert (∃ (df2 : DataFrame) (dropped : bool),
               out = aligned df2
               ∧ df_len df2 = df_len df
               ∧ df_data df2
                 = (if dropped then
                      filter (λ c, c ∈ (list_to_set db_cols : gset pystr))
                        (df_data df1).*1
                      ≫= (λ k, filter (λ c, c.1 = k) (df_data df1))
                    else df_data df1)
               ∧ (∀ c, c ∈ columns df2 ↔ c ∈ df_cols ∧ c ∈ db_cols)
               ∧ (NoDup df_cols → NoDup (columns df2)))
      as (df2 & dropped & -> & Hlen & Hdata & Hd & Hdn).
    { case_bool_decide as He.
      - destruct drop; [|done]. injection Hout as _ <-.
        exists dfd, true. split; [done|]. split; [done|]. split.
        { unfold dfd, select. cbn [df_data].
          change ((df_data df1).*1) with (columns df1). by rewrite Hc1. }
        split.
        + intros c. unfold dfd. rewrite elem_of_select_columns, Hc1.
          rewrite list_elem_of_filter, elem_of_list_to_set. tauto.
        + intros Hnd. unfold dfd. rewrite columns_select, Hc1.
          rewrite bind_singleton_NoDup; [by apply NoDup_filter|done|].
          by intros k [_ ?]%list_elem_of_filter.
      - injection Hout as _ <-. exists df1, false. rewrite Hc1.
        split; [done|]. split; [done|]. split; [done|].
        split; [|done]. intros c. split; [|tauto]. intros Hc.
        split; [done|]. destruct (decide (c ∈ db_cols)); [done|].
        assert (c ∈ extra) as Hin by (by apply Hextra).
        rewrite He in Hin. by apply not_elem_of_empty in Hin. }
    destruct (aligned_data db_cols (df_data df1) dropped) as [Hb1 Hb2].
    assert (df_data (aligned df2)
            = filter (λ c, c ∈ (df_data df2).*1) db_cols
              ≫= (λ k, filter (λ c, c.1 = k) (df_data df2))) as Hout2
      by reflexivity.
    rewrite Hdata in Hout2. rewrite <- Hout2 in Hb1, Hb2.
    rewrite Hd1 in Hb1, Hb2.
    unfold aligned at 1 2 3. rewrite columns_select.
    destruct (aligned_columns db_cols (columns df2)) as (Ha1 & Ha2 & Ha3).
    split_and!.
    + intros c. rewrite Ha1, Hd. tauto.
    + eexists. exact Ha2.
    + intros Hnd. rewrite (Ha3 (Hdn Hnd)). apply filter_ext_in.
      intros x Hx. rewrite Hd. tauto.
    + exact Hlen.
    + exact Hb1.
    + intros Hnd. apply Hb2. rewrite <- Hd1.
      change (NoDup (columns df1)). by rewrite Hc1.
Qed.

Lemma extra_columns_dropped_or_refused_witness :
  let meta := [ {| ColumnMeta.name := py "id";
                   ColumnMeta.is_nullable := false;
                   ColumnMeta.has_default := false;
                   ColumnMeta.is_identity := false |} ] in
  let run drop :=
    _validate_and_align_df Demo.with_extra (py "core") (py "productos") drop
      Demo.env [] in
  (∃ names, (run false).2
            = Raise (ValueError (ExtraColumns (py "core") (py "productos")
                                   names)))
  ∧ (∃ out, (run true).2 = Ok out ∧ columns out = [py "id"]
            ∧ df_len out = 1
            ∧ df_data out = [(py "id", (int64, [CInt 1]))]).
Proof.
  intros meta run.
  set (run0 := get_table_columns_meta (py "core") (py "productos")
                 Demo.env []).
  assert (run0 = (run0.1, Ok meta)) as H0
    by (apply injective_projections; [reflexivity|vm_compute; reflexivity]).
  assert (meta ≠ []) as Hne by done.
  assert (∀ c, c ∈ meta → is_required c = true →
               ColumnMeta.name c ∈ strip <$> columns Demo.with_extra)
    as Hreq.
  { intros c Hc _. apply list_elem_of_singleton in Hc as ->. right. left. }
  assert ((list_to_set (strip <$> columns Demo.with_extra)
           ∖ list_to_set (ColumnMeta.name <$> meta) : gset pystr) ≠ ∅)
    as Hextra.
  { intros He. assert (py "nombre" ∈ (∅ : gset pystr)) as Hin.
    { rewrite <- He. apply elem_of_difference. split.
      - apply elem_of_list_to_set. left.
      - intros Hin. apply elem_of_list_to_set, list_elem_of_singleton in Hin.
        discriminate Hin. }
    by apply not_elem_of_empty in Hin. }
  split.
  - destruct (extra_columns_dropped_or_refused Demo.with_extra (py "core")
                (py "productos") false Demo.env [] run0.1 meta H0 Hne Hreq)
      as (_ & Hrefuse & _).
    eexists. unfold run. by rewrite (Hrefuse Hextra eq_refl).
  - destruct (extra_columns_dropped_or_refused Demo.with_extra (py "core")
                (py "productos") true Demo.env [] run0.1 meta H0 Hne Hreq)
      as (_ & _ & Hdrop & _ & Hcols).
    destruct (Hdrop Hextra eq_refl) as (out & Hout).
    exists out. unfold run. rewrite Hout. split; [done|].
    assert (NoDup (strip <$> columns Demo.with_extra)) as Hdistinct
      by (apply (bool_decide_unpack _); vm_compute; exact I).
    destruct (Hcols _ _ Hout) as (_ & _ & Hnd & Hlen & _ & Hdata).
    split; [by apply Hnd|]. split; [exact Hlen|].
    rewrite (Hdata Hdistinct). vm_compute. reflexivity.
Defined.

(** ** The continue-on-error policy of [DDLRunner._run_file] *)

Lemma call_run {A} (r : req A) env h :
  call r env h = (h ++ [Called r (respond env A h r)], respond env A h r).
Proof. reflexivity. Qed.

Lemma run_statement_continues self fname idx st o env h :
  fail_fast self = false → transaction_control_accepted env →
  settles env st o →
  run_statement self false fname idx st env h
  = (h ++ block fname idx st o, Ok tt).
Proof.
  intros Hff (_ & _ & _ & Hsp) ((Ht & Hb) & Hans & Ho).
  destruct (Hsp idx) as (Hsave & Hrel & Hroll).
  unfold answers, savepoint, release, rollback_to, execute in *.
  unfold run_statement. rewrite Ht, Hb, Hff. cbn [negb andb].
  rewrite bind_run. unfold catch at 1.
  rewrite bind_run, call_run, Hsave, bind_run. unfold catch at 1.
  rewrite bind_run, call_run, Hans.
  destruct o as [[]|e].
  - rewrite call_run, Hrel. cbn. by rewrite <- !app_assoc.
  - rewrite Ho, bind_run, call_run, Hroll, bind_run, call_run, Hrel.
    cbn. by rewrite <- !app_assoc.
Qed.

Lemma for_each_continues self fname sts :
  ∀ outcomes idx env h,
    fail_fast self = false → transaction_control_accepted env →
    Forall2 (settles env) sts outcomes →
    for_each (zip (seq idx (length sts)) sts)
      (λ '(i, st), run_statement self false fname i st) env h
    = (h ++ blocks fname idx sts outcomes, Ok tt).
Proof.
  induction sts as [|st sts IH]; intros outcomes idx env h Hff Htc Hall.
  - apply Forall2_nil_inv_l in Hall as ->. simpl. by rewrite app_nil_r.
  - apply Forall2_cons_inv_l in Hall as (o & outcomes' & Ho & Hall & ->).
    cbn [length seq zip zip_with for_each blocks].
    rewrite bind_run, (run_statement_continues _ _ _ _ o) by done.
    rewrite (IH outcomes') by done. by rewrite app_assoc.
Qed.

(** C8: with [fail_fast] off and the connection not in autocommit, every
    statement of the file is sent between SAVEPOINT sp_i and RELEASE
    SAVEPOINT sp_i; a statement the database refuses is followed by
    ROLLBACK TO SAVEPOINT sp_i, the release of that savepoint and a log
    record with the file name, the index of the statement and its start
    line, and the next statement runs; after the last one the cursor is
    closed, the connection commits and [_run_file] returns. For a file
    [good1; bad; good2] the outcomes are [Ok; Raise e; Ok]. *)
Theorem continue_on_error_savepoint_per_statement
    (self : DDLRunner) (conn : Conn) (fpath : Path) (env : Env)
    (h : list entry) (text : pystr) (sts : list SQLStmt)
    (outcomes : list (result unit)) :
  fail_fast self = false →
  default false (autocommit conn) = false →
  has_commit conn = true →
  respond env pystr h (ReadText fpath) = Ok text →
  _split_sql_statements (env_isalnum env) text = sts →
  sts ≠ [] →
  transaction_control_accepted env →
  Forall2 (settles env) sts outcomes →
  _run_file self conn fpath env h
  = (h ++ [Called (ReadText fpath) (Ok text); ok CursorOpen]
       ++ blocks (path_name fpath) 1 sts outcomes
       ++ [ok CursorClose; ok ConnCommit],
     Ok tt).
Proof.
  intros Hff Hac Hc Hread Hsplit Hne Htc Hall.
  pose proof Htc as (Hopen & Hclose & Hcommit & _).
  unfold _run_file. rewrite bind_run. cbn [ask].
  rewrite bind_run, call_run, Hread, Hsplit, Hac, Hc. cbn [negb andb].
  destruct sts as [|st0 sts']; [done|].
  rewrite bind_run. unfold with_cursor.
  rewrite bind_run, call_run, Hopen. unfold finally.
  rewrite bind_run. unfold catch at 1. unfold enumerate1.
  rewrite (for_each_continues _ _ _ outcomes) by done.
  rewrite bind_run, call_run, Hclose. cbn [lift].
  rewrite call_run, Hcommit. unfold answers in Hopen, Hclose.
  rewrite <- !app_assoc, !Hopen, !Hclose. reflexivity.
Qed.

Lemma continue_on_error_savepoint_per_statement_witness :
  let self := {| DdlExec.sql_dir := [py "sql"]; ddl_order := [py "mixed.sql"];
                 fail_fast := false; skip_missing := false |} in
  let conn := {| autocommit := Some false; has_commit := true;
                 has_rollback := true |} in
  let fpath := [py "sql"; py "mixed.sql"] in
  let text := py "CREATE TABLE a (id int);" ++ [NL] ++ py "BOGUS;" ++ [NL]
              ++ py "CREATE TABLE b (id int);" ++ [NL] in
  let good1 := {| sql := py "CREATE TABLE a (id int);"; start_line := 1 |} in
  let bad := {| sql := py "BOGUS;"; start_line := 2 |} in
  let good2 := {| sql := py "CREATE TABLE b (id int);"; start_line := 3 |} in
  let e := DBAPIError (Some (py "42601")) in
  _run_file self conn fpath Demo.env []
  = ([Called (ReadText fpath) (Ok text); ok CursorOpen;
      ok (savepoint 1); ok (execute good1); ok (release 1);
      ok (savepoint 2); Called (execute bad) (Raise e); ok (rollback_to 2);
      ok (release 2);
      ok (Log EXCEPTION
            (py "DDL error in %s (stmt %d, start line %d). Continuing...")
            [AStr (py "mixed.sql"); AInt 2; AInt 2]);
      ok (savepoint 3); ok (execute good2); ok (release 3);
      ok CursorClose; ok ConnCommit],
     Ok tt).
Proof.
  intros self conn fpath text good1 bad good2 e.
  assert (transaction_control_accepted Demo.env) as Htc.
  { split_and!; try (intros h; reflexivity).
    intros idx. split_and!; intros h; reflexivity. }
  assert (Forall2 (settles Demo.env) [good1; bad; good2]
            [Ok tt; Raise e; Ok tt]) as Hall.
  { repeat constructor; intros h; reflexivity. }
  assert (_split_sql_statements (env_isalnum Demo.env) text
          = [good1; bad; good2]) as Hsplit by (vm_compute; reflexivity).
  exact (continue_on_error_savepoint_per_statement self conn fpath Demo.env
           [] text [good1; bad; good2] [Ok tt; Raise e; Ok tt]
           eq_refl eq_refl eq_refl eq_refl Hsplit
           (λ H, eq_ind [good1; bad; good2]
                   (λ l, match l with [] => False | _ => True end) I [] H)
           Htc Hall).
Defined.

(** ** What the splitter keeps of a text *)

Lemma startswith_take (w p : pystr) :
  startswith w p = true → take (length p) w = p.
Proof.
  revert w. induction p as [|a p IH]; intros w Hs; [done|].
  destruct w as [|b w]; [done|]. simpl in Hs.
  apply andb_prop in Hs as [->%N.eqb_eq Hs]. simpl. f_equal. by apply IH.
Qed.

Lemma is_char_head (c : N) (tl : pystr) :
  is_char c (head tl) = true → ∃ tl', tl = c :: tl'.
Proof.
  destruct tl as [|x tl']; [done|]. simpl. intros ->%N.eqb_eq. eauto.
Qed.

Lemma count_nl_app (a b : pystr) : count_nl (a ++ b) = count_nl a + count_nl b.
Proof. unfold count_nl. by rewrite filter_app, length_app. Qed.

Lemma count_nl_single (ch : N) :
  count_nl [ch] = if (ch =? NL)%N then 1 else 0.
Proof.
  unfold count_nl. rewrite filter_cons. destruct (ch =? NL)%N eqn:E.
  - apply N.eqb_eq in E. subst. by rewrite decide_True.
  - rewrite decide_False; [done|]. intros ->. by rewrite N.eqb_refl in E.
Qed.

Lemma statements_of_app (before : pystr) (ps qs : list pystr) :
  statements_of before (ps ++ qs)
  = statements_of before ps ++ statements_of (before ++ concat ps) qs.
Proof.
  revert before. induction ps as [|p ps IH]; intros before; simpl.
  - by rewrite app_nil_r.
  - by rewrite IH, <- !app_assoc.
Qed.

Lemma head_app_ne {A} (l k : list A) : l ≠ [] → head (l ++ k) = head l.
Proof. by destruct l. Qed.

Lemma lstrip_idemp (p : N → bool) (w : pystr) :
  lstrip_with p (lstrip_with p w) = lstrip_with p w.
Proof.
  induction w as [|c w IH]; [done|]. simpl.
  destruct (p c) eqn:E; [done|]. simpl. by rewrite E.
Qed.

Lemma lstrip_head (p : N → bool) (w : pystr) (c : N) (t : pystr) :
  lstrip_with p w = c :: t → p c = false.
Proof.
  induction w as [|x w IH]; [done|]. simpl.
  destruct (p x) eqn:E; [done|]. by intros [= <- _].
Qed.

Lemma lstrip_snoc_keep (p : N → bool) (a : pystr) (c : N) :
  p c = false → lstrip_with p (a ++ [c]) = lstrip_with p a ++ [c].
Proof.
  intros Hc. induction a as [|x a IH]; simpl; [by rewrite Hc|].
  by destruct (p x).
Qed.

Lemma rstrip_cons_keep (p : N → bool) (c : N) (t : pystr) :
  p c = false → rstrip_with p (c :: t) = c :: rstrip_with p t.
Proof.
  intros Hc. unfold rstrip_with.
  by rewrite reverse_cons, lstrip_snoc_keep, reverse_app.
Qed.

Lemma rstrip_idemp (p : N → bool) (w : pystr) :
  rstrip_with p (rstrip_with p w) = rstrip_with p w.
Proof.
  unfold rstrip_with. by rewrite reverse_involutive, lstrip_idemp.
Qed.

Lemma strip_with_idemp (p : N → bool) (w : pystr) :
  strip_with p (strip_with p w) = strip_with p w.
Proof.
  unfold strip_with. destruct (lstrip_with p w) as [|c t] eqn:E; [done|].
  pose proof (lstrip_head p w c t E) as Hc.
  rewrite rstrip_cons_keep by done. simpl. rewrite Hc.
  by rewrite rstrip_cons_keep, rstrip_idemp.
Qed.

Lemma strip_idemp (w : pystr) : strip (strip w) = strip w.
Proof. apply strip_with_idemp. Qed.

Lemma count_nl_replace_bom (w : pystr) :
  count_nl (replace_char BOM [] w) = count_nl w.
Proof.
  unfold count_nl, replace_char. induction w as [|c w IH]; [done|].
  rewrite bind_cons, filter_app, length_app, IH, filter_cons.
  destruct (c =? BOM)%N eqn:E.
  - apply N.eqb_eq in E. subst. by rewrite decide_False.
  - rewrite filter_cons, filter_nil. by destruct (decide (c = NL)).
Qed.

Lemma sql_statements_of (before : pystr) (pieces : list pystr) :
  sql <$> statements_of before pieces
  = strip <$> filter (λ p, kept p = true) pieces.
Proof.
  revert before. induction pieces as [|p ps IH]; intros before; [done|].
  simpl. rewrite fmap_app, IH, filter_cons.
  destruct (kept p); [by rewrite decide_True|by rewrite decide_False].
Qed.

Lemma head_nl_count (w : pystr) :
  (if bool_decide (head w = Some NL) then 1 else 0) ≤ count_nl w.
Proof.
  destruct w as [|c w]; [done|]. simpl.
  change (c :: w) with ([c] ++ w). rewrite count_nl_app, count_nl_single.
  case_bool_decide as E; [|lia]. injection E as ->. simpl. lia.
Qed.

Lemma statements_of_bounds (before : pystr) (pieces : list pystr) :
  Forall (λ st, 1 + count_nl before ≤ start_line st
                ∧ start_line st ≤ 1 + count_nl (before ++ concat pieces))
    (statements_of before pieces).
Proof.
  revert before. induction pieces as [|p ps IH]; intros before; [done|].
  simpl. apply Forall_app. split.
  - destruct (kept p); [|done]. constructor; [|done]. simpl.
    unfold piece_line. rewrite !count_nl_app.
    pose proof (head_nl_count p). lia.
  - eapply Forall_impl; [apply IH|]. intros st. simpl.
    rewrite !count_nl_app. lia.
Qed.

Lemma statements_of_sorted (before : pystr) (pieces : list pystr) :
  StronglySorted le (start_line <$> statements_of before pieces).
Proof.
  revert before. induction pieces as [|p ps IH]; intros before;
    [constructor|].
  simpl. destruct (kept p); [|apply IH]. simpl. constructor; [apply IH|].
  apply Forall_fmap. eapply Forall_impl; [apply statements_of_bounds|].
  intros st. simpl. unfold piece_line. rewrite count_nl_app.
  pose proof (head_nl_count p). lia.
Qed.

Section splitter_pieces.
Variable isalnum : N → bool.

Lemma tag_body_spec (tl : pystr) :
  Forall (follower isalnum) (tag_body isalnum tl)
  ∧ tl = tag_body isalnum tl ++ drop (length (tag_body isalnum tl)) tl.
Proof.
  induction tl as [|c tl [IH1 IH2]]; [done|]. simpl.
  destruct (negb (c =? DOLLAR)%N && (isalnum c || (c =? UNDERSCORE)%N))
    eqn:E; [|done].
  simpl. split; [|by rewrite <- IH2]. constructor; [|done].
  apply andb_prop in E as [_ [E|E%N.eqb_eq]%orb_prop].
  - by right.
  - left. subst. set_solver.
Qed.

Lemma dollar_open_spec (tl body : pystr) :
  dollar_open isalnum tl = Some body →
  Forall (follower isalnum) body
  ∧ tl = body ++ DOLLAR :: drop (length body + 1) tl.
Proof.
  unfold dollar_open. cbv zeta.
  destruct (tag_body_spec tl) as [Hf Htl].
  destruct (drop (length (tag_body isalnum tl)) tl) as [|c r] eqn:Hd;
    [done|].
  destruct (c =? DOLLAR)%N eqn:E; [|done]. apply N.eqb_eq in E. subst c.
  intros H. injection H as <-. split; [done|].
  rewrite <- drop_drop, Hd. simpl. by rewrite drop_0.
Qed.

Lemma mark_fields (ch : N) (st : scanner) :
  buf (mark ch st) = buf st ∧ out (mark ch st) = out st
  ∧ dollar_tag (mark ch st) = dollar_tag st ∧ started (mark ch st) = true
  ∧ line (mark ch st) = line st + (if (ch =? NL)%N then 1 else 0)
  ∧ stmt_start_line (mark ch st)
    = (if started st then stmt_start_line st else line (mark ch st)).
Proof.
  unfold mark. destruct (ch =? NL)%N, (started st) eqn:E; simpl;
    rewrite ?E; simpl; split_and!; try done; lia.
Qed.

(** One iteration appends to the buffer exactly what it reads, and cuts
    only after a [;] read on its own. *)
Lemma loop_body_reads (st : scanner) (ch : N) (tl : pystr) :
  tag_clean isalnum st →
  let st' := (loop_body isalnum st ch tl).1 in
  ∃ w,
    ch :: tl = (ch :: w) ++ (loop_body isalnum st ch tl).2
    ∧ Forall (follower isalnum) w
    ∧ ((buf st' = buf st ++ ch :: w ∧ out st' = out st
        ∧ line st' = line (mark ch st)
        ∧ stmt_start_line st' = stmt_start_line (mark ch st)
        ∧ started st' = true ∧ tag_clean isalnum st')
       ∨ (st' = flush (push ch (mark ch st)) ∧ w = [] ∧ ch = SEMI)).
Proof.
  intros Hc st'. subst st'.
  destruct (mark_fields ch st) as (Hb & Ho & Hd & Hs & _).
  unfold loop_body. fold (mark ch st).
  assert (tag_clean isalnum (mark ch st)) as Hm
    by (unfold tag_clean; by rewrite Hd).
  rewrite <- Hb, <- Ho. clear Hb Ho Hd Hc.
  destruct (mark ch st) as [o b sq dq lc bc dt l ssl s].
  unfold tag_clean in *. simpl in *. subst s.
  destruct lc.
  { exists []. split_and!; [done|done|]. left.
    by destruct (ch =? NL)%N. }
  destruct bc.
  { destruct ((ch =? STAR)%N && is_char SLASH (head tl)) eqn:E.
    - apply andb_prop in E as [_ [tl' ->]%is_char_head].
      exists [SLASH]. simpl. rewrite drop_0. split_and!; [done| |].
      + constructor; [|done]. left. set_solver.
      + left. by rewrite <- app_assoc.
    - exists []. split_and!; [done|done|]. by left. }
  destruct dt as [tag|]; simpl.
  { destruct (Hm tag eq_refl) as [Hne Hf].
    destruct tag as [|a tag]; [done|].
    destruct ((ch =? DOLLAR)%N && ((a =? ch)%N && startswith tl tag)) eqn:E;
      simpl.
    - apply andb_prop in E as [_ [_ E]%andb_prop].
      apply startswith_take in E.
      exists (take (length tag) tl). rewrite Nat.sub_0_r.
      split_and!.
      + by rewrite take_drop.
      + rewrite E. by inversion Hf.
      + left. rewrite <- app_assoc. split_and!; done.
    - exists []. split_and!; [done|done|]. by left. }
  destruct (negb sq && negb dq && (ch =? DASH)%N && is_char DASH (head tl))
    eqn:E1.
  { apply andb_prop in E1 as [_ [tl' ->]%is_char_head].
    exists [DASH]. simpl. rewrite drop_0. split_and!; [done| |].
    - constructor; [|done]. left. set_solver.
    - left. by rewrite <- app_assoc. }
  destruct (negb sq && negb dq && (ch =? SLASH)%N && is_char STAR (head tl))
    eqn:E2.
  { apply andb_prop in E2 as [_ [tl' ->]%is_char_head].
    exists [STAR]. simpl. rewrite drop_0. split_and!; [done| |].
    - constructor; [|done]. left. set_solver.
    - left. by rewrite <- app_assoc. }
  destruct ((ch =? SQ)%N && negb dq) eqn:E3.
  { destruct sq; simpl.
    - destruct (is_char SQ (head tl)) eqn:E4.
      + apply is_char_head in E4 as [tl' ->].
        exists [SQ]. simpl. rewrite drop_0. split_and!; [done| |].
        * constructor; [|done]. left. set_solver.
        * left. by rewrite <- app_assoc.
      + exists []. split_and!; [done|done|]. by left.
    - exists []. split_and!; [done|done|]. by left. }
  destruct ((ch =? DQ)%N && negb sq) eqn:E5.
  { exists []. split_and!; [done|done|]. by left. }
  destruct (if (ch =? DOLLAR)%N && (negb sq && negb dq)
            then dollar_open isalnum tl else None) as [body|] eqn:E6.
  { destruct ((ch =? DOLLAR)%N && (negb sq && negb dq)) eqn:E7; [|done].
    apply andb_prop in E7 as [->%N.eqb_eq _].
    destruct (dollar_open_spec tl body E6) as [Hf Htl].
    exists (body ++ [DOLLAR]). simpl. split_and!.
    - rewrite <- app_assoc. simpl. by rewrite <- Htl.
    - apply Forall_app. split; [done|]. constructor; [|done].
      left. set_solver.
    - left. rewrite <- !app_assoc. split_and!; try done.
      intros tag [= <-]. split; [done|]. constructor; [left; set_solver|].
      apply Forall_app. split; [done|]. constructor; [|done].
      left. set_solver. }
  destruct ((ch =? SEMI)%N && (negb sq && negb dq)) eqn:E8.
  { apply andb_prop in E8 as [->%N.eqb_eq _].
    exists []. split_and!; [done|done|]. by right. }
  exists []. split_and!; [done|done|]. by left.
Qed.

Lemma count_nl_followers (w : pystr) :
  isalnum NL = false → Forall (follower isalnum) w → count_nl w = 0.
Proof.
  intros Hnl. induction 1 as [|c w Hc _ IH]; [done|].
  unfold count_nl in *. rewrite filter_cons.
  destruct (decide (c = NL)) as [->|]; [|done].
  destruct Hc as [Hc|Hc]; [|congruence].
  set_solver.
Qed.

Lemma flush_fields (st : scanner) :
  out (flush st)
  = out st ++ (if kept (buf st)
               then [{| sql := strip (buf st);
                        start_line := stmt_start_line st |}]
               else [])
  ∧ buf (flush st) = [] ∧ started (flush st) = false
  ∧ line (flush st) = line st ∧ dollar_tag (flush st) = dollar_tag st.
Proof.
  unfold flush, kept.
  destruct (truthy (strip (buf st))
            && truthy (strip_chars [SEMI] (strip (strip (buf st)))));
    simpl; by rewrite ?app_nil_r.
Qed.

Lemma cut_inv_step (text0 : pystr) (st : scanner) (ch : N) (tl : pystr) :
  cut_inv isalnum text0 st (ch :: tl) →
  cut_inv isalnum text0 (loop_body isalnum st ch tl).1
    (loop_body isalnum st ch tl).2.
Proof.
  intros (pieces & Htext & Hsemi & Hsql & Hclean & Hlines).
  destruct (loop_body_reads st ch tl Hclean) as (w & Hw & Hf & Hcase).
  destruct (mark_fields ch st) as (Hmb & Hmo & Hmd & Hms & Hml & Hmssl).
  assert (isalnum NL = false →
          stmt_start_line (mark ch st)
          = piece_line (concat pieces) (buf st ++ [ch])) as Hstart.
  { intros Hnl. destruct (Hlines Hnl) as (_ & Hline & Hb0 & Hb1).
    rewrite Hmssl, Hml. destruct (buf st) as [|c0 b] eqn:Hbuf.
    - rewrite Hb0 by done. rewrite Hline, app_nil_r. unfold piece_line.
      simpl. destruct (ch =? NL)%N eqn:E.
      + apply N.eqb_eq in E. subst. by rewrite bool_decide_eq_true_2.
      + rewrite bool_decide_eq_false_2; [done|].
        intros [= ->]. by rewrite N.eqb_refl in E.
    - destruct Hb1 as [-> ->]; done. }
  destruct Hcase as [(Hb & Ho & Hl & Hssl & Hs & Hc)|(Hst & -> & ->)].
  - exists pieces. split_and!; try done.
    + rewrite Hb, <- Htext, <- !app_assoc. do 2 f_equal. by rewrite Hw.
    + by rewrite Ho.
    + intros Hnl. destruct (Hlines Hnl) as (Hout & Hline & _).
      split_and!.
      * by rewrite Ho.
      * rewrite Hl, Hml, Hline, Hb. rewrite !count_nl_app.
        change (ch :: w) with ([ch] ++ w). rewrite count_nl_app.
        rewrite (count_nl_followers w Hnl Hf), count_nl_single. lia.
      * rewrite Hb. by destruct (buf st).
      * intros _. split; [done|]. rewrite Hssl, Hstart, Hb by done.
        unfold piece_line. do 2 f_equal.
        change (ch :: w) with ([ch] ++ w). rewrite app_assoc.
        rewrite (head_app_ne (buf st ++ [ch])); [done|].
        by destruct (buf st).
  - set (st1 := push SEMI (mark SEMI st)) in *.
    assert (buf st1 = buf st ++ [SEMI] ∧ out st1 = out st
            ∧ stmt_start_line st1 = stmt_start_line (mark SEMI st)
            ∧ line st1 = line (mark SEMI st)
            ∧ dollar_tag st1 = dollar_tag st) as (Hb1 & Ho1 & Hs1 & Hl1 & Hd1)
      by (unfold st1, push;
          cbn [with_buf buf out stmt_start_line line dollar_tag];
          by rewrite Hmb, Hmo, Hmd).
    destruct (flush_fields st1) as (Hfo & Hfb & Hfs & Hfl & Hfd).
    rewrite Hb1, Ho1, Hs1 in Hfo. rewrite Hl1 in Hfl. rewrite Hd1 in Hfd.
    simpl in Hw. injection Hw as Hw.
    exists (pieces ++ [buf st ++ [SEMI]]). rewrite Hst. split_and!.
    + rewrite Hfb, concat_app, <- Htext, <- Hw. simpl.
      by rewrite app_nil_r, <- !app_assoc.
    + apply Forall_app. split; [done|]. constructor; [|done].
      by rewrite last_snoc.
    + rewrite Hfo, statements_of_app, !fmap_app, Hsql. f_equal. simpl.
      by destruct (kept (buf st ++ [SEMI])).
    + intros tag. rewrite Hfd. apply Hclean.
    + intros Hnl. destruct (Hlines Hnl) as (Hout & Hline & _).
      split_and!; try done.
      * rewrite Hfo, statements_of_app, Hout. f_equal. simpl.
        rewrite app_nil_r, (Hstart Hnl). done.
      * rewrite Hfl, Hfb, Hml, Hline, app_nil_r. simpl.
        rewrite concat_app. simpl.
        rewrite app_nil_r, !count_nl_app, count_nl_single. simpl. lia.
Qed.

Lemma cut_inv_loop_head (text : pystr) (st : scanner) (rest : pystr) :
  loop_head isalnum text st rest →
  cut_inv isalnum (replace_char BOM [] text) st rest.
Proof.
  induction 1 as [|st ch tl _ IH]; [|by apply cut_inv_step].
  exists []. split_and!; try done.
Qed.

(** The statements returned are those of the pieces the text is cut into
    at the semicolons read outside any region. *)
Lemma split_pieces (text : pystr) :
  ∃ pieces,
    concat pieces = replace_char BOM [] text
    ∧ cut_at_semicolons pieces
    ∧ sql <$> _split_sql_statements isalnum text
      = sql <$> statements_of [] pieces
    ∧ (isalnum NL = false →
       _split_sql_statements isalnum text = statements_of [] pieces).
Proof.
  destruct (split_reads_all isalnum text) as (st & Hhead & ->).
  destruct (cut_inv_loop_head text st [] Hhead)
    as (pieces & Htext & Hsemi & Hsql & _ & Hlines).
  destruct (flush_fields st) as (Hfo & _).
  rewrite app_nil_r in Htext.
  exists (pieces ++ [buf st]). split_and!.
  - rewrite concat_app. simpl. by rewrite app_nil_r.
  - intros i p Hi Hlt. rewrite length_app in Hlt. simpl in Hlt.
    rewrite lookup_app_l in Hi by lia.
    by eapply (proj1 (Forall_lookup _ _) Hsemi).
  - rewrite Hfo, statements_of_app, !fmap_app, Hsql. f_equal. simpl.
    by destruct (kept (buf st)).
  - intros Hnl. destruct (Hlines Hnl) as (Hout & _ & _ & Hstart).
    rewrite Hfo, statements_of_app, Hout. f_equal. simpl.
    destruct (kept (buf st)) eqn:Hk; [|done].
    destruct Hstart as [_ ->]; [|by rewrite app_nil_r].
    intros Hb. by rewrite Hb in Hk.
Qed.

End splitter_pieces.

(** X1: the splitter loses nothing but blanks: the text without its byte
    order marks is the concatenation of pieces, each but the last ending
    with the [;] that cut it, and the statements are, in order, the pieces
    stripped of surrounding whitespace, those left out being the pieces
    that are blank or hold only semicolons once stripped. *)
Theorem split_keeps_the_text (isalnum : N → bool) (text : pystr) :
  ∃ pieces,
    concat pieces = replace_char BOM [] text
    ∧ cut_at_semicolons pieces
    ∧ sql <$> _split_sql_statements isalnum text
      = strip <$> filter (λ p, kept p = true) pieces.
Proof.
  destruct (split_pieces isalnum text) as (pieces & H1 & H2 & H3 & _).
  exists pieces. by rewrite H3, sql_statements_of.
Qed.

(** X2: where a newline is no alphanumeric, a statement carries the line
    on which its piece starts, a newline that opens the piece counted; so
    the start lines lie between 1 and one more than the number of newlines
    of the text, and never decrease along the list. *)
Theorem split_start_lines (isalnum : N → bool) (text : pystr) :
  isalnum NL = false →
  (∃ pieces,
     concat pieces = replace_char BOM [] text
     ∧ _split_sql_statements isalnum text = statements_of [] pieces)
  ∧ Forall (λ st, 1 ≤ start_line st ∧ start_line st ≤ 1 + count_nl text)
      (_split_sql_statements isalnum text)
  ∧ StronglySorted le (start_line <$> _split_sql_statements isalnum text).
Proof.
  intros Hnl.
  destruct (split_pieces isalnum text) as (pieces & H1 & _ & _ & H4).
  rewrite (H4 Hnl). split_and!.
  - by exists pieces.
  - eapply Forall_impl; [apply statements_of_bounds|]. intros st. simpl.
    rewrite H1, count_nl_replace_bom. lia.
  - apply statements_of_sorted.
Qed.

Lemma split_start_lines_witness :
  let text := [NL; NL] ++ py "SELECT 1;" ++ [NL] ++ py "SELECT 2" in
  start_line <$> _split_sql_statements ascii_isalnum text = [2; 4]
  ∧ StronglySorted le (start_line <$> _split_sql_statements ascii_isalnum text).
Proof.
  intros text. split; [vm_compute; reflexivity|].
  exact (proj2 (proj2 (split_start_lines ascii_isalnum text eq_refl))).
Defined.

(** X3: every statement returned is free of surrounding whitespace, not
    empty and not made of semicolons only; the test for a blank statement
    in the runners never fires. *)
Theorem split_statements_are_stripped (isalnum : N → bool) (text : pystr) :
  Forall (λ st, strip (sql st) = sql st
                ∧ truthy (strip (sql st)) = true
                ∧ truthy (strip_chars [SEMI] (sql st)) = true)
    (_split_sql_statements isalnum text).
Proof.
  destruct (split_pieces isalnum text) as (pieces & _ & _ & H3 & _).
  rewrite sql_statements_of in H3.
  apply (proj1 (Forall_fmap sql
                  (λ w, strip w = w ∧ truthy (strip w) = true
                        ∧ truthy (strip_chars [SEMI] w) = true) _)).
  rewrite H3. apply Forall_fmap, Forall_forall.
  intros p [Hk _]%list_elem_of_filter. simpl. unfold kept in Hk.
  apply andb_prop in Hk as [Hk1 Hk2]. rewrite !strip_idemp in *. done.
Qed.

(** ** The scanner follows the regions of the text *)

Lemma inside_skip (isalnum : N → bool) (m : mode) (w rest : pystr) :
  inside isalnum m (length w) (w ++ rest)
  = replicate (length w) true ++ inside isalnum m 0 rest.
Proof. induction w as [|c w IH]; [done|]. simpl. by rewrite IH. Qed.

Lemma cut_outside_skip (w : pystr) (marks : list bool) (rest cur : pystr) :
  cut_outside (replicate (length w) true ++ marks) (w ++ rest) cur
  = cut_outside marks rest (cur ++ w).
Proof.
  revert cur. induction w as [|c w IH]; intros cur; simpl.
  - by rewrite app_nil_r.
  - rewrite andb_false_r, IH. by rewrite <- app_assoc.
Qed.

Lemma startswith_one (c ch : N) (tl : pystr) :
  startswith (ch :: tl) [c] = (ch =? c)%N.
Proof. simpl. rewrite N.eqb_sym. by destruct tl; rewrite andb_true_r. Qed.

Lemma startswith_two (a b ch : N) (tl : pystr) :
  startswith (ch :: tl) [a; b] = (ch =? a)%N && is_char b (head tl).
Proof.
  simpl. rewrite (N.eqb_sym a ch). f_equal.
  destruct tl as [|x tl]; [done|]. simpl. rewrite N.eqb_sym.
  by destruct tl; rewrite andb_true_r.
Qed.

Lemma startswith_head (ch a : N) (tl tag : pystr) :
  startswith (ch :: tl) (a :: tag) = true → ch = a.
Proof. simpl. by intros [->%N.eqb_eq _]%andb_prop. Qed.

Section splitter_regions.
Variable isalnum : N → bool.

Lemma dollar_open_tag_name (tl : pystr) :
  dollar_open isalnum tl = tag_name isalnum tl.
Proof.
  unfold dollar_open. cbv zeta. induction tl as [|c tl IH]; [done|].
  simpl. destruct (c =? DOLLAR)%N eqn:E; simpl.
  - by rewrite E.
  - destruct (isalnum c || (c =? UNDERSCORE)%N); simpl.
    + rewrite <- IH.
      destruct (drop (length (tag_body isalnum tl)) tl) as [|x r]; [done|].
      by destruct (x =? DOLLAR)%N.
    + by rewrite E.
Qed.

Lemma mark_flags (ch : N) (st : scanner) :
  in_sq (mark ch st) = in_sq st ∧ in_dq (mark ch st) = in_dq st
  ∧ in_line_comment (mark ch st) = in_line_comment st
  ∧ in_block_comment (mark ch st) = in_block_comment st
  ∧ dollar_tag (mark ch st) = dollar_tag st.
Proof. unfold mark. by repeat case_match. Qed.

Lemma mode_of_mark (ch : N) (st : scanner) :
  mode_of (mark ch st) = mode_of st.
Proof.
  destruct (mark_flags ch st) as (H1 & H2 & H3 & H4 & H5).
  unfold mode_of. rewrite H3, H4, H5, H1, H2. done.
Qed.

Lemma mode_ok_mark (ch : N) (st : scanner) :
  mode_ok st → mode_ok (mark ch st).
Proof.
  destruct (mark_flags ch st) as (H1 & H2 & H3 & H4 & H5).
  unfold mode_ok. rewrite mode_of_mark.
  destruct (mode_of st); rewrite ?H1, ?H2, ?H3, ?H4, ?H5; tauto.
Qed.

Lemma mode_of_flush (st : scanner) : mode_of (flush st) = mode_of st.
Proof. unfold flush. cbv zeta. by destruct (truthy _ && truthy _). Qed.

Lemma mode_ok_flush (st : scanner) : mode_ok st → mode_ok (flush st).
Proof.
  unfold mode_ok. rewrite mode_of_flush. unfold flush. cbv zeta.
  by destruct (truthy _ && truthy _).
Qed.

Lemma mode_in_region (st : scanner) :
  in_region st = negb (is_normal (mode_of st)).
Proof.
  unfold in_region, mode_of. destruct st as [o b sq dq lc bc [tag|] l ssl s];
    simpl; by destruct lc, bc, sq, dq.
Qed.

(** One iteration reads the token that the specification reads in the
    state the flags stand for, and lands in the state after it; it cuts
    only when that token is a [;] read from the normal state. *)
Lemma loop_body_token (st : scanner) (ch : N) (tl : pystr) :
  mode_ok st →
  let st' := (loop_body isalnum st ch tl).1 in
  ∃ w,
    token isalnum (mode_of st) (ch :: tl) = (mode_of st', S (length w))
    ∧ tl = w ++ (loop_body isalnum st ch tl).2
    ∧ mode_ok st'
    ∧ ((buf st' = buf st ++ ch :: w ∧ out st' = out st
        ∧ (ch =? SEMI)%N
          && (is_normal (mode_of st) && is_normal (mode_of st')) = false)
       ∨ (st' = flush (push ch (mark ch st)) ∧ w = [] ∧ ch = SEMI
          ∧ mode_of st = Normal ∧ mode_of st' = Normal)).
Proof.
  intros Hok st'. subst st'.
  destruct (mark_fields ch st) as (Hb & Ho & _).
  apply (mode_ok_mark ch) in Hok. rewrite <- (mode_of_mark ch st).
  unfold loop_body. fold (mark ch st). rewrite <- Hb, <- Ho. clear Hb Ho.
  destruct (mark ch st) as [o b sq dq lc bc dt l ssl s].
  unfold mode_ok in Hok. unfold mode_of at 1 in Hok.
  unfold mode_of at 1. unfold mode_of at 2. simpl in Hok.
  cbn [in_line_comment in_block_comment dollar_tag in_sq in_dq].
  destruct lc.
  { destruct Hok as (-> & -> & -> & ->). exists [].
    unfold token. rewrite startswith_one.
    destruct (ch =? NL)%N; simpl; split_and!; try done; left;
      by rewrite ?andb_false_r. }
  destruct bc.
  { destruct Hok as (-> & -> & ->).
    unfold token. rewrite startswith_two.
    destruct ((ch =? STAR)%N && is_char SLASH (head tl)) eqn:E.
    - apply andb_prop in E as [_ [tl' ->]%is_char_head].
      exists [SLASH]. simpl. rewrite drop_0. split_and!; try done.
      left. by rewrite <- app_assoc, ?andb_false_r.
    - exists []. simpl. split_and!; try done. left.
      by rewrite ?andb_false_r. }
  destruct dt as [tag|].
  { destruct Hok as (-> & -> & Htag).
    destruct tag as [|a tag]; [done|]. injection Htag as ->.
    unfold token.
    replace ((ch =? DOLLAR)%N && startswith (ch :: tl) (DOLLAR :: tag))
      with (startswith (ch :: tl) (DOLLAR :: tag)).
    2:{ destruct (startswith (ch :: tl) (DOLLAR :: tag)) eqn:E;
          [|by rewrite andb_false_r].
        apply startswith_head in E as ->. done. }
    destruct (startswith (ch :: tl) (DOLLAR :: tag)) eqn:E.
    - pose proof (startswith_head _ _ _ _ E) as ->.
      simpl in E. apply startswith_take in E.
      exists (take (length tag) tl). simpl. rewrite Nat.sub_0_r.
      rewrite length_take_le.
      2:{ rewrite <- E at 1. rewrite length_take. lia. }
      split_and!; try done.
      + by rewrite take_drop.
      + left. rewrite <- app_assoc. by rewrite ?andb_false_r.
    - exists []. simpl. split_and!; try done. left.
      by rewrite ?andb_false_r. }
  destruct sq, dq; [done| | |]; clear Hok; unfold token;
    rewrite ?startswith_two, ?startswith_one; simpl.
  - (* inside a string *)
    destruct (ch =? SQ)%N eqn:E1; simpl.
    + destruct (is_char SQ (head tl)) eqn:E2.
      * apply is_char_head in E2 as [tl' ->]. exists [SQ]. simpl.
        rewrite drop_0. split_and!; try done. left.
        by rewrite <- app_assoc, ?andb_false_r.
      * exists []. simpl. split_and!; try done. left.
        by rewrite ?andb_false_r.
    + rewrite !andb_false_r. exists []. simpl. split_and!; try done.
      left. by rewrite ?andb_false_r.
  - (* inside a quoted identifier *)
    rewrite !andb_false_r. simpl.
    destruct (ch =? DQ)%N eqn:E1; simpl.
    + exists []. simpl. split_and!; try done. left.
      by rewrite ?andb_false_r.
    + exists []. simpl. split_and!; try done. left.
      by rewrite ?andb_false_r.
  - (* outside *)
    rewrite !andb_true_r, drop_0, <- dollar_open_tag_name.
    destruct ((ch =? DASH)%N && is_char DASH (head tl)) eqn:E1.
    { apply andb_prop in E1 as [_ [tl' ->]%is_char_head].
      exists [DASH]. simpl. rewrite drop_0. split_and!; try done. left.
      by rewrite <- app_assoc, ?andb_false_r. }
    destruct ((ch =? SLASH)%N && is_char STAR (head tl)) eqn:E2.
    { apply andb_prop in E2 as [_ [tl' ->]%is_char_head].
      exists [STAR]. simpl. rewrite drop_0. split_and!; try done. left.
      by rewrite <- app_assoc, ?andb_false_r. }
    destruct (ch =? SQ)%N eqn:E3.
    { exists []. simpl. split_and!; try done. left.
      by rewrite ?andb_false_r. }
    destruct (ch =? DQ)%N eqn:E4.
    { exists []. simpl. split_and!; try done. left.
      by rewrite ?andb_false_r. }
    destruct (if (ch =? DOLLAR)%N then dollar_open isalnum tl else None)
      as [body|] eqn:E5.
    { destruct (ch =? DOLLAR)%N eqn:E6; [|done].
      apply N.eqb_eq in E6 as ->.
      destruct (dollar_open_spec isalnum tl body E5) as [_ Htl].
      exists (body ++ [DOLLAR]). simpl. split_and!; try done.
      - rewrite length_app. simpl. do 2 f_equal. lia.
      - by rewrite <- app_assoc.
      - left. by rewrite <- !app_assoc, ?andb_false_r. }
    destruct (ch =? SEMI)%N eqn:E7.
    { apply N.eqb_eq in E7 as ->. exists []. simpl.
      split_and!; try done.
      - by rewrite mode_of_flush.
      - by apply mode_ok_flush.
      - right. split_and!; try done. by rewrite mode_of_flush. }
    exists []. simpl. split_and!; try done. by left.
Qed.

Lemma lex_inv_step (t : pystr) (st : scanner) (ch : N) (tl : pystr) :
  lex_inv isalnum t st (ch :: tl) →
  lex_inv isalnum t (loop_body isalnum st ch tl).1
    (loop_body isalnum st ch tl).2.
Proof.
  intros (marks & pieces & Hok & Hmarks & Hlen & Hcut & Hout).
  destruct (loop_body_token st ch tl Hok) as (w & Htok & Htl & Hok' & Hcase).
  set (st' := (loop_body isalnum st ch tl).1) in *.
  set (rest' := (loop_body isalnum st ch tl).2) in *.
  set (b := negb (is_normal (mode_of st) && is_normal (mode_of st'))).
  assert (inside isalnum (mode_of st) 0 (ch :: tl)
          = b :: replicate (length w) true
              ++ inside isalnum (mode_of st') 0 rest') as Hin.
  { cbn [inside]. rewrite Htok. cbn [Nat.sub]. rewrite Nat.sub_0_r.
    fold b. f_equal. rewrite Htl at 1. apply inside_skip. }
  rewrite Hin in Hmarks, Hcut.
  exists (marks ++ b :: replicate (length w) true).
  destruct Hcase as [(Hbuf & Ho & Hb)|(Hst & -> & -> & Hm & Hm')].
  - exists pieces. split_and!; try done.
    + by rewrite Hmarks, <- app_assoc.
    + rewrite <- Hlen, Htl, !length_app. simpl.
      rewrite length_replicate, length_app. lia.
    + rewrite Hcut. f_equal. rewrite Htl at 1. cbn [cut_outside].
      unfold b. rewrite negb_involutive, Hb, cut_outside_skip, Hbuf.
      by rewrite <- app_assoc.
    + by rewrite Ho.
  - exists (pieces ++ [buf st ++ [SEMI]]). simpl in Htl.
    destruct (mark_fields SEMI st) as (Hmb & Hmo & _).
    destruct (flush_fields (push SEMI (mark SEMI st)))
      as (Hfo & Hfb & _).
    fold st' in Hst. rewrite <- Hst in Hfo, Hfb.
    unfold push in Hfo. cbn [with_buf buf out stmt_start_line] in Hfo.
    rewrite Hmb, Hmo in Hfo.
    split_and!; try done.
    + by rewrite Hmarks, <- app_assoc.
    + rewrite <- Hlen, <- Htl, !length_app. simpl. lia.
    + rewrite Hcut, <- app_assoc, <- Htl. f_equal.
      cbn [cut_outside replicate length app].
      unfold b. rewrite Hm, Hm'. simpl. by rewrite Hfb.
    + rewrite Hfo, statements_of_app, !fmap_app, Hout. f_equal. simpl.
      by destruct (kept (buf st ++ [SEMI])).
Qed.

Lemma lex_inv_loop_head (text : pystr) (st : scanner) (rest : pystr) :
  loop_head isalnum text st rest →
  lex_inv isalnum (replace_char BOM [] text) st rest.
Proof.
  induction 1 as [|st ch tl _ IH]; [|by apply lex_inv_step].
  exists [], []. split_and!; try done.
Qed.

End splitter_regions.

(** The marks of the specification on texts of a known shape: a run of
    characters that open nothing lies outside; a string, a quoted
    identifier, a line comment, a block comment and a dollar-quoted
    block lie inside, from the mark that opens them to the mark that
    closes them. *)
Section regions_of_shapes.
Variable isalnum : N → bool.

Lemma inside_cons (m : mode) (c : N) (tl : pystr) :
  inside isalnum m 0 (c :: tl)
  = negb (is_normal m && is_normal (token isalnum m (c :: tl)).1)
    :: inside isalnum (token isalnum m (c :: tl)).1
         ((token isalnum m (c :: tl)).2 - 1) tl.
Proof. simpl. by destruct (token isalnum m (c :: tl)). Qed.

Lemma regions_outside (pre x : pystr) :
  Forall (λ c, c ∉ [DASH; SLASH; SQ; DQ; DOLLAR]) pre →
  inside isalnum Normal 0 (pre ++ x)
  = replicate (length pre) false ++ inside isalnum Normal 0 x.
Proof.
  induction 1 as [|c pre Hc _ IH]; [done|].
  assert (token isalnum Normal (c :: pre ++ x) = (Normal, 1)) as Htok.
  { unfold token. rewrite !startswith_two, !startswith_one.
    assert (∀ a, a ∈ [DASH; SLASH; SQ; DQ; DOLLAR] → (c =? a)%N = false)
      as Hne.
    { intros a Ha. apply N.eqb_neq. by intros ->. }
    rewrite !Hne by set_solver. done. }
  rewrite <- app_comm_cons, inside_cons, Htok. simpl. by rewrite IH.
Qed.

(** Inside a region that a single character [stop] closes, as long as it
    does not show up. *)
Lemma inside_until (m : mode) (stop : N) (body x : pystr) :
  m ≠ Normal →
  (∀ c tl, c ≠ stop → token isalnum m (c :: tl) = (m, 1)) →
  stop ∉ body →
  inside isalnum m 0 (body ++ x)
  = replicate (length body) true ++ inside isalnum m 0 x.
Proof.
  intros Hm Htok. induction body as [|c body IH]; intros Hb; [done|].
  apply not_elem_of_cons in Hb as [Hc Hb].
  rewrite <- app_comm_cons, inside_cons, Htok by done. simpl.
  rewrite IH by done. by destruct m.
Qed.

Lemma regions_string (body post : pystr) :
  SQ ∉ body → head post ≠ Some SQ →
  inside isalnum Normal 0 (SQ :: body ++ SQ :: post)
  = replicate (length body + 2) true ++ inside isalnum Normal 0 post.
Proof.
  intros Hb Hp. rewrite inside_cons.
  assert (token isalnum Normal (SQ :: body ++ SQ :: post)
          = (SingleQuoted, 1)) as ->
    by (unfold token; by rewrite !startswith_two, !startswith_one).
  simpl.
  rewrite (inside_until SingleQuoted SQ); [|done| |done].
  2:{ intros c tl Hc. unfold token.
      rewrite startswith_two, startswith_one.
      apply N.eqb_neq in Hc. by rewrite Hc. }
  replace (length body + 2) with (1 + length body + 1) by lia.
  rewrite !replicate_add, <- !app_assoc. cbn [replicate app Nat.add]. do 2 f_equal.
  rewrite inside_cons.
  assert (token isalnum SingleQuoted (SQ :: post) = (Normal, 1)) as ->; [|done].
  unfold token. rewrite startswith_two, startswith_one. simpl.
  destruct post as [|c post]; simpl; [done|].
  destruct (c =? SQ)%N eqn:E; [|done].
  apply N.eqb_eq in E. by subst.
Qed.

Lemma regions_identifier (body post : pystr) :
  DQ ∉ body →
  inside isalnum Normal 0 (DQ :: body ++ DQ :: post)
  = replicate (length body + 2) true ++ inside isalnum Normal 0 post.
Proof.
  intros Hb. rewrite inside_cons.
  assert (token isalnum Normal (DQ :: body ++ DQ :: post)
          = (DoubleQuoted, 1)) as ->
    by (unfold token; by rewrite !startswith_two, !startswith_one).
  simpl.
  rewrite (inside_until DoubleQuoted DQ); [|done| |done].
  2:{ intros c tl Hc. unfold token. rewrite startswith_one.
      apply N.eqb_neq in Hc. by rewrite Hc. }
  replace (length body + 2) with (1 + length body + 1) by lia.
  rewrite !replicate_add, <- !app_assoc. cbn [replicate app Nat.add]. do 2 f_equal.
  rewrite inside_cons.
  assert (token isalnum DoubleQuoted (DQ :: post) = (Normal, 1)) as ->
    by (unfold token; by rewrite startswith_one).
  done.
Qed.

Lemma regions_line_comment (body post : pystr) :
  NL ∉ body →
  inside isalnum Normal 0 (DASH :: DASH :: body ++ NL :: post)
  = replicate (length body + 3) true ++ inside isalnum Normal 0 post.
Proof.
  intros Hb. rewrite inside_cons.
  assert (token isalnum Normal (DASH :: DASH :: body ++ NL :: post)
          = (LineComment, 2)) as ->
    by (unfold token; by rewrite !startswith_two, !startswith_one).
  simpl.
  rewrite (inside_until LineComment NL); [|done| |done].
  2:{ intros c tl Hc. unfold token. rewrite startswith_one.
      apply N.eqb_neq in Hc. by rewrite Hc. }
  replace (length body + 3) with (2 + length body + 1) by lia.
  rewrite !replicate_add, <- !app_assoc. cbn [replicate app Nat.add]. do 3 f_equal.
  rewrite inside_cons.
  assert (token isalnum LineComment (NL :: post) = (Normal, 1)) as ->
    by (unfold token; by rewrite startswith_one).
  done.
Qed.

Lemma regions_block_comment (body post : pystr) :
  STAR ∉ body →
  inside isalnum Normal 0
    (SLASH :: STAR :: body ++ STAR :: SLASH :: post)
  = replicate (length body + 4) true ++ inside isalnum Normal 0 post.
Proof.
  intros Hb. rewrite inside_cons.
  assert (token isalnum Normal
            (SLASH :: STAR :: body ++ STAR :: SLASH :: post)
          = (BlockComment, 2)) as ->
    by (unfold token; by rewrite !startswith_two, !startswith_one).
  simpl.
  rewrite (inside_until BlockComment STAR); [|done| |done].
  2:{ intros c tl Hc. unfold token. rewrite startswith_two.
      apply N.eqb_neq in Hc. by rewrite Hc. }
  replace (length body + 4) with (2 + length body + 2) by lia.
  rewrite !replicate_add, <- !app_assoc. cbn [replicate app Nat.add]. do 3 f_equal.
  rewrite inside_cons.
  assert (token isalnum BlockComment (STAR :: SLASH :: post) = (Normal, 2))
    as -> by (unfold token; by rewrite startswith_two).
  done.
Qed.

Lemma tag_name_closed (name x : pystr) :
  Forall (λ c, c ≠ DOLLAR ∧ (isalnum c = true ∨ c = UNDERSCORE)) name →
  tag_name isalnum (name ++ DOLLAR :: x) = Some name.
Proof.
  induction 1 as [|c name [Hc1 Hc2] _ IH]; [done|]. simpl.
  apply N.eqb_neq in Hc1. rewrite Hc1, IH.
  destruct Hc2 as [->| ->]; [done|]. by rewrite orb_true_r.
Qed.

Lemma regions_dollar_block (name body post : pystr) :
  Forall (λ c, c ≠ DOLLAR ∧ (isalnum c = true ∨ c = UNDERSCORE)) name →
  DOLLAR ∉ body →
  inside isalnum Normal 0
    (DOLLAR :: name ++ DOLLAR :: body ++ DOLLAR :: name ++ DOLLAR :: post)
  = replicate (length body + 2 * (length name + 2)) true
    ++ inside isalnum Normal 0 post.
Proof.
  intros Hn Hb. set (tag := DOLLAR :: name ++ [DOLLAR]).
  assert (∀ x, DOLLAR :: name ++ DOLLAR :: x = tag ++ x) as Htag.
  { intros x. unfold tag. simpl. by rewrite <- app_assoc. }
  assert (length tag = length name + 2) as Hlen.
  { unfold tag. simpl. rewrite length_app. simpl. lia. }
  assert (∀ x, startswith (tag ++ x) tag = true) as Hstart.
  { intros x. clear. induction tag as [|a tg IH]; simpl.
    - by destruct x.
    - by rewrite N.eqb_refl. }
  assert (∀ (md : mode) x,
            inside isalnum md (length name + 1) (name ++ DOLLAR :: x)
            = replicate (length name + 1) true ++ inside isalnum md 0 x)
    as Hskip.
  { intros md x.
    pose proof (inside_skip isalnum md (name ++ [DOLLAR]) x) as Hs.
    by rewrite <- app_assoc, length_app in Hs. }
  assert (∀ x, inside isalnum (DollarQuoted tag) 0 (tag ++ x)
               = replicate (length tag) true ++ inside isalnum Normal 0 x)
    as Hclose.
  { intros x. rewrite <- (Htag x), inside_cons, (Htag x).
    assert (token isalnum (DollarQuoted tag) (tag ++ x)
            = (Normal, length tag)) as ->
      by (unfold token; by rewrite Hstart).
    cbn [fst snd negb andb is_normal]. rewrite Hlen.
    replace (length name + 2 - 1) with (length name + 1) by lia.
    rewrite Hskip. replace (length name + 2) with (S (length name + 1))
      by lia. done. }
  assert (inside isalnum Normal 0 (tag ++ body ++ tag ++ post)
          = replicate (length tag) true
            ++ inside isalnum (DollarQuoted tag) 0 (body ++ tag ++ post))
    as Hopen.
  { rewrite <- (Htag (body ++ tag ++ post)), inside_cons.
    assert (token isalnum Normal
              (DOLLAR :: name ++ DOLLAR :: body ++ tag ++ post)
            = (DollarQuoted tag, length name + 2)) as ->.
    { unfold token. rewrite !startswith_two, !startswith_one.
      change (drop 1 (DOLLAR :: ?x)) with x. cbn [N.eqb DOLLAR DASH SLASH SQ DQ andb].
      simpl. by rewrite tag_name_closed. }
    cbn [fst snd negb andb is_normal]. rewrite Hlen.
    replace (length name + 2 - 1) with (length name + 1) by lia.
    rewrite Hskip. replace (length name + 2) with (S (length name + 1))
      by lia. done. }
  rewrite Htag, Htag, Hopen.
  rewrite (inside_until (DollarQuoted tag) DOLLAR); [|done| |done].
  2:{ intros c tl Hc. unfold token.
      destruct (startswith (c :: tl) tag) eqn:E; [|done].
      by apply startswith_head in E. }
  rewrite Hclose, !app_assoc, <- !replicate_add, Hlen. do 2 f_equal. lia.
Qed.
End regions_of_shapes.

(** C2: take the marks of the specification on the text, which say of
    each character whether it lies inside a single-quoted string, a
    double-quoted identifier, a line comment, a block comment or a
    dollar-quoted block. At every iteration of the scan of any text that
    reads a [;] marked as inside, the scanner is in a region and no
    statement is emitted: the output list is unchanged, the [;] joins the
    pending buffer, the pending statement stays open, the scanner stays
    in the same region and goes on with the next character. And the
    statements returned are, in order and stripped, the pieces of the
    text cut after each [;] marked as outside, and after no other
    character, those pieces left out that are blank or hold only
    semicolons. *)
Theorem semicolon_inside_region_never_splits (isalnum : N → bool)
    (text : pystr) (st : scanner) (tl : pystr) :
  let t := replace_char BOM [] text in
  loop_head isalnum text st (SEMI :: tl) →
  regions isalnum t !! (length t - S (length tl)) = Some true →
  let st' := (loop_body isalnum st SEMI tl).1 in
  in_region st = true
  ∧ (loop_body isalnum st SEMI tl).2 = tl
  ∧ out st' = out st
  ∧ buf st' = buf st ++ [SEMI]
  ∧ started st' = true
  ∧ in_sq st' = in_sq st ∧ in_dq st' = in_dq st
  ∧ in_line_comment st' = in_line_comment st
  ∧ in_block_comment st' = in_block_comment st
  ∧ dollar_tag st' = dollar_tag st
  ∧ sql <$> _split_sql_statements isalnum text
    = strip <$> filter (λ p, kept p = true)
                  (cut_outside (regions isalnum t) t []).
Proof.
  intros t Hhead Hmark st'.
  assert (in_region st = true) as Hr.
  { destruct (lex_inv_loop_head isalnum text st _ Hhead)
      as (marks & pieces & Hok & Hmarks & Hlen & _).
    fold t in Hmarks, Hlen. simpl in Hlen.
    replace (length t - S (length tl)) with (length marks + 0) in Hmark
      by lia.
    rewrite Hmarks, lookup_app_r, Nat.add_comm, Nat.add_sub in Hmark by lia.
    rewrite inside_cons in Hmark. simpl in Hmark.
    rewrite mode_in_region. by destruct (mode_of st). }
  split; [done|]. subst st'.
  rewrite loop_body_semi_in_region by done.
  unfold mark. change (SEMI =? NL)%N with false. cbv iota.
  split_and!; try (destruct (started st) eqn:E; simpl; rewrite ?E; done).
  destruct (split_reads_all isalnum text) as (st0 & Hhead0 & ->).
  destruct (lex_inv_loop_head isalnum text st0 [] Hhead0)
    as (marks & pieces & _ & _ & _ & Hcut & Hout).
  fold t in Hcut. simpl in Hcut. rewrite Hcut.
  destruct (flush_fields st0) as (Hfo & _).
  rewrite Hfo, fmap_app, Hout, sql_statements_of, filter_app, fmap_app.
  f_equal. rewrite filter_cons, filter_nil.
  destruct (kept (buf st0)); [by rewrite decide_True|by rewrite decide_False].
Qed.

Lemma semicolon_inside_region_never_splits_witness :
  Forall (λ text,
    let c := default SEMI (head text) in
    let st := (loop_body ascii_isalnum scanner_init c (tail text)).1 in
    let rest := (loop_body ascii_isalnum scanner_init c (tail text)).2 in
    head rest = Some SEMI
    ∧ regions ascii_isalnum text !! (length text - length rest) = Some true
    ∧ length (_split_sql_statements ascii_isalnum text) = 1
    ∧ in_region st = true
    ∧ (loop_body ascii_isalnum st SEMI (tail rest)).2 = tail rest
    ∧ out (loop_body ascii_isalnum st SEMI (tail rest)).1 = out st)
    [ [SQ; SEMI; SQ];
      [DQ; SEMI; DQ];
      [DASH; DASH; SEMI; NL];
      [SLASH; STAR; SEMI; STAR; SLASH];
      [DOLLAR; DOLLAR; SEMI; DOLLAR; DOLLAR];
      py "$f$;$f$" ].
Proof.
  assert (∀ text c tl0 tl,
            text = c :: tl0 →
            (loop_body ascii_isalnum scanner_init c tl0).2 = SEMI :: tl →
            replace_char BOM [] text = text →
            regions ascii_isalnum text !! (length text - S (length tl))
            = Some true →
            let st := (loop_body ascii_isalnum scanner_init c tl0).1 in
            in_region st = true
            ∧ (loop_body ascii_isalnum st SEMI tl).2 = tl
            ∧ out (loop_body ascii_isalnum st SEMI tl).1 = out st) as H.
  { intros text c tl0 tl -> Hrest Hbom Hmark st.
    pose proof (head_next ascii_isalnum (c :: tl0) scanner_init c tl0) as Hh.
    rewrite Hrest in Hh.
    pose proof (head_first ascii_isalnum (c :: tl0)) as Hf.
    rewrite Hbom in Hf.
    pose proof (semicolon_inside_region_never_splits ascii_isalnum
                  (c :: tl0) _ tl (Hh Hf)) as Hthm.
    cbv zeta in Hthm. rewrite Hbom in Hthm.
    destruct (Hthm Hmark) as (H1 & H2 & H3 & _). done. }
  repeat (constructor;
          [split; [reflexivity|]; split; [reflexivity|];
           split; [vm_compute; reflexivity|];
           eapply H; reflexivity|]).
  constructor.
Defined.

(** ** Blank scripts *)

Lemma log_run (lvl : level) (fmt : pystr) (args : list logarg) (env : Env)
    (h : list entry) :
  log lvl fmt args env h = (h ++ [ok (Log lvl fmt args)], Ok tt).
Proof. reflexivity. Qed.

Lemma isspace_plain (c : N) : isspace c = true → plain c = true.
Proof.
  intros Hc. unfold plain. rewrite bool_decide_eq_false_2; [done|].
  rewrite !elem_of_cons, elem_of_nil.
  intros [->|[->|[->|[->|[->|[->|[]]]]]]]; discriminate Hc.
Qed.

Lemma lstrip_all (p : N → bool) (w : pystr) :
  Forall (λ c, p c = true) w → lstrip_with p w = [].
Proof. induction 1 as [|c w Hc _ IH]; [done|]. simpl. by rewrite Hc. Qed.

Lemma lstrip_all_app (p : N → bool) (w r : pystr) :
  Forall (λ c, p c = true) w → lstrip_with p (w ++ r) = lstrip_with p r.
Proof. induction 1 as [|c w Hc _ IH]; [done|]. simpl. by rewrite Hc. Qed.

Lemma kept_blank (w : pystr) :
  Forall (λ c, isspace c = true) w → kept w = false.
Proof.
  intros Hw. unfold kept, strip, strip_with. by rewrite lstrip_all.
Qed.

Lemma kept_blank_semi (w : pystr) :
  Forall (λ c, isspace c = true) w → kept (w ++ [SEMI]) = false.
Proof.
  intros Hw. unfold kept, strip, strip_with. by rewrite lstrip_all_app.
Qed.

Lemma replace_char_absent (old : N) (new w : pystr) :
  old ∉ w → replace_char old new w = w.
Proof.
  unfold replace_char. induction w as [|c w IH]; [done|].
  intros Hn. rewrite bind_cons, IH by set_solver.
  destruct (c =? old)%N eqn:E; [|done].
  apply N.eqb_eq in E. set_solver.
Qed.

Section blank_scripts.
Variable isalnum : N → bool.

Lemma scan_blank (fuel : nat) (text : pystr) (st : scanner) :
  blank text → in_region st = false → out st = [] →
  Forall (λ c, isspace c = true) (buf st) →
  let st' := (scan isalnum fuel st text).1 in
  out st' = [] ∧ Forall (λ c, isspace c = true) (buf st').
Proof.
  revert text st. induction fuel as [|fuel IH];
    intros text st Hb Hr Ho Hbuf; [done|].
  destruct text as [|c text]; [done|].
  apply Forall_cons in Hb as [Hc Hb]. simpl.
  assert (buf (mark c st) = buf st ∧ out (mark c st) = out st)
    as [Hmb Hmo] by (unfold mark; by repeat case_match).
  destruct Hc as [Hc| ->].
  - rewrite (loop_body_plain isalnum) by eauto using isspace_plain.
    apply IH; [done| | |].
    + by rewrite in_region_push, in_region_mark.
    + simpl. by rewrite Hmo.
    + simpl. rewrite Hmb. apply Forall_app. by split; [|constructor].
  - rewrite (loop_body_semi isalnum) by done.
    destruct (flush_fields (push SEMI (mark SEMI st))) as (Hfo & Hfb & _).
    unfold push in Hfo at 2 3 4.
    cbn [with_buf buf out stmt_start_line] in Hfo.
    rewrite Hmb, Hmo, Ho, kept_blank_semi in Hfo by done.
    apply IH; [done| | |].
    + by rewrite in_region_flush, in_region_push, in_region_mark.
    + done.
    + by rewrite Hfb.
Qed.

End blank_scripts.

Lemma split_blank (isalnum : N → bool) (text : pystr) :
  blank text → _split_sql_statements isalnum text = [].
Proof.
  intros Hb. unfold _split_sql_statements.
  rewrite replace_char_absent.
  2:{ intros Hin. apply (proj1 (Forall_forall _ _) Hb) in Hin.
      by destruct Hin. }
  destruct (scan_blank isalnum (length text) text scanner_init Hb)
    as [Ho Hbuf]; [done..|].
  destruct (flush_fields (scan isalnum (length text) scanner_init text).1)
    as (-> & _).
  by rewrite Ho, kept_blank.
Qed.

(** X4: a text of whitespace and semicolons only, the empty text
    included, holds no statement; a script file with such a text is read
    and reported as empty by [_run_file], which opens no cursor, sends
    nothing and does not commit. *)
Theorem blank_script_is_skipped (text : pystr) :
  blank text →
  (∀ isalnum, _split_sql_statements isalnum text = [])
  ∧ ∀ self conn fpath env h,
      respond env pystr h (ReadText fpath) = Ok text →
      _run_file self conn fpath env h
      = (h ++ [Called (ReadText fpath) (Ok text);
               ok (Log INFO (py "Empty DDL file: %s (skipped)")
                     [AStr (path_name fpath)])],
         Ok tt).
Proof.
  intros Hb. split; [intros isalnum; by apply split_blank|].
  intros self conn fpath env h Hread. unfold _run_file.
  rewrite bind_run. cbn [ask]. rewrite bind_run, call_run, Hread.
  rewrite split_blank by done. rewrite log_run. by rewrite <- app_assoc.
Qed.

Lemma blank_script_is_skipped_witness :
  _split_sql_statements ascii_isalnum (py " ;" ++ [NL; TAB] ++ py ";; ") = [].
Proof.
  apply blank_script_is_skipped. unfold blank.
  repeat (constructor; [first [by left | by right]|]). constructor.
Defined.

(** ** The fail-fast policy of [DDLRunner] *)

Lemma finally_run {A} (m : M A) (fin : M unit) (env : Env) (h : list entry) :
  finally m fin env h
  = match fin env (m env h).1 with
    | (h2, Ok _) => (h2, (m env h).2)
    | (h2, Raise e) => (h2, Raise e)
    end.
Proof.
  unfold finally. rewrite bind_run. unfold catch at 1.
  destruct (m env h) as [h1 r]. simpl. rewrite bind_run.
  by destruct (fin env h1) as [h2 [[]|e]].
Qed.

Lemma run_statement_passes (self : DDLRunner) (is_autocommit : bool)
    (fname : pystr) (idx : nat) (st : SQLStmt) (env : Env)
    (h : list entry) :
  fail_fast self = true ∨ is_autocommit = true →
  truthy (strip (sql st)) = true → passes env st →
  run_statement self is_autocommit fname idx st env h
  = (h ++ sent_bare fname idx st, Ok tt).
Proof.
  intros Hmode Ht Hp. unfold run_statement, sent_bare, passes, is_meta in *.
  rewrite Ht. cbn [negb].
  destruct (startswith (strip (sql st)) [BACKSLASH]) eqn:Hm;
    [reflexivity|].
  destruct Hp as [Hp|Hp]; [congruence|].
  assert (negb (fail_fast self) && negb is_autocommit = false) as ->
    by (destruct Hmode as [-> | ->]; [done|apply andb_false_r]).
  rewrite bind_run. unfold catch at 1. rewrite call_run.
  unfold replies, execute in Hp. by rewrite Hp.
Qed.

Lemma run_statement_refused (self : DDLRunner) (is_autocommit : bool)
    (fname : pystr) (idx : nat) (st : SQLStmt) (env : Env)
    (h : list entry) (e : exn) :
  fail_fast self = true ∨ is_autocommit = true →
  truthy (strip (sql st)) = true → is_meta st = false →
  replies env (execute st) (Raise e) → is_Exception e = true →
  run_statement self is_autocommit fname idx st env h
  = (h ++ [Called (execute st) (Raise e); logged_error fname idx st],
     Raise e).
Proof.
  intros Hmode Ht Hm Hr He. unfold run_statement, is_meta in *.
  rewrite Ht, Hm. cbn [negb].
  assert (negb (fail_fast self) && negb is_autocommit = false) as ->
    by (destruct Hmode as [-> | ->]; [done|apply andb_false_r]).
  rewrite bind_run. unfold catch at 1. rewrite call_run.
  unfold replies, execute in Hr. rewrite Hr. cbv beta iota.
  rewrite He, bind_run, log_run. cbv beta iota. unfold raise.
  by rewrite <- app_assoc.
Qed.

Lemma for_each_refused (self : DDLRunner) (is_autocommit : bool)
    (fname : pystr) (bad : SQLStmt) (post : list SQLStmt) (e : exn)
    (env : Env) (pre : list SQLStmt) :
  ∀ (idx : nat) (h : list entry),
    fail_fast self = true ∨ is_autocommit = true →
    Forall (λ st, truthy (strip (sql st)) = true) (pre ++ [bad]) →
    Forall (passes env) pre →
    is_meta bad = false → replies env (execute bad) (Raise e) →
    is_Exception e = true →
    for_each (zip (seq idx (length (pre ++ bad :: post))) (pre ++ bad :: post))
      (λ '(i, st), run_statement self is_autocommit fname i st) env h
    = (h ++ all_sent_bare fname idx pre
         ++ [Called (execute bad) (Raise e);
             logged_error fname (idx + length pre) bad],
       Raise e).
Proof.
  induction pre as [|st pre IH]; intros idx h Hmode Ht Hp Hm Hr He.
  - cbn [app length seq zip zip_with for_each all_sent_bare].
    rewrite bind_run, (run_statement_refused _ _ _ _ _ _ _ e); try done.
    + by rewrite Nat.add_0_r.
    + by apply Forall_cons in Ht as [? _].
  - apply Forall_cons in Ht as [Ht1 Ht]. apply Forall_cons in Hp as [Hp1 Hp].
    cbn [app length seq zip zip_with for_each all_sent_bare].
    rewrite bind_run, run_statement_passes by done.
    rewrite (IH (S idx)) by done.
    rewrite <- !app_assoc. do 4 f_equal. simpl. by rewrite Nat.add_succ_r.
Qed.

Lemma split_nonblank (isalnum : N → bool) (text : pystr) :
  Forall (λ st, truthy (strip (sql st)) = true)
    (_split_sql_statements isalnum text).
Proof.
  destruct (split_pieces isalnum text) as (pieces & _ & _ & H3 & _).
  rewrite sql_statements_of in H3.
  apply (proj1 (Forall_fmap sql (λ w, truthy (strip w) = true) _)).
  rewrite H3. apply Forall_fmap, Forall_forall.
  intros p [Hk _]%list_elem_of_filter. simpl. unfold kept in Hk.
  apply andb_prop in Hk as [Hk1 _]. by rewrite strip_idemp.
Qed.

(** X5: under fail-fast, and also with [fail_fast] off when the connection
    is in autocommit, the statements go out without savepoints and the
    first one the database refuses ends the file: the error is logged
    with the file name, the index, the start line and the head of the
    statement, the cursor is closed, no later statement is sent, nothing
    is committed and the exception is raised again. *)
Theorem refused_statement_aborts_the_file
    (self : DDLRunner) (conn : Conn) (fpath : Path) (env : Env)
    (h : list entry) (text : pystr) (pre : list SQLStmt) (bad : SQLStmt)
    (post : list SQLStmt) (e : exn) :
  fail_fast self = true ∨ default false (autocommit conn) = true →
  respond env pystr h (ReadText fpath) = Ok text →
  _split_sql_statements (env_isalnum env) text = pre ++ bad :: post →
  replies env CursorOpen (Ok tt) → replies env CursorClose (Ok tt) →
  Forall (passes env) pre →
  is_meta bad = false → replies env (execute bad) (Raise e) →
  is_Exception e = true →
  _run_file self conn fpath env h
  = (h ++ [Called (ReadText fpath) (Ok text); ok CursorOpen]
       ++ all_sent_bare (path_name fpath) 1 pre
       ++ [Called (execute bad) (Raise e);
           logged_error (path_name fpath) (S (length pre)) bad;
           ok CursorClose],
     Raise e).
Proof.
  intros Hmode Hread Hsplit Hopen Hclose Hpre Hmeta Hbad He.
  pose proof (split_nonblank (env_isalnum env) text) as Hnb.
  rewrite Hsplit in Hnb.
  assert (Forall (λ st, truthy (strip (sql st)) = true) (pre ++ [bad]))
    as Hnb'.
  { apply Forall_app in Hnb as [? [? _]%Forall_cons].
    apply Forall_app. by split; [|constructor]. }
  unfold _run_file. rewrite bind_run. cbn [ask].
  rewrite bind_run, call_run, Hread, Hsplit.
  destruct (pre ++ bad :: post) as [|st0 sts] eqn:Hsts;
    [by destruct pre|].
  rewrite <- Hsts. clear Hsts.
  rewrite bind_run. unfold with_cursor.
  rewrite bind_run, call_run, Hopen, finally_run. unfold enumerate1.
  rewrite (for_each_refused _ _ _ _ _ e) by done.
  cbn [fst snd]. rewrite call_run, Hclose.
  unfold replies in Hopen, Hclose.
  rewrite <- !app_assoc, !Hopen, !Hclose. reflexivity.
Qed.

Lemma refused_statement_aborts_the_file_witness :
  let self := {| DdlExec.sql_dir := [py "sql"]; ddl_order := [py "mixed.sql"];
                 fail_fast := true; skip_missing := false |} in
  let conn := {| autocommit := Some false; has_commit := true;
                 has_rollback := true |} in
  let fpath := [py "sql"; py "mixed.sql"] in
  let text := py "CREATE TABLE a (id int);" ++ [NL] ++ py "BOGUS;" ++ [NL]
              ++ py "CREATE TABLE b (id int);" ++ [NL] in
  let good1 := {| sql := py "CREATE TABLE a (id int);"; start_line := 1 |} in
  let bad := {| sql := py "BOGUS;"; start_line := 2 |} in
  let e := DBAPIError (Some (py "42601")) in
  _run_file self conn fpath Demo.env []
  = ([Called (ReadText fpath) (Ok text); ok CursorOpen; ok (execute good1);
      Called (execute bad) (Raise e);
      logged_error (py "mixed.sql") 2 bad; ok CursorClose],
     Raise e).
Proof.
  intros self conn fpath text good1 bad e.
  pose (good2 := {| sql := py "CREATE TABLE b (id int);"; start_line := 3 |}).
  assert (_split_sql_statements (env_isalnum Demo.env) text
          = [good1] ++ bad :: [good2]) as Hsplit by (vm_compute; reflexivity).
  assert (Forall (passes Demo.env) [good1]) as Hpre.
  { constructor; [|done]. right. intros h. reflexivity. }
  exact (refused_statement_aborts_the_file self conn fpath Demo.env []
           text [good1] bad [good2] e (or_introl eq_refl) eq_refl Hsplit
           (λ h, eq_refl) (λ h, eq_refl) Hpre eq_refl (λ h, eq_refl)
           eq_refl).
Defined.

(** ** [DDLRunner.run]: rollback and the autocommit of the connection *)

Lemma finally_elim {A} (m : M A) (fin : M unit) (env : Env)
    (h h1 : list entry) (r : result A) :
  m env h = (h1, r) →
  finally m fin env h
  = match fin env h1 with
    | (h2, Ok _) => (h2, r)
    | (h2, Raise e) => (h2, Raise e)
    end.
Proof. intros Hm. by rewrite finally_run, Hm. Qed.

Lemma set_autocommit_run (conn : Conn) (v : option bool) (env : Env)
    (h : list entry) :
  (∀ w, replies env (ConnSetAutocommit w) (Ok tt)) →
  match autocommit conn with
  | Some _ => call (ConnSetAutocommit v)
  | None => mret tt
  end env h
  = (h ++ match autocommit conn with
          | Some _ => [ok (ConnSetAutocommit v)]
          | None => []
          end, Ok tt).
Proof.
  intros Hset. destruct (autocommit conn).
  - by rewrite call_run, (Hset v h).
  - by rewrite app_nil_r.
Qed.

(** X6: when [run] raises an [Exception] past the check of the
    directory, on a connection that has [rollback] and accepts the
    setting of autocommit, the last thing it did on the connection before
    giving autocommit back is a rollback. *)
Theorem run_rolls_back_on_error
    (self : DDLRunner) (conn : Conn) (ac : bool) (env : Env)
    (h : list entry) (e : exn) :
  has_rollback conn = true →
  (∀ w, replies env (ConnSetAutocommit w) (Ok tt)) →
  respond env bool h (PathExists (DdlExec.sql_dir self)) = Ok true →
  (run self conn ac env h).2 = Raise e →
  is_Exception e = true →
  ∃ h1 o,
    (run self conn ac env h).1
    = h1 ++ [Called ConnRollback o] ++ restore conn (Ok tt).
Proof.
  intros Hrb Hset Hex Hres He.
  destruct (run self conn ac env h) as [h' r'] eqn:Hrun.
  cbn [fst snd] in *. subst r'. unfold run in Hrun.
  rewrite bind_run, call_run, Hex in Hrun. cbn [negb] in Hrun.
  cbv iota beta in Hrun.
  rewrite bind_run, set_autocommit_run in Hrun by done.
  match type of Hrun with
  | context [finally ?m _ env ?h0] =>
      destruct (m env h0) as [h1 r] eqn:Hbody;
      rewrite (finally_elim _ _ _ _ _ _ Hbody) in Hrun
  end.
  rewrite set_autocommit_run in Hrun by done.
  assert (h' = h1 ++ restore conn (Ok tt) ∧ r = Raise e) as [-> ->].
  { unfold restore. destruct (autocommit conn); by injection Hrun. }
  clear Hrun. exists (take (length h1 - 1) h1).
  rewrite bind_run in Hbody. unfold catch at 1 in Hbody.
  match type of Hbody with
  | context [for_each ?l ?f env ?h0] =>
      destruct (for_each l f env h0) as [h2 r2]
  end.
  rewrite Hrb in Hbody. destruct r2 as [[]|e0]; [discriminate Hbody|].
  destruct (is_Exception e0) eqn:He0;
    [|injection Hbody as _ <-; congruence].
  rewrite bind_run, bind_run in Hbody. unfold catch at 1 in Hbody.
  rewrite call_run in Hbody.
  exists (respond env () h2 ConnRollback).
  assert (h1 = h2 ++ [Called ConnRollback (respond env () h2 ConnRollback)])
    as ->.
  { destruct (respond env () h2 ConnRollback) as [[]|e'];
      [by injection Hbody|].
    destruct (is_Exception e') eqn:He'; [by injection Hbody|].
    injection Hbody as _ <-. congruence. }
  rewrite length_app. simpl. rewrite Nat.add_sub, take_app_length.
  by rewrite <- app_assoc.
Qed.

Lemma run_rolls_back_on_error_witness :
  let self := {| DdlExec.sql_dir := [py "sql"]; ddl_order := [py "mixed.sql"];
                 fail_fast := true; skip_missing := false |} in
  let conn := {| autocommit := Some false; has_commit := true;
                 has_rollback := true |} in
  ∃ h1 o,
    (run self conn false Demo.env []).1
    = h1 ++ [Called ConnRollback o; ok (ConnSetAutocommit (Some false))].
Proof.
  intros self conn.
  assert ((run self conn false Demo.env []).2
          = Raise (DBAPIError (Some (py "42601")))) as Hres
    by (vm_compute; reflexivity).
  exact (run_rolls_back_on_error self conn false Demo.env [] _
           eq_refl (λ w h, eq_refl) eq_refl Hres eq_refl).
Defined.

(** X7: on a connection that has an autocommit attribute, once the
    directory is found and autocommit is set, [run] ends by giving the
    connection the autocommit it had, whatever the files did; when that
    last assignment fails, its exception is the one raised. *)
Theorem run_restores_autocommit
    (self : DDLRunner) (conn : Conn) (ac : bool) (env : Env)
    (h : list entry) (v : bool) :
  autocommit conn = Some v →
  respond env bool h (PathExists (DdlExec.sql_dir self)) = Ok true →
  replies env (ConnSetAutocommit (Some ac)) (Ok tt) →
  ∃ h1 o,
    (run self conn ac env h).1
    = h1 ++ [Called (ConnSetAutocommit (Some v)) o]
    ∧ ∀ e, o = Raise e → (run self conn ac env h).2 = Raise e.
Proof.
  intros Hv Hex Hset. unfold run.
  rewrite bind_run, call_run, Hex. cbn [negb]. cbv iota beta.
  rewrite Hv, bind_run, call_run, (Hset _).
  match goal with
  | |- context [finally ?m _ env ?h0] =>
      destruct (m env h0) as [h1 r] eqn:Hbody;
      rewrite (finally_elim _ _ _ _ _ _ Hbody)
  end.
  rewrite call_run. exists h1, (respond env () h1 (ConnSetAutocommit (Some v))).
  destruct (respond env () h1 (ConnSetAutocommit (Some v))) as [[]|e'];
    split; done.
Qed.

Lemma run_restores_autocommit_witness :
  let self := {| DdlExec.sql_dir := [py "sql"]; ddl_order := [py "mixed.sql"];
                 fail_fast := false; skip_missing := false |} in
  let conn := {| autocommit := Some true; has_commit := true;
                 has_rollback := true |} in
  ∃ h1 o,
    (run self conn false Demo.env []).1
    = h1 ++ [Called (ConnSetAutocommit (Some true)) o].
Proof.
  intros self conn.
  destruct (run_restores_autocommit self conn false Demo.env [] true
              eq_refl eq_refl (λ h, eq_refl)) as (h1 & o & Hrun & _).
  by exists h1, o.
Defined.

(** ** [run_sql_files]: one transaction per file *)

Lemma exec_statement_goes_on (env : Env) (escape fail_fast : bool)
    (ignore_sqlstates : gset pystr) (fname : pystr) (idx : nat)
    (st : SQLStmt) (o : result unit) (h : list entry) :
  truthy (strip (sql st)) = true →
  is_meta st = true
  ∨ driver_settles env escape fail_fast ignore_sqlstates st o →
  exec_statement escape fail_fast ignore_sqlstates fname idx st env h
  = (h ++ driver_block escape ignore_sqlstates fname idx st o, Ok tt).
Proof.
  intros Ht Hs. unfold exec_statement, driver_block, is_meta in *.
  rewrite Ht. cbn [negb].
  destruct (startswith (strip (sql st)) [BACKSLASH]) eqn:Hm;
    [reflexivity|].
  destruct Hs as [Hs|[Hr Ho]]; [done|].
  rewrite bind_run. unfold catch at 1. rewrite call_run.
  unfold replies, driver_sql in Hr. rewrite Hr. cbv beta iota.
  destruct o as [[]|e]; [by rewrite app_nil_r || done|].
  destruct e as [| | | | | |?|sqlstate| |];
    try (destruct Ho as [Ho|[-> Ho]]; [done|];
         cbn [is_Exception] in *; try done;
         rewrite bind_run, log_run; cbv beta iota;
         by rewrite <- app_assoc).
  unfold ignored, sqlstate_text in *.
  destruct sqlstate as [c|].
  - case_bool_decide as Hc.
    + rewrite log_run. by rewrite <- app_assoc.
    + destruct Ho as [Ho|[-> _]]; [done|].
      rewrite bind_run, log_run. cbv beta iota. by rewrite <- app_assoc.
  - destruct Ho as [Ho|[-> _]]; [done|].
    rewrite bind_run, log_run. cbv beta iota. by rewrite <- app_assoc.
Qed.

Lemma for_each_goes_on (env : Env) (escape fail_fast : bool)
    (ignore_sqlstates : gset pystr) (fname : pystr) (sts : list SQLStmt) :
  ∀ (outcomes : list (result unit)) (idx : nat) (h : list entry),
    Forall (λ st, truthy (strip (sql st)) = true) sts →
    Forall2 (λ st o, is_meta st = true
                     ∨ driver_settles env escape fail_fast ignore_sqlstates
                         st o) sts outcomes →
    for_each (zip (seq idx (length sts)) sts)
      (λ '(i, st),
         exec_statement escape fail_fast ignore_sqlstates fname i st) env h
    = (h ++ driver_blocks escape ignore_sqlstates fname idx sts outcomes,
       Ok tt).
Proof.
  induction sts as [|st sts IH]; intros outcomes idx h Ht Hall.
  - apply Forall2_nil_inv_l in Hall as ->. simpl. by rewrite app_nil_r.
  - apply Forall2_cons_inv_l in Hall as (o & outcomes' & Ho & Hall & ->).
    apply Forall_cons in Ht as [Ht1 Ht].
    cbn [length seq zip zip_with for_each driver_blocks].
    rewrite bind_run, (exec_statement_goes_on _ _ _ _ _ _ _ o) by done.
    rewrite (IH outcomes') by done. by rewrite app_assoc.
Qed.

(** X8: [run_sql_files] runs a file in one transaction and puts up with
    the errors it is told to: each statement the database accepts, or
    refuses with an ignored SQLSTATE (a warning is logged), or refuses
    with any [Exception] while [fail_fast] is off (the error is logged),
    is followed by the next one, and the transaction is committed after
    the last; a psql meta command is skipped with a warning. *)
Theorem run_sql_files_goes_on_and_commits
    (engine : Engine) (dir : Path) (fname : pystr) (fail_fast : bool)
    (ignore_sqlstates : gset pystr) (env : Env) (h : list entry)
    (text : pystr) (sts : list SQLStmt) (outcomes : list (result unit)) :
  let fpath := path_join dir fname in
  replies env (PathExists dir) (Ok true) →
  replies env (PathExists fpath) (Ok true) →
  replies env (ReadText fpath) (Ok text) →
  replies env EngineBegin (Ok tt) → replies env TxCommit (Ok tt) →
  _split_sql_statements (env_isalnum env) text = sts → sts ≠ [] →
  Forall2 (λ st o, is_meta st = true
                   ∨ driver_settles env (escapes engine) fail_fast
                       ignore_sqlstates st o) sts outcomes →
  run_sql_files engine dir [fname] fail_fast ignore_sqlstates env h
  = (h ++ [Called (PathExists dir) (Ok true);
           Called (PathExists fpath) (Ok true);
           Called (ReadText fpath) (Ok text);
           ok (Log INFO (py "Running DDL: %s") [AStr (path_name fpath)]);
           ok EngineBegin]
       ++ driver_blocks (escapes engine) ignore_sqlstates (path_name fpath)
            1 sts outcomes
       ++ [ok TxCommit],
     Ok tt).
Proof.
  intros fpath Hdir Hfile Hread Hbegin Hcommit Hsplit Hne Hall.
  pose proof (split_nonblank (env_isalnum env) text) as Hnb.
  rewrite Hsplit in Hnb.
  unfold run_sql_files. rewrite bind_run. cbn [ask].
  rewrite bind_run, call_run, (Hdir h). cbn [negb]. cbv beta iota.
  cbn [for_each]. rewrite bind_run, bind_run, call_run. fold fpath.
  rewrite (Hfile _). cbn [negb]. cbv beta iota.
  rewrite bind_run, call_run, (Hread _), Hsplit.
  destruct sts as [|st0 sts']; [done|].
  rewrite bind_run, log_run. unfold with_begin.
  rewrite bind_run, call_run, (Hbegin _), bind_run. unfold catch at 1.
  unfold enumerate1. fold (escapes engine).
  rewrite (for_each_goes_on _ _ _ _ _ _ outcomes) by done.
  rewrite bind_run, call_run, (Hcommit _).
  cbn. by rewrite <- !app_assoc.
Qed.

Lemma run_sql_files_goes_on_and_commits_witness :
  let engine := {| paramstyle := Some (py "pyformat") |} in
  let fpath := [py "sql"; py "mixed.sql"] in
  let text := py "CREATE TABLE a (id int);" ++ [NL] ++ py "BOGUS;" ++ [NL]
              ++ py "CREATE TABLE b (id int);" ++ [NL] in
  let good1 := {| sql := py "CREATE TABLE a (id int);"; start_line := 1 |} in
  let bad := {| sql := py "BOGUS;"; start_line := 2 |} in
  let good2 := {| sql := py "CREATE TABLE b (id int);"; start_line := 3 |} in
  run_sql_files engine [py "sql"] [py "mixed.sql"] true {[py "42710"]}
    Picky.env []
  = ([Called (PathExists [py "sql"]) (Ok true);
      Called (PathExists fpath) (Ok true);
      Called (ReadText fpath) (Ok text);
      ok (Log INFO (py "Running DDL: %s") [AStr (py "mixed.sql")]);
      ok EngineBegin;
      ok (driver_sql true good1);
      Called (driver_sql true bad) (Raise (DBAPIError (Some (py "42710"))));
      ok (Log WARNING
            (py "Ignoring DDL error in %s (stmt %d line %d) sqlstate=%s")
            [AStr (py "mixed.sql"); AInt 2; AInt 2; AStr (py "42710")]);
      ok (driver_sql true good2);
      ok TxCommit],
     Ok tt).
Proof.
  intros engine fpath text good1 bad good2.
  assert (_split_sql_statements (env_isalnum Picky.env) text
          = [good1; bad; good2]) as Hsplit by (vm_compute; reflexivity).
  assert (Forall2
            (λ st o, is_meta st = true
                     ∨ driver_settles Picky.env (escapes engine) true
                         {[py "42710"]} st o)
            [good1; bad; good2]
            [Ok tt; Raise (DBAPIError (Some (py "42710"))); Ok tt]) as Hall.
  { constructor; [right; split; [intros h; reflexivity|exact I]|].
    constructor; [right; split; [intros h; reflexivity|]|].
    - left. apply bool_decide_eq_true_2. by apply elem_of_singleton.
    - constructor; [right; split; [intros h; reflexivity|exact I]|].
      constructor. }
  exact (run_sql_files_goes_on_and_commits engine [py "sql"]
           (py "mixed.sql") true {[py "42710"]} Picky.env [] text
           [good1; bad; good2] _
           (λ h, eq_refl) (λ h, eq_refl) (λ h, eq_refl) (λ h, eq_refl)
           (λ h, eq_refl) Hsplit
           (λ H, eq_ind [good1; bad; good2]
                   (λ l, match l with [] => False | _ => True end) I [] H)
           Hall).
Defined.

Lemma for_each_driver_refused (env : Env) (escape : bool)
    (ignore_sqlstates : gset pystr) (fname : pystr) (bad : SQLStmt)
    (post : list SQLStmt) (e : exn) (pre : list SQLStmt) :
  ∀ (outcomes : list (result unit)) (idx : nat) (h : list entry),
    Forall (λ st, truthy (strip (sql st)) = true) (pre ++ [bad]) →
    Forall2 (λ st o, is_meta st = true
                     ∨ driver_settles env escape true ignore_sqlstates st o)
      pre outcomes →
    is_meta bad = false → replies env (driver_sql escape bad) (Raise e) →
    ignored ignore_sqlstates e = false → is_Exception e = true →
    for_each (zip (seq idx (length (pre ++ bad :: post))) (pre ++ bad :: post))
      (λ '(i, st), exec_statement escape true ignore_sqlstates fname i st)
      env h
    = (h ++ driver_blocks escape ignore_sqlstates fname idx pre outcomes
         ++ [Called (driver_sql escape bad) (Raise e);
             logged_error fname (idx + length pre) bad],
       Raise e).
Proof.
  induction pre as [|st pre IH]; intros outcomes idx h Ht Hall Hm Hr Hi He.
  - apply Forall2_nil_inv_l in Hall as ->.
    cbn [app length seq zip zip_with for_each driver_blocks].
    rewrite bind_run, Nat.add_0_r. apply Forall_cons in Ht as [Ht _].
    unfold exec_statement, is_meta in *. rewrite Ht, Hm. cbn [negb].
    rewrite bind_run. unfold catch at 1. rewrite call_run.
    unfold replies, driver_sql in Hr. rewrite Hr. cbv beta iota.
    unfold ignored in Hi.
    destruct e as [| | | | | |?|sqlstate| |]; cbn [is_Exception] in *;
      try done;
      try (rewrite bind_run, log_run; cbv beta iota;
           by rewrite <- app_assoc).
    destruct sqlstate as [c|]; rewrite ?Hi;
      rewrite bind_run, log_run; cbv beta iota; by rewrite <- app_assoc.
  - apply Forall2_cons_inv_l in Hall as (o & outcomes' & Ho & Hall & ->).
    apply Forall_cons in Ht as [Ht1 Ht].
    cbn [app length seq zip zip_with for_each driver_blocks].
    rewrite bind_run, (exec_statement_goes_on _ _ _ _ _ _ _ o) by done.
    rewrite (IH outcomes' (S idx)) by done.
    rewrite <- !app_assoc. do 4 f_equal. simpl. by rewrite Nat.add_succ_r.
Qed.

(** X9: with [fail_fast] on, as [load] calls it, a statement refused with
    an [Exception] whose SQLSTATE is not ignored ends [run_sql_files]:
    the error is logged, the transaction of the file is rolled back, not
    committed, the exception is raised again, and neither the rest of the
    file nor the files after it are touched. *)
Theorem run_sql_files_rolls_back_on_refusal
    (engine : Engine) (dir : Path) (fname : pystr) (rest : list pystr)
    (ignore_sqlstates : gset pystr) (env : Env) (h : list entry)
    (text : pystr) (pre : list SQLStmt) (bad : SQLStmt)
    (post : list SQLStmt) (outcomes : list (result unit)) (e : exn) :
  let fpath := path_join dir fname in
  replies env (PathExists dir) (Ok true) →
  replies env (PathExists fpath) (Ok true) →
  replies env (ReadText fpath) (Ok text) →
  replies env EngineBegin (Ok tt) → replies env TxRollback (Ok tt) →
  _split_sql_statements (env_isalnum env) text = pre ++ bad :: post →
  Forall2 (λ st o, is_meta st = true
                   ∨ driver_settles env (escapes engine) true
                       ignore_sqlstates st o) pre outcomes →
  is_meta bad = false →
  replies env (driver_sql (escapes engine) bad) (Raise e) →
  ignored ignore_sqlstates e = false → is_Exception e = true →
  run_sql_files engine dir (fname :: rest) true ignore_sqlstates env h
  = (h ++ [Called (PathExists dir) (Ok true);
           Called (PathExists fpath) (Ok true);
           Called (ReadText fpath) (Ok text);
           ok (Log INFO (py "Running DDL: %s") [AStr (path_name fpath)]);
           ok EngineBegin]
       ++ driver_blocks (escapes engine) ignore_sqlstates (path_name fpath)
            1 pre outcomes
       ++ [Called (driver_sql (escapes engine) bad) (Raise e);
           logged_error (path_name fpath) (S (length pre)) bad;
           ok TxRollback],
     Raise e).
Proof.
  intros fpath Hdir Hfile Hread Hbegin Hrollback Hsplit Hall Hm Hbad Hi He.
  pose proof (split_nonblank (env_isalnum env) text) as Hnb.
  rewrite Hsplit in Hnb.
  assert (Forall (λ st, truthy (strip (sql st)) = true) (pre ++ [bad]))
    as Hnb'.
  { apply Forall_app in Hnb as [? [? _]%Forall_cons].
    apply Forall_app. by split; [|constructor]. }
  unfold run_sql_files. rewrite bind_run. cbn [ask].
  rewrite bind_run, call_run, (Hdir h). cbn [negb]. cbv beta iota.
  cbn [for_each]. rewrite bind_run, bind_run, call_run. fold fpath.
  rewrite (Hfile _). cbn [negb]. cbv beta iota.
  rewrite bind_run, call_run, (Hread _), Hsplit.
  destruct (pre ++ bad :: post) as [|st0 sts] eqn:Hsts;
    [by destruct pre|].
  rewrite <- Hsts. clear Hsts.
  rewrite bind_run, log_run. unfold with_begin.
  rewrite bind_run, call_run, (Hbegin _), bind_run. unfold catch at 1.
  unfold enumerate1. fold (escapes engine).
  rewrite (for_each_driver_refused _ _ _ _ _ _ e _ outcomes) by done.
  rewrite bind_run, call_run, (Hrollback _).
  cbn. by rewrite <- !app_assoc.
Qed.

Lemma run_sql_files_rolls_back_on_refusal_witness :
  let engine := {| paramstyle := Some (py "pyformat") |} in
  let fpath := [py "sql"; py "mixed.sql"] in
  let text := py "CREATE TABLE a (id int);" ++ [NL] ++ py "BOGUS;" ++ [NL]
              ++ py "CREATE TABLE b (id int);" ++ [NL] in
  let good1 := {| sql := py "CREATE TABLE a (id int);"; start_line := 1 |} in
  let bad := {| sql := py "BOGUS;"; start_line := 2 |} in
  let e := DBAPIError (Some (py "42710")) in
  run_sql_files engine [py "sql"] [py "mixed.sql"; py "later.sql"] true ∅
    Picky.env []
  = ([Called (PathExists [py "sql"]) (Ok true);
      Called (PathExists fpath) (Ok true);
      Called (ReadText fpath) (Ok text);
      ok (Log INFO (py "Running DDL: %s") [AStr (py "mixed.sql")]);
      ok EngineBegin;
      ok (driver_sql true good1);
      Called (driver_sql true bad) (Raise e);
      logged_error (py "mixed.sql") 2 bad;
      ok TxRollback],
     Raise e).
Proof.
  intros engine fpath text good1 bad e.
  pose (good2 := {| sql := py "CREATE TABLE b (id int);"; start_line := 3 |}).
  assert (_split_sql_statements (env_isalnum Picky.env) text
          = [good1] ++ bad :: [good2]) as Hsplit by (vm_compute; reflexivity).
  assert (Forall2
            (λ st o, is_meta st = true
                     ∨ driver_settles Picky.env (escapes engine) true ∅ st o)
            [good1] [Ok tt]) as Hall.
  { constructor; [right; split; [intros h; reflexivity|exact I]|].
    constructor. }
  exact (run_sql_files_rolls_back_on_refusal engine [py "sql"]
           (py "mixed.sql") [py "later.sql"] ∅ Picky.env [] text
           [good1] bad [good2] [Ok tt] e
           (λ h, eq_refl) (λ h, eq_refl) (λ h, eq_refl) (λ h, eq_refl)
           (λ h, eq_refl) Hsplit Hall eq_refl (λ h, eq_refl) eq_refl
           eq_refl).
Defined.

(** ** What [load] writes *)

Lemma adds_mono {A} (Q1 Q2 : entry → Prop) (m0 : M A) :
  (∀ e, Q1 e → Q2 e) → adds Q1 m0 → adds Q2 m0.
Proof.
  intros HQ Hm env h. destruct (Hm env h) as (new & E & F).
  exists new. split; [done|]. by eapply Forall_impl.
Qed.

Lemma adds_for_each {X} (Q : entry → Prop) (l : list X) (f : X → M unit) :
  (∀ x, adds Q (f x)) → adds Q (for_each l f).
Proof.
  intros Hf. induction l as [|x l IH]; simpl; [apply adds_ret|].
  apply adds_bind; [done|]. by intros _.
Qed.

Lemma with_begin_adds {A} (Q : entry → Prop) (body : M A) :
  (∀ o, Q (Called EngineBegin o)) → (∀ o, Q (Called TxCommit o)) →
  (∀ o, Q (Called TxRollback o)) →
  adds Q body → adds Q (with_begin body).
Proof.
  intros H1 H2 H3 Hb. unfold with_begin.
  apply adds_bind; [by apply adds_call|]. intros _.
  apply adds_bind; [by apply adds_catch|]. intros [a|e].
  - apply adds_bind; [by apply adds_call|]. intros _. apply adds_ret.
  - apply adds_bind; [by apply adds_call|]. intros _. apply adds_raise.
Qed.

Ltac no_write_step :=
  first
    [ apply adds_ret | apply adds_raise | apply adds_lift | apply adds_ask
    | apply adds_log; exact id
    | apply adds_call; not_a_write
    | apply with_begin_adds; [not_a_write..|]
    | apply with_connect_adds; [not_a_write..|]
    | apply adds_catch
    | apply adds_for_each; intros ?
    | apply adds_for_fold; intros ? ?
    | apply adds_bind; [|intros ?]
    | progress cbv beta
    | match goal with
      | |- adds _ (match ?x with _ => _ end) => destruct x
      end ].

Ltac no_write := repeat no_write_step.

Lemma exec_no_write (q : pystr) (params : list (pystr * dbval)) :
  adds (λ e, ¬ is_write e) (PgClient.exec q params).
Proof. unfold PgClient.exec. no_write. Qed.

Lemma exec_statement_no_write (escape fail_fast : bool)
    (ignore_sqlstates : gset pystr) (fname : pystr) (idx : nat)
    (st : SQLStmt) :
  adds (λ e, ¬ is_write e)
    (exec_statement escape fail_fast ignore_sqlstates fname idx st).
Proof. unfold exec_statement. no_write. Qed.

Lemma run_sql_files_no_write (engine : Engine) (dir : Path)
    (ddl_files : list pystr) (fail_fast : bool)
    (ignore_sqlstates : gset pystr) :
  adds (λ e, ¬ is_write e)
    (run_sql_files engine dir ddl_files fail_fast ignore_sqlstates).
Proof.
  unfold run_sql_files. no_write. apply exec_statement_no_write.
Qed.

Lemma truncate_all_tables_no_write (schemas : list pystr) :
  adds (λ e, ¬ is_write e) (_truncate_all_tables schemas).
Proof. unfold _truncate_all_tables. no_write. Qed.

Lemma sync_identity_sequences_no_write (schema table id_column : pystr) :
  adds (λ e, ¬ is_write e) (sync_identity_sequences schema table id_column).
Proof. unfold sync_identity_sequences, int_of_dbval. no_write. Qed.

Lemma validate_and_align_no_write (df : DataFrame) (schema table : pystr)
    (drop : bool) :
  adds (λ e, ¬ is_write e) (_validate_and_align_df df schema table drop).
Proof.
  unfold _validate_and_align_df.
  apply adds_bind; [apply get_table_columns_meta_no_write|]. intros meta.
  no_write.
Qed.

Lemma no_write_mapped (a : load_args) (e : entry) :
  ¬ is_write e → mapped_append a e.
Proof. destruct e as [A r o]. destruct r; simpl; tauto. Qed.

Ltac mapped_step :=
  first
    [ apply adds_ret | apply adds_raise | apply adds_lift | apply adds_ask
    | apply adds_log; exact I
    | apply adds_call; intros ?; exact I
    | apply with_begin_adds; [intros ?; exact I..|]
    | apply with_connect_adds; [intros ?; exact I..|]
    | apply adds_catch
    | apply adds_finally
    | apply adds_for_each; intros ?
    | apply adds_for_fold; intros ? ?
    | apply adds_bind; [|intros ?]
    | progress cbv beta
    | match goal with
      | |- adds _ (match ?x with _ => _ end) => destruct x
      end ].

Lemma write_dataframe_mapped (a : load_args) (df : DataFrame)
    (table : pystr) :
  adds (mapped_append a)
    (PgClient.write_dataframe df table
       (_schema_for_table table (core_schema a) (ingest_schema a)
          (audit_schema a))
       (py "append") (pg_chunksize a) false (Some (py "multi"))).
Proof.
  unfold PgClient.write_dataframe.
  apply adds_bind.
  { eapply adds_mono; [apply no_write_mapped|apply table_exists_no_write]. }
  intros ex. destruct (negb ex); [apply adds_raise|].
  apply with_begin_adds; [intros ?; exact I..|].
  apply adds_call. intros o. by repeat split.
Qed.

Lemma load_one_mapped (a : load_args) (table df_key : pystr) (st : loaded) :
  adds (mapped_append a) (_load_one a table df_key st).
Proof.
  unfold _load_one.
  destruct (od_get df_key (dict_df a)) as [[df|]|];
    [|apply adds_raise|apply adds_ret].
  destruct (df_empty df); [apply adds_ret|].
  apply adds_bind.
  { eapply adds_mono; [apply no_write_mapped|apply table_exists_no_write]. }
  intros ex. destruct (negb ex); [repeat mapped_step|].
  apply adds_bind.
  { eapply adds_mono; [apply no_write_mapped|].
    apply validate_and_align_no_write. }
  intros df2. apply adds_bind; [mapped_step|]. intros _.
  apply adds_bind; [apply write_dataframe_mapped|]. intros _.
  apply adds_ret.
Qed.

Lemma fallback_one_mapped (a : load_args) (st : loaded) (df_key : pystr) :
  adds (mapped_append a) (fallback_one a st df_key).
Proof.
  unfold fallback_one.
  destruct (bool_decide (df_key ∈ loaded_keys st)); [apply adds_ret|].
  destruct (negb (truthy (strip df_key))); [apply adds_ret|].
  destruct (split_dot (strip df_key)) as [[sch tbl]|].
  - destruct (truthy sch && truthy tbl); [|apply adds_ret].
    apply adds_bind.
    { eapply adds_mono; [apply no_write_mapped|apply table_exists_no_write]. }
    intros [|]; [apply load_one_mapped|apply adds_ret].
  - apply adds_bind.
    { eapply adds_mono; [apply no_write_mapped|apply table_exists_no_write]. }
    intros [|]; [apply load_one_mapped|apply adds_ret].
Qed.

(** X10: every bulk insert that [load] issues is an append, without the
    index and in chunks of [pg_chunksize], into the schema that
    [_schema_for_table] gives the table: the ingest schema for
    [ingest_events] and [entity_events], the audit schema for [audit_log],
    the core schema for any other table, also for a dataset whose key
    is written [schema.table]. *)
Theorem load_writes_only_mapped_appends (a : load_args) :
  adds (mapped_append a) (load a).
Proof.
  unfold load. apply adds_bind.
  { destruct (dsn a); [apply adds_ret|]. unfold or_else.
    repeat mapped_step. }
  intros [[|c dsn_v]|]; [apply adds_raise| |apply adds_raise].
  apply adds_bind.
  { destruct (sql_dir a); [apply adds_ret|]. unfold _default_sql_dir.
    repeat mapped_step. }
  intros sql_dir_path.
  apply adds_with_client; [mapped_step|mapped_step|]. intros engine.
  apply adds_bind; [destruct (echo_sql a); mapped_step|]. intros _.
  apply adds_bind.
  { destruct (load_mode a).
    - apply adds_bind; [|intros _; apply adds_ret].
      apply adds_for_each. intros s0.
      apply adds_bind; [mapped_step|]. intros _.
      eapply adds_mono; [apply no_write_mapped|apply exec_no_write].
    - apply adds_bind.
      { apply adds_for_each. intros s0.
        eapply adds_mono; [apply no_write_mapped|apply exec_no_write]. }
      intros _. apply adds_bind.
      { eapply adds_mono; [apply no_write_mapped|].
        apply truncate_all_tables_no_write. }
      intros [|k]; repeat mapped_step.
    - apply adds_raise. }
  intros ddl_needed. apply adds_bind.
  { destruct ddl_needed; [|apply adds_ret].
    eapply adds_mono; [apply no_write_mapped|apply run_sql_files_no_write]. }
  intros _. destruct (ddl_only a); [repeat mapped_step|].
  apply adds_bind; [apply adds_lift|]. intros plan.
  apply adds_bind.
  { apply adds_for_fold. intros st spec. apply load_one_mapped. }
  intros st. apply adds_bind.
  { apply adds_for_fold. intros st' df_key. apply fallback_one_mapped. }
  intros st2. apply adds_bind.
  { apply adds_for_each. intros [schema table].
    apply adds_bind.
    { apply adds_catch. eapply adds_mono; [apply no_write_mapped|].
      apply sync_identity_sequences_no_write. }
    intros [[]|e]; [apply adds_ret|].
    destruct (is_Exception e); mapped_step. }
  intros _. apply adds_bind.
  { destruct ddl_needed; [|apply adds_ret].
    eapply adds_mono; [apply no_write_mapped|apply run_sql_files_no_write]. }
  intros _. apply adds_bind; [|intros _; apply adds_ret].
  destruct (analyze a); repeat mapped_step.
Qed.

Lemma load_reset_no_write (a : load_args) :
  adds (λ e, ¬ is_write e)
    (match load_mode a with
     | drop_create =>
         for_each [core_schema a; ingest_schema a; audit_schema a]
           (λ sch0, log INFO (py "Reset DB: drop schema %s") [AStr sch0];;
                  PgClient.drop_schema sch0);;
         mret true
     | truncate =>
         for_each [core_schema a; ingest_schema a; audit_schema a]
           PgClient.create_schema;;
         truncated ← _truncate_all_tables
                       [core_schema a; ingest_schema a; audit_schema a];
         match truncated with
         | 0 =>
             log INFO
               (py "No hay tablas para truncar; asumo DB sin inicializar y corro DDL.")
               [];;
             mret true
         | _ =>
             log INFO (py "TRUNCATE OK | tablas=%d") [AInt truncated];;
             mret false
         end
     | other_mode v => raise (ValueError (UnsupportedLoadMode v))
     end).
Proof.
  destruct (load_mode a).
  - apply adds_bind; [|intros _; apply adds_ret].
    apply adds_for_each. intros s0.
    apply adds_bind; [no_write_step|]. intros _. apply exec_no_write.
  - apply adds_bind.
    { apply adds_for_each. intros s0. apply exec_no_write. }
    intros _. apply adds_bind; [apply truncate_all_tables_no_write|].
    intros [|k]; no_write.
  - apply adds_raise.
Qed.

(** X11: a DDL-only run issues no bulk insert, whatever the datasets and
    whatever the database answers. *)
Theorem ddl_only_writes_nothing (a : load_args) :
  ddl_only a = true → adds (λ e, ¬ is_write e) (load a).
Proof.
  intros Hddl. unfold load. rewrite Hddl. apply adds_bind.
  { destruct (dsn a); [apply adds_ret|]. unfold or_else. no_write. }
  intros [[|c dsn_v]|]; [apply adds_raise| |apply adds_raise].
  apply adds_bind.
  { destruct (sql_dir a); [apply adds_ret|]. unfold _default_sql_dir.
    no_write. }
  intros sql_dir_path.
  apply adds_with_client; [no_write_step|no_write_step|]. intros engine.
  apply adds_bind; [destruct (echo_sql a); no_write_step|]. intros _.
  apply adds_bind; [apply load_reset_no_write|].
  intros ddl_needed. apply adds_bind.
  { destruct ddl_needed; [apply run_sql_files_no_write|apply adds_ret]. }
  intros _. no_write.
Qed.

Lemma ddl_only_writes_nothing_witness :
  ∃ new,
    (load (Demo.args [(py "productos", Some Demo.productos)] true)
       Demo.env []).1 = [] ++ new
    ∧ Forall (λ e, ¬ is_write e) new.
Proof.
  exact (ddl_only_writes_nothing
           (Demo.args [(py "productos", Some Demo.productos)] true)
           eq_refl Demo.env []).
Defined.

Lemma returns_bind_with {A B} (Q1 : A → Prop) (Q : B → Prop) (m0 : M A)
    (k : A → M B) :
  returns Q1 m0 → (∀ a, Q1 a → returns Q (k a)) → returns Q (m0 ≫= k).
Proof.
  intros Hm Hk env h h' b (a & h1 & Ha & Hb)%bind_Ok_inv.
  eapply Hk; [|done]. by eapply Hm.
Qed.

Lemma returns_for_fold {X St} (I : St → Prop) (l : list X) (s0 : St)
    (f : St → X → M St) :
  (∀ st x, I st → returns I (f st x)) → I s0 →
  returns I (for_fold l s0 f).
Proof.
  intros Hf. revert s0. induction l as [|x l IH]; intros s0 H0; simpl.
  - by apply returns_ret.
  - eapply returns_bind_with; [by apply Hf|]. intros s1 H1. by apply IH.
Qed.

Lemma all_empty_get (a : load_args) (df_key : pystr)
    (v : option DataFrame) :
  all_empty a → od_get df_key (dict_df a) = Some v →
  ∃ df, v = Some df ∧ df_empty df = true.
Proof.
  intros Hall Hget. apply (Hall df_key).
  by apply od_get_Some_elem.
Qed.

Lemma load_one_empty (a : load_args) (table df_key : pystr) (st : loaded) :
  all_empty a → _load_one a table df_key st = mret st.
Proof.
  intros Hall. unfold _load_one.
  destruct (od_get df_key (dict_df a)) as [v|] eqn:Hget; [|done].
  destruct (all_empty_get a df_key v Hall Hget) as (df & -> & Hdf).
  by rewrite Hdf.
Qed.

Lemma fallback_one_empty (a : load_args) (st : loaded) (df_key : pystr) :
  all_empty a →
  adds (λ e, ¬ is_write e) (fallback_one a st df_key)
  ∧ returns (λ st', st' = st) (fallback_one a st df_key).
Proof.
  intros Hall. unfold fallback_one.
  destruct (bool_decide (df_key ∈ loaded_keys st));
    [split; [apply adds_ret|by apply returns_ret]|].
  destruct (negb (truthy (strip df_key)));
    [split; [apply adds_ret|by apply returns_ret]|].
  destruct (split_dot (strip df_key)) as [[sch tbl]|].
  - destruct (truthy sch && truthy tbl);
      [|split; [apply adds_ret|by apply returns_ret]].
    split.
    + apply adds_bind; [apply table_exists_no_write|].
      intros [|]; [|apply adds_ret]. rewrite load_one_empty by done.
      apply adds_ret.
    + apply returns_bind. intros [|]; [|by apply returns_ret].
      rewrite load_one_empty by done. by apply returns_ret.
  - split.
    + apply adds_bind; [apply table_exists_no_write|].
      intros [|]; [|apply adds_ret]. rewrite load_one_empty by done.
      apply adds_ret.
    + apply returns_bind. intros [|]; [|by apply returns_ret].
      rewrite load_one_empty by done. by apply returns_ret.
Qed.

(** X12: when every dataset handed to [load] is an empty DataFrame (or
    there is none at all), no bulk insert is issued and a run that
    returns reports no table and no row. *)
Theorem load_of_empty_datasets (a : load_args) :
  all_empty a →
  adds (λ e, ¬ is_write e) (load a)
  ∧ ∀ env h r,
      (load a env h).2 = Ok r →
      r = {| tables_loaded := 0; rows_loaded := 0; rows_by_table := [] |}.
Proof.
  intros Hall. split.
  - unfold load. apply adds_bind.
    { destruct (dsn a); [apply adds_ret|]. unfold or_else. no_write. }
    intros [[|c dsn_v]|]; [apply adds_raise| |apply adds_raise].
    apply adds_bind.
    { destruct (sql_dir a); [apply adds_ret|]. unfold _default_sql_dir.
      no_write. }
    intros sql_dir_path.
    apply adds_with_client; [no_write_step|no_write_step|]. intros engine.
    apply adds_bind; [destruct (echo_sql a); no_write_step|]. intros _.
    apply adds_bind; [apply load_reset_no_write|].
    intros ddl_needed. apply adds_bind.
    { destruct ddl_needed; [apply run_sql_files_no_write|apply adds_ret]. }
    intros _. destruct (ddl_only a); [no_write|].
    apply adds_bind; [apply adds_lift|]. intros plan.
    apply adds_bind.
    { apply adds_for_fold. intros st spec.
      rewrite load_one_empty by done. apply adds_ret. }
    intros st. apply adds_bind.
    { apply adds_for_fold. intros st' df_key.
      by apply fallback_one_empty. }
    intros st2. apply adds_bind.
    { apply adds_for_each. intros [schema table].
      apply adds_bind.
      { apply adds_catch. apply sync_identity_sequences_no_write. }
      intros [[]|e]; [apply adds_ret|].
      destruct (is_Exception e); no_write_step. }
    intros _. apply adds_bind.
    { destruct ddl_needed; [apply run_sql_files_no_write|apply adds_ret]. }
    intros _. apply adds_bind; [|intros _; apply adds_ret].
    destruct (analyze a); no_write.
  - assert (returns
              (λ r, r = {| tables_loaded := 0; rows_loaded := 0;
                           rows_by_table := [] |}) (load a)) as Hret.
    { unfold load. apply returns_bind.
      intros [[|c dsn_v]|]; try apply returns_raise.
      apply returns_bind. intros sql_dir_path.
      apply returns_with_client. intros engine.
      apply returns_bind. intros _. apply returns_bind. intros ddl_needed.
      apply returns_bind. intros _.
      destruct (ddl_only a).
      { apply returns_bind. intros _. by apply returns_ret. }
      apply returns_bind. intros plan.
      set (st0 := {| loaded_tables := []; loaded_keys := ∅; rows_by := [] |}).
      eapply (returns_bind_with (λ st, st = st0)).
      { apply (returns_for_fold (λ st, st = st0)); [|done].
        intros st spec ->. rewrite load_one_empty by done.
        by apply returns_ret. }
      intros st ->.
      eapply (returns_bind_with (λ st, st = st0)).
      { apply (returns_for_fold (λ st, st = st0)); [|done].
        intros st df_key ->. by apply fallback_one_empty. }
      intros st ->. do 3 (apply returns_bind; intros _).
      by apply returns_ret. }
    intros env h r Hr. destruct (load a env h) as [h' r'] eqn:E.
    simpl in Hr. subst r'. by eapply Hret.
Qed.

Lemma load_of_empty_datasets_witness :
  let empty := {| df_len := 0; df_data := [(py "id", (object, []))] |} in
  let a := Demo.args [(py "productos", Some empty)] false in
  (load a Demo.env []).2
  = Ok {| tables_loaded := 0; rows_loaded := 0; rows_by_table := [] |}.
Proof.
  intros empty a.
  assert (all_empty a) as Hall.
  { intros k v Hin. apply list_elem_of_singleton in Hin.
    injection Hin as -> ->. by exists empty. }
  destruct (load_of_empty_datasets a Hall) as [_ Hret].
  assert (∃ r, (load a Demo.env []).2 = Ok r) as [r Hr]
    by (eexists; vm_compute; reflexivity).
  by rewrite Hr, (Hret _ _ _ Hr).
Defined.

(** ** [load]: the DSN and the engine *)

(** X13: without a [dsn] argument and with the three environment
    variables unset or empty, [load] reads the three variables in the
    order SAVH_ETL_PG_DSN, DATABASE_URL, POSTGRES_DSN and raises
    ValueError; an empty [dsn] argument raises at once; in both cases no
    engine is created and the database is not touched. *)
Theorem load_without_dsn (a : load_args) (env : Env) (h : list entry) :
  (dsn a = Some [] →
   load a env h = (h, Raise (ValueError MissingDsn)))
  ∧ (dsn a = None → no_dsn_in_environment env →
     ∃ v1 v2 v3,
       load a env h
       = (h ++ [Called (GetEnv (py "SAVH_ETL_PG_DSN")) (Ok v1);
                Called (GetEnv (py "DATABASE_URL")) (Ok v2);
                Called (GetEnv (py "POSTGRES_DSN")) (Ok v3)],
          Raise (ValueError MissingDsn))).
Proof.
  split.
  - intros Hd. unfold load. rewrite Hd. by rewrite bind_run.
  - intros Hd Henv.
    assert (∃ v1, respond env _ h (GetEnv (py "SAVH_ETL_PG_DSN")) = Ok v1
                  ∧ (v1 = None ∨ v1 = Some [])) as (v1 & E1 & Hv1)
      by (destruct (Henv h (py "SAVH_ETL_PG_DSN")); eauto).
    set (h1 := h ++ [Called (GetEnv (py "SAVH_ETL_PG_DSN")) (Ok v1)]).
    assert (∃ v2, respond env _ h1 (GetEnv (py "DATABASE_URL")) = Ok v2
                  ∧ (v2 = None ∨ v2 = Some [])) as (v2 & E2 & Hv2)
      by (destruct (Henv h1 (py "DATABASE_URL")); eauto).
    set (h2 := h1 ++ [Called (GetEnv (py "DATABASE_URL")) (Ok v2)]).
    assert (∃ v3, respond env _ h2 (GetEnv (py "POSTGRES_DSN")) = Ok v3
                  ∧ (v3 = None ∨ v3 = Some [])) as (v3 & E3 & Hv3)
      by (destruct (Henv h2 (py "POSTGRES_DSN")); eauto).
    exists v1, v2, v3. unfold load. rewrite Hd.
    rewrite bind_run, bind_run, call_run, E1. cbv beta iota. fold h1.
    rewrite bind_run.
    assert (or_else v1 (call (GetEnv (py "DATABASE_URL"))) env h1
            = (h2, Ok v2)) as ->.
    { unfold or_else. destruct Hv1 as [-> | ->]; cbn [truthy];
        by rewrite call_run, E2. }
    assert (or_else v2 (call (GetEnv (py "POSTGRES_DSN"))) env h2
            = (h2 ++ [Called (GetEnv (py "POSTGRES_DSN")) (Ok v3)], Ok v3))
      as ->.
    { unfold or_else. destruct Hv2 as [-> | ->]; cbn [truthy];
        by rewrite call_run, E3. }
    unfold h2, h1. rewrite <- !app_assoc.
    by destruct Hv3 as [-> | ->].
Qed.

Lemma load_without_dsn_witness :
  let a := {| dict_df := []; dsn := None; Loader.sql_dir := None;
              core_schema := py "core"; ingest_schema := py "ingest";
              audit_schema := py "audit"; load_mode := drop_create;
              pg_chunksize := 5000; ddl_only := false;
              drop_extra_columns := true; echo_sql := false;
              analyze := false |} in
  (load a Demo.env []).2 = Raise (ValueError MissingDsn).
Proof.
  intros a.
  destruct (proj2 (load_without_dsn a Demo.env []) eq_refl
              (λ h name, or_introl eq_refl)) as (v1 & v2 & v3 & ->).
  reflexivity.
Defined.

(** The client as a context manager: the engine is created on entry to
    the block; when that fails, leaving the block asks for the engine
    again in order to dispose of it. *)
Lemma with_client_run {A} (dsn_v : pystr) (body : Engine → M A) (env : Env)
    (h : list entry) :
  PgClient.with_client dsn_v body env h
  = match respond env Engine h (CreateEngine dsn_v) with
    | Ok engine =>
        finally (body engine) (call EngineDispose) env
          (h ++ [Called (CreateEngine dsn_v) (Ok engine)])
    | Raise e =>
        let h1 := h ++ [Called (CreateEngine dsn_v) (Raise e)] in
        match respond env Engine h1 (CreateEngine dsn_v) with
        | Ok engine2 =>
            let h2 := h1 ++ [Called (CreateEngine dsn_v) (Ok engine2)] in
            (h2 ++ [Called EngineDispose (respond env () h2 EngineDispose)],
             match respond env () h2 EngineDispose with
             | Ok _ => Raise e
             | Raise e3 => Raise e3
             end)
        | Raise e2 =>
            (h1 ++ [Called (CreateEngine dsn_v) (Raise e2)], Raise e2)
        end
    end.
Proof.
  unfold PgClient.with_client. rewrite bind_run. unfold catch.
  rewrite call_run.
  destruct (respond env Engine h (CreateEngine dsn_v)) as [engine|e];
    [done|].
  cbv zeta. rewrite bind_run, call_run.
  destruct (respond env Engine _ (CreateEngine dsn_v)) as [engine2|e2];
    [|done].
  rewrite bind_run, call_run.
  by destruct (respond env () _ EngineDispose) as [[]|e3].
Qed.

(** X14: with a DSN given, [load] disposes of the engine it created as
    the last thing it does, whether the run returns or raises. When the
    engine cannot be created, leaving the block asks for the engine a
    second time: when that fails too, the second error is raised and
    nothing else is done; when it gives an engine, that engine is
    disposed of and the first error is raised, or the error of the
    disposal. *)
Theorem load_disposes_of_the_engine
    (a : load_args) (env : Env) (h : list entry) (c : N) (d : pystr) :
  dsn a = Some (c :: d) →
  match respond env Engine h (CreateEngine (c :: d)) with
  | Ok engine =>
      ∃ h1 o, (load a env h).1 = h1 ++ [Called EngineDispose o]
  | Raise e =>
      let h1 := h ++ [Called (CreateEngine (c :: d)) (Raise e)] in
      match respond env Engine h1 (CreateEngine (c :: d)) with
      | Ok engine2 =>
          let h2 := h1 ++ [Called (CreateEngine (c :: d)) (Ok engine2)] in
          ∃ o, (load a env h).1 = h2 ++ [Called EngineDispose o]
               ∧ (load a env h).2
                 = Raise (match o with Ok _ => e | Raise e3 => e3 end)
      | Raise e2 =>
          load a env h
          = (h1 ++ [Called (CreateEngine (c :: d)) (Raise e2)], Raise e2)
      end
  end.
Proof.
  intros Hd. unfold load. rewrite Hd. rewrite bind_run. cbv beta iota.
  cbn [mret M_ret ret].
  rewrite bind_run.
  assert (∃ p, match Loader.sql_dir a with
               | Some d0 => mret d0
               | None => _default_sql_dir
               end env h = (h, Ok p)) as [p ->].
  { destruct (Loader.sql_dir a); [by eexists|].
    unfold _default_sql_dir. rewrite bind_run. cbn [ask]. by eexists. }
  rewrite with_client_run.
  destruct (respond env Engine h (CreateEngine (c :: d))) as [engine|e].
  - match goal with
    | |- context [finally ?m0 _ env ?h0] =>
        destruct (m0 env h0) as [h1 r] eqn:Hbody;
        rewrite (finally_elim _ _ _ _ _ _ Hbody)
    end.
    rewrite call_run. exists h1, (respond env () h1 EngineDispose).
    by destruct (respond env () h1 EngineDispose) as [[]|e'].
  - cbv zeta.
    destruct (respond env Engine _ (CreateEngine (c :: d)))
      as [engine2|e2]; [|done].
    eexists. split; [reflexivity|]. simpl.
    by destruct (respond env () _ EngineDispose) as [[]|e3].
Qed.

Lemma load_disposes_of_the_engine_witness :
  (∃ h1 o,
     (load (Demo.args [(py "productos", Some Demo.productos)] false)
        Demo.env []).1 = h1 ++ [Called EngineDispose o])
  ∧ load (Demo.args [(py "productos", Some Demo.productos)] false)
      Malformed.env []
    = ([Called (CreateEngine (py "postgresql://demo"))
          (Raise (OtherError (py "ArgumentError")));
        Called (CreateEngine (py "postgresql://demo"))
          (Raise (OtherError (py "ArgumentError")))],
       Raise (OtherError (py "ArgumentError"))).
Proof.
  split.
  - exact (load_disposes_of_the_engine
             (Demo.args [(py "productos", Some Demo.productos)] false)
             Demo.env [] _ _ eq_refl).
  - exact (load_disposes_of_the_engine
             (Demo.args [(py "productos", Some Demo.productos)] false)
             Malformed.env [] _ _ eq_refl).
Defined.

(** ** The plan and its inputs *)

(** X15: [validate_inputs] accepts a dictionary exactly when it holds
    the key of every spec of the order that is in INSERT mode; otherwise
    it raises LoadPlanError with the keys that are absent, in the
    order of the plan. *)
Theorem validate_inputs_spec {V} (plan : LoadPlan) (dict : list (pystr * V)) :
  (validate_inputs plan dict = Ok tt ↔
   ∀ spec, spec ∈ order plan → is_insert spec = true →
           od_mem (TableSpec.key spec) dict = true)
  ∧ (∀ e, validate_inputs plan dict = Raise e →
       ∃ missing,
         e = LoadPlanError (MissingDataFrames missing)
         ∧ missing ≠ []
         ∧ missing `sublist_of` (TableSpec.key <$> order plan)
         ∧ ∀ key, key ∈ missing ↔
                  od_mem key dict = false
                  ∧ ∃ spec, spec ∈ order plan ∧ is_insert spec = true
                            ∧ TableSpec.key spec = key).
Proof.
  unfold validate_inputs.
  set (P := λ spec : TableSpec.t,
         is_insert spec = true ∧ od_mem (TableSpec.key spec) dict = false).
  assert (∀ key, key ∈ TableSpec.key <$> filter P (order plan) ↔
                 od_mem key dict = false
                 ∧ ∃ spec, spec ∈ order plan ∧ is_insert spec = true
                           ∧ TableSpec.key spec = key) as Hin.
  { intros key. rewrite list_elem_of_fmap. split.
    - intros (spec & -> & [[? ?] ?]%list_elem_of_filter). eauto.
    - intros (Hm & spec & ? & ? & <-). exists spec. split; [done|].
      by apply list_elem_of_filter. }
  destruct (TableSpec.key <$> filter P (order plan)) as [|k0 ks] eqn:E.
  - split; [|done]. split; [|done]. intros _ spec Hs Hi.
    destruct (od_mem (TableSpec.key spec) dict) eqn:Hm; [done|].
    assert (TableSpec.key spec ∈ @nil pystr) as Habs
      by (apply Hin; eauto).
    by apply elem_of_nil in Habs.
  - split.
    + split; [done|]. intros Hall.
      assert (k0 ∈ k0 :: ks) as (Hm & spec & Hs & Hi & <-)%Hin by left.
      rewrite Hall in Hm by done. done.
    + intros e [= <-]. exists (k0 :: ks). split_and!; [done|done| |done].
      rewrite <- E. apply fmap_sublist, sublist_filter.
Qed.

Lemma placed_after_deps_sound (order : list TableSpec.t) :
  placed_after_deps order = true →
  ∀ spec dep, spec ∈ order → dep ∈ TableSpec.depends_on spec →
              before order dep spec.
Proof.
  unfold placed_after_deps. intros Hall spec dep Hs Hd.
  apply list_elem_of_lookup in Hs as [j Hj].
  rewrite forallb_forall in Hall.
  assert (In (j, spec) (imap pair order)) as Hin.
  { apply list_elem_of_In, list_elem_of_lookup. exists j.
    by rewrite list_lookup_imap, Hj. }
  apply Hall in Hin. simpl in Hin. rewrite forallb_forall in Hin.
  assert (In dep (TableSpec.depends_on spec)) as Hd'
    by (by apply list_elem_of_In).
  apply Hin in Hd'. apply existsb_exists in Hd' as (sd & Hsd & Hname).
  apply bool_decide_eq_true_1 in Hname.
  apply list_elem_of_In, list_elem_of_lookup in Hsd as [i Hi].
  apply lookup_take_Some in Hi as [Hi Hlt].
  exists i, j, sd. done.
Qed.

(** X16: the plan shipped for SAVH is sound: [build_savh_load_plan]
    raises nothing, its order holds the 46 table names of the specs, each
    once, every table stands after all the tables it depends on, and the
    dataset key is the table name for every table but [dim_tipos_egreso],
    which reads the key [dim_tipos_egresos]. *)
Theorem savh_plan_is_sound :
  ∃ plan,
    build_savh_load_plan = Ok plan
    ∧ length (order plan) = 46
    ∧ table_names_in_order plan ≡ₚ TableSpec.name <$> savh_specs
    ∧ NoDup (table_names_in_order plan)
    ∧ (∀ spec dep, spec ∈ order plan → dep ∈ TableSpec.depends_on spec →
                   before (order plan) dep spec)
    ∧ Forall (λ spec,
                TableSpec.key spec
                = if bool_decide (TableSpec.name spec = py "dim_tipos_egreso")
                  then py "dim_tipos_egresos" else TableSpec.name spec)
        (order plan).
Proof.
  destruct build_savh_load_plan as [plan|e] eqn:E;
    [|vm_compute in E; discriminate E].
  exists plan. split; [done|].
  assert (order <$> (match build_savh_load_plan with
                     | Ok p => Some p | Raise _ => None end)
          = Some (order plan)) as Hcomp by (by rewrite E).
  unfold table_names_in_order.
  destruct plan as [specs0 l]. cbn [order] in *. clear E.
  vm_compute in Hcomp. injection Hcomp as <-.
  split_and!.
  - reflexivity.
  - apply (bool_decide_unpack _). vm_compute. exact I.
  - apply (bool_decide_unpack _). vm_compute. exact I.
  - apply placed_after_deps_sound. vm_compute. reflexivity.
  - apply (bool_decide_unpack _). vm_compute. exact I.
Qed.

Lemma validate_inputs_spec_witness :
  ∃ plan,
    LoadPlan_init [T "A" []; T "B" ["A"]] = Ok plan
    ∧ validate_inputs plan [(py "A", tt); (py "B", tt)] = Ok tt
    ∧ validate_inputs plan [(py "A", tt)]
      = Raise (LoadPlanError (MissingDataFrames [py "B"])).
Proof.
  eexists. split; [reflexivity|]. split.
  - apply validate_inputs_spec. intros spec Hs _.
    apply elem_of_cons in Hs as [->|Hs]; [reflexivity|].
    apply list_elem_of_singleton in Hs as ->. reflexivity.
  - reflexivity.
Defined.

Lemma savh_plan_is_sound_witness :
  ∃ plan,
    build_savh_load_plan = Ok plan
    ∧ before (order plan) (py "app_users") (T "ingresos_producto" ["app_users"]).
Proof.
  destruct savh_plan_is_sound as (plan & Hp & _ & _ & _ & Hb & _).
  exists plan. split; [done|]. apply Hb; [|left].
  vm_compute in Hp. injection Hp as <-. cbn [order].
  apply list_elem_of_In. vm_compute. tauto.
Defined.

(** ** Identifiers, missing values and column metadata *)

Lemma replace_dq_inj (a b : pystr) :
  replace_char DQ [DQ; DQ] a = replace_char DQ [DQ; DQ] b → a = b.
Proof.
  unfold replace_char. revert b.
  induction a as [|x a IH]; intros [|y b]; rewrite ?bind_cons.
  - done.
  - by destruct (y =? DQ)%N.
  - by destruct (x =? DQ)%N.
  - destruct (x =? DQ)%N eqn:Ex, (y =? DQ)%N eqn:Ey; simpl.
    + apply N.eqb_eq in Ex, Ey. intros [= H]. subst. f_equal. by apply IH.
    + intros [= <- H]. by rewrite N.eqb_refl in Ey.
    + intros [= -> H]. by rewrite N.eqb_refl in Ex.
    + intros [= -> H]. f_equal. by apply IH.
Qed.

Lemma replace_dq_paired (a : pystr) :
  quotes_paired (replace_char DQ [DQ; DQ] a) = true.
Proof.
  unfold quotes_paired, replace_char.
  induction a as [|x a IH]; [done|]. rewrite bind_cons.
  destruct (x =? DQ)%N eqn:Ex; simpl; [done|]. by rewrite Ex.
Qed.

(** X17: [_quote_ident] wraps the name in double quotes and leaves inside
    them no double quote that is not doubled; two names that are quoted
    alike are the same name. *)
Theorem quote_ident_is_safe :
  Inj (=) (=) _quote_ident
  ∧ ∀ name, ∃ body,
      _quote_ident name = [DQ] ++ body ++ [DQ]
      ∧ quotes_paired body = true
      ∧ length name ≤ length body.
Proof.
  split.
  - intros a b. unfold _quote_ident. intros [= H].
    apply app_inv_tail in H. by apply replace_dq_inj.
  - intros name. exists (replace_char DQ [DQ; DQ] name).
    split_and!; [done|apply replace_dq_paired|].
    unfold replace_char. induction name as [|x name IH]; [done|].
    rewrite bind_cons, length_app. destruct (x =? DQ)%N; simpl; lia.
Qed.

(** X18: [_normalize_nulls] writes None over the missing values, which
    the type of the column then holds in its own way: in an object
    column every None, NaN and NaT becomes None and no NaN or NaT is
    left; in a float column the missing values are NaN and a NaN stays;
    in a datetime column they are NaT and a NaT stays; an integer or
    boolean column is left as it is. Nothing else changes: the labels,
    the types, the number of rows and of cells and every value
    that is not missing stay, and normalising twice is normalising
    once. *)
Theorem normalize_nulls_spec (df : DataFrame) :
  let df' := _normalize_nulls df in
  columns df' = columns df
  ∧ df_len df' = df_len df
  ∧ Forall2 (λ c c',
       c'.1 = c.1 ∧ c'.2.1 = c.2.1
       ∧ Forall2 (λ v v', v' = if notnull v then v else missing_as c.2.1 v)
           c.2.2 c'.2.2)
      (df_data df) (df_data df')
  ∧ Forall (λ c, c.2.1 = object → Forall (λ v, is_nan v = false) c.2.2)
      (df_data df')
  ∧ (∀ k cells, (k, (float64, cells)) ∈ df_data df → CNaN ∈ cells →
       ∃ cells', (k, (float64, cells')) ∈ df_data df' ∧ CNaN ∈ cells')
  ∧ (∀ k cells, (k, (datetime64, cells)) ∈ df_data df → CNaT ∈ cells →
       ∃ cells', (k, (datetime64, cells')) ∈ df_data df' ∧ CNaT ∈ cells')
  ∧ _normalize_nulls df' = df'.
Proof.
  intros df'. split_and!.
  - apply columns_normalize.
  - done.
  - unfold df', _normalize_nulls. cbn [df_data].
    apply Forall2_fmap_r, Forall_Forall2_diag, Forall_forall.
    intros [k [t cells]] _. cbn [fst snd]. unfold where_notnull_none.
    cbn [fst snd]. split_and!; [done|by destruct t|].
    destruct t; cbn [fst snd missing_as];
      try apply Forall2_fmap_r; apply Forall_Forall2_diag, Forall_forall;
      intros v _; by destruct v.
  - unfold df', _normalize_nulls. cbn [df_data].
    apply Forall_fmap, Forall_forall. intros [k [t cells]] _.
    unfold where_notnull_none. cbn [fst snd]. destruct t; try done.
    intros _. cbn [snd].
    apply Forall_fmap, Forall_forall. intros v _. by destruct v.
  - intros k cells Hin Hnan. eexists. split.
    + unfold df', _normalize_nulls. cbn [df_data].
      apply list_elem_of_fmap. exists (k, (float64, cells)). split; [|done].
      unfold where_notnull_none. cbn [fst snd]. reflexivity.
    + apply list_elem_of_fmap. by exists CNaN.
  - intros k cells Hin Hnat. eexists. split.
    + unfold df', _normalize_nulls. cbn [df_data].
      apply list_elem_of_fmap. exists (k, (datetime64, cells)).
      split; [|done].
      unfold where_notnull_none. cbn [fst snd]. reflexivity.
    + apply list_elem_of_fmap. by exists CNaT.
  - unfold df', _normalize_nulls. cbn [df_data df_len]. f_equal.
    rewrite <- list_fmap_compose. apply list_fmap_ext.
    intros i [k [t cells]] _. cbn. f_equal. unfold where_notnull_none.
    destruct t; cbn [fst snd]; try done; f_equal;
      rewrite <- list_fmap_compose; apply list_fmap_ext;
      intros j v _; by destruct v.
Qed.

Lemma column_meta_of_row_cases (upper : pystr → pystr) (row : list dbval) :
  (length row = 4 ∧ ∃ c, column_meta_of_row upper row = Ok c)
  ∨ (length row ≠ 4
     ∧ column_meta_of_row upper row = Raise (ValueError UnpackError)).
Proof.
  destruct row as [|v1 [|v2 [|v3 [|v4 [|v5 row]]]]]; simpl;
    first [by right | left; eauto].
Qed.

Lemma for_fold_meta_ok (env : Env) (h : list entry) (rows : list (list dbval)) :
  ∀ (out meta : list ColumnMeta.t),
    Forall2 (λ row c, column_meta_of_row (env_upper env) row = Ok c)
      rows meta →
    for_fold rows out
      (λ out row, c ← lift (column_meta_of_row (env_upper env) row);
                  mret (out ++ [c])) env h
    = (h, Ok (out ++ meta)).
Proof.
  induction rows as [|row rows IH]; intros out meta Hall.
  - apply Forall2_nil_inv_l in Hall as ->. by rewrite app_nil_r.
  - apply Forall2_cons_inv_l in Hall as (c & meta' & Hc & Hall & ->).
    cbn [for_fold]. rewrite bind_run, bind_run. unfold lift at 1.
    rewrite Hc. cbv beta iota. cbn [mret M_ret ret].
    rewrite (IH _ meta') by done. by rewrite <- app_assoc.
Qed.

Lemma for_fold_meta_bad (env : Env) (h : list entry) (rows : list (list dbval)) :
  ∀ (out : list ColumnMeta.t),
    (∃ row, row ∈ rows ∧ length row ≠ 4) →
    for_fold rows out
      (λ out row, c ← lift (column_meta_of_row (env_upper env) row);
                  mret (out ++ [c])) env h
    = (h, Raise (ValueError UnpackError)).
Proof.
  induction rows as [|row rows IH]; intros out (bad & Hin & Hlen).
  - by apply elem_of_nil in Hin.
  - cbn [for_fold]. rewrite bind_run, bind_run. unfold lift at 1.
    destruct (column_meta_of_row_cases (env_upper env) row)
      as [[Hl [c ->]]|[Hl ->]]; [|done].
    cbv beta iota. cbn [mret M_ret ret]. apply IH.
    apply elem_of_cons in Hin as [->|Hin]; [done|eauto].
Qed.

(** X19: [get_table_columns_meta] opens a connection, asks once and
    closes the connection; it returns one ColumnMeta for each row, in the
    order of the rows, and raises ValueError when a row does not hold
    four values. *)
Theorem columns_meta_follow_the_rows
    (schema table : pystr) (env : Env) (h : list entry)
    (rows : list (list dbval)) :
  let query :=
    Execute sql_columns_meta
      [(py "schema", DText schema); (py "table", DText table)] in
  let h' := h ++ [ok EngineConnect; Called query (Ok rows);
                  ok ConnectionClose] in
  replies env EngineConnect (Ok tt) → replies env ConnectionClose (Ok tt) →
  replies env query (Ok rows) →
  (∀ meta,
     Forall2 (λ row c, column_meta_of_row (env_upper env) row = Ok c)
       rows meta →
     get_table_columns_meta schema table env h = (h', Ok meta))
  ∧ ((∃ row, row ∈ rows ∧ length row ≠ 4) →
     get_table_columns_meta schema table env h
     = (h', Raise (ValueError UnpackError))).
Proof.
  intros query h' Hopen Hclose Hrows.
  assert (with_connect (call query) env h = (h', Ok rows)) as Hq.
  { unfold with_connect. rewrite bind_run, call_run, (Hopen h).
    cbv beta iota.
    rewrite (finally_elim _ _ _ _ _ _ (call_run query env _)).
    rewrite (Hrows _), call_run, (Hclose _). unfold h'.
    by rewrite <- !app_assoc. }
  split.
  - intros meta Hall. unfold get_table_columns_meta.
    rewrite bind_run. cbn [ask]. rewrite bind_run. fold query.
    rewrite Hq. cbv beta iota. by apply (for_fold_meta_ok env h' rows []).
  - intros Hbad. unfold get_table_columns_meta.
    rewrite bind_run. cbn [ask]. rewrite bind_run. fold query.
    rewrite Hq. cbv beta iota. by apply for_fold_meta_bad.
Qed.

Lemma columns_meta_follow_the_rows_witness :
  get_table_columns_meta (py "core") (py "productos") Demo.env []
  = ([ok EngineConnect;
      Called (Execute sql_columns_meta
                [(py "schema", DText (py "core"));
                 (py "table", DText (py "productos"))])
        (Ok [[DText (py "id"); DText (py "NO"); DNull; DText (py "NO")]]);
      ok ConnectionClose],
     Ok [{| ColumnMeta.name := py "id"; ColumnMeta.is_nullable := false;
            ColumnMeta.has_default := false;
            ColumnMeta.is_identity := false |}]).
Proof.
  apply (columns_meta_follow_the_rows (py "core") (py "productos") Demo.env
           [] [[DText (py "id"); DText (py "NO"); DNull; DText (py "NO")]]
           (λ h, eq_refl) (λ h, eq_refl) (λ h, eq_refl)).
  constructor; [|constructor]. vm_compute. reflexivity.
Defined.

(** ** The counts [load] reports *)

Lemma inserted_mono (pre new post : list entry) (schema table : pystr)
    (rows : nat) :
  inserted new schema table rows →
  inserted (pre ++ new ++ post) schema table rows.
Proof.
  intros (df & ie & idx & cs & meth & before & after & -> & Hlen).
  exists df, ie, idx, cs, meth, (pre ++ before), (after ++ post).
  split; [|done]. by rewrite <- !app_assoc.
Qed.

Lemma inserted_app_l (pre new : list entry) (schema table : pystr)
    (rows : nat) :
  inserted new schema table rows → inserted (pre ++ new) schema table rows.
Proof.
  intros H. rewrite <- (app_nil_r new). by apply inserted_mono.
Qed.

Lemma backed_mono (pre new post : list entry)
    (rows_by_table : list (pystr * nat)) :
  backed new rows_by_table → backed (pre ++ new ++ post) rows_by_table.
Proof.
  intros Hb key rows Hin. destruct (Hb key rows Hin) as (sch & tbl & -> & Hi).
  exists sch, tbl. split; [done|]. by apply inserted_mono.
Qed.

Lemma elem_of_od_set (key key' : pystr) (v v' : nat)
    (dict : list (pystr * nat)) :
  (key, v) ∈ od_set key' v' dict →
  (key = key' ∧ v = v') ∨ (key, v) ∈ dict.
Proof.
  induction dict as [|[k0 v0] dict IH]; simpl.
  - intros [= -> ->]%list_elem_of_singleton. by left.
  - destruct (decide (key' = k0)) as [->|].
    + intros [[= -> ->]|Hin]%elem_of_cons; [by left|].
      right. by right.
    + intros [[= -> ->]|Hin]%elem_of_cons; [right; by left|].
      destruct (IH Hin) as [?|?]; [by left|]. right. by right.
Qed.

Lemma bind_Ok_inv' {A B} (m0 : M A) (k : A → M B) (env : Env)
    (h h' : list entry) (b : B) :
  (m0 ≫= k) env h = (h', Ok b) →
  ∃ a h1, m0 env h = (h1, Ok a) ∧ k a env h1 = (h', Ok b).
Proof. apply bind_Ok_inv. Qed.

Lemma with_begin_Ok_inv {A} (body : M A) (env : Env) (h h' : list entry)
    (a : A) :
  with_begin body env h = (h', Ok a) →
  ∃ h1, body env (h ++ [Called EngineBegin (Ok tt)]) = (h1, Ok a)
        ∧ h' = h1 ++ [Called TxCommit (Ok tt)].
Proof.
  unfold with_begin. rewrite bind_run, call_run.
  destruct (respond env () h EngineBegin) as [[]|e]; [|done].
  rewrite bind_run. unfold catch at 1.
  destruct (body env (h ++ [Called EngineBegin (Ok ())])) as [h1 [a'|e]].
  - rewrite bind_run, call_run.
    destruct (respond env () h1 TxCommit) as [[]|e]; [|done].
    intros [= <- <-]. eauto.
  - rewrite bind_run, call_run.
    by destruct (respond env () h1 TxRollback) as [[]|e'].
Qed.

Lemma write_dataframe_Ok_inv (df : DataFrame) (table schema if_exists : pystr)
    (chunksize : Z) (index : bool) (method : option pystr) (env : Env)
    (h h' : list entry) :
  PgClient.write_dataframe df table schema if_exists chunksize index method
    env h = (h', Ok tt) →
  ∃ new, h' = h ++ new ∧ inserted new schema table (df_len df).
Proof.
  unfold PgClient.write_dataframe.
  intros (ex & h1 & Hex & Hrest)%bind_Ok_inv.
  destruct (adds_elim _ _ _ _ _ _ (table_exists_no_write schema table) Hex)
    as (new1 & -> & _).
  destruct (negb ex); [done|].
  apply with_begin_Ok_inv in Hrest as (h2 & Hcall & ->).
  rewrite call_run in Hcall.
  match type of Hcall with
  | (_, ?o) = _ => destruct o as [[]|e] eqn:Ho; [|done]
  end.
  injection Hcall as <-.
  eexists. split; [by rewrite <- !app_assoc|].
  eexists _, _, _, _, _, (new1 ++ [Called EngineBegin (Ok tt)]), [].
  split; [by rewrite <- !app_assoc, app_nil_r|done].
Qed.

Lemma load_one_Ok_inv (a : load_args) (table df_key : pystr)
    (st st' : loaded) (env : Env) (h h' : list entry) :
  _load_one a table df_key st env h = (h', Ok st') →
  ∃ new,
    h' = h ++ new
    ∧ (rows_by st' = rows_by st
       ∨ ∃ schema rows,
           inserted new schema table rows
           ∧ rows_by st' = od_set (schema ++ [DOT] ++ table) rows (rows_by st)).
Proof.
  intros Hrun.
  destruct (adds_elim _ _ _ _ _ _ (load_one_mapped a table df_key st) Hrun)
    as (new & -> & _).
  exists new. split; [done|]. unfold _load_one in Hrun.
  destruct (od_get df_key (dict_df a)) as [[df|]|];
    [|done|injection Hrun as _ <-; by left].
  destruct (df_empty df); [injection Hrun as _ <-; by left|].
  apply bind_Ok_inv in Hrun as (ex & h1 & Hex & Hrun).
  destruct (adds_elim _ _ _ _ _ _ (table_exists_no_write _ _) Hex)
    as (new1 & -> & _).
  destruct (negb ex).
  { apply bind_Ok_inv in Hrun as ([] & h2 & _ & Hrun).
    injection Hrun as _ <-. by left. }
  apply bind_Ok_inv in Hrun as (df2 & h2 & Hval & Hrun).
  destruct (adds_elim _ _ _ _ _ _ (validate_and_align_no_write _ _ _ _) Hval)
    as (new2 & -> & _).
  apply bind_Ok_inv in Hrun as ([] & h3 & Hlog & Hrun).
  rewrite log_run in Hlog. injection Hlog as <-.
  apply bind_Ok_inv in Hrun as ([] & h4 & Hwrite & Hrun).
  apply write_dataframe_Ok_inv in Hwrite as (new4 & -> & Hins).
  injection Hrun as Hh <-. cbn [rows_by]. right.
  eexists _, (df_len df2). split; [|done].
  rewrite <- !app_assoc in Hh. apply app_inv_head in Hh. subst new.
  by do 3 apply inserted_app_l.
Qed.

Lemma backed_step (new new' : list entry)
    (rows_by rows_by' : list (pystr * nat)) :
  backed new rows_by →
  (rows_by' = rows_by
   ∨ ∃ schema table rows,
       inserted new' schema table rows
       ∧ rows_by' = od_set (schema ++ [DOT] ++ table) rows rows_by) →
  backed (new ++ new') rows_by'.
Proof.
  intros Hb [->|(schema & table & rows & Hins & ->)].
  - rewrite <- (app_nil_l (new ++ new')). by apply backed_mono.
  - intros key v [[-> ->]|Hin]%elem_of_od_set.
    + exists schema, table. split; [done|]. by apply inserted_app_l.
    + destruct (Hb key v Hin) as (sch & tbl & -> & Hi).
      exists sch, tbl. split; [done|].
      rewrite <- (app_nil_l (new ++ new')). by apply inserted_mono.
Qed.

Lemma fallback_one_Ok_inv (a : load_args) (df_key : pystr)
    (st st' : loaded) (env : Env) (h h' : list entry) :
  fallback_one a st df_key env h = (h', Ok st') →
  ∃ new,
    h' = h ++ new
    ∧ (rows_by st' = rows_by st
       ∨ ∃ schema table rows,
           inserted new schema table rows
           ∧ rows_by st' = od_set (schema ++ [DOT] ++ table) rows (rows_by st)).
Proof.
  intros Hrun.
  destruct (adds_elim _ _ _ _ _ _ (fallback_one_mapped a st df_key) Hrun)
    as (new & -> & _).
  exists new. split; [done|]. unfold fallback_one in Hrun.
  destruct (bool_decide (df_key ∈ loaded_keys st));
    [injection Hrun as _ <-; by left|].
  destruct (negb (truthy (strip df_key)));
    [injection Hrun as _ <-; by left|].
  assert (∀ schema table,
            (ex ← PgClient.table_exists schema table;
             if ex : bool then _load_one a table df_key st else mret st)
              env h = (h ++ new, Ok st') →
            rows_by st' = rows_by st
            ∨ ∃ schema0 table0 rows,
                inserted new schema0 table0 rows
                ∧ rows_by st'
                  = od_set (schema0 ++ [DOT] ++ table0) rows (rows_by st))
    as Hcase.
  { intros schema table Hr.
    apply bind_Ok_inv in Hr as (ex & h1 & Hex & Hr).
    destruct (adds_elim _ _ _ _ _ _ (table_exists_no_write _ _) Hex)
      as (new1 & -> & _).
    destruct ex; [|injection Hr as _ <-; by left].
    apply load_one_Ok_inv in Hr as (new2 & Hh & [?|(sch & rows & Hi & ?)]);
      [by left|].
    right. exists sch, table, rows. split; [|done].
    rewrite <- app_assoc in Hh. apply app_inv_head in Hh. subst new.
    by apply inserted_app_l. }
  destruct (split_dot (strip df_key)) as [[sch tbl]|]; [|by eapply Hcase].
  destruct (truthy sch && truthy tbl); [by eapply Hcase|].
  injection Hrun as _ <-. by left.
Qed.

Lemma for_fold_backed {X} (f : loaded → X → M loaded) (env : Env) :
  (∀ st x h h' st',
     f st x env h = (h', Ok st') →
     ∃ new,
       h' = h ++ new
       ∧ (rows_by st' = rows_by st
          ∨ ∃ schema table rows,
              inserted new schema table rows
              ∧ rows_by st'
                = od_set (schema ++ [DOT] ++ table) rows (rows_by st))) →
  ∀ (l : list X) (st : loaded) (done_before h h' : list entry) (st' : loaded),
    backed done_before (rows_by st) →
    for_fold l st f env h = (h', Ok st') →
    ∃ new, h' = h ++ new ∧ backed (done_before ++ new) (rows_by st').
Proof.
  intros Hf. induction l as [|x l IH]; intros st n0 h h' st' Hb Hrun.
  - injection Hrun as <- <-. exists []. by rewrite !app_nil_r.
  - cbn [for_fold] in Hrun.
    apply bind_Ok_inv in Hrun as (st1 & h1 & Hstep & Hrun).
    apply Hf in Hstep as (new1 & -> & Hcase).
    assert (backed (n0 ++ new1) (rows_by st1)) as Hb1
      by (by eapply backed_step).
    destruct (IH st1 (n0 ++ new1) _ _ _ Hb1 Hrun) as (new2 & -> & Hb2).
    exists (new1 ++ new2). by rewrite !app_assoc in *.
Qed.

Lemma finally_Ok_inv {A} (m0 : M A) (fin : M unit) (env : Env)
    (h h' : list entry) (a : A) :
  finally m0 fin env h = (h', Ok a) →
  ∃ h1, m0 env h = (h1, Ok a) ∧ fin env h1 = (h', Ok tt).
Proof.
  rewrite finally_run. destruct (m0 env h) as [h1 r]. cbn [fst snd].
  destruct (fin env h1) as [h2 [[]|e]] eqn:Hfin; [|done].
  intros [= <- ->]. by exists h1.
Qed.

Lemma lift_Ok_inv {A} (r : result A) (env : Env) (h h' : list entry) (x : A) :
  lift r env h = (h', Ok x) → h' = h ∧ r = Ok x.
Proof. intros Hrun. by injection Hrun as <- ->. Qed.

Lemma with_client_Ok_inv {A} (dsn_v : pystr) (body : Engine → M A)
    (env : Env) (h h' : list entry) (a : A) :
  PgClient.with_client dsn_v body env h = (h', Ok a) →
  ∃ engine h1,
    respond env Engine h (CreateEngine dsn_v) = Ok engine
    ∧ body engine env
        (h ++ [Called (CreateEngine dsn_v)
                 (respond env Engine h (CreateEngine dsn_v))])
      = (h1, Ok a)
    ∧ h' = h1 ++ [Called EngineDispose (respond env () h1 EngineDispose)].
Proof.
  rewrite with_client_run.
  destruct (respond env Engine h (CreateEngine dsn_v)) as [engine|e].
  - intros (h1 & Hbody & Hfin)%finally_Ok_inv.
    rewrite call_run in Hfin. injection Hfin as <- _. by exists engine, h1.
  - cbv zeta.
    destruct (respond env Engine _ (CreateEngine dsn_v)) as [engine2|e2];
      [|done].
    by destruct (respond env () _ EngineDispose) as [[]|e3].
Qed.

(** X20: the counts of a run that returns stand for what was inserted:
    every entry of [rows_by_table] is keyed [schema.table] and holds the
    number of rows of a dataset whose bulk insert into that table went
    through, in this run, with its transaction committed. *)
Theorem load_counts_are_backed
    (a : load_args) (env : Env) (h : list entry) (r : LoadResult) :
  (load a env h).2 = Ok r →
  ∃ new, (load a env h).1 = h ++ new ∧ backed new (rows_by_table r).
Proof.
  intros Hres. destruct (load a env h) as [h' r'] eqn:Hrun.
  cbn [fst snd] in *. subst r'. unfold load in Hrun.
  apply bind_Ok_inv in Hrun as (dsn_v & h1 & Hdsn & Hrun).
  assert (∃ new1, h1 = h ++ new1) as [new1 ->].
  { eapply (adds_elim (λ _, True)) in Hdsn as (new1 & -> & _); [by eexists|].
    destruct (dsn a); [apply adds_ret|]. unfold or_else.
    repeat mapped_step. }
  destruct dsn_v as [[|c d]|];
    [discriminate Hrun| |discriminate Hrun].
  apply bind_Ok_inv in Hrun as (sql_dir_path & h2 & Hdir & Hrun).
  assert (h2 = h ++ new1) as ->.
  { destruct (Loader.sql_dir a); [by injection Hdir|].
    unfold _default_sql_dir in Hdir. rewrite bind_run in Hdir.
    by injection Hdir. }
  apply with_client_Ok_inv in Hrun as (engine & h4 & Hengine & Hbody & ->).
  apply bind_Ok_inv in Hbody as ([] & h5 & Hecho & Hbody).
  eapply (adds_elim (λ _, True)) in Hecho as (new5 & -> & _);
    [|destruct (echo_sql a); mapped_step].
  apply bind_Ok_inv in Hbody as (ddl_needed & h6 & Hreset & Hbody).
  destruct (adds_elim _ _ _ _ _ _ (load_reset_no_write a) Hreset)
    as (new6 & -> & _).
  apply bind_Ok_inv in Hbody as ([] & h7 & Hpre & Hbody).
  eapply (adds_elim (λ e, ¬ is_write e)) in Hpre as (new7 & -> & _);
    [|destruct ddl_needed; [apply run_sql_files_no_write|apply adds_ret]].
  destruct (ddl_only a).
  { apply bind_Ok_inv in Hbody as ([] & h8 & Hlog & Hbody).
    rewrite log_run in Hlog. injection Hlog as <-.
    injection Hbody as <- <-. eexists. split; [by rewrite <- !app_assoc|].
    intros key rows Hin. by apply elem_of_nil in Hin. }
  apply bind_Ok_inv in Hbody as (plan & h8 & Hplan & Hbody).
  apply lift_Ok_inv in Hplan as [-> _].
  apply bind_Ok_inv in Hbody as (st1 & h9 & Hfold1 & Hbody).
  eapply (for_fold_backed _ env) with (done_before := []) in Hfold1
    as (new9 & -> & Hb1); cycle 1.
  { intros st spec hx hx' st' Hstep.
    apply load_one_Ok_inv in Hstep as (new & -> & Hcase).
    exists new. split; [done|].
    destruct Hcase as [?|(sch & rows & ? & ?)]; [by left|].
    right. eauto. }
  { intros key rows Hin. by apply elem_of_nil in Hin. }
  apply bind_Ok_inv in Hbody as (st2 & h10 & Hfold2 & Hbody).
  eapply (for_fold_backed _ env) in Hfold2 as (new10 & -> & Hb2);
    [| |exact Hb1]; cycle 1.
  { intros st df_key hx hx' st' Hstep.
    by apply fallback_one_Ok_inv in Hstep. }
  apply bind_Ok_inv in Hbody as ([] & h11 & Hsync & Hbody).
  eapply (adds_elim (λ e, ¬ is_write e)) in Hsync as (new11 & -> & _);
    cycle 1.
  { apply adds_for_each. intros [schema table].
    apply adds_bind.
    { apply adds_catch. apply sync_identity_sequences_no_write. }
    intros [[]|e]; [apply adds_ret|].
    destruct (is_Exception e); no_write_step. }
  apply bind_Ok_inv in Hbody as ([] & h12 & Hpost & Hbody).
  eapply (adds_elim (λ e, ¬ is_write e)) in Hpost as (new12 & -> & _);
    [|destruct ddl_needed; [apply run_sql_files_no_write|apply adds_ret]].
  apply bind_Ok_inv in Hbody as ([] & h13 & Hanalyze & Hbody).
  eapply (adds_elim (λ e, ¬ is_write e)) in Hanalyze as (new13 & -> & _);
    [|destruct (analyze a); no_write].
  injection Hbody as <- <-. cbn [rows_by_table].
  eexists. split.
  - rewrite <- !app_assoc. reflexivity.
  - match goal with
    | |- backed (?p1 ++ ?p2 ++ ?p3 ++ ?p4 ++ ?p5 ++ new9 ++ new10 ++ ?post) _ =>
        replace (p1 ++ p2 ++ p3 ++ p4 ++ p5 ++ new9 ++ new10 ++ post)
          with ((p1 ++ p2 ++ p3 ++ p4 ++ p5) ++ (new9 ++ new10) ++ post)
          by (by rewrite <- !app_assoc)
    end.
    apply backed_mono. exact Hb2.
Qed.

Lemma load_counts_are_backed_witness :
  ∃ new,
    (load (Demo.args [(py "productos", Some Demo.productos)] false)
       Demo.env []).1 = [] ++ new
    ∧ backed new [(py "core.productos", 2)].
Proof.
  apply (load_counts_are_backed
           (Demo.args [(py "productos", Some Demo.productos)] false)
           Demo.env []
           {| tables_loaded := 1; rows_loaded := 2;
              rows_by_table := [(py "core.productos", 2)] |}).
  vm_compute. reflexivity.
Defined.

(** ** How [load] uses the engine's connections *)

Lemma session_after_app (s : session) (h1 h2 : list entry) :
  session_after s (h1 ++ h2)
  = match session_after s h1 with
    | Some s' => session_after s' h2
    | None => None
    end.
Proof.
  revert s. induction h1 as [|e h1 IH]; intros s; [done|].
  simpl. destruct (after s e); [apply IH|done].
Qed.

Lemma keeps_ret {A} (s : session) (a : A) : keeps s (mret a).
Proof. intros env h. exists []. by rewrite app_nil_r. Qed.

Lemma keeps_raise {A} (s : session) e : keeps s (raise (A:=A) e).
Proof. intros env h. exists []. by rewrite app_nil_r. Qed.

Lemma keeps_lift {A} (s : session) (r : result A) : keeps s (lift r).
Proof. intros env h. exists []. by rewrite app_nil_r. Qed.

Lemma keeps_ask (s : session) : keeps s ask.
Proof. intros env h. exists []. by rewrite app_nil_r. Qed.

Lemma keeps_call {A} (s : session) (r : req A) :
  (∀ o, after s (Called r o) = Some s) → keeps s (call r).
Proof.
  intros Hr env h. eexists [_]. split; [done|].
  cbn [session_after]. by rewrite Hr.
Qed.

Lemma keeps_log (s : session) lvl fmt args : keeps s (log lvl fmt args).
Proof. intros env h. eexists [_]. split; [done|]. by destruct s. Qed.

Lemma keeps_bind {A B} (s : session) (m : M A) (k : A → M B) :
  keeps s m → (∀ a, keeps s (k a)) → keeps s (m ≫= k).
Proof.
  intros Hm Hk env h. rewrite bind_run.
  destruct (Hm env h) as (new1 & E1 & S1).
  destruct (m env h) as [h1 [a|e]]; simpl in E1; subst h1.
  - destruct (Hk a env (h ++ new1)) as (new2 & E2 & S2).
    exists (new1 ++ new2). rewrite E2, app_assoc. split; [done|].
    by rewrite session_after_app, S1.
  - by exists new1.
Qed.

Lemma keeps_catch {A} (s : session) (m : M A) : keeps s m → keeps s (catch m).
Proof.
  intros Hm env h. destruct (Hm env h) as (new & E & S1).
  exists new. unfold catch. by destruct (m env h).
Qed.

Lemma keeps_finally {A} (s : session) (m : M A) fin :
  keeps s m → keeps s fin → keeps s (finally m fin).
Proof.
  intros Hm Hf. unfold finally.
  apply keeps_bind; [by apply keeps_catch|]. intros r.
  apply keeps_bind; [done|]. intros _. apply keeps_lift.
Qed.

Lemma keeps_for_each {X} (s : session) (l : list X) (f : X → M unit) :
  (∀ x, keeps s (f x)) → keeps s (for_each l f).
Proof.
  intros Hf. induction l as [|x l IH]; simpl; [apply keeps_ret|].
  apply keeps_bind; [done|]. by intros _.
Qed.

Lemma keeps_for_fold {X St} (s : session) (l : list X) (s0 : St) f :
  (∀ st x, keeps s (f st x)) → keeps s (for_fold l s0 f).
Proof.
  intros Hf. revert s0. induction l as [|x l IH]; intros s0; simpl;
    [apply keeps_ret|].
  apply keeps_bind; [done|]. intros st. apply IH.
Qed.

Lemma keeps_with_begin {A} (body : M A) :
  keeps InTransaction body → keeps Idle (with_begin body).
Proof.
  intros Hb env h. unfold with_begin. rewrite bind_run, call_run.
  destruct (respond env () h EngineBegin) as [[]|e] eqn:Hbegin.
  - rewrite bind_run. unfold catch.
    destruct (Hb env (h ++ [Called EngineBegin (Ok ())])) as (new & E & S1).
    destruct (body env (h ++ [Called EngineBegin (Ok ())])) as [h1 r].
    simpl in E. subst h1. destruct r as [a|e].
    + rewrite bind_run, call_run.
      set (o := respond env () _ TxCommit).
      exists ([Called EngineBegin (Ok ())] ++ new ++ [Called TxCommit o]). split.
      * rewrite <- !app_assoc. by destruct o as [[]|?].
      * simpl. by rewrite session_after_app, S1.
    + rewrite bind_run, call_run.
      set (o := respond env () _ TxRollback).
      exists ([Called EngineBegin (Ok ())] ++ new ++ [Called TxRollback o]). split.
      * rewrite <- !app_assoc. by destruct o as [[]|?].
      * simpl. by rewrite session_after_app, S1.
  - by eexists [_].
Qed.

Lemma keeps_with_connect {A} (body : M A) :
  keeps Connected body → keeps Idle (with_connect body).
Proof.
  intros Hb env h. unfold with_connect. rewrite bind_run, call_run.
  destruct (respond env () h EngineConnect) as [[]|e] eqn:Hconn.
  - unfold finally. rewrite bind_run. unfold catch.
    destruct (Hb env (h ++ [Called EngineConnect (Ok ())])) as (new & E & S1).
    destruct (body env (h ++ [Called EngineConnect (Ok ())])) as [h1 r].
    simpl in E. subst h1. rewrite bind_run, call_run.
    set (o := respond env () _ ConnectionClose).
    exists ([Called EngineConnect (Ok ())] ++ new ++ [Called ConnectionClose o]). split.
    + rewrite <- !app_assoc. by destruct o as [[]|?].
    + simpl. by rewrite session_after_app, S1.
  - by eexists [_].
Qed.

Ltac keeps_step :=
  first
    [ apply keeps_ret | apply keeps_raise | apply keeps_lift | apply keeps_ask
    | apply keeps_log
    | apply keeps_call; intros ?; reflexivity
    | apply keeps_with_begin
    | apply keeps_with_connect
    | apply keeps_catch
    | apply keeps_finally
    | apply keeps_for_each; intros ?
    | apply keeps_for_fold; intros ? ?
    | apply keeps_bind; [|intros ?]
    | progress cbv beta
    | match goal with
      | |- keeps _ (match ?x with _ => _ end) => destruct x
      end ].

Ltac keeps_session := repeat keeps_step.

Lemma table_exists_keeps (schema table : pystr) :
  keeps Idle (PgClient.table_exists schema table).
Proof. unfold PgClient.table_exists, PgClient.read_scalar. keeps_session. Qed.

Lemma get_table_columns_meta_keeps (schema table : pystr) :
  keeps Idle (get_table_columns_meta schema table).
Proof. unfold get_table_columns_meta. keeps_session. Qed.

Lemma exec_keeps (q : pystr) (params : list (pystr * dbval)) :
  keeps Idle (PgClient.exec q params).
Proof. unfold PgClient.exec. keeps_session. Qed.

Lemma exec_statement_keeps (escape fail_fast : bool)
    (ignore_sqlstates : gset pystr) (fname : pystr) (idx : nat)
    (st : SQLStmt) :
  keeps InTransaction
    (exec_statement escape fail_fast ignore_sqlstates fname idx st).
Proof. unfold exec_statement. keeps_session. Qed.

Lemma run_sql_files_keeps (engine : Engine) (dir : Path)
    (ddl_files : list pystr) (fail_fast : bool)
    (ignore_sqlstates : gset pystr) :
  keeps Idle (run_sql_files engine dir ddl_files fail_fast ignore_sqlstates).
Proof.
  unfold run_sql_files. keeps_session. apply exec_statement_keeps.
Qed.

Lemma truncate_all_tables_keeps (schemas : list pystr) :
  keeps Idle (_truncate_all_tables schemas).
Proof. unfold _truncate_all_tables. keeps_session. Qed.

Lemma sync_identity_sequences_keeps (schema table id_column : pystr) :
  keeps Idle (sync_identity_sequences schema table id_column).
Proof. unfold sync_identity_sequences, int_of_dbval. keeps_session. Qed.

Lemma validate_and_align_keeps (df : DataFrame) (schema table : pystr)
    (drop : bool) :
  keeps Idle (_validate_and_align_df df schema table drop).
Proof.
  unfold _validate_and_align_df.
  apply keeps_bind; [apply get_table_columns_meta_keeps|]. intros meta.
  keeps_session.
Qed.

Lemma write_dataframe_keeps (df : DataFrame) (table schema if_exists : pystr)
    (chunksize : Z) (index : bool) (method : option pystr) :
  keeps Idle
    (PgClient.write_dataframe df table schema if_exists chunksize index
       method).
Proof.
  unfold PgClient.write_dataframe.
  apply keeps_bind; [apply table_exists_keeps|]. intros ex.
  keeps_session.
Qed.

Lemma load_one_keeps (a : load_args) (table df_key : pystr) (st : loaded) :
  keeps Idle (_load_one a table df_key st).
Proof.
  unfold _load_one.
  destruct (od_get df_key (dict_df a)) as [[df|]|];
    [|apply keeps_raise|apply keeps_ret].
  destruct (df_empty df); [apply keeps_ret|].
  apply keeps_bind; [apply table_exists_keeps|].
  intros ex. destruct (negb ex); [keeps_session|].
  apply keeps_bind; [apply validate_and_align_keeps|].
  intros df2. apply keeps_bind; [apply keeps_log|]. intros _.
  apply keeps_bind; [apply write_dataframe_keeps|]. intros _.
  apply keeps_ret.
Qed.

Lemma fallback_one_keeps (a : load_args) (st : loaded) (df_key : pystr) :
  keeps Idle (fallback_one a st df_key).
Proof.
  unfold fallback_one.
  destruct (bool_decide (df_key ∈ loaded_keys st)); [apply keeps_ret|].
  destruct (negb (truthy (strip df_key))); [apply keeps_ret|].
  destruct (split_dot (strip df_key)) as [[sch tbl]|].
  - destruct (truthy sch && truthy tbl); [|apply keeps_ret].
    apply keeps_bind; [apply table_exists_keeps|].
    intros []; [apply load_one_keeps|apply keeps_ret].
  - apply keeps_bind; [apply table_exists_keeps|].
    intros []; [apply load_one_keeps|apply keeps_ret].
Qed.

(** X21: [load] holds one connection or one transaction of the engine at a
    time and leaves none behind, whatever the database answers: in the
    calls it adds, a connection or a transaction is asked for only when
    none is held, each one obtained is closed, committed or rolled back
    before the next, a query goes through a held connection or
    transaction, a driver statement and a bulk insert only through a
    transaction, and nothing is held at the end. *)
Theorem load_keeps_the_session_rules
    (a : load_args) (env : Env) (h : list entry) :
  ∃ new, (load a env h).1 = h ++ new ∧ session_after Idle new = Some Idle.
Proof.
  revert env h. change (keeps Idle (load a)).
  unfold load. apply keeps_bind.
  { destruct (dsn a); [apply keeps_ret|]. unfold or_else. keeps_session. }
  intros [[|c dsn_v]|]; [apply keeps_raise| |apply keeps_raise].
  apply keeps_bind.
  { destruct (sql_dir a); [apply keeps_ret|]. unfold _default_sql_dir.
    keeps_session. }
  intros sql_dir_path. unfold PgClient.with_client.
  apply keeps_bind; [keeps_session|]. intros [engine|e]; [|keeps_session].
  apply keeps_finally; [|keeps_step].
  apply keeps_bind; [destruct (echo_sql a); keeps_step|]. intros _.
  apply keeps_bind.
  { destruct (load_mode a).
    - apply keeps_bind; [|intros _; apply keeps_ret].
      apply keeps_for_each. intros sch0.
      apply keeps_bind; [apply keeps_log|]. intros _. apply exec_keeps.
    - apply keeps_bind.
      { apply keeps_for_each. intros sch0. apply exec_keeps. }
      intros _. apply keeps_bind; [apply truncate_all_tables_keeps|].
      intros [|k]; keeps_session.
    - apply keeps_raise. }
  intros ddl_needed. apply keeps_bind.
  { destruct ddl_needed; [apply run_sql_files_keeps|apply keeps_ret]. }
  intros _. destruct (ddl_only a); [keeps_session|].
  apply keeps_bind; [apply keeps_lift|]. intros plan.
  apply keeps_bind.
  { apply keeps_for_fold. intros st spec. apply load_one_keeps. }
  intros st. apply keeps_bind.
  { apply keeps_for_fold. intros st' df_key. apply fallback_one_keeps. }
  intros st2. apply keeps_bind.
  { apply keeps_for_each. intros [schema table].
    apply keeps_bind.
    { apply keeps_catch. apply sync_identity_sequences_keeps. }
    intros [[]|e]; [apply keeps_ret|].
    destruct (is_Exception e); keeps_step. }
  intros _. apply keeps_bind.
  { destruct ddl_needed; [apply run_sql_files_keeps|apply keeps_ret]. }
  intros _. apply keeps_bind; [|intros _; apply keeps_ret].
  destruct (analyze a); keeps_session.
Qed.

(** ** The sequence that [sync_identity_sequences] sets *)

Lemma with_begin_run {A} (body : M A) (env : Env) (h : list entry) :
  with_begin body env h
  = match respond env () h EngineBegin with
    | Raise e => (h ++ [Called EngineBegin (Raise e)], Raise e)
    | Ok _ =>
        let h0 := h ++ [Called EngineBegin (Ok ())] in
        match body env h0 with
        | (h1, Ok a) =>
            let o := respond env () h1 TxCommit in
            (h1 ++ [Called TxCommit o],
             match o with Ok _ => Ok a | Raise e => Raise e end)
        | (h1, Raise e) =>
            let o := respond env () h1 TxRollback in
            (h1 ++ [Called TxRollback o],
             match o with Ok _ => Raise e | Raise e' => Raise e' end)
        end
    end.
Proof.
  unfold with_begin. rewrite bind_run, call_run.
  destruct (respond env () h EngineBegin) as [[]|e]; [|done].
  rewrite bind_run. unfold catch.
  destruct (body env (h ++ [Called EngineBegin (Ok ())])) as [h1 [a|e]];
    cbv zeta; rewrite bind_run, call_run;
    by destruct (respond env () h1 _) as [[]|e'].
Qed.

Lemma setval_free (l : list entry) :
  Forall (λ e, setval_call e = None) l →
  ∀ e, e ∈ l → setval_call e = None.
Proof. intros Hl e He. by eapply Forall_forall in Hl. Qed.

Lemma int_of_dbval_run (v : dbval) (env : Env) (h : list entry) :
  int_of_dbval v env h = (h, int_value env v).
Proof.
  unfold int_value. by destruct v.
Qed.

Ltac ask_db :=
  rewrite bind_run, call_run;
  match goal with
  | |- context [respond ?env ?A ?hh ?r] =>
      destruct (respond env A hh r) as [?|?] eqn:?
  end;
  cbv beta iota.

Ltac no_setval_in ent Hent :=
  refine (setval_free _ _ ent Hent);
  repeat (constructor; [reflexivity|]); constructor.

Ltac no_setval :=
  rewrite <- ?app_assoc; eexists _, _; split; [reflexivity|];
  split;
  [ intros ent ? ? ? Hent Hset;
    assert (setval_call ent = None) as Hnone by no_setval_in ent Hent;
    rewrite Hnone in Hset; discriminate Hset
  | intros ent ? Hent Hset _;
    assert (setval_call ent = None) as Hnone by no_setval_in ent Hent;
    by rewrite Hnone in Hset ].

Lemma sync_identity_sequences_run (schema table id_column : pystr)
    (env : Env) (h : list entry) :
  (∃ e, sync_identity_sequences schema table id_column env h
        = (h ++ [Called EngineBegin (Raise e)], Raise e))
  ∨ ∃ nb rb,
      (∀ e q params close,
         e ∈ nb → setval_call e = Some (q, params) →
         (∃ c, close = Called TxCommit c ∨ close = Called TxRollback c) →
         sets_sequence_found schema table id_column env
           ([Called EngineBegin (Ok ())] ++ nb ++ [close]) q params)
      ∧ (∀ e x, e ∈ nb → setval_call e ≠ None → refusal e = Some x →
           (x = DBAPIError (Some (py "42501")) → rb = Ok tt)
           ∧ (x ≠ DBAPIError (Some (py "42501")) → rb = Raise x))
      ∧ sync_identity_sequences schema table id_column env h
        = let h1 := h ++ [Called EngineBegin (Ok ())] ++ nb in
          match rb with
          | Ok _ =>
              let o := respond env () h1 TxCommit in
              (h1 ++ [Called TxCommit o], o)
          | Raise x =>
              let o := respond env () h1 TxRollback in
              (h1 ++ [Called TxRollback o],
               match o with Ok _ => Raise x | Raise e' => Raise e' end)
          end.
Proof.
  unfold sync_identity_sequences.
  match goal with |- context [with_begin ?b] => set (body := b) end.
  assert (∀ h0, ∃ nb rb, body env h0 = (h0 ++ nb, rb)
            ∧ (∀ e q params close,
                 e ∈ nb → setval_call e = Some (q, params) →
                 (∃ c, close = Called TxCommit c
                       ∨ close = Called TxRollback c) →
                 sets_sequence_found schema table id_column env
                   ([Called EngineBegin (Ok ())] ++ nb ++ [close]) q params)
            ∧ (∀ e x, e ∈ nb → setval_call e ≠ None → refusal e = Some x →
                 (x = DBAPIError (Some (py "42501")) → rb = Ok tt)
                 ∧ (x ≠ DBAPIError (Some (py "42501")) → rb = Raise x)))
    as Hbody.
  { intros h0. subst body. cbv beta.
    ask_db; [|no_setval].
    destruct (dbval_truthy (scalar a)) eqn:T1; cbn [negb]; cbv iota;
      [|no_setval].
    ask_db; [|no_setval].
    destruct (dbval_truthy (scalar a0)) eqn:T2; cbn [negb]; cbv iota;
      [|no_setval].
    ask_db; [|no_setval].
    rewrite bind_run. unfold catch.
    match goal with
    | |- context [let '(h', r) := ?m env ?H in (h', Ok r)] =>
        assert (∃ nm rm, m env H = (H ++ nm, rm)
                  ∧ ((nm = [] ∧ ∃ x, rm = Raise x)
                     ∨ ∃ q params o,
                         nm = [Called (Execute q params) o]
                         ∧ setval_call (Called (Execute q params) o)
                           = Some (q, params)
                         ∧ rm = match o with
                                | Ok _ => Ok tt
                                | Raise x => Raise x
                                end
                         ∧ ((scalar a1 = DNull
                             ∧ q = py "SELECT setval(CAST(:seq AS regclass), 1, false);"
                             ∧ params = [(py "seq", scalar a0)])
                            ∨ (∃ v, scalar a1 ≠ DNull
                                    ∧ int_value env (scalar a1) = Ok v
                                    ∧ q = py "SELECT setval(CAST(:seq AS regclass), :v, true);"
                                    ∧ params = [(py "seq", scalar a0);
                                                (py "v", DInt v)]))))
          as (nm & rm & Hm & Hnm)
    end.
    { destruct (scalar a1) as [|t|z] eqn:Hmax.
      - rewrite bind_run, call_run.
        match goal with
        | |- context [respond env ?A ?hh ?r] => set (o := respond env A hh r)
        end.
        eexists [Called _ o],
          (match o with Ok _ => Ok () | Raise x => Raise x end).
        split; [by destruct o|].
        right. eexists _, _, o. split_and!; [done|done|done|].
        by left.
      - rewrite bind_run, int_of_dbval_run.
        destruct (int_value env (DText t)) as [v|x] eqn:Hv.
        + rewrite bind_run, call_run.
          match goal with
          | |- context [respond env ?A ?hh ?r] =>
              set (o := respond env A hh r)
          end.
          eexists [Called _ o],
          (match o with Ok _ => Ok () | Raise x => Raise x end).
        split; [by destruct o|].
          right. eexists _, _, o. split_and!; [done|done|done|].
          right. by exists v.
        + exists [], (Raise x). rewrite app_nil_r. split; [done|].
          left. eauto.
      - rewrite bind_run, int_of_dbval_run.
        change (int_value env (DInt z)) with (Ok z : result Z). cbv iota.
        rewrite bind_run, call_run.
        match goal with
        | |- context [respond env ?A ?hh ?r] => set (o := respond env A hh r)
        end.
        eexists [Called _ o],
          (match o with Ok _ => Ok () | Raise x => Raise x end).
        split; [by destruct o|].
        right. eexists _, _, o. split_and!; [done|done|done|].
        right. by exists z. }
    rewrite Hm. cbv beta iota. rewrite <- !app_assoc.
    match goal with
    | |- context [h0 ++ ?e1 ++ ?e2 ++ ?e3 ++ nm] =>
        set (pre := e1 ++ e2 ++ e3);
        replace (h0 ++ e1 ++ e2 ++ e3 ++ nm) with (h0 ++ pre ++ nm)
          by (by unfold pre; rewrite <- !app_assoc)
    end.
    set (rb := match rm return result () with
               | Ok _ => Ok tt
               | Raise (DBAPIError sqlstate) =>
                   if bool_decide (sqlstate = Some (py "42501")) then Ok tt
                   else Raise (DBAPIError sqlstate)
               | Raise x => Raise x
               end).
    exists (pre ++ nm), rb. split.
    { unfold rb. destruct rm as [[]|[]]; try done. by case_bool_decide. }
    assert (∀ ent, ent ∈ pre ++ nm → setval_call ent ≠ None → ent ∈ nm)
      as Hin_nm.
    { intros ent [Hent|Hent]%elem_of_app Hset; [|done].
      exfalso. apply Hset. no_setval_in ent Hent. }
    split.
    - intros ent q params close Hent Hset Hclose.
      apply Hin_nm in Hent; [|by rewrite Hset].
      destruct Hnm as [[-> _]|(q' & params' & o & -> & Hsv & _ & Hprov)];
        [by apply elem_of_nil in Hent|].
      apply list_elem_of_singleton in Hent as ->.
      rewrite Hsv in Hset. injection Hset as <- <-.
      exists a, a0, a1, o, close. split_and!; try done.
    - intros ent x Hent Hset Href.
      apply Hin_nm in Hent; [|done].
      destruct Hnm as [[-> _]|(q' & params' & o & -> & _ & -> & _)];
        [by apply elem_of_nil in Hent|].
      apply list_elem_of_singleton in Hent as ->.
      simpl in Href. destruct o as [rows|x']; [done|].
      injection Href as ->. unfold rb. split.
      + by intros ->.
      + intros Hx. destruct x as [| | | | | | |sqlstate| |]; try done.
        case_bool_decide; [|done]. by subst sqlstate. }
  clearbody body. rewrite with_begin_run.
  destruct (respond env () h EngineBegin) as [[]|e]; [|left; by exists e].
  right. cbv zeta.
  destruct (Hbody (h ++ [Called EngineBegin (Ok ())]))
    as (nb & rb & Hrun & H1 & H2).
  exists nb, rb. split; [done|]. split; [done|].
  rewrite Hrun, <- !app_assoc. destruct rb as [[]|x]; [|done].
  by destruct (respond env () _ TxCommit) as [[]|].
Qed.

Lemma setval_call_inside (pre post : entry) (l : list entry) (e : entry) :
  setval_call pre = None → setval_call post = None →
  e ∈ [pre] ++ l ++ [post] → setval_call e ≠ None → e ∈ l.
Proof.
  intros Hpre Hpost Hin Hset.
  apply elem_of_app in Hin as [Hin|Hin].
  { apply list_elem_of_singleton in Hin as ->. done. }
  apply elem_of_app in Hin as [Hin|Hin]; [done|].
  apply list_elem_of_singleton in Hin as ->. done.
Qed.

(** X22: [sync_identity_sequences] sets a sequence only when it has
    found one: a run that sends a [setval] is one transaction made of, in
    this order and with nothing between, the query to the catalogue that
    named the column, [pg_get_serial_sequence] that named a sequence for
    it, the reading of the greatest value of the column, the [setval]
    and the end of the transaction; the [setval] puts that very sequence
    before 1 when the table holds no value and on the greatest value
    otherwise. *)
Theorem sync_sets_the_sequence_found
    (schema table id_column : pystr) (env : Env) (h : list entry) :
  ∃ new,
    (sync_identity_sequences schema table id_column env h).1 = h ++ new
    ∧ ∀ e q params,
        e ∈ new → setval_call e = Some (q, params) →
        sets_sequence_found schema table id_column env new q params.
Proof.
  destruct (sync_identity_sequences_run schema table id_column env h)
    as [[x ->]|(nb & rb & H1 & _ & ->)].
  { eexists [_]. split; [done|]. intros e q params Hin Hset.
    apply list_elem_of_singleton in Hin as ->. done. }
  cbv zeta.
  assert (∃ close, setval_call close = None
            ∧ (∃ c, close = Called TxCommit c ∨ close = Called TxRollback c)
            ∧ (match rb with
               | Ok _ =>
                   ((h ++ [Called EngineBegin (Ok ())] ++ nb)
                    ++ [Called TxCommit
                          (respond env ()
                             (h ++ [Called EngineBegin (Ok ())] ++ nb)
                             TxCommit)],
                    respond env ()
                      (h ++ [Called EngineBegin (Ok ())] ++ nb) TxCommit)
               | Raise x =>
                   ((h ++ [Called EngineBegin (Ok ())] ++ nb)
                    ++ [Called TxRollback
                          (respond env ()
                             (h ++ [Called EngineBegin (Ok ())] ++ nb)
                             TxRollback)],
                    match respond env ()
                            (h ++ [Called EngineBegin (Ok ())] ++ nb)
                            TxRollback with
                    | Ok _ => Raise x
                    | Raise e' => Raise e'
                    end)
               end).1
              = h ++ [Called EngineBegin (Ok ())] ++ nb ++ [close])
    as (close & Hclose & Hend & ->).
  { destruct rb as [[]|x]; eexists;
      (split; [|split; [|by rewrite <- !app_assoc]]); [done| |done|];
      eexists; [by left|by right]. }
  eexists. split; [done|]. intros e q params Hin Hset.
  apply (H1 e); [|done|done].
  eapply (setval_call_inside (Called EngineBegin (Ok ()))); try done.
  by rewrite Hset.
Qed.

Lemma sync_sets_the_sequence_found_witness :
  sets_sequence_found (py "core") (py "productos") (py "id") Demo.env
    (sync_identity_sequences (py "core") (py "productos") (py "id")
       Demo.env []).1
    (py "SELECT setval(CAST(:seq AS regclass), :v, true);")
    [(py "seq", DText (py "core.productos_id_seq")); (py "v", DInt 2)].
Proof.
  destruct (sync_sets_the_sequence_found (py "core") (py "productos")
              (py "id") Demo.env []) as (new & Hnew & Hfound).
  change ([] ++ new) with new in Hnew. rewrite Hnew.
  apply (Hfound
           (Called (Execute
                      (py "SELECT setval(CAST(:seq AS regclass), :v, true);")
                      [(py "seq", DText (py "core.productos_id_seq"));
                       (py "v", DInt 2)])
              (Ok [[DInt 2]]))); [|reflexivity].
  rewrite <- Hnew. vm_compute. do 4 right. left.
Defined.

(** X23: a [setval] refused for lack of privilege (SQLSTATE 42501) does
    not stop [sync_identity_sequences]: its transaction is committed and
    the call returns what the commit returns; a [setval] refused for any
    other reason has the transaction rolled back and, when the rollback
    goes through, is raised again. *)
Theorem sync_forgives_a_missing_privilege
    (schema table id_column : pystr) (env : Env) (h : list entry) :
  ∃ new,
    (sync_identity_sequences schema table id_column env h).1 = h ++ new
    ∧ ∀ e x,
        e ∈ new → setval_call e ≠ None → refusal e = Some x →
        (x = DBAPIError (Some (py "42501")) →
         ∃ o, last new = Some (Called TxCommit o)
              ∧ (sync_identity_sequences schema table id_column env h).2 = o)
        ∧ (x ≠ DBAPIError (Some (py "42501")) →
           ∃ o, last new = Some (Called TxRollback o)
                ∧ (sync_identity_sequences schema table id_column env h).2
                  = match o with Ok _ => Raise x | Raise e' => Raise e' end).
Proof.
  destruct (sync_identity_sequences_run schema table id_column env h)
    as [[x ->]|(nb & rb & _ & H2 & ->)].
  { eexists [_]. split; [done|]. intros e x' Hin Hset.
    apply list_elem_of_singleton in Hin as ->. done. }
  cbv zeta.
  set (h1 := h ++ [Called EngineBegin (Ok ())] ++ nb).
  destruct rb as [[]|xb].
  - exists ([Called EngineBegin (Ok ())] ++ nb
            ++ [Called TxCommit (respond env () h1 TxCommit)]).
    split; [by unfold h1; rewrite <- !app_assoc|].
    intros e x Hin Hset Href.
    apply setval_call_inside in Hin; [|done..].
    destruct (H2 e x Hin Hset Href) as [_ Hother]. split.
    + intros _. eexists. split; [|done].
      by rewrite !app_assoc, last_snoc.
    + intros Hx. by specialize (Hother Hx).
  - exists ([Called EngineBegin (Ok ())] ++ nb
            ++ [Called TxRollback (respond env () h1 TxRollback)]).
    split; [by unfold h1; rewrite <- !app_assoc|].
    intros e x Hin Hset Href.
    apply setval_call_inside in Hin; [|done..].
    destruct (H2 e x Hin Hset Href) as [Hpriv Hother]. split.
    + intros Hx. by specialize (Hpriv Hx).
    + intros Hx. specialize (Hother Hx). injection Hother as ->.
      eexists. split; [|done]. by rewrite !app_assoc, last_snoc.
Qed.

Lemma sync_forgives_a_missing_privilege_witness :
  ∃ o,
    last (sync_identity_sequences (py "core") (py "productos") (py "id")
            Unprivileged.env []).1 = Some (Called TxCommit o)
    ∧ (sync_identity_sequences (py "core") (py "productos") (py "id")
         Unprivileged.env []).2 = o.
Proof.
  destruct (sync_forgives_a_missing_privilege (py "core") (py "productos")
              (py "id") Unprivileged.env []) as (new & Hnew & Hout).
  change ([] ++ new) with new in Hnew. rewrite Hnew.
  destruct (Hout
              (Called (Execute
                         (py "SELECT setval(CAST(:seq AS regclass), :v, true);")
                         [(py "seq", DText (py "core.productos_id_seq"));
                          (py "v", DInt 2)])
                 (Raise (DBAPIError (Some (py "42501")))))
              (DBAPIError (Some (py "42501")))) as [Hpriv _].
  - rewrite <- Hnew. vm_compute. do 4 right. left.
  - discriminate.
  - reflexivity.
  - exact (Hpriv eq_refl).
Defined.

(** ** What [_truncate_all_tables] truncates *)

Lemma call_Ok_inv {A} (r : req A) (env : Env) (h h' : list entry) (a : A) :
  call r env h = (h', Ok a) → h' = h ++ [Called r (Ok a)].
Proof. rewrite call_run. intros [= <- Ha]. by rewrite Ha. Qed.

Lemma ret_Ok_inv {A} (a b : A) (env : Env) (h h' : list entry) :
  (mret a : M A) env h = (h', Ok b) → h' = h ∧ b = a.
Proof. by intros [= <- <-]. Qed.

Lemma row_pairs_inv (rows : list (list dbval)) (acc : list (dbval * dbval))
    (env : Env) (h h' : list entry) (pairs : list (dbval * dbval)) :
  for_fold rows acc (λ acc r, p ← lift (row_pair r); mret (acc ++ [p])) env h
  = (h', Ok pairs) →
  h' = h ∧ ∃ new, pairs = acc ++ new
                  ∧ Forall2 (λ r t, row_pair r = Ok t) rows new.
Proof.
  revert acc h. induction rows as [|r rows IH]; intros acc h Hrun.
  - injection Hrun as <- <-. split; [done|]. exists [].
    by rewrite app_nil_r.
  - cbn [for_fold] in Hrun.
    apply bind_Ok_inv in Hrun as (acc1 & h1 & Hstep & Hrun).
    apply bind_Ok_inv in Hstep as (p & h2 & Hp & Hstep).
    apply lift_Ok_inv in Hp as [-> Hp]. injection Hstep as <- <-.
    apply IH in Hrun as (-> & new & -> & Hnew). split; [done|].
    exists (p :: new). rewrite <- app_assoc. split; [done|].
    by constructor.
Qed.

Lemma listed_tables_inv (schemas : list pystr)
    (acc : list (dbval * dbval)) (env : Env) (h h' : list entry)
    (tables : list (dbval * dbval)) :
  for_fold schemas acc (λ tables schema,
    rows ← call (Execute sql_base_tables [(py "schema", DText schema)]);
    pairs ← for_fold rows [] (λ acc r,
      p ← lift (row_pair r); mret (acc ++ [p]));
    mret (tables ++ pairs)) env h
  = (h', Ok tables) →
  ∃ answers new,
    length answers = length schemas
    ∧ Forall2 (λ r t, row_pair r = Ok t) (concat answers) new
    ∧ tables = acc ++ new
    ∧ h' = h ++ zip_with asked schemas answers.
Proof.
  revert acc h. induction schemas as [|schema schemas IH]; intros acc h Hrun.
  - injection Hrun as <- <-. exists [], []. by rewrite !app_nil_r.
  - cbn [for_fold] in Hrun.
    apply bind_Ok_inv in Hrun as (acc1 & h1 & Hstep & Hrun).
    apply bind_Ok_inv in Hstep as (rows & h2 & Hrows & Hstep).
    apply call_Ok_inv in Hrows as ->.
    apply bind_Ok_inv in Hstep as (pairs & h3 & Hpairs & Hstep).
    apply row_pairs_inv in Hpairs as (-> & new1 & -> & Hnew1).
    injection Hstep as <- <-.
    apply IH in Hrun as (answers & new2 & Hlen & Hnew2 & -> & ->).
    exists (rows :: answers), (new1 ++ new2). split_and!.
    + simpl. by rewrite Hlen.
    + simpl. by apply Forall2_app.
    + by rewrite <- !app_assoc.
    + by rewrite <- app_assoc.
Qed.

(** X24: a call of [_truncate_all_tables] that returns has truncated, in
    one statement of one committed transaction, exactly the tables that
    the catalogue listed for the schemas, in the order of the schemas and
    of the rows, and returns their number; when no table is listed it
    sends no TRUNCATE and returns 0. *)
Theorem truncate_all_tables_spec
    (schemas : list pystr) (env : Env) (h : list entry) (n : nat) :
  schemas ≠ [] →
  (_truncate_all_tables schemas env h).2 = Ok n →
  ∃ answers tables,
    length answers = length schemas
    ∧ Forall2 (λ r t, row_pair r = Ok t) (concat answers) tables
    ∧ n = length tables
    ∧ (_truncate_all_tables schemas env h).1
      = h ++ [Called EngineBegin (Ok tt)]
          ++ zip_with asked schemas answers
          ++ truncation tables
          ++ [Called TxCommit (Ok tt)].
Proof.
  intros Hne Hres.
  destruct (_truncate_all_tables schemas env h) as [h' r] eqn:Hrun.
  cbn [fst snd] in *. subst r. unfold _truncate_all_tables in Hrun.
  destruct schemas as [|s0 schemas]; [done|].
  apply with_begin_Ok_inv in Hrun as (h1 & Hbody & ->).
  apply bind_Ok_inv in Hbody as (tables & h2 & Hfold & Hbody).
  apply listed_tables_inv in Hfold as (answers & new & Hlen & Hnew & -> & ->).
  exists answers, new. split; [done|]. split; [done|].
  change ([] ++ new) with new in Hbody. destruct new as [|t new].
  - injection Hbody as <- <-. split; [done|].
    cbn [truncation]. rewrite <- !app_assoc. reflexivity.
  - cbv beta iota zeta in Hbody.
    apply bind_Ok_inv in Hbody as ([] & h3 & Hexec & Hbody).
    apply call_Ok_inv in Hexec as ->.
    apply ret_Ok_inv in Hbody as [-> ->]. split; [done|].
    cbn [truncation]. rewrite <- !app_assoc. reflexivity.
Qed.

Lemma truncate_all_tables_spec_witness :
  ∃ answers tables,
    length answers = 3
    ∧ Forall2 (λ r t, row_pair r = Ok t) (concat answers) tables
    ∧ 3 = length tables
    ∧ (_truncate_all_tables [py "core"; py "ingest"; py "audit"]
         Demo.env []).1
      = [] ++ [Called EngineBegin (Ok tt)]
          ++ zip_with asked [py "core"; py "ingest"; py "audit"] answers
          ++ truncation tables
          ++ [Called TxCommit (Ok tt)].
Proof.
  apply (truncate_all_tables_spec [py "core"; py "ingest"; py "audit"]
           Demo.env [] 3); [discriminate|].
  vm_compute. reflexivity.
Defined.

(** ** What [write_dataframe] writes *)

Lemma with_connect_run {A} (body : M A) (env : Env) (h : list entry) :
  with_connect body env h
  = match respond env () h EngineConnect with
    | Raise e => (h ++ [Called EngineConnect (Raise e)], Raise e)
    | Ok _ =>
        let '(h1, r) := body env (h ++ [Called EngineConnect (Ok ())]) in
        let c := respond env () h1 ConnectionClose in
        (h1 ++ [Called ConnectionClose c],
         match c with Ok _ => r | Raise x => Raise x end)
    end.
Proof.
  unfold with_connect. rewrite bind_run, call_run.
  destruct (respond env () h EngineConnect) as [[]|e]; [|done].
  destruct (body env (h ++ [Called EngineConnect (Ok ())])) as [h1 r] eqn:Hb.
  rewrite (finally_elim _ _ _ _ _ _ Hb), call_run.
  by destruct (respond env () h1 ConnectionClose) as [[]|x].
Qed.

Lemma table_exists_run (schema table : pystr) (env : Env) (h : list entry) :
  let q := Execute PgClient.sql_table_exists
             [(py "schema", DText schema); (py "table_name", DText table)] in
  PgClient.table_exists schema table env h
  = match respond env () h EngineConnect with
    | Raise e => (h ++ [Called EngineConnect (Raise e)], Raise e)
    | Ok _ =>
        let h0 := h ++ [Called EngineConnect (Ok ())] in
        let o := respond env _ h0 q in
        let h1 := h0 ++ [Called q o] in
        let c := respond env () h1 ConnectionClose in
        (h1 ++ [Called ConnectionClose c],
         match c with
         | Raise x => Raise x
         | Ok _ =>
             match o with
             | Raise x => Raise x
             | Ok rows =>
                 Ok (match scalar rows with DNull => false | _ => true end)
             end
         end)
    end.
Proof.
  intros q. unfold PgClient.table_exists, PgClient.read_scalar.
  rewrite bind_run, with_connect_run.
  destruct (respond env () h EngineConnect) as [[]|e]; [|done].
  rewrite bind_run, call_run. fold q. cbv zeta.
  destruct (respond env _ _ q) as [rows|x];
    cbv beta iota zeta delta [mret M_ret ret];
    by destruct (respond env () _ ConnectionClose) as [[]|x'].
Qed.

Lemma each_entry (Q : entry → Prop) (l : list entry) :
  Forall Q l → ∀ e, e ∈ l → Q e.
Proof. intros Hl e He. by eapply Forall_forall in Hl. Qed.

(** X25: [write_dataframe] writes only what it was given and only to a
    table it found: a bulk insert it issues carries the dataset with its
    labels stripped and the arguments of the call; a call that returns
    has checked the table, found it, and made one insert in one committed
    transaction, and nothing else; and when the check finds no table, no
    transaction is begun, nothing is written and RuntimeError is raised
    (or the error of closing the connection). *)
Theorem write_dataframe_spec
    (df : DataFrame) (table schema if_exists : pystr) (chunksize : Z)
    (index : bool) (method : option pystr) (env : Env) (h : list entry) :
  let run := PgClient.write_dataframe df table schema if_exists chunksize
               index method env h in
  let df2 := set_columns (strip <$> columns df) df in
  let check := Execute PgClient.sql_table_exists
                 [(py "schema", DText schema);
                  (py "table_name", DText table)] in
  ∃ new,
    run.1 = h ++ new
    ∧ (∀ e w, e ∈ new → write_call e = Some w →
         w = (df2, table, schema, if_exists, index, chunksize, method))
    ∧ (run.2 = Ok tt →
       ∃ rows,
         scalar rows ≠ DNull
         ∧ new = [Called EngineConnect (Ok tt); Called check (Ok rows);
                  Called ConnectionClose (Ok tt); Called EngineBegin (Ok tt);
                  Called (ToSql df2 table schema if_exists index chunksize
                            method) (Ok tt);
                  Called TxCommit (Ok tt)])
    ∧ (∀ e rows, e ∈ new → query_answer e = Some (Ok rows) →
         scalar rows = DNull →
         (∀ e', e' ∈ new → ¬ begins e' ∧ write_call e' = None)
         ∧ ∃ c, last new = Some (Called ConnectionClose c)
                ∧ run.2 = match c with
                          | Ok _ =>
                              Raise (RuntimeError
                                       (py "Target table not found")
                                       [schema; table])
                          | Raise x => Raise x
                          end).
Proof.
  intros run df2 check. subst run. unfold PgClient.write_dataframe.
  rewrite bind_run, table_exists_run. fold check. fold df2.
  destruct (respond env () h EngineConnect) as [[]|x0] eqn:Hconn.
  2:{ eexists [_]. split; [done|]. split_and!.
      - by intros e w ->%list_elem_of_singleton.
      - done.
      - by intros e rows ->%list_elem_of_singleton. }
  cbv zeta.
  set (h0 := h ++ [Called EngineConnect (Ok ())]).
  destruct (respond env _ h0 check) as [rows|x1] eqn:Hcheck.
  2:{ set (c := respond env () _ ConnectionClose).
      exists [Called EngineConnect (Ok ()); Called check (Raise x1);
              Called ConnectionClose c].
      split; [unfold h0; rewrite <- !app_assoc; by destruct c as [[]|]|].
      split_and!.
      - intros e w He. revert w. revert e He. refine (each_entry _ _ _).
        by repeat constructor.
      - by destruct c as [[]|].
      - intros e rows He. revert rows. revert e He. refine (each_entry _ _ _).
        by repeat constructor. }
  set (c := respond env () _ ConnectionClose).
  assert (c = Ok () ∧ scalar rows ≠ DNull
          ∨ (c ≠ Ok () ∨ scalar rows = DNull)) as [[Hc Hrows]|Hmiss].
  { destruct c as [[]|]; [|right; by left].
    destruct (scalar rows); [right; by right|left; done..]. }
  2:{ exists [Called EngineConnect (Ok ()); Called check (Ok rows);
              Called ConnectionClose c].
      assert ((match
                 match c with
                 | Ok _ =>
                     Ok match scalar rows with DNull => false | _ => true end
                 | Raise x => Raise x
                 end
               with
               | Ok a =>
                   (if negb a
                    then raise (RuntimeError (py "Target table not found")
                                  [schema; table])
                    else with_begin
                           (call (ToSql df2 table schema if_exists index
                                    chunksize method)))
                     env ((h0 ++ [Called check (Ok rows)])
                          ++ [Called ConnectionClose c])
               | Raise e =>
                   ((h0 ++ [Called check (Ok rows)])
                    ++ [Called ConnectionClose c], Raise e)
               end)
              = ((h0 ++ [Called check (Ok rows)])
                 ++ [Called ConnectionClose c],
                 match c with
                 | Ok _ => Raise (RuntimeError (py "Target table not found")
                                    [schema; table])
                 | Raise x => Raise x
                 end)) as ->.
      { destruct Hmiss as [Hc| ->]; destruct c as [[]|]; done. }
      split; [unfold h0; by rewrite <- !app_assoc|]. split_and!.
      - intros e w He. revert w. revert e He. refine (each_entry _ _ _).
        by repeat constructor.
      - by destruct c as [[]|].
      - intros e rows' He _ _. split.
        + refine (each_entry _ _ _). repeat constructor; by intros [].
        + by exists c. }
  rewrite Hc. cbv iota.
  assert (negb match scalar rows with DNull => false | _ => true end = false)
    as -> by (by destruct (scalar rows)).
  rewrite with_begin_run.
  set (h1 := (h0 ++ [Called check (Ok rows)]) ++ [Called ConnectionClose (Ok ())]).
  destruct (respond env () h1 EngineBegin) as [[]|xb] eqn:Hbegin.
  2:{ exists [Called EngineConnect (Ok ()); Called check (Ok rows);
              Called ConnectionClose (Ok ());
              Called EngineBegin (Raise xb)].
      split; [unfold h1, h0; by rewrite <- !app_assoc|]. split_and!.
      - intros e w He. revert w. revert e He. refine (each_entry _ _ _).
        by repeat constructor.
      - done.
      - intros e rows' He Hq Hs. exfalso. revert rows' Hq Hs. revert e He.
        refine (each_entry _ _ _). repeat constructor; try done.
        intros rows' [= <-] Hs. done. }
  cbv zeta. rewrite call_run.
  set (h2 := h1 ++ [Called EngineBegin (Ok ())]).
  set (o := respond env () h2 _).
  destruct o as [[]|xo] eqn:Ho.
  - set (c2 := respond env () _ TxCommit).
    exists [Called EngineConnect (Ok ()); Called check (Ok rows);
            Called ConnectionClose (Ok ()); Called EngineBegin (Ok ());
            Called (ToSql df2 table schema if_exists index chunksize method)
              (Ok ());
            Called TxCommit c2].
    split; [unfold h2, h1, h0; by rewrite <- !app_assoc|]. split_and!.
    + intros e w He. revert w. revert e He. refine (each_entry _ _ _).
      repeat (constructor; [first [done|by intros ? [= <-]]|]). constructor.
    + cbn [snd]. destruct c2 as [[]|]; [|done]. intros _. by exists rows.
    + intros e rows' He Hq Hs. exfalso. revert rows' Hq Hs. revert e He.
      refine (each_entry _ _ _). repeat constructor; try done.
      intros rows' [= <-] Hs. done.
  - set (c2 := respond env () _ TxRollback).
    exists [Called EngineConnect (Ok ()); Called check (Ok rows);
            Called ConnectionClose (Ok ()); Called EngineBegin (Ok ());
            Called (ToSql df2 table schema if_exists index chunksize method)
              (Raise xo);
            Called TxRollback c2].
    split; [unfold h2, h1, h0; by rewrite <- !app_assoc|]. split_and!.
    + intros e w He. revert w. revert e He. refine (each_entry _ _ _).
      repeat (constructor; [first [done|by intros ? [= <-]]|]). constructor.
    + cbn [snd]. by destruct c2 as [[]|].
    + intros e rows' He Hq Hs. exfalso. revert rows' Hq Hs. revert e He.
      refine (each_entry _ _ _). repeat constructor; try done.
      intros rows' [= <-] Hs. done.
Qed.

Lemma write_dataframe_spec_witness :
  (PgClient.write_dataframe Demo.productos (py "productos") (py "core")
     (py "append") 5000 false (Some (py "multi")) Bare.env []).2
  = Raise (RuntimeError (py "Target table not found")
             [py "core"; py "productos"]).
Proof.
  destruct (write_dataframe_spec Demo.productos (py "productos") (py "core")
              (py "append") 5000 false (Some (py "multi")) Bare.env [])
    as (new & Hnew & _ & _ & Hmiss).
  change ([] ++ new) with new in Hnew.
  destruct (Hmiss
              (Called (Execute PgClient.sql_table_exists
                         [(py "schema", DText (py "core"));
                          (py "table_name", DText (py "productos"))])
                 (Ok [])) []) as [_ (c & Hlast & Hres)].
  - rewrite <- Hnew. vm_compute. right. left.
  - reflexivity.
  - reflexivity.
  - rewrite Hres. rewrite <- Hnew in Hlast. vm_compute in Hlast.
    destruct c as [[]|x]; [done|].
    apply (f_equal (fmap refusal)) in Hlast. discriminate Hlast.
Defined.

(** ** The phases of a load *)

Lemma phase_after_app (ph : phase) (h1 h2 : list entry) :
  phase_after ph (h1 ++ h2)
  = match phase_after ph h1 with
    | Some ph' => phase_after ph' h2
    | None => None
    end.
Proof.
  revert ph. induction h1 as [|e h1 IH]; intros ph; [done|].
  cbn [app phase_after]. destruct (after_phase ph e); [apply IH|done].
Qed.

Lemma quiet_phase (ph : phase) (new : list entry) :
  Forall quiet new → phase_after ph new = Some ph.
Proof.
  induction 1 as [|e new He _ IH]; [done|].
  cbn [phase_after].
  assert (after_phase ph e = Some ph) as ->; [|done].
  destruct e as [A r o]. by destruct r.
Qed.

Lemma reaches_quiet {A} (ph : phase) (Q : phase → Prop) (m0 : M A) :
  adds quiet m0 → Q ph → reaches ph Q m0.
Proof.
  intros Hm HQ env h. destruct (Hm env h) as (new & E & Hq).
  exists new, ph. split; [done|]. split; [by apply quiet_phase|done].
Qed.

Lemma reaches_weaken {A} (ph : phase) (Q1 Q2 : phase → Prop) (m0 : M A) :
  (∀ ph', Q1 ph' → Q2 ph') → reaches ph Q1 m0 → reaches ph Q2 m0.
Proof.
  intros HQ Hm env h. destruct (Hm env h) as (new & ph' & E & Hs & Hq).
  exists new, ph'. auto.
Qed.

Lemma reaches_bind {A B} (ph : phase) (Q1 Q2 : phase → Prop) (m0 : M A)
    (k : A → M B) :
  reaches ph Q1 m0 → (∀ ph', Q1 ph' → Q2 ph') →
  (∀ a ph', Q1 ph' → reaches ph' Q2 (k a)) →
  reaches ph Q2 (m0 ≫= k).
Proof.
  intros Hm HQ Hk env h. rewrite bind_run.
  destruct (Hm env h) as (new1 & ph1 & E1 & S1 & HQ1).
  destruct (m0 env h) as [h1 [a|e]]; cbn [fst] in E1; subst h1.
  - destruct (Hk a ph1 HQ1 env (h ++ new1)) as (new2 & ph2 & E2 & S2 & HQ2).
    exists (new1 ++ new2), ph2. rewrite E2, app_assoc. split; [done|].
    by rewrite phase_after_app, S1.
  - exists new1, ph1. auto.
Qed.

Lemma reaches_catch {A} (ph : phase) (Q : phase → Prop) (m0 : M A) :
  reaches ph Q m0 → reaches ph Q (catch m0).
Proof.
  intros Hm env h. destruct (Hm env h) as (new & ph' & E & Hs).
  exists new, ph'. unfold catch. by destruct (m0 env h).
Qed.

Lemma reaches_for_fold {X St} (Q : phase → Prop) (l : list X) (s0 : St)
    (f : St → X → M St) (ph : phase) :
  (∀ ph', Q ph' → ∀ st x, reaches ph' Q (f st x)) → Q ph →
  reaches ph Q (for_fold l s0 f).
Proof.
  intros Hf. revert s0 ph. induction l as [|x l IH]; intros s0 ph HQ.
  - apply reaches_quiet; [apply adds_ret|done].
  - cbn [for_fold]. eapply reaches_bind; [by apply Hf|done|].
    intros st ph' HQ'. by apply IH.
Qed.

Lemma reaches_for_each {X} (Q : phase → Prop) (l : list X)
    (f : X → M unit) (ph : phase) :
  (∀ ph', Q ph' → ∀ x, reaches ph' Q (f x)) → Q ph →
  reaches ph Q (for_each l f).
Proof.
  intros Hf. revert ph. induction l as [|x l IH]; intros ph HQ.
  - apply reaches_quiet; [apply adds_ret|done].
  - cbn [for_each]. eapply reaches_bind; [by apply Hf|done|].
    intros _ ph' HQ'. by apply IH.
Qed.

Ltac quiet_calls := repeat mapped_step.

Lemma reaches_with_begin {A} (ph : phase) (Q : phase → Prop) (body : M A) :
  Q ph → reaches ph Q body → reaches ph Q (with_begin body).
Proof.
  intros HQ Hb. unfold with_begin.
  eapply (reaches_bind _ (eq ph));
    [apply reaches_quiet; [quiet_calls|done]|by intros ? <-|].
  intros _ ? <-.
  eapply (reaches_bind _ Q); [by apply reaches_catch|done|].
  intros r ph' HQ'. apply reaches_quiet; [|done].
  destruct r; quiet_calls.
Qed.

Lemma reaches_finally {A} (ph : phase) (Q : phase → Prop) (m0 : M A)
    (fin : M unit) :
  reaches ph Q m0 → adds quiet fin → reaches ph Q (finally m0 fin).
Proof.
  intros Hm Hfin. unfold finally.
  eapply (reaches_bind _ Q); [by apply reaches_catch|done|].
  intros r ph' HQ'. apply reaches_quiet; [|done].
  apply adds_bind; [done|]. intros _. apply adds_lift.
Qed.

Lemma table_exists_quiet (schema table : pystr) :
  adds quiet (PgClient.table_exists schema table).
Proof. unfold PgClient.table_exists, PgClient.read_scalar. quiet_calls. Qed.

Lemma get_table_columns_meta_quiet (schema table : pystr) :
  adds quiet (get_table_columns_meta schema table).
Proof. unfold get_table_columns_meta. quiet_calls. Qed.

Lemma exec_quiet (q : pystr) (params : list (pystr * dbval)) :
  adds quiet (PgClient.exec q params).
Proof. unfold PgClient.exec. quiet_calls. Qed.

Lemma exec_statement_quiet (escape fail_fast : bool)
    (ignore_sqlstates : gset pystr) (fname : pystr) (idx : nat)
    (st : SQLStmt) :
  adds quiet (exec_statement escape fail_fast ignore_sqlstates fname idx st).
Proof. unfold exec_statement. quiet_calls. Qed.

Lemma truncate_all_tables_quiet (schemas : list pystr) :
  adds quiet (_truncate_all_tables schemas).
Proof. unfold _truncate_all_tables. quiet_calls. Qed.

Lemma sync_identity_sequences_quiet (schema table id_column : pystr) :
  adds quiet (sync_identity_sequences schema table id_column).
Proof. unfold sync_identity_sequences, int_of_dbval. quiet_calls. Qed.

Lemma validate_and_align_quiet (df : DataFrame) (schema table : pystr)
    (drop : bool) :
  adds quiet (_validate_and_align_df df schema table drop).
Proof.
  unfold _validate_and_align_df.
  apply adds_bind; [apply get_table_columns_meta_quiet|]. intros meta.
  quiet_calls.
Qed.

Lemma write_dataframe_reaches (df : DataFrame)
    (table schema if_exists : pystr) (chunksize : Z) (index : bool)
    (method : option pystr) (ph : phase) :
  ph ≠ Finish →
  reaches ph (λ ph', ph' ≠ Finish)
    (PgClient.write_dataframe df table schema if_exists chunksize index
       method).
Proof.
  intros Hph. unfold PgClient.write_dataframe.
  eapply (reaches_bind _ (eq ph));
    [apply reaches_quiet; [apply table_exists_quiet|done]|by intros ? <-|].
  intros ex ? <-. destruct (negb ex).
  { apply reaches_quiet; [apply adds_raise|done]. }
  apply reaches_with_begin; [done|].
  intros env h. eexists [_], Data. split; [done|]. split; [|done].
  cbn [phase_after after_phase]. by destruct ph.
Qed.

Lemma load_one_reaches (a : load_args) (table df_key : pystr) (st : loaded)
    (ph : phase) :
  ph ≠ Finish →
  reaches ph (λ ph', ph' ≠ Finish) (_load_one a table df_key st).
Proof.
  intros Hph. unfold _load_one.
  destruct (od_get df_key (dict_df a)) as [[df|]|];
    [|apply reaches_quiet; [apply adds_raise|done]
     |apply reaches_quiet; [apply adds_ret|done]].
  destruct (df_empty df); [apply reaches_quiet; [apply adds_ret|done]|].
  eapply (reaches_bind _ (eq ph));
    [apply reaches_quiet; [apply table_exists_quiet|done]|by intros ? <-|].
  intros ex ? <-. destruct (negb ex).
  { apply reaches_quiet; [quiet_calls|done]. }
  eapply (reaches_bind _ (eq ph));
    [apply reaches_quiet; [apply validate_and_align_quiet|done]
    |by intros ? <-|].
  intros df2 ? <-.
  eapply (reaches_bind _ (eq ph));
    [apply reaches_quiet; [quiet_calls|done]|by intros ? <-|].
  intros _ ? <-.
  eapply (reaches_bind _ (λ ph', ph' ≠ Finish));
    [by apply write_dataframe_reaches|done|].
  intros _ ph' Hph'. apply reaches_quiet; [apply adds_ret|done].
Qed.

Lemma fallback_one_reaches (a : load_args) (st : loaded) (df_key : pystr)
    (ph : phase) :
  ph ≠ Finish →
  reaches ph (λ ph', ph' ≠ Finish) (fallback_one a st df_key).
Proof.
  intros Hph. unfold fallback_one.
  destruct (bool_decide (df_key ∈ loaded_keys st));
    [apply reaches_quiet; [apply adds_ret|done]|].
  destruct (negb (truthy (strip df_key)));
    [apply reaches_quiet; [apply adds_ret|done]|].
  destruct (split_dot (strip df_key)) as [[sch tbl]|].
  - destruct (truthy sch && truthy tbl);
      [|apply reaches_quiet; [apply adds_ret|done]].
    eapply (reaches_bind _ (eq ph));
      [apply reaches_quiet; [apply table_exists_quiet|done]|by intros ? <-|].
    intros [] ? <-; [by apply load_one_reaches|].
    apply reaches_quiet; [apply adds_ret|done].
  - eapply (reaches_bind _ (eq ph));
      [apply reaches_quiet; [apply table_exists_quiet|done]|by intros ? <-|].
    intros [] ? <-; [by apply load_one_reaches|].
    apply reaches_quiet; [apply adds_ret|done].
Qed.

Lemma run_sql_files_reaches (engine : Engine) (dir : Path)
    (ddl_files : list pystr) (fail_fast : bool)
    (ignore_sqlstates : gset pystr) (Q : phase → Prop) (ph : phase) :
  (∀ fname ph' o, fname ∈ ddl_files → Q ph' →
     ∃ ph'', after_phase ph' (Called (ReadText (path_join dir fname)) o)
             = Some ph'' ∧ Q ph'') →
  Q ph →
  reaches ph Q (run_sql_files engine dir ddl_files fail_fast ignore_sqlstates).
Proof.
  intros Hread HQ. unfold run_sql_files.
  eapply (reaches_bind _ (eq ph));
    [apply reaches_quiet; [apply adds_ask|done]|by intros ? <-|].
  intros env ? <-.
  eapply (reaches_bind _ (eq ph));
    [apply reaches_quiet; [quiet_calls|done]|by intros ? <-|].
  intros ex ? <-. destruct (negb ex).
  { apply reaches_quiet; [apply adds_raise|done]. }
  revert ph HQ. induction ddl_files as [|fname files IH]; intros ph HQ.
  { apply reaches_quiet; [apply adds_ret|done]. }
  cbn [for_each]. eapply (reaches_bind _ Q); [|done|].
  2:{ intros _ ph' HQ'. apply IH; [|done].
      intros f ph'' o Hf. apply Hread. by right. }
  cbv beta zeta.
  eapply (reaches_bind _ (eq ph));
    [apply reaches_quiet; [quiet_calls|done]|by intros ? <-|].
  intros ex' ? <-. destruct (negb ex').
  { apply reaches_quiet; [apply adds_raise|done]. }
  eapply (reaches_bind _ Q); [|done|].
  { intros env' h. rewrite call_run.
    destruct (Hread fname ph (respond env' _ h (ReadText (path_join dir fname))))
      as (ph'' & Hafter & HQ''); [by left|done|].
    eexists [_], ph''. split; [done|]. split; [|done].
    cbn [phase_after]. by rewrite Hafter. }
  intros text ph' HQ'. apply reaches_quiet; [|done].
  destruct (_split_sql_statements (env_isalnum env) text); [quiet_calls|].
  apply adds_bind; [quiet_calls|]. intros _.
  apply with_begin_adds; [intros ?; exact I..|].
  apply adds_for_each. intros [idx st]. apply exec_statement_quiet.
Qed.

Lemma pre_ddl_read (dir : Path) (fname : pystr) (o : result pystr) :
  fname ∈ DEFAULT_PRE_DDL_FILES →
  after_phase Schema (Called (ReadText (path_join dir fname)) o)
  = Some Schema.
Proof.
  intros Hin. cbn [after_phase]. unfold path_name, path_join.
  rewrite last_snoc. cbn [default]. by rewrite bool_decide_eq_true_2.
Qed.

Lemma post_ddl_read (dir : Path) (fname : pystr) (o : result pystr)
    (ph : phase) :
  fname ∈ DEFAULT_POST_DDL_FILES →
  after_phase ph (Called (ReadText (path_join dir fname)) o) = Some Finish.
Proof.
  intros Hin. cbn [after_phase]. unfold path_name, path_join.
  rewrite last_snoc. cbn [default].
  rewrite bool_decide_eq_false_2, bool_decide_eq_true_2; [done|done|].
  intros Hpre. revert Hin. unfold DEFAULT_POST_DDL_FILES.
  rewrite !elem_of_cons, elem_of_nil.
  intros [->|[->|[->|[->|[]]]]];
    apply (bool_decide_pack _) in Hpre; vm_compute in Hpre; exact Hpre.
Qed.

(** X26: [load] keeps the schema scripts around the data: it reads the
    scripts 01 to 03 only before its first bulk insert and the scripts
    04 to 07 only after its last one, and reads no other file, whatever
    the file system and the database answer. *)
Theorem load_keeps_the_phases (a : load_args) (env : Env) (h : list entry) :
  ∃ new ph,
    (load a env h).1 = h ++ new ∧ phase_after Schema new = Some ph.
Proof.
  assert (reaches Schema (λ _, True) (load a)) as Hload.
  2:{ destruct (Hload env h) as (new & ph & E & Hph & _). by exists new, ph. }
  unfold load.
  eapply (reaches_bind _ (eq Schema)); [|done|].
  { apply reaches_quiet; [|done].
    destruct (dsn a); [apply adds_ret|]. unfold or_else. quiet_calls. }
  intros [[|c dsn_v]|] ? <-;
    [apply reaches_quiet; [apply adds_raise|done]|
    |apply reaches_quiet; [apply adds_raise|done]].
  eapply (reaches_bind _ (eq Schema)); [|done|].
  { apply reaches_quiet; [|done].
    destruct (sql_dir a); [apply adds_ret|]. unfold _default_sql_dir.
    quiet_calls. }
  intros sql_dir_path ? <-. unfold PgClient.with_client.
  eapply (reaches_bind _ (eq Schema));
    [apply reaches_quiet; [quiet_calls|done]|done|].
  intros [engine|e] ? <-; [|apply reaches_quiet; [quiet_calls|done]].
  apply reaches_finally; [|quiet_calls].
  eapply (reaches_bind _ (eq Schema)); [|done|].
  { apply reaches_quiet; [|done]. destruct (echo_sql a); quiet_calls. }
  intros _ ? <-.
  eapply (reaches_bind _ (eq Schema)); [|done|].
  { apply reaches_quiet; [|done]. destruct (load_mode a).
    - apply adds_bind; [|intros _; apply adds_ret].
      apply adds_for_each. intros sch0.
      apply adds_bind; [quiet_calls|]. intros _. apply exec_quiet.
    - apply adds_bind.
      { apply adds_for_each. intros sch0. apply exec_quiet. }
      intros _. apply adds_bind; [apply truncate_all_tables_quiet|].
      intros [|k]; quiet_calls.
    - apply adds_raise. }
  intros ddl_needed ? <-.
  eapply (reaches_bind _ (eq Schema)); [|done|].
  { destruct ddl_needed; [|apply reaches_quiet; [apply adds_ret|done]].
    apply run_sql_files_reaches; [|done].
    intros fname ph' o Hin <-. exists Schema. split; [|done].
    by apply pre_ddl_read. }
  intros _ ? <-.
  destruct (ddl_only a); [apply reaches_quiet; [quiet_calls|done]|].
  eapply (reaches_bind _ (eq Schema));
    [apply reaches_quiet; [apply adds_lift|done]|done|].
  intros plan ? <-.
  eapply (reaches_bind _ (λ ph', ph' ≠ Finish)); [|done|].
  { apply reaches_for_fold; [|done].
    intros ph' Hph' st spec. by apply load_one_reaches. }
  intros st ph1 Hph1.
  eapply (reaches_bind _ (λ ph', ph' ≠ Finish)); [|done|].
  { apply reaches_for_fold; [|done].
    intros ph' Hph' st' df_key. by apply fallback_one_reaches. }
  intros st2 ph2 Hph2.
  eapply (reaches_bind _ (eq ph2)); [|done|].
  { apply reaches_quiet; [|done].
    apply adds_for_each. intros [schema table].
    apply adds_bind.
    { apply adds_catch. apply sync_identity_sequences_quiet. }
    intros [[]|e]; [apply adds_ret|].
    destruct (is_Exception e); quiet_calls. }
  intros _ ? <-.
  eapply (reaches_bind _ (λ _, True)); [|done|].
  { destruct ddl_needed; [|apply reaches_quiet; [apply adds_ret|done]].
    apply run_sql_files_reaches; [|done].
    intros fname ph' o Hin _. exists Finish. split; [|done].
    by apply post_ddl_read. }
  intros _ ph3 _. apply reaches_quiet; [|done].
  apply adds_bind; [|intros _; apply adds_ret].
  destruct (analyze a); quiet_calls.
Qed.
